(** * Minesweeper AI: knowledge statements, subset-search strategies and the
    propagation engine, embedded from the Python sources

    - [KS]      : MainFiles/knowledge_statement.py
    - [Stat]    : MainFiles/stat_generator.py
    - [Search]  : MainFiles/subset_search_algorithms.py
    - [SafeCell]: MainFiles/safe_cell_data_structures.py
    - [AI]      : MainFiles/minesweeper_ai.py
    - [Game]    : MainFiles/minesweeper_game.py (the rules, not the screen)
    - [Runner]  : minesweeper_runner.py, [process_move]
    - [Turn]    : minesweeper_runner.py, the AI's turn in [execute]

    Python integers are unbounded, so they are [Z].  A cell is a pair of
    integers; a Python [set] of cells is a [gset Cell].  KnowledgeStatement
    objects are mutable and shared between the knowledge base, the
    [inferred_set] of [add_knowledge] and the lists returned by the search
    strategies, so they live in an explicit object store ([heap]) and the
    containers hold references ([loc]). *)

From stdpp Require Import gmap strings list fin_sets sorting.
From Stdlib Require Import ZArith Lia.

Local Open Scope Z_scope.
Set Warnings "-clear-no-such-hyp".

Abbreviation Cell := (Z * Z)%type.

(* ===================================================================== *)
(** ** knowledge_statement.py *)
(* ===================================================================== *)
Module KS.

(** The two fields of a [KnowledgeStatement] object. *)
Record KnowledgeStatement : Type := mk {
  cell_positions : gset Cell;
  mine_count : Z
}.

(** [__eq__]: same cell set and same count, that is Leibniz equality of
    the record ([gset] is extensional). *)
#[global] Instance KnowledgeStatement_eq_dec : EqDecision KnowledgeStatement.
Proof. solve_decision. Defined.

#[global] Instance KnowledgeStatement_inhabited : Inhabited KnowledgeStatement :=
  populate (mk ∅ 0).

(** [len(self.cell_positions)] *)
Definition len (s : KnowledgeStatement) : Z := Z.of_nat (size (cell_positions s)).

(** [__lt__]: tuple comparison
    [(len(self.cell_positions), self.mine_count) < (len(other...), other.mine_count)]. *)
Definition lt (s other : KnowledgeStatement) : bool :=
  (len s <? len other) || ((len s =? len other) && (mine_count s <? mine_count other)).

Definition known_mines (s : KnowledgeStatement) : gset Cell :=
  if len s =? mine_count s then cell_positions s else ∅.

Definition known_safes (s : KnowledgeStatement) : gset Cell :=
  if mine_count s =? 0 then cell_positions s else ∅.

(** In-place update of the object; the new field values are returned. *)
Definition mark_cell_as_mine (cell : Cell) (s : KnowledgeStatement) : KnowledgeStatement :=
  if decide (cell ∈ cell_positions s)
  then mk (cell_positions s ∖ {[cell]}) (mine_count s - 1)
  else s.

Definition mark_cell_as_safe (cell : Cell) (s : KnowledgeStatement) : KnowledgeStatement :=
  if decide (cell ∈ cell_positions s)
  then mk (cell_positions s ∖ {[cell]}) (mine_count s)
  else s.

Definition get_mine_count (s : KnowledgeStatement) : Z := mine_count s.
Definition get_cell_positions (s : KnowledgeStatement) : gset Cell := cell_positions s.

(** [if statement.get_cell_positions():] -- truthiness of a set. *)
Definition nonempty (s : KnowledgeStatement) : bool :=
  bool_decide (cell_positions s ≠ ∅).

End KS.
Export KS(KnowledgeStatement).

(* ===================================================================== *)
(** ** stat_generator.py *)
(* ===================================================================== *)
Module Stat.

Record StatGenerator : Type := mk {
  grid_size : Z;
  knowledge_base_total_size : Z;
  knowledge_base_max_size : Z;
  knowledge_base_count : Z;
  inferences_total : Z;
  inferences_max : Z;
  subset_comparisons_total : Z;
  subset_comparisons_max : Z;
  subset_comparisons_count : Z;
  iterations_total : Z;
  iterations_max : Z;
  iterations_count : Z;
  duplicate_inferences_total : Z
}.

Definition init (grid_size : Z) : StatGenerator :=
  mk grid_size 0 0 0 0 0 0 0 0 0 0 0 0.

Definition reset_current_stats (g : StatGenerator) : StatGenerator :=
  mk (grid_size g) (knowledge_base_total_size g) (knowledge_base_max_size g)
     (knowledge_base_count g + 1) (inferences_total g) (inferences_max g)
     (subset_comparisons_total g) (subset_comparisons_max g) (subset_comparisons_count g)
     (iterations_total g) (iterations_max g) (iterations_count g)
     (duplicate_inferences_total g).

Definition update_knowledge_base_size (size : Z) (g : StatGenerator) : StatGenerator :=
  mk (grid_size g) (knowledge_base_total_size g + size)
     (if knowledge_base_max_size g <? size then size else knowledge_base_max_size g)
     (knowledge_base_count g) (inferences_total g) (inferences_max g)
     (subset_comparisons_total g) (subset_comparisons_max g) (subset_comparisons_count g)
     (iterations_total g) (iterations_max g) (iterations_count g)
     (duplicate_inferences_total g).

Definition update_inferences (inferences : Z) (g : StatGenerator) : StatGenerator :=
  mk (grid_size g) (knowledge_base_total_size g) (knowledge_base_max_size g)
     (knowledge_base_count g) (inferences_total g + inferences)
     (if inferences_max g <? inferences then inferences else inferences_max g)
     (subset_comparisons_total g) (subset_comparisons_max g) (subset_comparisons_count g)
     (iterations_total g) (iterations_max g) (iterations_count g)
     (duplicate_inferences_total g).

Definition update_total_subset_comparisons (comparisons : Z) (g : StatGenerator) : StatGenerator :=
  mk (grid_size g) (knowledge_base_total_size g) (knowledge_base_max_size g)
     (knowledge_base_count g) (inferences_total g) (inferences_max g)
     (subset_comparisons_total g + comparisons) (subset_comparisons_max g)
     (subset_comparisons_count g + 1)
     (iterations_total g) (iterations_max g) (iterations_count g)
     (duplicate_inferences_total g).

Definition update_subset_comparisons (comparisons : Z) (g : StatGenerator) : StatGenerator :=
  update_total_subset_comparisons comparisons
    (mk (grid_size g) (knowledge_base_total_size g) (knowledge_base_max_size g)
        (knowledge_base_count g) (inferences_total g) (inferences_max g)
        (subset_comparisons_total g)
        (if subset_comparisons_max g <? comparisons then comparisons
         else subset_comparisons_max g)
        (subset_comparisons_count g)
        (iterations_total g) (iterations_max g) (iterations_count g)
        (duplicate_inferences_total g)).

Definition update_iterations (iterations : Z) (g : StatGenerator) : StatGenerator :=
  mk (grid_size g) (knowledge_base_total_size g) (knowledge_base_max_size g)
     (knowledge_base_count g) (inferences_total g) (inferences_max g)
     (subset_comparisons_total g) (subset_comparisons_max g) (subset_comparisons_count g)
     (iterations_total g + iterations)
     (if iterations_max g <? iterations then iterations else iterations_max g)
     (iterations_count g + 1)
     (duplicate_inferences_total g).

Definition update_duplicate_inferences (duplicates : Z) (g : StatGenerator) : StatGenerator :=
  mk (grid_size g) (knowledge_base_total_size g) (knowledge_base_max_size g)
     (knowledge_base_count g) (inferences_total g) (inferences_max g)
     (subset_comparisons_total g) (subset_comparisons_max g) (subset_comparisons_count g)
     (iterations_total g) (iterations_max g) (iterations_count g)
     (duplicate_inferences_total g + duplicates).

End Stat.
Export Stat(StatGenerator).

(* ===================================================================== *)
(** ** The object store *)
(* ===================================================================== *)

(** A reference to a KnowledgeStatement object is its index in the store;
    objects are never freed, a constructor call appends one. *)
Abbreviation loc := nat.
Abbreviation heap := (list KnowledgeStatement).

Definition deref (h : heap) (l : loc) : KnowledgeStatement := h !!! l.

(** [KnowledgeStatement(cells, count)]: a fresh object.  The constructor
    copies the cell set ([set(cell_positions)]), so the new object shares
    nothing with its arguments. *)
Definition new_statement (h : heap) (cells : gset Cell) (count : Z) : heap * loc :=
  (h ++ [KS.mk cells count], length h).

(** [x in lst] / [x not in lst] on a Python list of statements: a linear
    scan with [__eq__]. *)
Definition list_contains (h : heap) (lst : list loc) (x : loc) : bool :=
  existsb (λ l, bool_decide (deref h l = deref h x)) lst.

(** [sorted(lst)] is a stable sort that only calls [<]; a stable insertion
    sort computes the same list.  [lt] is the comparison Python performs
    (on the elements, or on their keys when [key=] is given). *)
Fixpoint insert_sorted {A} (lt : A → A → bool) (x : A) (l : list A) : list A :=
  match l with
  | [] => [x]
  | y :: l' => if lt y x then y :: insert_sorted lt x l' else x :: y :: l'
  end.

Definition sorted {A} (lt : A → A → bool) (l : list A) : list A :=
  foldr (insert_sorted lt) [] l.

(** [sorted(lst, reverse=True)]: descending, equal elements keep their
    original order (CPython reverses, sorts and reverses again). *)
Definition sorted_reverse {A} (lt : A → A → bool) (l : list A) : list A :=
  rev (sorted lt (rev l)).

(** [for i, x in enumerate(l): for y in l[i + 1:]: body] where [body] does
    not rebind [l]. *)
Fixpoint for_pairs {S A} (body : A → A → S → S) (l : list A) (st : S) : S :=
  match l with
  | [] => st
  | x :: rest => for_pairs body rest (foldl (λ st y, body x y st) st rest)
  end.

(* ===================================================================== *)
(** ** subset_search_algorithms.py *)
(* ===================================================================== *)
Module Search.

(** What a strategy leaves behind: the object store (new objects are
    allocated), the list object it was handed as [knowledge_base] (Python
    passes the list by reference, so an [append] inside the strategy is seen
    by the caller), the statistics, and the returned list. *)
Record result : Type := mk_result {
  r_heap : heap;
  r_knowledge_base : list loc;
  r_stats : StatGenerator;
  r_inferred : list loc
}.

Definition cells (h : heap) (l : loc) : gset Cell := KS.get_cell_positions (deref h l).
Definition count (h : heap) (l : loc) : Z := KS.get_mine_count (deref h l).
Definition issubset (a b : gset Cell) : bool := bool_decide (a ⊆ b).
Definition size_of (h : heap) (l : loc) : Z := Z.of_nat (size (cells h l)).

(** The last two lines of every strategy. *)
Definition report (stats : StatGenerator) (comparisons inferences : Z) : StatGenerator :=
  Stat.update_inferences inferences (Stat.update_subset_comparisons comparisons stats).

(** *** brute_force_search *)

(** Loop state: store, [inferred_statements], [subset_comparisons].
    [inferred_statements_set] holds exactly the objects of
    [inferred_statements], none of which is ever mutated, so its membership
    test is the test on the list. *)
Definition bf_body (statement other_statement : loc)
    (st : heap * list loc * Z) : heap * list loc * Z :=
  let '(h, inferred_statements, subset_comparisons) := st in
  let subset_comparisons := subset_comparisons + 1 in
  if issubset (cells h statement) (cells h other_statement) then
    let inferred_cells := cells h other_statement ∖ cells h statement in
    let inferred_count := count h other_statement - count h statement in
    let '(h', new_inferred_statement) := new_statement h inferred_cells inferred_count in
    if negb (list_contains h' inferred_statements new_inferred_statement)
    then (h', inferred_statements ++ [new_inferred_statement], subset_comparisons)
    else (h', inferred_statements, subset_comparisons)
  else (h, inferred_statements, subset_comparisons).

Definition brute_force_search (stats : StatGenerator) (h : heap)
    (knowledge_base : list loc) (subset_comparisons : Z) : result :=
  let '(h', inferred_statements, subset_comparisons) :=
    foldl (λ st statement,
             foldl (λ st other_statement, bf_body statement other_statement st)
                   st knowledge_base)
          (h, [], subset_comparisons) knowledge_base in
  mk_result h' knowledge_base
    (report stats subset_comparisons (Z.of_nat (length inferred_statements)))
    inferred_statements.

(** *** divide_and_conquer_search *)

Definition dc_body (left_statement right_statement : loc)
    (st : heap * list loc * Z * Z) : heap * list loc * Z * Z :=
  let '(h, merge_statements, merge_comparisons, merge_inferences) := st in
  let merge_comparisons := merge_comparisons + 1 in
  if issubset (cells h left_statement) (cells h right_statement) then
    let inferred_cells := cells h right_statement ∖ cells h left_statement in
    let inferred_count := count h right_statement - count h left_statement in
    let '(h', new_inferred_statement) := new_statement h inferred_cells inferred_count in
    if negb (list_contains h' merge_statements new_inferred_statement)
    then (h', merge_statements ++ [new_inferred_statement], merge_comparisons,
          merge_inferences + 1)
    else (h', merge_statements, merge_comparisons, merge_inferences)
  else (h, merge_statements, merge_comparisons, merge_inferences).

(** The nested recursive function; its recursion is on the width of the
    index range, so it takes fuel ([None]: fuel exhausted). [//] is floor
    division. *)
Fixpoint divide_and_conquer (fuel : nat) (h : heap) (a_knowledge_base : list loc)
    (start end_ : Z) : option (heap * list loc * Z * Z) :=
  match fuel with
  | O => None
  | S fuel' =>
    if start >? end_ then Some (h, [], 0, 0)
    else if start =? end_ then Some (h, [a_knowledge_base !!! Z.to_nat start], 0, 0)
    else
      let mid := (start + end_) `div` 2 in
      match divide_and_conquer fuel' h a_knowledge_base start mid with
      | None => None
      | Some (h1, left_inferred, left_comparisons, left_inferences) =>
        match divide_and_conquer fuel' h1 a_knowledge_base (mid + 1) end_ with
        | None => None
        | Some (h2, right_inferred, right_comparisons, right_inferences) =>
          Some (foldl (λ st left_statement,
                         foldl (λ st right_statement,
                                  dc_body left_statement right_statement st)
                               st right_inferred)
                      (h2, left_inferred ++ right_inferred,
                       left_comparisons + right_comparisons,
                       left_inferences + right_inferences)
                      left_inferred)
        end
      end
  end.

Definition divide_and_conquer_search (fuel : nat) (stats : StatGenerator) (h : heap)
    (knowledge_base : list loc) (subset_comparisons : Z) : option result :=
  match knowledge_base with
  | [] => Some (mk_result h knowledge_base stats [])
  | _ =>
    match divide_and_conquer fuel h knowledge_base 0 (Z.of_nat (length knowledge_base) - 1) with
    | None => None
    | Some (h', inferred_statements, total_comparisons, total_inferences) =>
      Some (mk_result h' knowledge_base
              (report stats total_comparisons total_inferences) inferred_statements)
    end
  end.

(** *** dynamic_programming_search *)

(** [dp_cache] is a set of pairs of statements; the statements are not
    mutated while the strategy runs, so the pairs are kept by value. *)
Definition dp_body (statement other_statement : loc)
    (st : heap * list loc * list (KnowledgeStatement * KnowledgeStatement) * Z)
    : heap * list loc * list (KnowledgeStatement * KnowledgeStatement) * Z :=
  let '(h, inferred_statements, dp_cache, subset_comparisons) := st in
  let key := (deref h statement, deref h other_statement) in
  if bool_decide (key ∈ dp_cache) then st
  else
    let subset_comparisons := subset_comparisons + 1 in
    if issubset (cells h statement) (cells h other_statement) then
      let inferred_cells := cells h other_statement ∖ cells h statement in
      let inferred_count := count h other_statement - count h statement in
      if (inferred_count <? 0) || bool_decide (inferred_cells = ∅)
      then (h, inferred_statements, dp_cache, subset_comparisons)
      else
        let '(h', new_inferred_statement) := new_statement h inferred_cells inferred_count in
        let dp_cache := dp_cache ++ [key] in
        if negb (list_contains h' inferred_statements new_inferred_statement) then
          (h', inferred_statements ++ [new_inferred_statement],
           (if 1 <? Z.of_nat (size inferred_cells)
            then dp_cache ++ [(deref h' new_inferred_statement, deref h' statement)]
            else dp_cache),
           subset_comparisons)
        else (h', inferred_statements, dp_cache, subset_comparisons)
    else (h, inferred_statements, dp_cache, subset_comparisons).

Definition dynamic_programming_search (stats : StatGenerator) (h : heap)
    (knowledge_base : list loc) (subset_comparisons : Z) : result :=
  let sorted_knowledge_base :=
    sorted (λ a b, KS.lt (deref h a) (deref h b)) knowledge_base in
  let '(h', inferred_statements, _, subset_comparisons) :=
    for_pairs dp_body sorted_knowledge_base (h, [], [], subset_comparisons) in
  mk_result h' knowledge_base
    (report stats subset_comparisons (Z.of_nat (length inferred_statements)))
    inferred_statements.

(** *** greedy_algorithm_size_search *)

(** The inner [for] with its [break].  State: store, [knowledge_base] (the
    caller's list, appended to in place), [inferred_statements] (a set of
    fresh objects, kept in insertion order), [subset_comparisons]. *)
Fixpoint gs_inner (current_statement : loc) (nexts : list loc)
    (st : heap * list loc * list loc * Z) : heap * list loc * list loc * Z :=
  match nexts with
  | [] => st
  | next_statement :: rest =>
    let '(h, knowledge_base, inferred_statements, subset_comparisons) := st in
    let subset_comparisons := subset_comparisons + 1 in
    if size_of h current_statement <=? size_of h next_statement
    then (h, knowledge_base, inferred_statements, subset_comparisons)
    else if issubset (cells h next_statement) (cells h current_statement) then
      let inferred_cells := cells h current_statement ∖ cells h next_statement in
      let inferred_count := count h current_statement - count h next_statement in
      let '(h', new_inferred_statement) := new_statement h inferred_cells inferred_count in
      if negb (list_contains h' inferred_statements new_inferred_statement)
      then gs_inner current_statement rest
             (h', knowledge_base ++ [new_inferred_statement],
              inferred_statements ++ [new_inferred_statement], subset_comparisons)
      else gs_inner current_statement rest
             (h', knowledge_base, inferred_statements, subset_comparisons)
    else gs_inner current_statement rest
           (h, knowledge_base, inferred_statements, subset_comparisons)
  end.

Definition by_size (h : heap) (l : list loc) : list loc :=
  sorted (λ a b, size_of h a <? size_of h b) l.

(** One step of the outer loop: [enumerate] walks the list that was sorted
    first, the slice is taken from the list [sorted_knowledge_base] is bound
    to now, and the name is rebound at the end of the step. *)
Definition gs_outer (st : heap * list loc * list loc * Z * list loc)
    (ic : nat * loc) : heap * list loc * list loc * Z * list loc :=
  let '(h, knowledge_base, inferred_statements, subset_comparisons,
        sorted_knowledge_base) := st in
  let '(h', knowledge_base, inferred_statements, subset_comparisons) :=
    gs_inner ic.2 (drop (S ic.1) sorted_knowledge_base)
             (h, knowledge_base, inferred_statements, subset_comparisons) in
  (h', knowledge_base, inferred_statements, subset_comparisons,
   by_size h' knowledge_base).

Definition greedy_algorithm_size_search (stats : StatGenerator) (h : heap)
    (knowledge_base : list loc) (subset_comparisons : Z) : result :=
  let sorted_knowledge_base := by_size h knowledge_base in
  let '(h', knowledge_base, inferred_statements, subset_comparisons, _) :=
    foldl gs_outer (h, knowledge_base, [], subset_comparisons, sorted_knowledge_base)
          (imap pair sorted_knowledge_base) in
  mk_result h' knowledge_base
    (report stats subset_comparisons (Z.of_nat (length inferred_statements)))
    inferred_statements.

(** *** greedy_algorithm_minecount_search *)

Fixpoint gm_inner (current_statement : loc) (nexts : list loc)
    (st : heap * list loc * Z) : heap * list loc * Z :=
  match nexts with
  | [] => st
  | next_statement :: rest =>
    let '(h, inferred_statements, subset_comparisons) := st in
    let subset_comparisons := subset_comparisons + 1 in
    if issubset (cells h next_statement) (cells h current_statement) then
      let inferred_cells := cells h current_statement ∖ cells h next_statement in
      let inferred_count := count h current_statement - count h next_statement in
      let '(h', new_inferred_statement) := new_statement h inferred_cells inferred_count in
      if negb (list_contains h' inferred_statements new_inferred_statement)
      then gm_inner current_statement rest
             (h', inferred_statements ++ [new_inferred_statement], subset_comparisons)
      else gm_inner current_statement rest (h', inferred_statements, subset_comparisons)
    else (h, inferred_statements, subset_comparisons)
  end.

Fixpoint gm_outer (l : list loc) (st : heap * list loc * Z) : heap * list loc * Z :=
  match l with
  | [] => st
  | current_statement :: rest => gm_outer rest (gm_inner current_statement rest st)
  end.

(** [sorted(knowledge_base, reverse=True)]: no [key], so the order is the
    one of [KnowledgeStatement.__lt__]. *)
Definition gm_sorted (h : heap) (knowledge_base : list loc) : list loc :=
  sorted_reverse (λ a b, KS.lt (deref h a) (deref h b)) knowledge_base.

Definition greedy_algorithm_minecount_search (stats : StatGenerator) (h : heap)
    (knowledge_base : list loc) (subset_comparisons : Z) : result :=
  let sorted_knowledge_base := gm_sorted h knowledge_base in
  let '(h', inferred_statements, subset_comparisons) :=
    gm_outer sorted_knowledge_base (h, [], subset_comparisons) in
  mk_result h' knowledge_base
    (report stats subset_comparisons (Z.of_nat (length inferred_statements)))
    inferred_statements.

(** *** bfs_search and dfs_search *)

(** Tuples of cells compare lexicographically. *)
Definition cell_lt (a b : Cell) : bool :=
  (a.1 <? b.1) || ((a.1 =? b.1) && (a.2 <? b.2)).

Fixpoint tuple_lt (a b : list Cell) : bool :=
  match a, b with
  | _, [] => false
  | [], _ :: _ => true
  | x :: a', y :: b' => cell_lt x y || (bool_decide (x = y) && tuple_lt a' b')
  end.

(** [tuple(sorted(tuple(ks.get_cell_positions()) for ks in current_kb))].
    Python does not specify the order in which a set is iterated, and CPython
    can iterate two equal sets in different orders; [elements] fixes one
    order per set value.  So two nodes with the same cell sets have the same
    key here, where in CPython their keys can differ: the [visited] test of
    [bfs_search] below can skip a node that CPython explores.  A node is a
    list that grows by one statement per level and no two nodes share their
    cell sets when the statements are true on one mine layout, so this shows
    only on stores with contradicting counts, in the nodes explored and the
    comparisons counted. *)
Definition kb_key (h : heap) (current_kb : list loc) : list (list Cell) :=
  sorted tuple_lt (map (λ ks, elements (cells h ks)) current_kb).

(** A [TreeNode] is represented by its [knowledge_base] list: the [parent],
    [children] and [inferences] fields are written but never read.  Loop
    state: store, pending nodes, [inferred_statements],
    [subset_comparisons]. *)
Definition bfs_body (current_kb : list loc) (statement other_statement : loc)
    (st : heap * list (list loc) * list loc * Z) : heap * list (list loc) * list loc * Z :=
  let '(h, queue, inferred_statements, subset_comparisons) := st in
  let subset_comparisons := subset_comparisons + 1 in
  if issubset (cells h statement) (cells h other_statement) then
    let inferred_cells := cells h other_statement ∖ cells h statement in
    let inferred_count := count h other_statement - count h statement in
    let '(h', new_inferred_statement) := new_statement h inferred_cells inferred_count in
    if negb (list_contains h' inferred_statements new_inferred_statement)
    then (h', queue ++ [current_kb ++ [new_inferred_statement]],
          inferred_statements ++ [new_inferred_statement], subset_comparisons)
    else (h', queue, inferred_statements, subset_comparisons)
  else (h, queue, inferred_statements, subset_comparisons).

(** [while queue:] -- one unit of fuel per node taken from the queue. *)
Fixpoint bfs_loop (fuel : nat) (h : heap) (queue : list (list loc))
    (inferred_statements : list loc) (visited : list (list (list Cell)))
    (subset_comparisons : Z) : option (heap * list loc * Z) :=
  match queue with
  | [] => Some (h, inferred_statements, subset_comparisons)
  | current_kb :: queue =>
    match fuel with
    | O => None
    | S fuel' =>
      let key := kb_key h current_kb in
      if bool_decide (key ∈ visited)
      then bfs_loop fuel' h queue inferred_statements visited subset_comparisons
      else
        let '(h', queue, inferred_statements, subset_comparisons) :=
          for_pairs (bfs_body current_kb) current_kb
                    (h, queue, inferred_statements, subset_comparisons) in
        bfs_loop fuel' h' queue inferred_statements (visited ++ [key]) subset_comparisons
    end
  end.

Definition bfs_search (fuel : nat) (stats : StatGenerator) (h : heap)
    (knowledge_base : list loc) (subset_comparisons : Z) : option result :=
  let sorted_knowledge_base := by_size h knowledge_base in
  match bfs_loop fuel h [sorted_knowledge_base] [] [] subset_comparisons with
  | None => None
  | Some (h', inferred_statements, subset_comparisons) =>
    Some (mk_result h' knowledge_base
            (report stats subset_comparisons (Z.of_nat (length inferred_statements)))
            inferred_statements)
  end.

(** The stack is kept with its top first: [stack.pop()] takes the head and
    [stack.append(node)] conses. *)
Definition dfs_body (current_kb : list loc) (statement other_statement : loc)
    (st : heap * list (list loc) * list loc * Z) : heap * list (list loc) * list loc * Z :=
  let '(h, stack, inferred_statements, subset_comparisons) := st in
  let subset_comparisons := subset_comparisons + 1 in
  if issubset (cells h statement) (cells h other_statement) then
    let inferred_cells := cells h other_statement ∖ cells h statement in
    let inferred_count := count h other_statement - count h statement in
    if (0 <=? inferred_count) && bool_decide (inferred_cells ≠ ∅) then
      let '(h', new_inferred_statement) := new_statement h inferred_cells inferred_count in
      if negb (list_contains h' inferred_statements new_inferred_statement)
      then (h', (current_kb ++ [new_inferred_statement]) :: stack,
            inferred_statements ++ [new_inferred_statement], subset_comparisons)
      else (h', stack, inferred_statements, subset_comparisons)
    else (h, stack, inferred_statements, subset_comparisons)
  else (h, stack, inferred_statements, subset_comparisons).

Fixpoint dfs_loop (fuel : nat) (h : heap) (stack : list (list loc))
    (inferred_statements : list loc) (visited : list (list (list Cell)))
    (subset_comparisons : Z) : option (heap * list loc * Z) :=
  match stack with
  | [] => Some (h, inferred_statements, subset_comparisons)
  | current_kb :: stack =>
    match fuel with
    | O => None
    | S fuel' =>
      let key := kb_key h current_kb in
      if bool_decide (key ∈ visited)
      then dfs_loop fuel' h stack inferred_statements visited subset_comparisons
      else
        let '(h', stack, inferred_statements, subset_comparisons) :=
          for_pairs (dfs_body current_kb) current_kb
                    (h, stack, inferred_statements, subset_comparisons) in
        dfs_loop fuel' h' stack inferred_statements (visited ++ [key]) subset_comparisons
    end
  end.

Definition dfs_search (fuel : nat) (stats : StatGenerator) (h : heap)
    (knowledge_base : list loc) (subset_comparisons : Z) : option result :=
  let sorted_knowledge_base :=
    sorted (λ a b, - size_of h a <? - size_of h b) knowledge_base in
  match dfs_loop fuel h [sorted_knowledge_base] [] [] subset_comparisons with
  | None => None
  | Some (h', inferred_statements, subset_comparisons) =>
    Some (mk_result h' knowledge_base
            (report stats subset_comparisons (Z.of_nat (length inferred_statements)))
            inferred_statements)
  end.

(** *** The dispatch table and select_algorithm *)

Inductive algorithm : Type :=
| BruteForce | DivideAndConquer | DynamicProgramming
| GreedyAlgorithmSize | GreedyAlgorithmMinecount | Bfs | Dfs.

#[global] Instance algorithm_eq_dec : EqDecision algorithm.
Proof. solve_decision. Defined.

(** [self.algorithms] *)
Definition algorithms : gmap string algorithm :=
  <["brute_force" := BruteForce]>
  (<["divide_and_conquer" := DivideAndConquer]>
  (<["dynamic_programming" := DynamicProgramming]>
  (<["greedy_algorithm_size" := GreedyAlgorithmSize]>
  (<["greedy_algorithm_minecount" := GreedyAlgorithmMinecount]>
  (<["bfs" := Bfs]>
  (<["dfs" := Dfs]> ∅)))))).

(** The selected method and the lines written to standard output.  A bound
    method is truthy, so [if algorithm:] tests that the key was found. *)
Definition select_algorithm (algorithm_name : string) : algorithm * list string :=
  match algorithms !! algorithm_name with
  | Some algorithm => (algorithm, [])
  | None =>
    (BruteForce,
     ["ERROR: Algorithm '" +:+ algorithm_name +:+ "' not found, defaulting to Brute Force"])
  end.

(** Calling the selected method as [add_knowledge] does, with the list only:
    [subset_comparisons] takes its default 0.  The fuel bounds the loops of
    the strategies that have an unbounded [while] or a recursion. *)
Definition call (a : algorithm) (fuel : nat) (stats : StatGenerator) (h : heap)
    (knowledge_base : list loc) : option result :=
  match a with
  | BruteForce => Some (brute_force_search stats h knowledge_base 0)
  | DivideAndConquer => divide_and_conquer_search fuel stats h knowledge_base 0
  | DynamicProgramming => Some (dynamic_programming_search stats h knowledge_base 0)
  | GreedyAlgorithmSize => Some (greedy_algorithm_size_search stats h knowledge_base 0)
  | GreedyAlgorithmMinecount =>
      Some (greedy_algorithm_minecount_search stats h knowledge_base 0)
  | Bfs => bfs_search fuel stats h knowledge_base 0
  | Dfs => dfs_search fuel stats h knowledge_base 0
  end.

End Search.

(* ===================================================================== *)
(** ** safe_cell_data_structures.py *)
(* ===================================================================== *)
Module SafeCell.

Inductive strategy : Type := SelectFifo | SelectLifo | SelectSorted | SelectRandom.

#[global] Instance strategy_eq_dec : EqDecision strategy.
Proof. solve_decision. Defined.

(** [self.strategies] *)
Definition strategies : gmap string strategy :=
  <["First In, First Out" := SelectFifo]>
  (<["Last In, First Out" := SelectLifo]>
  (<["Sorted by position" := SelectSorted]>
  (<["Random" := SelectRandom]> ∅))).

Definition select_strategy (strategy_name : string) : strategy * list string :=
  match strategies !! strategy_name with
  | Some strategy => (strategy, [])
  | None =>
    (SelectFifo,
     ["ERROR: Strategy '" +:+ strategy_name +:+ "' not found, defaulting to FIFO"])
  end.

(** [deque.remove(x)]: the first occurrence. *)
Fixpoint remove_first (x : Cell) (q : list Cell) : list Cell :=
  match q with
  | [] => []
  | y :: q' => if decide (x = y) then q' else y :: remove_first x q'
  end.

(** Each policy returns the chosen cell ([None] when the deque is empty) and
    the deque as it is left. *)
Definition select_fifo (identified_safe_cells : list Cell) : option Cell * list Cell :=
  match identified_safe_cells with
  | [] => (None, [])
  | c :: q => (Some c, q)
  end.

Definition select_lifo (identified_safe_cells : list Cell) : option Cell * list Cell :=
  match last identified_safe_cells with
  | None => (None, identified_safe_cells)
  | Some c => (Some c, removelast identified_safe_cells)
  end.

Definition select_sorted (identified_safe_cells : list Cell) : option Cell * list Cell :=
  match sorted Search.cell_lt identified_safe_cells with
  | [] => (None, identified_safe_cells)
  | selected_cell :: _ =>
    (Some selected_cell, remove_first selected_cell identified_safe_cells)
  end.

(** [random.choice] picks an index; [r] is the number drawn. *)
Definition select_random (r : nat) (identified_safe_cells : list Cell)
    : option Cell * list Cell :=
  match identified_safe_cells !! (r `mod` length identified_safe_cells)%nat with
  | None => (None, identified_safe_cells)
  | Some selected_cell =>
    (Some selected_cell, remove_first selected_cell identified_safe_cells)
  end.

Definition call (s : strategy) (r : nat) (q : list Cell) : option Cell * list Cell :=
  match s with
  | SelectFifo => select_fifo q
  | SelectLifo => select_lifo q
  | SelectSorted => select_sorted q
  | SelectRandom => select_random r q
  end.

End SafeCell.

(* ===================================================================== *)
(** ** minesweeper_ai.py *)
(* ===================================================================== *)
Module AI.

(** *** Python sets of statement objects

    A CPython set stores, next to each key, the hash the key had when it was
    inserted.  A lookup of [x] finds an entry when the stored hash equals
    [hash(x)] and the key is [x] itself or compares equal to it {e now}.
    [add_knowledge] keeps statement objects in [inferred_set] while
    [mark_cell_as_mine]/[mark_cell_as_safe] mutate them, so an entry can
    carry the hash of a value its object no longer has.  [hash] is
    [KnowledgeStatement.__hash__], a function of the two fields. *)
Record entry : Type := mk_entry { entry_hash : Z; entry_key : loc }.

Section WithHash.
Context (hash : KnowledgeStatement → Z).

Definition entry_matches (h : heap) (x : loc) (e : entry) : bool :=
  (entry_hash e =? hash (deref h x)) && bool_decide (deref h (entry_key e) = deref h x).

(** [x in s] *)
Definition set_contains (h : heap) (s : list entry) (x : loc) : bool :=
  existsb (entry_matches h x) s.

(** [s.add(x)] *)
Definition set_add (h : heap) (s : list entry) (x : loc) : list entry :=
  if set_contains h s x then s else s ++ [mk_entry (hash (deref h x)) x].

(** [set(lst)] and [s.update(lst)] *)
Definition set_update (h : heap) (s : list entry) (lst : list loc) : list entry :=
  foldl (set_add h) s lst.

(** [s.remove(x)], called only when [x in s]: the entry found is dropped. *)
Fixpoint set_remove (h : heap) (s : list entry) (x : loc) : list entry :=
  match s with
  | [] => []
  | e :: s' => if entry_matches h x e then s' else e :: set_remove h s' x
  end.

(** *** The solver object *)
Record MinesweeperAI : Type := mk {
  grid_size : Z;
  moves_made : gset Cell;
  identified_mines : gset Cell;
  identified_safe_cells : gset Cell;
  safe_cell_queue : list Cell;
  knowledge_base : list loc;
  stat_generator : StatGenerator;
  search_algorithm_method : Search.algorithm;
  safe_cell_selection_strategy : SafeCell.strategy;
  objects : heap
}.

Definition set_moves_made v ai :=
  mk (grid_size ai) v (identified_mines ai) (identified_safe_cells ai)
     (safe_cell_queue ai) (knowledge_base ai) (stat_generator ai)
     (search_algorithm_method ai) (safe_cell_selection_strategy ai) (objects ai).
Definition set_identified_mines v ai :=
  mk (grid_size ai) (moves_made ai) v (identified_safe_cells ai)
     (safe_cell_queue ai) (knowledge_base ai) (stat_generator ai)
     (search_algorithm_method ai) (safe_cell_selection_strategy ai) (objects ai).
Definition set_identified_safe_cells v ai :=
  mk (grid_size ai) (moves_made ai) (identified_mines ai) v
     (safe_cell_queue ai) (knowledge_base ai) (stat_generator ai)
     (search_algorithm_method ai) (safe_cell_selection_strategy ai) (objects ai).
Definition set_safe_cell_queue v ai :=
  mk (grid_size ai) (moves_made ai) (identified_mines ai) (identified_safe_cells ai)
     v (knowledge_base ai) (stat_generator ai)
     (search_algorithm_method ai) (safe_cell_selection_strategy ai) (objects ai).
Definition set_knowledge_base v ai :=
  mk (grid_size ai) (moves_made ai) (identified_mines ai) (identified_safe_cells ai)
     (safe_cell_queue ai) v (stat_generator ai)
     (search_algorithm_method ai) (safe_cell_selection_strategy ai) (objects ai).
Definition set_stat_generator v ai :=
  mk (grid_size ai) (moves_made ai) (identified_mines ai) (identified_safe_cells ai)
     (safe_cell_queue ai) (knowledge_base ai) v
     (search_algorithm_method ai) (safe_cell_selection_strategy ai) (objects ai).
Definition set_objects v ai :=
  mk (grid_size ai) (moves_made ai) (identified_mines ai) (identified_safe_cells ai)
     (safe_cell_queue ai) (knowledge_base ai) (stat_generator ai)
     (search_algorithm_method ai) (safe_cell_selection_strategy ai) v.

(** [__init__]; the second component is what the two selectors print.
    ([low_risk_cache] and [search_algorithm_name] are never read.) *)
Definition init (grid_size : Z) (search_algorithm_name safe_cell_strategy : string)
    : MinesweeperAI * list string :=
  let '(method, out1) := Search.select_algorithm search_algorithm_name in
  let '(policy, out2) := SafeCell.select_strategy safe_cell_strategy in
  (mk grid_size ∅ ∅ ∅ [] [] (Stat.init grid_size) method policy [], out1 ++ out2).

(** [for statement in self.knowledge_base: statement.mark_...(cell)] *)
Definition mark_all (f : KnowledgeStatement → KnowledgeStatement)
    (knowledge_base : list loc) (h : heap) : heap :=
  foldl (λ h statement, alter f statement h) h knowledge_base.

Definition mark_cell_as_mine (cell : Cell) (ai : MinesweeperAI) : MinesweeperAI :=
  let ai := set_identified_mines (identified_mines ai ∪ {[cell]}) ai in
  set_objects (mark_all (KS.mark_cell_as_mine cell) (knowledge_base ai) (objects ai)) ai.

Definition mark_cell_as_safe (cell : Cell) (ai : MinesweeperAI) : MinesweeperAI :=
  let ai :=
    if decide (cell ∉ identified_safe_cells ai)
    then set_safe_cell_queue (safe_cell_queue ai ++ [cell])
           (set_identified_safe_cells (identified_safe_cells ai ∪ {[cell]}) ai)
    else ai in
  set_objects (mark_all (KS.mark_cell_as_safe cell) (knowledge_base ai) (objects ai)) ai.

(** The loop of [remove_empty_and_duplicate_statements]; state:
    [original_set], [cleaned_knowledge_base], [duplicate_count]. *)
Definition purge_step (h : heap) (st : list entry * list loc * Z) (statement : loc)
    : list entry * list loc * Z :=
  let '(original_set, cleaned_knowledge_base, duplicate_count) := st in
  if KS.nonempty (deref h statement) then
    if negb (set_contains h original_set statement)
    then (original_set, cleaned_knowledge_base, duplicate_count + 1)
    else (set_remove h original_set statement,
          cleaned_knowledge_base ++ [statement], duplicate_count)
  else st.

Definition purge (h : heap) (knowledge_base : list loc) : list loc * Z :=
  let original_set := set_update h [] knowledge_base in
  let '(_, cleaned_knowledge_base, duplicate_count) :=
    foldl (purge_step h) (original_set, [], 0) knowledge_base in
  (cleaned_knowledge_base, duplicate_count).

Definition remove_empty_and_duplicate_statements (ai : MinesweeperAI) : MinesweeperAI :=
  let '(cleaned_knowledge_base, duplicate_count) :=
    purge (objects ai) (knowledge_base ai) in
  let ai := set_knowledge_base cleaned_knowledge_base ai in
  let cleaned_size := Z.of_nat (length (knowledge_base ai)) in
  set_stat_generator
    (Stat.update_duplicate_inferences duplicate_count
       (Stat.update_knowledge_base_size cleaned_size (stat_generator ai))) ai.

(** The set comprehension of [add_knowledge]:
    [range(cell[0] - 1, cell[0] + 2)] is the three rows around the cell. *)
Definition neighbours (grid_size : Z) (cell : Cell) : gset Cell :=
  list_to_set
    (filter (λ p : Cell, p ≠ cell ∧ (0 ≤ p.1 < grid_size) ∧ (0 ≤ p.2 < grid_size))
       (i ← [cell.1 - 1; cell.1; cell.1 + 1];
        j ← [cell.2 - 1; cell.2; cell.2 + 1];
        [(i, j)])).

(** [for mine in self.identified_mines: if mine in surrounding_cells: ...].
    A set is iterated in the order of [elements] (Python leaves the order
    unspecified). *)
Definition discount_mines (identified_mines : gset Cell)
    (surrounding_cells : gset Cell) (surrounding_mines_count : Z) : gset Cell * Z :=
  foldl (λ (st : gset Cell * Z) mine,
           if decide (mine ∈ st.1) then (st.1 ∖ {[mine]}, st.2 - 1) else st)
        (surrounding_cells, surrounding_mines_count)
        (elements identified_mines).

(** The first [for] of the loop body: the two sets of cells to mark. *)
Definition collect (h : heap) (knowledge_base : list loc) : gset Cell * gset Cell :=
  foldl (λ (st : gset Cell * gset Cell) statement,
           (st.1 ∪ KS.known_safes (deref h statement),
            st.2 ∪ KS.known_mines (deref h statement)))
        (∅, ∅) knowledge_base.

(** One pass of [while knowledge_changed:], up to the call of the search
    method: the marks and the purge. *)
Definition mark_and_purge (ai : MinesweeperAI) : MinesweeperAI * bool :=
  let '(cells_to_mark_safe, cells_to_mark_as_mine) :=
    collect (objects ai) (knowledge_base ai) in
  let knowledge_changed :=
    bool_decide (cells_to_mark_safe ≠ ∅) || bool_decide (cells_to_mark_as_mine ≠ ∅) in
  let ai := foldl (λ ai safe_cell, mark_cell_as_safe safe_cell ai) ai
                  (elements cells_to_mark_safe) in
  let ai := foldl (λ ai mine_cell, mark_cell_as_mine mine_cell ai) ai
                  (elements cells_to_mark_as_mine) in
  (remove_empty_and_duplicate_statements ai, knowledge_changed).

(** The rest of the pass, once the search method has returned [r]: the
    new inferences are filtered against [inferred_set], then added to it
    and to the knowledge base. *)
Definition merge (ai : MinesweeperAI) (inferred_set : list entry) (r : Search.result)
    : MinesweeperAI * list entry * bool :=
  let ai := set_stat_generator (Search.r_stats r)
              (set_knowledge_base (Search.r_knowledge_base r)
                 (set_objects (Search.r_heap r) ai)) in
  let new_inferences :=
    filter (λ inf, set_contains (objects ai) inferred_set inf = false)
           (Search.r_inferred r) in
  match new_inferences with
  | [] => (ai, inferred_set, false)
  | _ =>
    (set_knowledge_base (knowledge_base ai ++ new_inferences) ai,
     set_update (objects ai) inferred_set new_inferences, true)
  end.

(** [while knowledge_changed:] with one unit of fuel per pass; the result
    is the solver and [loop_iterations]. *)
Fixpoint propagate (fuel : nat) (ai : MinesweeperAI) (inferred_set : list entry)
    (loop_iterations : Z) : option (MinesweeperAI * Z) :=
  match fuel with
  | O => None
  | S fuel' =>
    let loop_iterations := loop_iterations + 1 in
    let '(ai, marked) := mark_and_purge ai in
    match Search.call (search_algorithm_method ai) fuel' (stat_generator ai)
                      (objects ai) (knowledge_base ai) with
    | None => None
    | Some r =>
      let '(ai, inferred_set, inferred) := merge ai inferred_set r in
      if marked || inferred
      then propagate fuel' ai inferred_set loop_iterations
      else Some (ai, loop_iterations)
    end
  end.

(** [add_knowledge] up to the loop: the revealed cell is recorded and
    marked safe, and the statement about its neighbours is appended. *)
Definition observe (cell : Cell) (surrounding_mines_count : Z) (ai : MinesweeperAI)
    : MinesweeperAI :=
  let ai := set_stat_generator (Stat.reset_current_stats (stat_generator ai)) ai in
  let ai := set_moves_made (moves_made ai ∪ {[cell]}) ai in
  let ai := mark_cell_as_safe cell ai in
  let surrounding_cells := neighbours (grid_size ai) cell ∖ identified_safe_cells ai in
  let '(surrounding_cells, surrounding_mines_count) :=
    discount_mines (identified_mines ai) surrounding_cells surrounding_mines_count in
  if bool_decide (surrounding_cells ≠ ∅) then
    let '(h, new_statement) :=
      new_statement (objects ai) surrounding_cells surrounding_mines_count in
    set_knowledge_base (knowledge_base ai ++ [new_statement]) (set_objects h ai)
  else ai.

Definition add_knowledge (fuel : nat) (cell : Cell) (surrounding_mines_count : Z)
    (ai : MinesweeperAI) : option MinesweeperAI :=
  let ai := observe cell surrounding_mines_count ai in
  let inferred_set := set_update (objects ai) [] (knowledge_base ai) in
  match propagate fuel ai inferred_set 0 with
  | None => None
  | Some (ai, loop_iterations) =>
    Some (set_stat_generator (Stat.update_iterations loop_iterations (stat_generator ai)) ai)
  end.

(** [make_safe_move]; [r] is the number the random policy draws. *)
Definition make_safe_move (r : nat) (ai : MinesweeperAI)
    : option Cell * MinesweeperAI :=
  match safe_cell_queue ai with
  | [] => (None, ai)
  | _ =>
    let '(move, q) :=
      SafeCell.call (safe_cell_selection_strategy ai) r (safe_cell_queue ai) in
    (move, set_safe_cell_queue q ai)
  end.

(** [range(a, b)] and the list comprehension
    [[(i, j) for i in range(grid_size) for j in range(grid_size)]]. *)
Definition range (a b : Z) : list Z := seqZ a (b - a).

Definition all_cells (grid_size : Z) : list Cell :=
  i ← range 0 grid_size; j ← range 0 grid_size; [(i, j)].

(** The loop of [make_random_move].  [rand i] is the number the [i]-th call
    of [random.randrange] draws (reduced modulo the length of the list, the
    argument of [randrange]); each pass pops one cell, so the passes are
    counted by [fuel], which [make_random_move] sets to the length of the
    list: the list is empty when the fuel is used up. *)
Fixpoint random_move_loop (rand : nat → nat) (i : nat) (fuel : nat)
    (all_possible_moves : list Cell) (ai : MinesweeperAI) : option Cell :=
  match fuel with
  | O => None
  | S fuel' =>
    match all_possible_moves with
    | [] => None
    | _ =>
      let random_cell_index := (rand i `mod` length all_possible_moves)%nat in
      match all_possible_moves !! random_cell_index with
      | None => None
      | Some selected_cell =>
        let all_possible_moves := delete random_cell_index all_possible_moves in
        if decide ((selected_cell ∉ moves_made ai) ∧ (selected_cell ∉ identified_mines ai))
        then Some selected_cell
        else random_move_loop rand (S i) fuel' all_possible_moves ai
      end
    end
  end.

Definition make_random_move (rand : nat → nat) (ai : MinesweeperAI) : option Cell :=
  let all_possible_moves := all_cells (grid_size ai) in
  random_move_loop rand 0 (length all_possible_moves) all_possible_moves ai.

End WithHash.

End AI.

(* ===================================================================== *)
(** ** minesweeper_game.py *)
(* ===================================================================== *)
Module Game.

(** [l[i]] on a Python list: a negative index counts from the end, and
    [None] stands for [IndexError]. *)
Definition py_index {A} (l : list A) (i : Z) : option A :=
  if 0 <=? i then l !! Z.to_nat i
  else if - Z.of_nat (length l) <=? i then l !! Z.to_nat (Z.of_nat (length l) + i)
  else None.

(** The fields of a [MinesweeperGame] that the rules of the game use (the
    others hold the screen, the fonts and the colours). *)
Record MinesweeperGame : Type := mk {
  grid_size : Z;
  mine_count : Z;
  is_first_move : bool;
  board : list (list bool);
  mine_positions : gset Cell;
  revealed_positions : gset Cell;
  starting_position : Cell;
  flagged_mine_positions : gset Cell;
  game_over : bool
}.

Definition set_is_first_move (v : bool) (g : MinesweeperGame) : MinesweeperGame :=
  mk (grid_size g) (mine_count g) v (board g) (mine_positions g) (revealed_positions g)
     (starting_position g) (flagged_mine_positions g) (game_over g).
Definition set_mine_positions (v : gset Cell) (g : MinesweeperGame) : MinesweeperGame :=
  mk (grid_size g) (mine_count g) (is_first_move g) (board g) v (revealed_positions g)
     (starting_position g) (flagged_mine_positions g) (game_over g).
Definition set_revealed_positions (v : gset Cell) (g : MinesweeperGame) : MinesweeperGame :=
  mk (grid_size g) (mine_count g) (is_first_move g) (board g) (mine_positions g) v
     (starting_position g) (flagged_mine_positions g) (game_over g).
Definition set_flagged_mine_positions (v : gset Cell) (g : MinesweeperGame)
    : MinesweeperGame :=
  mk (grid_size g) (mine_count g) (is_first_move g) (board g) (mine_positions g)
     (revealed_positions g) (starting_position g) v (game_over g).
Definition set_game_over (v : bool) (g : MinesweeperGame) : MinesweeperGame :=
  mk (grid_size g) (mine_count g) (is_first_move g) (board g) (mine_positions g)
     (revealed_positions g) (starting_position g) (flagged_mine_positions g) v.

(** [self.board[row][col]] *)
Definition contains_mine (g : MinesweeperGame) (cell_position : Cell) : option bool :=
  let '(row, col) := cell_position in
  r ← py_index (board g) row; py_index r col.

(** [_load_existing_mines]: the two nested [for] loops, in their order. *)
Definition load_existing_mines (g : MinesweeperGame) : option MinesweeperGame :=
  mines ← foldl (λ (acc : option (gset Cell)) (p : Cell),
                   mine_positions ← acc;
                   b ← contains_mine g p;
                   Some (if b : bool then mine_positions ∪ {[p]} else mine_positions))
                (Some (mine_positions g))
                (AI.all_cells (grid_size g));
  Some (set_mine_positions mines g).

(** [count_adjacent_mines]: [and] does not evaluate [self.board[row][col]]
    for the cell itself. *)
Definition count_adjacent_mines (g : MinesweeperGame) (cell_position : Cell) : option Z :=
  foldl (λ (acc : option Z) (p : Cell),
           adjacent_mines ← acc;
           if decide (p ≠ cell_position) then
             b ← contains_mine g p;
             Some (if b : bool then adjacent_mines + 1 else adjacent_mines)
           else Some adjacent_mines)
        (Some 0)
        (row ← AI.range (Z.max 0 (cell_position.1 - 1))
                        (Z.min (grid_size g) (cell_position.1 + 2));
         col ← AI.range (Z.max 0 (cell_position.2 - 1))
                        (Z.min (grid_size g) (cell_position.2 + 2));
         [(row, col)]).

Definition is_game_won (g : MinesweeperGame) : bool :=
  let all_safe_cells_revealed :=
    Z.of_nat (size (revealed_positions g)) =? grid_size g * grid_size g - mine_count g in
  bool_decide (flagged_mine_positions g = mine_positions g) && all_safe_cells_revealed.

End Game.

(* ===================================================================== *)
(** ** minesweeper_runner.py *)
(* ===================================================================== *)
Module Runner.

(** How a call ends: it returns, it raises [IndexError], or the loop of
    [add_knowledge] is still running when the fuel is used up. *)
Inductive outcome (A : Type) : Type :=
| Returns (a : A)
| IndexError
| OutOfFuel.
Arguments Returns {A} a.
Arguments IndexError {A}.
Arguments OutOfFuel {A}.

Section WithHash.
Context (hash : KnowledgeStatement → Z).

(** [update_flagged_positions_from_ai] *)
Definition update_flagged_positions_from_ai (ai : AI.MinesweeperAI)
    (g : Game.MinesweeperGame) : Game.MinesweeperGame :=
  foldl (λ g mine_position,
           if decide (mine_position ∉ Game.flagged_mine_positions g)
           then Game.set_flagged_mine_positions
                  (Game.flagged_mine_positions g ∪ {[mine_position]}) g
           else g)
        g (elements (AI.identified_mines ai)).

(** [process_move]; [cell_position] is [None] when the caller passes [None]
    (a tuple of two numbers is always true). *)
Definition process_move (fuel : nat) (cell_position : option Cell)
    (st : Game.MinesweeperGame * AI.MinesweeperAI)
    : outcome (Game.MinesweeperGame * AI.MinesweeperAI) :=
  let '(g, ai) := st in
  let '(cell_position, g) :=
    if Game.is_first_move g
    then (Some (Game.starting_position g), Game.set_is_first_move false g)
    else (cell_position, g) in
  match cell_position with
  | None => Returns (g, ai)
  | Some cell_position =>
    match Game.contains_mine g cell_position with
    | None => IndexError
    | Some true =>
      let g := Game.set_flagged_mine_positions
                 (Game.flagged_mine_positions g ∪ {[cell_position]}) g in
      let ai := AI.mark_cell_as_mine cell_position ai in
      let g := Game.set_flagged_mine_positions
                 (Game.flagged_mine_positions g ∪ {[cell_position]}) g in
      Returns (Game.set_game_over true g, ai)
    | Some false =>
      match Game.count_adjacent_mines g cell_position with
      | None => IndexError
      | Some adjacent_mines_count =>
        let g := Game.set_revealed_positions
                   (Game.revealed_positions g ∪ {[cell_position]}) g in
        match AI.add_knowledge hash fuel cell_position adjacent_mines_count ai with
        | None => OutOfFuel
        | Some ai => Returns (update_flagged_positions_from_ai ai g, ai)
        end
      end
    end
  end.

End WithHash.

End Runner.

(** *** The AI's turn in the main loop

    The branch of [MinesweeperRunner.execute] that lets the solver play,
    taken when [is_ai_playing and not game_over], with [manual_move_mode]
    off:
    [selected_move = make_safe_move() or make_random_move()] (a tuple is
    true, so [or] takes the random move only when there is no safe one),
    then either the flags are set to the solver's mines and
    [is_ai_playing] is cleared, or the move is processed.  The result is the
    game, the solver and [is_ai_playing]. *)
Module Turn.

Section WithHash.
Context (hash : KnowledgeStatement → Z).

Definition ai_turn (fuel : nat) (r : nat) (rand : nat → nat)
    (st : Game.MinesweeperGame * AI.MinesweeperAI)
    : Runner.outcome (Game.MinesweeperGame * AI.MinesweeperAI * bool) :=
  let '(g, ai) := st in
  let '(safe_move, ai) := AI.make_safe_move r ai in
  let selected_move :=
    match safe_move with
    | Some c => Some c
    | None => AI.make_random_move rand ai
    end in
  match selected_move with
  | None =>
    Runner.Returns (Game.set_flagged_mine_positions (AI.identified_mines ai) g, ai, false)
  | Some c =>
    match Runner.process_move hash fuel (Some c) (g, ai) with
    | Runner.Returns (g, ai) => Runner.Returns (g, ai, true)
    | Runner.IndexError => Runner.IndexError
    | Runner.OutOfFuel => Runner.OutOfFuel
    end
  end.

End WithHash.

End Turn.

(* ===================================================================== *)
(** ** Specification-side definitions *)
(* ===================================================================== *)

(** The values a list of references denotes in a store, and references that
    point into the store. *)
Definition vals (h : heap) (l : list loc) : list KnowledgeStatement := map (deref h) l.
Definition valid (h : heap) (l : list loc) : Prop := Forall (λ x, (x < length h)%nat) l.

(** The derivation rule [(B.cells − A.cells, B.mine_count − A.mine_count)]. *)
Definition derive (a b : KnowledgeStatement) : KnowledgeStatement :=
  KS.mk (KS.cell_positions b ∖ KS.cell_positions a) (KS.mine_count b - KS.mine_count a).

(** [if x not in acc: acc.append(x)] on values. *)
Definition emit (acc : list KnowledgeStatement) (x : KnowledgeStatement)
    : list KnowledgeStatement :=
  if bool_decide (x ∈ acc) then acc else acc ++ [x].

(** What each strategy computes, read on values: the same loops over the
    list of statement values, without the store, the counters and the
    statistics.  [brute_force_search] first. *)
Definition bf_values_body (a b : KnowledgeStatement) (acc : list KnowledgeStatement)
    : list KnowledgeStatement :=
  if Search.issubset (KS.cell_positions a) (KS.cell_positions b)
  then emit acc (derive a b)
  else acc.

Definition bf_values (kb : list KnowledgeStatement) : list KnowledgeStatement :=
  foldl (λ acc a, foldl (λ acc b, bf_values_body a b acc) acc kb) [] kb.

(** [divide_and_conquer_search] on values. *)
Fixpoint dc_values (fuel : nat) (vs : list KnowledgeStatement) (start end_ : Z)
    : option (list KnowledgeStatement) :=
  match fuel with
  | O => None
  | S fuel' =>
    if start >? end_ then Some []
    else if start =? end_ then Some [vs !!! Z.to_nat start]
    else
      let mid := (start + end_) `div` 2 in
      match dc_values fuel' vs start mid with
      | None => None
      | Some left_inferred =>
        match dc_values fuel' vs (mid + 1) end_ with
        | None => None
        | Some right_inferred =>
          Some (foldl (λ acc l, foldl (λ acc r, bf_values_body l r acc) acc right_inferred)
                      (left_inferred ++ right_inferred) left_inferred)
        end
      end
  end.

Definition dc_search_values (fuel : nat) (vs : list KnowledgeStatement)
    : option (list KnowledgeStatement) :=
  match vs with
  | [] => Some []
  | _ => dc_values fuel vs 0 (Z.of_nat (length vs) - 1)
  end.

(** [dynamic_programming_search] on values. *)
Definition dp_values_body (a b : KnowledgeStatement)
    (st : list KnowledgeStatement * list (KnowledgeStatement * KnowledgeStatement))
    : list KnowledgeStatement * list (KnowledgeStatement * KnowledgeStatement) :=
  let '(inferred, dp_cache) := st in
  if bool_decide ((a, b) ∈ dp_cache) then st
  else if Search.issubset (KS.cell_positions a) (KS.cell_positions b) then
    let d := derive a b in
    if (KS.mine_count d <? 0) || bool_decide (KS.cell_positions d = ∅) then st
    else
      let dp_cache := dp_cache ++ [(a, b)] in
      if bool_decide (d ∈ inferred) then (inferred, dp_cache)
      else (inferred ++ [d],
            if 1 <? Z.of_nat (size (KS.cell_positions d)) then dp_cache ++ [(d, a)]
            else dp_cache)
  else st.

Definition dp_values (vs : list KnowledgeStatement) : list KnowledgeStatement :=
  (for_pairs dp_values_body (sorted KS.lt vs) ([], [])).1.

(** [greedy_algorithm_minecount_search] on values. *)
Fixpoint gm_values_inner (current : KnowledgeStatement) (nexts : list KnowledgeStatement)
    (acc : list KnowledgeStatement) : list KnowledgeStatement :=
  match nexts with
  | [] => acc
  | next :: rest =>
    if Search.issubset (KS.cell_positions next) (KS.cell_positions current)
    then gm_values_inner current rest (emit acc (derive next current))
    else acc
  end.

Fixpoint gm_values_outer (l : list KnowledgeStatement) (acc : list KnowledgeStatement)
    : list KnowledgeStatement :=
  match l with
  | [] => acc
  | current :: rest => gm_values_outer rest (gm_values_inner current rest acc)
  end.

Definition gm_values (vs : list KnowledgeStatement) : list KnowledgeStatement :=
  gm_values_outer (sorted_reverse KS.lt vs) [].

(** [bfs_search] and [dfs_search] on values. *)
Definition key_of (current_kb : list KnowledgeStatement) : list (list Cell) :=
  sorted Search.tuple_lt (map (λ s, elements (KS.cell_positions s)) current_kb).

Definition bfs_values_body (current_kb : list KnowledgeStatement) (a b : KnowledgeStatement)
    (st : list (list KnowledgeStatement) * list KnowledgeStatement)
    : list (list KnowledgeStatement) * list KnowledgeStatement :=
  let '(queue, inferred) := st in
  if Search.issubset (KS.cell_positions a) (KS.cell_positions b) then
    if bool_decide (derive a b ∈ inferred) then st
    else (queue ++ [current_kb ++ [derive a b]], inferred ++ [derive a b])
  else st.

Fixpoint bfs_values_loop (fuel : nat) (queue : list (list KnowledgeStatement))
    (inferred : list KnowledgeStatement) (visited : list (list (list Cell)))
    : option (list KnowledgeStatement) :=
  match queue with
  | [] => Some inferred
  | current_kb :: queue =>
    match fuel with
    | O => None
    | S fuel' =>
      if bool_decide (key_of current_kb ∈ visited)
      then bfs_values_loop fuel' queue inferred visited
      else
        let '(queue, inferred) :=
          for_pairs (bfs_values_body current_kb) current_kb (queue, inferred) in
        bfs_values_loop fuel' queue inferred (visited ++ [key_of current_kb])
    end
  end.

Definition bfs_values (fuel : nat) (vs : list KnowledgeStatement)
    : option (list KnowledgeStatement) :=
  bfs_values_loop fuel [sorted (λ a b, KS.len a <? KS.len b) vs] [] [].

Definition dfs_values_body (current_kb : list KnowledgeStatement) (a b : KnowledgeStatement)
    (st : list (list KnowledgeStatement) * list KnowledgeStatement)
    : list (list KnowledgeStatement) * list KnowledgeStatement :=
  let '(stack, inferred) := st in
  if Search.issubset (KS.cell_positions a) (KS.cell_positions b) then
    let d := derive a b in
    if (0 <=? KS.mine_count d) && bool_decide (KS.cell_positions d ≠ ∅) then
      if bool_decide (d ∈ inferred) then st
      else ((current_kb ++ [d]) :: stack, inferred ++ [d])
    else st
  else st.

Fixpoint dfs_values_loop (fuel : nat) (stack : list (list KnowledgeStatement))
    (inferred : list KnowledgeStatement) (visited : list (list (list Cell)))
    : option (list KnowledgeStatement) :=
  match stack with
  | [] => Some inferred
  | current_kb :: stack =>
    match fuel with
    | O => None
    | S fuel' =>
      if bool_decide (key_of current_kb ∈ visited)
      then dfs_values_loop fuel' stack inferred visited
      else
        let '(stack, inferred) :=
          for_pairs (dfs_values_body current_kb) current_kb (stack, inferred) in
        dfs_values_loop fuel' stack inferred (visited ++ [key_of current_kb])
    end
  end.

Definition dfs_values (fuel : nat) (vs : list KnowledgeStatement)
    : option (list KnowledgeStatement) :=
  dfs_values_loop fuel [sorted (λ a b, - KS.len a <? - KS.len b) vs] [] [].

(** The values a call of each method returns ([greedy_algorithm_size_search]
    never infers anything, see [greedy_size_infers_nothing] below). *)
Definition values_of (a : Search.algorithm) (fuel : nat) (vs : list KnowledgeStatement)
    : option (list KnowledgeStatement) :=
  match a with
  | Search.BruteForce => Some (bf_values vs)
  | Search.DivideAndConquer => dc_search_values fuel vs
  | Search.DynamicProgramming => Some (dp_values vs)
  | Search.GreedyAlgorithmSize => Some []
  | Search.GreedyAlgorithmMinecount => Some (gm_values vs)
  | Search.Bfs => bfs_values fuel vs
  | Search.Dfs => dfs_values fuel vs
  end.

(** What holds of the list a strategy accumulates, in the store [h] it has
    reached from the store [h0] it was started in: its references point into
    [h], and each is one of the references [kb0] or an object created since. *)
Definition good (h0 : heap) (kb0 : list loc) (h : heap) (inf : list loc) : Prop :=
  valid h inf ∧ (length h0 ≤ length h)%nat ∧
  Forall (λ l, l ∈ kb0 ∨ (length h0 ≤ l)%nat) inf.

(** A strategy result [r], obtained from the store [h] and the list [kb],
    simulates the value list [vs]: the store was only extended, the list [kb]
    was left alone, the returned references are sound (each is in [kb0] or
    fresh) and denote [vs]. *)
Definition sim_result (h : heap) (kb kb0 : list loc) (r : Search.result)
    (vs : list KnowledgeStatement) : Prop :=
  (∃ ext, Search.r_heap r = h ++ ext) ∧
  Search.r_knowledge_base r = kb ∧
  good h kb0 (Search.r_heap r) (Search.r_inferred r) ∧
  vals (Search.r_heap r) (Search.r_inferred r) = vs.

(** The order the specification words for the greedy mine-count strategy:
    descending [mine_count] (stable, as [sorted] is). *)
Definition minecount_order (h : heap) (knowledge_base : list loc) : list loc :=
  sorted_reverse (λ a b, Search.count h a <? Search.count h b) knowledge_base.

(** The effect on one statement of marking every cell of a set safe, and of
    marking every cell of a set as a mine. *)
Definition strip_safes (S : gset Cell) (s : KnowledgeStatement) : KnowledgeStatement :=
  KS.mk (KS.cell_positions s ∖ S) (KS.mine_count s).

Definition strip_mines (M : gset Cell) (s : KnowledgeStatement) : KnowledgeStatement :=
  KS.mk (KS.cell_positions s ∖ M)
        (KS.mine_count s - Z.of_nat (size (KS.cell_positions s ∩ M))).

(** The cells the solver has classified. *)
Definition identified (ai : AI.MinesweeperAI) : gset Cell :=
  AI.identified_safe_cells ai ∪ AI.identified_mines ai.

(** A solver state is well formed when the references of its knowledge base
    point into the object store and no statement of the knowledge base
    mentions a classified cell.  The constructor establishes this and every
    operation keeps it. *)
Definition wf_ai (ai : AI.MinesweeperAI) : Prop :=
  valid (AI.objects ai) (AI.knowledge_base ai) ∧
  ∀ l, l ∈ AI.knowledge_base ai →
       KS.cell_positions (deref (AI.objects ai) l) ## identified ai.

(** What no operation of the solver changes, and what only grows. *)
Definition evolves (ai ai' : AI.MinesweeperAI) : Prop :=
  AI.grid_size ai' = AI.grid_size ai ∧
  AI.search_algorithm_method ai' = AI.search_algorithm_method ai ∧
  AI.safe_cell_selection_strategy ai' = AI.safe_cell_selection_strategy ai ∧
  AI.moves_made ai' = AI.moves_made ai ∧
  (∃ q, AI.safe_cell_queue ai' = AI.safe_cell_queue ai ++ q) ∧
  AI.identified_safe_cells ai ⊆ AI.identified_safe_cells ai' ∧
  AI.identified_mines ai ⊆ AI.identified_mines ai' ∧
  (length (AI.objects ai) ≤ length (AI.objects ai'))%nat.

(** A property of statements that the derivation rule preserves. *)
Definition derive_closed (P : KnowledgeStatement → Prop) : Prop :=
  ∀ a b, P a → P b → KS.cell_positions a ⊆ KS.cell_positions b → P (derive a b).

(** The statement [add_knowledge(cell, count)] would build in state [ai]: the
    neighbours not known safe, less the known mines, each of which lowers
    the count. *)
Definition target (ai : AI.MinesweeperAI) (cell : Cell) (count : Z) : KnowledgeStatement :=
  let r := AI.discount_mines (AI.identified_mines ai)
             (AI.neighbours (AI.grid_size ai) cell ∖ AI.identified_safe_cells ai) count in
  KS.mk r.1 r.2.

(** Invariants of the loop of [add_knowledge].  The keys of [inferred_set]
    point into the store; an entry that a lookup can still find (its stored
    hash is the hash of the value its key has now) holds an empty statement, a
    statement of the knowledge base, or one that mentions a classified cell;
    and the statement of the observation being ingested is in the knowledge
    base unless it is empty. *)
Definition set_valid (h : heap) (s : list AI.entry) : Prop :=
  valid h (map AI.entry_key s).

Definition set_inv (hash : KnowledgeStatement → Z) (ai : AI.MinesweeperAI)
    (s : list AI.entry) : Prop :=
  ∀ e, e ∈ s → AI.entry_hash e = hash (deref (AI.objects ai) (AI.entry_key e)) →
       KS.cell_positions (deref (AI.objects ai) (AI.entry_key e)) = ∅ ∨
       deref (AI.objects ai) (AI.entry_key e) ∈ vals (AI.objects ai) (AI.knowledge_base ai) ∨
       ¬ (KS.cell_positions (deref (AI.objects ai) (AI.entry_key e)) ## identified ai).

Definition target_inv (ai : AI.MinesweeperAI) (cell : Cell) (count : Z) : Prop :=
  KS.cell_positions (target ai cell count) = ∅ ∨
  target ai cell count ∈ vals (AI.objects ai) (AI.knowledge_base ai).

(** A purged knowledge base, and a state the loop of [add_knowledge] can stop
    in: nothing to mark, nothing to purge, and every non-empty statement the
    search method derives (with [fuel]) is in the knowledge base already. *)
Definition purged (h : heap) (kb : list loc) : Prop :=
  NoDup (vals h kb) ∧ ∀ l, l ∈ kb → KS.cell_positions (deref h l) ≠ ∅.

Definition settled (ai : AI.MinesweeperAI) (fuel : nat) : Prop :=
  wf_ai ai ∧
  AI.collect (AI.objects ai) (AI.knowledge_base ai) = (∅, ∅) ∧
  purged (AI.objects ai) (AI.knowledge_base ai) ∧
  ∃ vs, values_of (AI.search_algorithm_method ai) fuel
                  (vals (AI.objects ai) (AI.knowledge_base ai)) = Some vs ∧
        ∀ x, x ∈ vs → KS.cell_positions x ≠ ∅ →
             x ∈ vals (AI.objects ai) (AI.knowledge_base ai).

(** The statement values held by the keys of a set, and sets whose every entry
    carries the hash of the value its key has now (no key was mutated since it
    was inserted). *)
Definition key_vals (h : heap) (s : list AI.entry) : list KnowledgeStatement :=
  vals h (map AI.entry_key s).

Definition live (hash : KnowledgeStatement → Z) (h : heap) (s : list AI.entry) : Prop :=
  Forall (λ e, AI.entry_hash e = hash (deref h (AI.entry_key e))) s.

(** What the purge keeps and counts, read off the list directly: the first
    occurrence of every non-empty value is kept, a later occurrence of a
    non-empty value is counted, an empty statement is dropped uncounted.
    [seen] are the values met so far. *)
Fixpoint purge_spec (h : heap) (seen : list KnowledgeStatement) (kb : list loc)
    : list loc * Z :=
  match kb with
  | [] => ([], 0)
  | x :: kb' =>
    if KS.nonempty (deref h x) then
      if bool_decide (deref h x ∈ seen)
      then (let r := purge_spec h seen kb' in (r.1, r.2 + 1))
      else (let r := purge_spec h (deref h x :: seen) kb' in (x :: r.1, r.2))
    else purge_spec h seen kb'
  end.

(** A hash for running the solver on examples (any function of the two
    fields will do; this one is injective). *)
Definition example_hash (s : KnowledgeStatement) : Z :=
  Z.pos (encode (elements (KS.cell_positions s), KS.mine_count s)).

(** A state that a pass of the loop leaves alone, but for statements without
    cells: the knowledge base is a settled list [kb1] followed by statements
    that are empty or repeat one of [kb1]; the entries of [inferred_set] are
    live and cover [kb1]; and every non-empty value of [vs] (what the search
    method derives from [kb1]) is in [kb1]. *)
Definition idle (hash : KnowledgeStatement → Z) (ai : AI.MinesweeperAI) (kb1 : list loc)
    (vs : list KnowledgeStatement) (s : list AI.entry) : Prop :=
  let h := AI.objects ai in
  valid h kb1 ∧
  (∃ extra, AI.knowledge_base ai = kb1 ++ extra ∧ valid h extra ∧
     ∀ l, l ∈ extra → KS.cell_positions (deref h l) = ∅ ∨ deref h l ∈ vals h kb1) ∧
  purged h kb1 ∧
  AI.collect h kb1 = (∅, ∅) ∧
  set_valid h s ∧ live hash h s ∧
  (∀ x, x ∈ vals h kb1 → x ∈ key_vals h s) ∧
  (∀ x, x ∈ vs → KS.cell_positions x ≠ ∅ → x ∈ vals h kb1).

(** The solver states a game can reach: the constructor, then any sequence of
    the solver's operations ([hash] is the hash of statements, [fuel] bounds
    the passes of an ingestion that returns). *)
Inductive reachable (hash : KnowledgeStatement → Z) : AI.MinesweeperAI → Prop :=
| reachable_init grid_size name policy :
    reachable hash (AI.init grid_size name policy).1
| reachable_add_knowledge fuel cell count ai ai' :
    reachable hash ai → AI.add_knowledge hash fuel cell count ai = Some ai' →
    reachable hash ai'
| reachable_mark_mine cell ai :
    reachable hash ai → reachable hash (AI.mark_cell_as_mine cell ai)
| reachable_mark_safe cell ai :
    reachable hash ai → reachable hash (AI.mark_cell_as_safe cell ai)
| reachable_make_safe_move r ai :
    reachable hash ai → reachable hash (AI.make_safe_move r ai).2.

(** The cell sets of a run that never stops (see [propagation_diverges]), on
    a 3 x 3 grid: the neighbours of the corner [(0,0)] other than the centre,
    the other neighbours of the centre [(1,1)] but for the corner, and both
    together. *)
Definition corner_cells : gset Cell := {[ (0,1); (1,0) ]}.
Definition far_cells : gset Cell := {[ (0,2); (1,2); (2,0); (2,1); (2,2) ]}.
Definition ring_cells : gset Cell := corner_cells ∪ far_cells.

(** The statements that run goes through: the two contradicting statements
    about the ring, and statements about the corner cells and about the far
    cells whose counts are 1 modulo 3; besides, statements without cells. *)
Definition runaway (s : KnowledgeStatement) : Prop :=
  KS.cell_positions s = ∅ ∨
  (KS.cell_positions s = ring_cells ∧ (KS.mine_count s = 2 ∨ KS.mine_count s = 5)) ∨
  ((KS.cell_positions s = corner_cells ∨ KS.cell_positions s = far_cells) ∧
   KS.mine_count s `mod` 3 = 1).

(** The states of that run, at the start of a pass. *)
Definition runaway_inv (hash : KnowledgeStatement → Z) (ai : AI.MinesweeperAI)
    (s : list AI.entry) : Prop :=
  AI.search_algorithm_method ai = Search.BruteForce ∧
  valid (AI.objects ai) (AI.knowledge_base ai) ∧
  set_valid (AI.objects ai) s ∧
  live hash (AI.objects ai) s ∧
  Forall runaway (vals (AI.objects ai) (AI.knowledge_base ai)) ∧
  KS.mk ring_cells 2 ∈ vals (AI.objects ai) (AI.knowledge_base ai) ∧
  KS.mk ring_cells 5 ∈ vals (AI.objects ai) (AI.knowledge_base ai) ∧
  KS.mk corner_cells 1 ∈ vals (AI.objects ai) (AI.knowledge_base ai) ∧
  ∀ v, v ∈ key_vals (AI.objects ai) s → KS.cell_positions v ≠ ∅ →
       v ∈ vals (AI.objects ai) (AI.knowledge_base ai).

(** A statement is true on a mine layout [B] when its count is the number of
    its cells that are mines. *)
Definition true_on (B : gset Cell) (s : KnowledgeStatement) : Prop :=
  KS.mine_count s = Z.of_nat (size (KS.cell_positions s ∩ B)).

(** The queue of safe cells in a state the solver can reach: no cell twice,
    only cells known to be safe; and every played cell is known to be safe. *)
Definition queue_ok (ai : AI.MinesweeperAI) : Prop :=
  NoDup (AI.safe_cell_queue ai) ∧
  (∀ c, c ∈ AI.safe_cell_queue ai → c ∈ AI.identified_safe_cells ai) ∧
  AI.moves_made ai ⊆ AI.identified_safe_cells ai.

(** A solver state agrees with a mine layout [B] when every statement of the
    knowledge base is true on [B], every identified mine is a mine of [B] and
    no identified safe cell is. *)
Definition agrees (B : gset Cell) (ai : AI.MinesweeperAI) : Prop :=
  Forall (true_on B) (vals (AI.objects ai) (AI.knowledge_base ai)) ∧
  AI.identified_mines ai ⊆ B ∧
  AI.identified_safe_cells ai ## B.

(** A board of the right shape: [grid_size] rows of [grid_size] cells; and
    the mines it shows, as a set of cells of the grid. *)
Definition board_ok (g : Game.MinesweeperGame) : Prop :=
  length (Game.board g) = Z.to_nat (Game.grid_size g) ∧
  Forall (λ r, length r = Z.to_nat (Game.grid_size g)) (Game.board g).

Definition mines_of (g : Game.MinesweeperGame) : gset Cell :=
  list_to_set (filter (λ p, Game.contains_mine g p = Some true)
                      (AI.all_cells (Game.grid_size g))).

(** A game the runner can play on: a board of the right shape, with
    [mine_positions] the cells of the grid at which the board shows a mine
    (what [_load_existing_mines] computes). *)
Definition game_ok (g : Game.MinesweeperGame) : Prop :=
  board_ok g ∧
  ∀ p : Cell, p ∈ Game.mine_positions g ↔
              (0 ≤ p.1 < Game.grid_size g ∧ 0 ≤ p.2 < Game.grid_size g) ∧
              Game.contains_mine g p = Some true.

(** The cells the statements of the knowledge base mention. *)
Definition kb_cells (ai : AI.MinesweeperAI) : gset Cell :=
  ⋃ (map KS.cell_positions (vals (AI.objects ai) (AI.knowledge_base ai))).

(** The sublists of a list, and the statements about cells of a set [C]
    that are true on a mine layout [B]: one for each subset of [C]. *)
Fixpoint sublists {A} (l : list A) : list (list A) :=
  match l with
  | [] => [[]]
  | x :: l => sublists l ++ map (cons x) (sublists l)
  end.

Definition true_statements (B C : gset Cell) : list KnowledgeStatement :=
  map (λ p : list Cell, KS.mk (list_to_set p) (Z.of_nat (size (list_to_set p ∩ B))))
      (sublists (elements C)).

(** A statement about cells of [C] that is true on the layout [B]. *)
Definition true_within (B C : gset Cell) (s : KnowledgeStatement) : Prop :=
  true_on B s ∧ KS.cell_positions s ⊆ C.

(** Whether a lookup in a set of statement objects finds the value [v], and
    the number of values of a list that a lookup does not find. *)
Definition findable (hash : KnowledgeStatement → Z) (h : heap) (s : list AI.entry)
    (v : KnowledgeStatement) : bool :=
  existsb (λ e, (AI.entry_hash e =? hash v) && bool_decide (deref h (AI.entry_key e) = v)) s.

Definition unfound (hash : KnowledgeStatement → Z) (h : heap) (s : list AI.entry)
    (U : list KnowledgeStatement) : nat :=
  length (filter (λ v, findable hash h s v = false) U).

(** What the loop of [add_knowledge] keeps from pass to pass when the counts
    are those of a layout [B] ([C] are the cells the knowledge base mentions
    when the loop starts), and the measure that a pass lowers when it asks
    for another one: the cells still mentioned, then the true statements
    that a lookup in [inferred_set] does not find. *)
Definition pass_inv (hash : KnowledgeStatement → Z) (B C : gset Cell) (cell : Cell)
    (count : Z) (x : AI.MinesweeperAI) (s : list AI.entry) : Prop :=
  wf_ai x ∧ set_valid (AI.objects x) s ∧ set_inv hash x s ∧ target_inv x cell count ∧
  agrees B x ∧ kb_cells x ⊆ C.

Definition pass_measure (hash : KnowledgeStatement → Z) (B C : gset Cell)
    (x : AI.MinesweeperAI) (s : list AI.entry) : nat :=
  size (kb_cells x) * S (length (true_statements B C))
  + unfound hash (AI.objects x) s (true_statements B C).

(** The cells of a grid, and a game in play: a board of the right shape with
    its mines, a solver for a grid of that size that the game can have
    reached and that agrees with the mines, flags on mines only, and a
    starting position, safe cells and statements that are all about cells of
    the grid. *)
Definition grid_cells (n : Z) : gset Cell := list_to_set (AI.all_cells n).

Definition in_play (hash : KnowledgeStatement → Z) (g : Game.MinesweeperGame)
    (ai : AI.MinesweeperAI) : Prop :=
  game_ok g ∧
  AI.grid_size ai = Game.grid_size g ∧
  reachable hash ai ∧
  agrees (Game.mine_positions g) ai ∧
  Game.flagged_mine_positions g ⊆ Game.mine_positions g ∧
  Game.starting_position g ∈ grid_cells (Game.grid_size g) ∧
  AI.identified_safe_cells ai ⊆ grid_cells (AI.grid_size ai) ∧
  kb_cells ai ⊆ grid_cells (AI.grid_size ai).


(*PROPERTIES*)
(* ===================================================================== *)
(** ** Properties *)
(* ===================================================================== *)

(** *** The object store *)

Lemma deref_app (h ext : heap) (l : loc) : (l < length h)%nat → deref (h ++ ext) l = deref h l.
Proof. intros Hl. unfold deref. by rewrite lookup_total_app_l. Qed.

Lemma deref_new (h : heap) (s : KnowledgeStatement) : deref (h ++ [s]) (length h) = s.
Proof. unfold deref. rewrite lookup_total_app_r by lia. by rewrite Nat.sub_diag. Qed.

Lemma vals_app_heap (h ext : heap) (l : list loc) : valid h l → vals (h ++ ext) l = vals h l.
Proof.
  unfold valid, vals. induction 1 as [|x l Hx Hl IH]; simpl; [done|].
  by rewrite deref_app, IH.
Qed.

Lemma valid_app_heap (h ext : heap) (l : list loc) : valid h l → valid (h ++ ext) l.
Proof.
  unfold valid. intros H. eapply Forall_impl; [exact H|].
  intros x Hx. simpl in *. rewrite length_app. lia.
Qed.

Lemma list_contains_vals (h : heap) (lst : list loc) (x : loc) :
  list_contains h lst x = bool_decide (deref h x ∈ vals h lst).
Proof.
  unfold list_contains, vals. induction lst as [|l lst IH].
  - done.
  - cbn [existsb map]. rewrite IH. destruct (decide (deref h l = deref h x)) as [E|NE].
    + rewrite (bool_decide_eq_true_2 _ E). simpl. symmetry.
      apply bool_decide_eq_true_2. rewrite E. apply list_elem_of_here.
    + rewrite (bool_decide_eq_false_2 _ NE). simpl.
      apply bool_decide_ext. rewrite elem_of_cons. intuition congruence.
Qed.

(** *** brute_force_search on values *)

Lemma bf_body_sim (a b : loc) (h : heap) (inf : list loc) (cmp : Z) :
  (a < length h)%nat → (b < length h)%nat → valid h inf →
  ∃ ext inf', Search.bf_body a b (h, inf, cmp) = (h ++ ext, inf ++ inf', cmp + 1) ∧
    valid (h ++ ext) (inf ++ inf') ∧
    Forall (λ l, (length h ≤ l)%nat) inf' ∧
    vals (h ++ ext) (inf ++ inf') = bf_values_body (deref h a) (deref h b) (vals h inf).
Proof.
  intros Ha Hb Hv. unfold Search.bf_body, bf_values_body, emit, Search.cells, Search.count,
    KS.get_cell_positions, KS.get_mine_count, new_statement.
  destruct (Search.issubset _ _).
  - rewrite list_contains_vals, deref_new, (vals_app_heap _ _ _ Hv).
    fold (derive (deref h a) (deref h b)).
    case_bool_decide as Hin; simpl.
    + exists [derive (deref h a) (deref h b)], []. rewrite !app_nil_r.
      split_and!; [done| by apply valid_app_heap | constructor | by apply vals_app_heap].
    + exists [derive (deref h a) (deref h b)], [length h].
      split_and!; [done| | by repeat constructor |].
      * apply Forall_app. split; [by apply valid_app_heap|].
        repeat constructor. rewrite length_app. simpl. lia.
      * unfold vals. rewrite map_app. simpl. rewrite deref_new.
        f_equal. by apply vals_app_heap.
  - exists [], []. rewrite !app_nil_r. split_and!; [done|done|constructor|done].
Qed.

Lemma bf_inner_sim (a : loc) (bs : list loc) : ∀ (h : heap) (inf : list loc) (cmp : Z),
  (a < length h)%nat → valid h bs → valid h inf →
  ∃ ext inf',
    foldl (λ st b, Search.bf_body a b st) (h, inf, cmp) bs
      = (h ++ ext, inf ++ inf', cmp + Z.of_nat (length bs)) ∧
    valid (h ++ ext) (inf ++ inf') ∧
    Forall (λ l, (length h ≤ l)%nat) inf' ∧
    vals (h ++ ext) (inf ++ inf')
      = foldl (λ acc b, bf_values_body (deref h a) b acc) (vals h inf) (vals h bs).
Proof.
  induction bs as [|b bs IH]; intros h inf cmp Ha Hbs Hinf.
  - exists [], []. rewrite !app_nil_r. simpl. rewrite Z.add_0_r.
    split_and!; [done|done|constructor|done].
  - apply Forall_cons in Hbs as [Hb Hbs].
    destruct (bf_body_sim a b h inf cmp Ha Hb Hinf) as (e1 & i1 & E1 & V1 & F1 & S1).
    destruct (IH (h ++ e1) (inf ++ i1) (cmp + 1)) as (e2 & i2 & E2 & V2 & F2 & S2).
    { rewrite length_app. lia. } { by apply valid_app_heap. } { done. }
    exists (e1 ++ e2), (i1 ++ i2). rewrite !app_assoc. cbn [foldl length vals map].
    rewrite E1, E2. split_and!.
    + f_equal. lia.
    + done.
    + apply Forall_app. split; [done|].
      eapply Forall_impl; [exact F2|]. intros l. simpl. rewrite length_app. lia.
    + rewrite S2, S1. rewrite (deref_app _ _ _ Ha), (vals_app_heap _ _ _ Hbs). done.
Qed.

Lemma bf_outer_sim (kb : list loc) (as_ : list loc) : ∀ (h : heap) (inf : list loc) (cmp : Z),
  valid h as_ → valid h kb → valid h inf →
  ∃ ext inf' cmp',
    foldl (λ st a, foldl (λ st b, Search.bf_body a b st) st kb) (h, inf, cmp) as_
      = (h ++ ext, inf ++ inf', cmp') ∧
    valid (h ++ ext) (inf ++ inf') ∧
    Forall (λ l, (length h ≤ l)%nat) inf' ∧
    vals (h ++ ext) (inf ++ inf')
      = foldl (λ acc a, foldl (λ acc b, bf_values_body a b acc) acc (vals h kb))
              (vals h inf) (vals h as_).
Proof.
  induction as_ as [|a as_ IH]; intros h inf cmp Has Hkb Hinf.
  - exists [], [], cmp. rewrite !app_nil_r. split_and!; [done|done|constructor|done].
  - apply Forall_cons in Has as [Ha Has].
    destruct (bf_inner_sim a kb h inf cmp Ha Hkb Hinf) as (e1 & i1 & E1 & V1 & F1 & S1).
    destruct (IH (h ++ e1) (inf ++ i1) (cmp + Z.of_nat (length kb)))
      as (e2 & i2 & c2 & E2 & V2 & F2 & S2).
    { by apply valid_app_heap. } { by apply valid_app_heap. } { done. }
    exists (e1 ++ e2), (i1 ++ i2), c2. rewrite !app_assoc. cbn [foldl vals map].
    rewrite E1, E2. split_and!.
    + done.
    + done.
    + apply Forall_app. split; [done|].
      eapply Forall_impl; [exact F2|]. intros l. simpl. rewrite length_app. lia.
    + rewrite S2, S1. rewrite (vals_app_heap _ _ _ Has), (vals_app_heap _ _ _ Hkb). done.
Qed.

(** [brute_force_search] only allocates: the store is extended, the list it was
    handed comes back as it was, every returned reference is a fresh object, and
    the returned values are [bf_values] of the input values. *)
Lemma brute_force_search_sim (stats : StatGenerator) (h : heap) (kb : list loc) (cmp : Z) :
  valid h kb →
  let r := Search.brute_force_search stats h kb cmp in
  (∃ ext, Search.r_heap r = h ++ ext) ∧
  Search.r_knowledge_base r = kb ∧
  valid (Search.r_heap r) (Search.r_inferred r) ∧
  Forall (λ l, (length h ≤ l)%nat) (Search.r_inferred r) ∧
  vals (Search.r_heap r) (Search.r_inferred r) = bf_values (vals h kb).
Proof.
  intros Hkb. unfold Search.brute_force_search.
  destruct (bf_outer_sim kb kb h [] cmp Hkb Hkb) as (ext & inf & c & E & V & F & S).
  { constructor. }
  rewrite E. simpl in *. split_and!; eauto.
Qed.

Lemma bf_values_body_mono a b acc x : x ∈ acc → x ∈ bf_values_body a b acc.
Proof.
  unfold bf_values_body, emit. intros Hx.
  destruct (Search.issubset _ _); [|done].
  case_bool_decide; [done|]. apply elem_of_app. by left.
Qed.

Lemma bf_values_body_hit a b acc :
  KS.cell_positions a ⊆ KS.cell_positions b → derive a b ∈ bf_values_body a b acc.
Proof.
  unfold bf_values_body, emit, Search.issubset. intros Hab.
  rewrite bool_decide_eq_true_2 by done.
  case_bool_decide; [done|]. apply elem_of_app. right. apply list_elem_of_here.
Qed.

Lemma bf_values_body_inv a b acc x :
  x ∈ bf_values_body a b acc →
  x ∈ acc ∨ (x = derive a b ∧ KS.cell_positions a ⊆ KS.cell_positions b).
Proof.
  unfold bf_values_body, emit, Search.issubset.
  case_bool_decide as Hab; [|by left].
  case_bool_decide; [by left|].
  rewrite elem_of_app, list_elem_of_singleton. intuition.
Qed.

Lemma bf_values_body_NoDup a b acc : NoDup acc → NoDup (bf_values_body a b acc).
Proof.
  unfold bf_values_body, emit. intros Hnd.
  destruct (Search.issubset _ _); [|done].
  case_bool_decide as Hin; [done|].
  apply NoDup_app. split_and!; [done| |apply NoDup_singleton].
  intros x Hx Hx'. apply list_elem_of_singleton in Hx'. by subst.
Qed.

Lemma bf_inner_mono a bs : ∀ acc x,
  x ∈ acc → x ∈ foldl (λ acc b, bf_values_body a b acc) acc bs.
Proof.
  induction bs as [|b bs IH]; intros acc x Hx; simpl; [done|].
  by apply IH, bf_values_body_mono.
Qed.

Lemma bf_inner_hit a bs b : ∀ acc,
  b ∈ bs → KS.cell_positions a ⊆ KS.cell_positions b →
  derive a b ∈ foldl (λ acc b, bf_values_body a b acc) acc bs.
Proof.
  induction bs as [|b' bs IH]; intros acc Hb Hab; simpl.
  - by apply elem_of_nil in Hb.
  - apply elem_of_cons in Hb as [->|Hb].
    + by apply bf_inner_mono, bf_values_body_hit.
    + by apply IH.
Qed.

Lemma bf_inner_inv a bs x : ∀ acc,
  x ∈ foldl (λ acc b, bf_values_body a b acc) acc bs →
  x ∈ acc ∨ ∃ b, b ∈ bs ∧ KS.cell_positions a ⊆ KS.cell_positions b ∧ x = derive a b.
Proof.
  induction bs as [|b' bs IH]; intros acc Hx; simpl in Hx; [by left|].
  apply IH in Hx as [Hx|(b & Hb & Hab & ->)].
  - apply bf_values_body_inv in Hx as [Hx|[-> Hab]]; [by left|].
    right. exists b'. split_and!; [apply list_elem_of_here|done|done].
  - right. exists b. split_and!; [by apply list_elem_of_further|done|done].
Qed.

Lemma bf_inner_NoDup a bs : ∀ acc,
  NoDup acc → NoDup (foldl (λ acc b, bf_values_body a b acc) acc bs).
Proof.
  induction bs as [|b bs IH]; intros acc Hnd; simpl; [done|].
  by apply IH, bf_values_body_NoDup.
Qed.

Lemma bf_outer_mono kb as_ : ∀ acc x,
  x ∈ acc → x ∈ foldl (λ acc a, foldl (λ acc b, bf_values_body a b acc) acc kb) acc as_.
Proof.
  induction as_ as [|a as_ IH]; intros acc x Hx; simpl; [done|].
  by apply IH, bf_inner_mono.
Qed.

Lemma bf_outer_hit kb as_ a b : ∀ acc,
  a ∈ as_ → b ∈ kb → KS.cell_positions a ⊆ KS.cell_positions b →
  derive a b ∈ foldl (λ acc a, foldl (λ acc b, bf_values_body a b acc) acc kb) acc as_.
Proof.
  induction as_ as [|a' as_ IH]; intros acc Ha Hb Hab; simpl.
  - by apply elem_of_nil in Ha.
  - apply elem_of_cons in Ha as [->|Ha].
    + by apply bf_outer_mono, bf_inner_hit.
    + by apply IH.
Qed.

Lemma bf_outer_inv kb as_ x : ∀ acc,
  x ∈ foldl (λ acc a, foldl (λ acc b, bf_values_body a b acc) acc kb) acc as_ →
  x ∈ acc ∨ ∃ a b, a ∈ as_ ∧ b ∈ kb ∧
                   KS.cell_positions a ⊆ KS.cell_positions b ∧ x = derive a b.
Proof.
  induction as_ as [|a' as_ IH]; intros acc Hx; simpl in Hx; [by left|].
  apply IH in Hx as [Hx|(a & b & Ha & Hb & Hab & ->)].
  - apply bf_inner_inv in Hx as [Hx|(b & Hb & Hab & ->)]; [by left|].
    right. exists a', b. split_and!; [apply list_elem_of_here|done|done|done].
  - right. exists a, b. split_and!; [by apply list_elem_of_further|done|done|done].
Qed.

Lemma bf_outer_NoDup kb as_ : ∀ acc,
  NoDup acc → NoDup (foldl (λ acc a, foldl (λ acc b, bf_values_body a b acc) acc kb) acc as_).
Proof.
  induction as_ as [|a as_ IH]; intros acc Hnd; simpl; [done|].
  by apply IH, bf_inner_NoDup.
Qed.

(** The value-level exhaustive search is complete and sound for the rule, and
    its output has no repetition. *)
Lemma bf_values_complete kb a b :
  a ∈ kb → b ∈ kb → KS.cell_positions a ⊆ KS.cell_positions b → derive a b ∈ bf_values kb.
Proof. apply bf_outer_hit. Qed.

Lemma bf_values_sound kb x :
  x ∈ bf_values kb →
  ∃ a b, a ∈ kb ∧ b ∈ kb ∧ KS.cell_positions a ⊆ KS.cell_positions b ∧ x = derive a b.
Proof.
  intros Hx. apply bf_outer_inv in Hx as [Hx|Hx]; [|done]. by apply elem_of_nil in Hx.
Qed.

Lemma bf_values_NoDup kb : NoDup (bf_values kb).
Proof. apply bf_outer_NoDup, NoDup_nil_2. Qed.

Lemma elem_of_vals (h : heap) (l : list loc) (x : loc) : x ∈ l → deref h x ∈ vals h l.
Proof. intros Hx. unfold vals. apply list_elem_of_fmap. eauto. Qed.

Lemma elem_of_vals_inv (h : heap) (l : list loc) (s : KnowledgeStatement) :
  s ∈ vals h l → ∃ x, x ∈ l ∧ deref h x = s.
Proof.
  unfold vals. intros Hs. apply list_elem_of_fmap in Hs as (x & -> & Hx). eauto.
Qed.

(** C5 -- Exhaustive strategy correctness.  For every two statements [A], [B]
    of the store handed to [brute_force_search] with [A.cells ⊆ B.cells], the
    returned list holds an object whose fields are
    [(B.cells − A.cells, B.mine_count − A.mine_count)], and no two returned
    objects are structurally equal. *)
Theorem exhaustive_strategy_correct (stats : StatGenerator) (h : heap)
    (knowledge_base : list loc) (subset_comparisons : Z) (A B : loc) :
  valid h knowledge_base →
  A ∈ knowledge_base → B ∈ knowledge_base →
  Search.cells h A ⊆ Search.cells h B →
  let r := Search.brute_force_search stats h knowledge_base subset_comparisons in
  (∃ l, l ∈ Search.r_inferred r ∧
        deref (Search.r_heap r) l
          = KS.mk (Search.cells h B ∖ Search.cells h A) (Search.count h B - Search.count h A)) ∧
  NoDup (vals (Search.r_heap r) (Search.r_inferred r)).
Proof.
  intros Hv HA HB Hsub r.
  destruct (brute_force_search_sim stats h knowledge_base subset_comparisons Hv)
    as (_ & _ & _ & _ & Hvals).
  fold r in Hvals. split.
  - assert (Hin : derive (deref h A) (deref h B) ∈ vals (Search.r_heap r) (Search.r_inferred r)).
    { rewrite Hvals. apply bf_values_complete; [by apply elem_of_vals..|done]. }
    apply elem_of_vals_inv in Hin as (l & Hl & Hd). by exists l.
  - rewrite Hvals. apply bf_values_NoDup.
Qed.

(** The example of the specification: from the store
    [{(0,0),(0,1)}=1, {(0,0),(0,1),(0,2)}=2] the exhaustive strategy infers
    [{(0,2)}=1]. *)
Lemma exhaustive_strategy_example :
  let h := [KS.mk {[ (0,0); (0,1) ]} 1; KS.mk {[ (0,0); (0,1); (0,2) ]} 2] in
  let r := Search.brute_force_search (Stat.init 3) h [0%nat; 1%nat] 0 in
  ∃ l, l ∈ Search.r_inferred r ∧ deref (Search.r_heap r) l = KS.mk {[ (0,2) ]} 1.
Proof.
  intros h r.
  destruct (exhaustive_strategy_correct (Stat.init 3) h [0%nat; 1%nat] 0 0%nat 1%nat)
    as [(l & Hl & Hd) _].
  - repeat constructor.
  - apply list_elem_of_here.
  - apply list_elem_of_further, list_elem_of_here.
  - apply (bool_decide_unpack _). vm_compute. exact I.
  - exists l. split; [exact Hl|]. etrans; [exact Hd|]. vm_compute. reflexivity.
Defined.

(** *** KnowledgeStatement *)

(** C6 -- Constraint mutation contract.  On a cell the statement contains,
    [mark_cell_as_mine] drops the cell and decrements the count by one and
    [mark_cell_as_safe] drops the cell only; on a cell it does not contain
    both leave the statement as it is; both are idempotent. *)
Theorem mutation_contract (s : KnowledgeStatement) (cell : Cell) :
  (cell ∈ KS.cell_positions s →
     KS.cell_positions (KS.mark_cell_as_mine cell s) = KS.cell_positions s ∖ {[cell]} ∧
     KS.mine_count (KS.mark_cell_as_mine cell s) = KS.mine_count s - 1 ∧
     KS.cell_positions (KS.mark_cell_as_safe cell s) = KS.cell_positions s ∖ {[cell]} ∧
     KS.mine_count (KS.mark_cell_as_safe cell s) = KS.mine_count s ∧
     size (KS.cell_positions (KS.mark_cell_as_mine cell s)) = Nat.pred (size (KS.cell_positions s))) ∧
  (cell ∉ KS.cell_positions s →
     KS.mark_cell_as_mine cell s = s ∧ KS.mark_cell_as_safe cell s = s) ∧
  KS.mark_cell_as_mine cell (KS.mark_cell_as_mine cell s) = KS.mark_cell_as_mine cell s ∧
  KS.mark_cell_as_safe cell (KS.mark_cell_as_safe cell s) = KS.mark_cell_as_safe cell s.
Proof.
  unfold KS.mark_cell_as_mine, KS.mark_cell_as_safe. split_and!.
  - intros Hin. rewrite !decide_True by done. simpl. split_and!; try done.
    rewrite size_difference by (apply singleton_subseteq_l; done).
    rewrite size_singleton. lia.
  - intros Hnin. by rewrite !decide_False by done.
  - destruct (decide (cell ∈ KS.cell_positions s)) as [Hin|Hnin]; simpl.
    + rewrite decide_False; [done|]. set_solver.
    + by rewrite decide_False.
  - destruct (decide (cell ∈ KS.cell_positions s)) as [Hin|Hnin]; simpl.
    + rewrite decide_False; [done|]. set_solver.
    + by rewrite decide_False.
Qed.

(** *** The selectors *)

Lemma not_in_keys (name key : string) (keys : list string) :
  name ∉ keys → key ∈ keys → key ≠ name.
Proof. intros Hn Hk ->. done. Qed.

(** C9 -- Unknown-key fallback.  A strategy name that is none of the seven
    keys selects the brute-force method and prints the fallback message; a
    policy name that is none of the four keys selects FIFO and prints its
    message; a solver built with two such names is the brute-force/FIFO solver
    and both messages are printed. *)
Theorem unknown_key_fallback (grid_size : Z) (algorithm_name strategy_name : string) :
  algorithm_name ∉ ["brute_force"; "divide_and_conquer"; "dynamic_programming";
                    "greedy_algorithm_size"; "greedy_algorithm_minecount"; "bfs"; "dfs"] →
  strategy_name ∉ ["First In, First Out"; "Last In, First Out"; "Sorted by position";
                   "Random"] →
  Search.select_algorithm algorithm_name
    = (Search.BruteForce,
       ["ERROR: Algorithm '" +:+ algorithm_name +:+ "' not found, defaulting to Brute Force"]) ∧
  SafeCell.select_strategy strategy_name
    = (SafeCell.SelectFifo,
       ["ERROR: Strategy '" +:+ strategy_name +:+ "' not found, defaulting to FIFO"]) ∧
  AI.init grid_size algorithm_name strategy_name
    = (AI.mk grid_size ∅ ∅ ∅ [] [] (Stat.init grid_size)
             Search.BruteForce SafeCell.SelectFifo [],
       ["ERROR: Algorithm '" +:+ algorithm_name +:+ "' not found, defaulting to Brute Force";
        "ERROR: Strategy '" +:+ strategy_name +:+ "' not found, defaulting to FIFO"]).
Proof.
  intros Ha Hs.
  assert (E1 : Search.algorithms !! algorithm_name = None).
  { unfold Search.algorithms.
    rewrite !lookup_insert_ne; [apply lookup_empty|..];
      (eapply not_in_keys; [exact Ha|]); set_solver. }
  assert (E2 : SafeCell.strategies !! strategy_name = None).
  { unfold SafeCell.strategies.
    rewrite !lookup_insert_ne; [apply lookup_empty|..];
      (eapply not_in_keys; [exact Hs|]); set_solver. }
  unfold AI.init, Search.select_algorithm, SafeCell.select_strategy.
  rewrite E1, E2. done.
Qed.

(** The constructor's own defaults: ["BFS"] is not a key of the table (the key
    is ["bfs"]), so the default solver runs the brute-force method. *)
Lemma unknown_key_fallback_default :
  (Search.select_algorithm "BFS").1 = Search.BruteForce ∧
  (SafeCell.select_strategy "FIFO").1 = SafeCell.SelectFifo ∧
  length (AI.init 16 "BFS" "FIFO").2 = 2%nat.
Proof.
  destruct (unknown_key_fallback 16 "BFS" "FIFO") as (E1 & E2 & E3).
  - set_solver.
  - set_solver.
  - rewrite E1, E2, E3. done.
Defined.

(** *** Python sets of statements *)

Section PySet.
Context (hash : KnowledgeStatement → Z).

Lemma set_contains_live (h : heap) (s : list AI.entry) (x : loc) :
  live hash h s →
  AI.set_contains hash h s x = bool_decide (deref h x ∈ key_vals h s).
Proof.
  unfold AI.set_contains, key_vals, vals, live.
  induction 1 as [|e s He Hs IH]; [done|].
  cbn [existsb map]. rewrite IH. unfold AI.entry_matches. rewrite He.
  destruct (bool_decide_reflect (deref h (AI.entry_key e) = deref h x)) as [E|NE].
  - rewrite E, Z.eqb_refl. simpl. symmetry.
    apply bool_decide_eq_true_2, list_elem_of_here.
  - rewrite andb_false_r. simpl.
    apply bool_decide_ext. rewrite elem_of_cons. intuition congruence.
Qed.

Lemma set_add_live (h : heap) (s : list AI.entry) (x : loc) :
  live hash h s → live hash h (AI.set_add hash h s x).
Proof.
  intros Hl. unfold AI.set_add. destruct (AI.set_contains _ _ _ _); [done|].
  apply Forall_app. split; [done|]. by repeat constructor.
Qed.

Lemma set_add_key_vals (h : heap) (s : list AI.entry) (x : loc) :
  live hash h s →
  key_vals h (AI.set_add hash h s x)
    = if bool_decide (deref h x ∈ key_vals h s) then key_vals h s
      else key_vals h s ++ [deref h x].
Proof.
  intros Hl. unfold AI.set_add. rewrite set_contains_live by done.
  case_bool_decide; [done|]. unfold key_vals, vals. by rewrite !map_app.
Qed.

Lemma set_update_live (h : heap) (l : list loc) : ∀ s,
  live hash h s → live hash h (AI.set_update hash h s l).
Proof.
  unfold AI.set_update. induction l as [|x l IH]; intros s Hs; simpl; [done|].
  by apply IH, set_add_live.
Qed.

Lemma set_update_key_vals (h : heap) (l : list loc) : ∀ s v,
  live hash h s →
  v ∈ key_vals h (AI.set_update hash h s l) ↔ v ∈ key_vals h s ∨ v ∈ vals h l.
Proof.
  unfold AI.set_update. induction l as [|x l IH]; intros s v Hs; simpl.
  - rewrite elem_of_nil. tauto.
  - rewrite IH by (by apply set_add_live). rewrite set_add_key_vals by done.
    rewrite elem_of_cons. case_bool_decide as Hin.
    + split; [tauto|]. intros [?|[->|?]]; tauto.
    + rewrite elem_of_app, list_elem_of_singleton. tauto.
Qed.

Lemma set_update_NoDup (h : heap) (l : list loc) : ∀ s,
  live hash h s → NoDup (key_vals h s) → NoDup (key_vals h (AI.set_update hash h s l)).
Proof.
  unfold AI.set_update. induction l as [|x l IH]; intros s Hs Hnd; simpl; [done|].
  apply IH; [by apply set_add_live|]. rewrite set_add_key_vals by done.
  case_bool_decide as Hin; [done|].
  apply NoDup_app. split_and!; [done| |apply NoDup_singleton].
  intros v Hv Hv'. apply list_elem_of_singleton in Hv'. by subst.
Qed.

Lemma set_remove_live (h : heap) (s : list AI.entry) (x : loc) :
  live hash h s → live hash h (AI.set_remove hash h s x).
Proof.
  unfold live. induction 1 as [|e s He Hs IH]; simpl; [constructor|].
  destruct (AI.entry_matches _ _ _ _); [done|]. by constructor.
Qed.

Lemma set_remove_key_vals (h : heap) (s : list AI.entry) (x : loc) :
  live hash h s → NoDup (key_vals h s) →
  NoDup (key_vals h (AI.set_remove hash h s x)) ∧
  (∀ v, v ∈ key_vals h (AI.set_remove hash h s x) ↔ v ∈ key_vals h s ∧ v ≠ deref h x).
Proof.
  unfold live, key_vals, vals. induction 1 as [|e s He Hs IH]; intros Hnd.
  - simpl. split; [constructor|]. intros v. rewrite elem_of_nil. tauto.
  - cbn [map] in Hnd. apply NoDup_cons in Hnd as [Hne Hnd].
    destruct (IH Hnd) as [IH1 IH2]. cbn [AI.set_remove]. unfold AI.entry_matches.
    rewrite He.
    destruct (bool_decide_reflect (deref h (AI.entry_key e) = deref h x)) as [E|NE].
    + rewrite E, Z.eqb_refl. simpl.
      split; [done|]. intros v. rewrite elem_of_cons, E. split.
      * intros Hv. split; [by right|]. intros ->. by rewrite E in Hne.
      * intros [[?|?] ?]; [done|done].
    + rewrite andb_false_r. cbn [map].
      split.
      * apply NoDup_cons. split; [|done]. rewrite IH2. tauto.
      * intros v. rewrite !elem_of_cons, IH2. split; [|tauto].
        intros [->|[? ?]]; [|tauto]. split; [by left|done].
Qed.

End PySet.

(** *** remove_empty_and_duplicate_statements *)

Section Purge.
Context (hash : KnowledgeStatement → Z).

Lemma purge_fold_spec (h : heap) (V : list KnowledgeStatement) (rest : list loc) :
  ∀ (seen : list KnowledgeStatement) (S : list AI.entry) (cleaned : list loc) (dup : Z),
  live hash h S → NoDup (key_vals h S) →
  (∀ v, v ∈ key_vals h S ↔ v ∈ V ∧ v ∉ seen) →
  (∀ x, x ∈ rest → deref h x ∈ V) →
  ∃ S', foldl (AI.purge_step hash h) (S, cleaned, dup) rest
        = (S', cleaned ++ (purge_spec h seen rest).1, dup + (purge_spec h seen rest).2).
Proof.
  induction rest as [|x rest IH]; intros seen S cleaned dup Hl Hnd HS HV.
  - exists S. simpl. by rewrite app_nil_r, Z.add_0_r.
  - cbn [foldl purge_spec]. unfold AI.purge_step at 2.
    assert (Hx : deref h x ∈ V) by (apply HV, list_elem_of_here).
    assert (HV' : ∀ y, y ∈ rest → deref h y ∈ V)
      by (intros y Hy; by apply HV, list_elem_of_further).
    destruct (KS.nonempty (deref h x)); [|by apply IH].
    rewrite set_contains_live by done.
    destruct (bool_decide_reflect (deref h x ∈ seen)) as [Hseen|Hseen].
    + rewrite bool_decide_eq_false_2 by (rewrite HS; tauto). simpl.
      destruct (IH seen S cleaned (dup + 1) Hl Hnd HS HV') as [S' ->].
      exists S'. f_equal. lia.
    + rewrite bool_decide_eq_true_2 by (rewrite HS; tauto). simpl.
      destruct (set_remove_key_vals hash h S x Hl Hnd) as [Hnd' Hrm].
      destruct (IH (deref h x :: seen) (AI.set_remove hash h S x) (cleaned ++ [x]) dup)
        as [S' ->]; [by apply set_remove_live|done| |done|].
      * intros v. rewrite Hrm, HS, not_elem_of_cons. tauto.
      * exists S'. by rewrite <- app_assoc.
Qed.

Lemma purge_is_spec (h : heap) (kb : list loc) : AI.purge hash h kb = purge_spec h [] kb.
Proof.
  unfold AI.purge.
  destruct (purge_fold_spec h (vals h kb) kb [] (AI.set_update hash h [] kb) [] 0)
    as [S' E].
  - apply set_update_live. constructor.
  - apply set_update_NoDup; constructor.
  - intros v. rewrite set_update_key_vals by constructor.
    unfold key_vals, vals at 1. simpl. rewrite elem_of_nil. split; [|tauto].
    intros [[]|?]. split; [done|tauto].
  - intros x. apply elem_of_vals.
  - rewrite E. simpl. by destruct (purge_spec h [] kb).
Qed.

End Purge.

Lemma purge_spec_elem (h : heap) (kb : list loc) : ∀ seen l,
  l ∈ (purge_spec h seen kb).1 →
  l ∈ kb ∧ KS.cell_positions (deref h l) ≠ ∅ ∧ deref h l ∉ seen.
Proof.
  induction kb as [|x kb IH]; intros seen l; simpl.
  - intros H. by apply elem_of_nil in H.
  - unfold KS.nonempty. case_bool_decide as Hne.
    + case_bool_decide as Hseen; simpl.
      * intros Hl. apply IH in Hl as (? & ? & ?). split_and!; [by right|done|done].
      * intros Hl. apply elem_of_cons in Hl as [->|Hl].
        -- split_and!; [by left|done|done].
        -- apply IH in Hl as (? & ? & Hn). apply not_elem_of_cons in Hn as [? ?].
           split_and!; [by right|done|done].
    + intros Hl. apply IH in Hl as (? & ? & ?). split_and!; [by right|done|done].
Qed.

Lemma purge_spec_NoDup (h : heap) (kb : list loc) : ∀ seen,
  NoDup (vals h (purge_spec h seen kb).1).
Proof.
  induction kb as [|x kb IH]; intros seen; simpl; [constructor|].
  destruct (KS.nonempty (deref h x)); [|done].
  case_bool_decide as Hseen; simpl; [done|].
  apply NoDup_cons. split; [|done]. intros Hin.
  apply elem_of_vals_inv in Hin as (l & Hl & Hd).
  apply purge_spec_elem in Hl as (_ & _ & Hn). apply Hn. rewrite Hd. by left.
Qed.

Lemma purge_spec_keeps (h : heap) (kb : list loc) : ∀ seen x,
  x ∈ kb → KS.cell_positions (deref h x) ≠ ∅ → deref h x ∉ seen →
  deref h x ∈ vals h (purge_spec h seen kb).1.
Proof.
  induction kb as [|y kb IH]; intros seen x Hx Hne Hseen.
  - by apply elem_of_nil in Hx.
  - simpl. apply elem_of_cons in Hx as [<-|Hx].
    + unfold KS.nonempty. rewrite bool_decide_eq_true_2 by done.
      rewrite bool_decide_eq_false_2 by done. simpl. by left.
    + destruct (KS.nonempty (deref h y)); [|by apply IH].
      case_bool_decide as Hy; simpl; [by apply IH|].
      destruct (decide (deref h x = deref h y)) as [->|Hxy]; [by left|].
      right. apply IH; [done..|]. apply not_elem_of_cons. done.
Qed.

Lemma purge_spec_sublist (h : heap) (kb : list loc) : ∀ seen,
  (purge_spec h seen kb).1 `sublist_of` kb.
Proof.
  induction kb as [|x kb IH]; intros seen; simpl; [done|].
  destruct (KS.nonempty (deref h x)); [|by apply sublist_cons].
  case_bool_decide; simpl; [by apply sublist_cons|by apply sublist_skip].
Qed.

Lemma purge_spec_count (h : heap) (kb : list loc) : ∀ seen,
  Z.of_nat (length (filter (λ x, KS.cell_positions (deref h x) ≠ ∅) kb))
  = Z.of_nat (length (purge_spec h seen kb).1) + (purge_spec h seen kb).2.
Proof.
  induction kb as [|x kb IH]; intros seen; [done|].
  rewrite filter_cons. cbn [purge_spec]. unfold KS.nonempty.
  destruct (decide (KS.cell_positions (deref h x) ≠ ∅)) as [Hne|He].
  - rewrite bool_decide_eq_true_2 by done.
    case_bool_decide; cbn [fst snd length].
    + rewrite Nat2Z.inj_succ, (IH seen). lia.
    + rewrite !Nat2Z.inj_succ, (IH (deref h x :: seen)). lia.
  - rewrite bool_decide_eq_false_2 by done. apply IH.
Qed.

(** C8 -- Purge correctness.  The purge leaves the statement objects
    untouched; the store it leaves has no empty statement and no two
    structurally equal statements, keeps the surviving statements in their
    order, and still holds one occurrence of every non-empty statement it
    held: the occurrences of a statement that is in the store several times
    collapse to one.  The duplicate counter grows by one for each
    occurrence removed for that reason, that is by the number of
    occurrences of non-empty statements that were removed.  (A statement
    without cells is removed for being empty, which the counter does not
    count.) *)
Theorem purge_correct (hash : KnowledgeStatement → Z) (ai : AI.MinesweeperAI) :
  let ai' := AI.remove_empty_and_duplicate_statements hash ai in
  let h := AI.objects ai in
  AI.objects ai' = h ∧
  (∀ l, l ∈ AI.knowledge_base ai' → KS.cell_positions (deref h l) ≠ ∅) ∧
  NoDup (vals h (AI.knowledge_base ai')) ∧
  AI.knowledge_base ai' `sublist_of` AI.knowledge_base ai ∧
  (∀ x, x ∈ AI.knowledge_base ai → KS.cell_positions (deref h x) ≠ ∅ →
        deref h x ∈ vals h (AI.knowledge_base ai')) ∧
  Stat.duplicate_inferences_total (AI.stat_generator ai')
    = Stat.duplicate_inferences_total (AI.stat_generator ai)
      + (Z.of_nat (length (filter (λ x, KS.cell_positions (deref h x) ≠ ∅)
                                  (AI.knowledge_base ai)))
         - Z.of_nat (length (AI.knowledge_base ai'))).
Proof.
  intros ai' h. subst ai'. unfold AI.remove_empty_and_duplicate_statements.
  rewrite purge_is_spec. fold h.
  pose proof (purge_spec_count h (AI.knowledge_base ai) []) as Hc.
  destruct (purge_spec h [] (AI.knowledge_base ai)) as [cleaned dup] eqn:E.
  simpl in *. split_and!.
  - done.
  - intros l Hl. pose proof (purge_spec_elem h (AI.knowledge_base ai) [] l) as H.
    rewrite E in H. by apply H.
  - pose proof (purge_spec_NoDup h (AI.knowledge_base ai) []) as H. by rewrite E in H.
  - pose proof (purge_spec_sublist h (AI.knowledge_base ai) []) as H. by rewrite E in H.
  - intros x Hx Hne.
    pose proof (purge_spec_keeps h (AI.knowledge_base ai) [] x Hx Hne) as H.
    rewrite E in H. apply H, not_elem_of_nil.
  - lia.
Qed.

(** C8 on the example of the specification: two structurally equal
    statements collapse to one, and the duplicate counter grows by one. *)
Lemma purge_correct_example :
  let A := KS.mk {[ (0,0); (0,1) ]} 1 in
  let ai := AI.mk 3 ∅ ∅ ∅ [] [0%nat; 1%nat] (Stat.init 3)
                  Search.BruteForce SafeCell.SelectFifo [A; A] in
  let ai' := AI.remove_empty_and_duplicate_statements example_hash ai in
  vals (AI.objects ai) (AI.knowledge_base ai) = [A; A] ∧
  vals (AI.objects ai') (AI.knowledge_base ai') = [A] ∧
  Stat.duplicate_inferences_total (AI.stat_generator ai')
    = Stat.duplicate_inferences_total (AI.stat_generator ai) + 1.
Proof.
  intros A ai ai'.
  destruct (purge_correct example_hash ai) as (_ & _ & _ & _ & _ & Hc).
  split_and!.
  - reflexivity.
  - apply (bool_decide_unpack _). by vm_compute.
  - cbv zeta in Hc. fold ai' in Hc. rewrite Hc. f_equal.
Defined.

(** *** Simulation of the strategies by their value-level reading

    A strategy state carries the store ([hp]); [wf] says the references it
    holds are sound, [α] reads it on values.  A loop body that extends the
    store, keeps [wf] and commutes with [α] makes the whole loop do so. *)

Section LoopSim.
Context {S Y A B : Type} (hp : S → heap) (α : S → Y).
Context (oka : heap → A → Prop) (va : heap → A → B).
Hypothesis oka_ext : ∀ h e a, oka h a → oka (h ++ e) a ∧ va (h ++ e) a = va h a.

Lemma Forall_oka_ext (h e : heap) (l : list A) :
  Forall (oka h) l → Forall (oka (h ++ e)) l ∧ map (va (h ++ e)) l = map (va h) l.
Proof.
  induction 1 as [|a l Ha Hl [IH1 IH2]]; [by split; [constructor|]|].
  destruct (oka_ext h e a Ha) as [H1 H2]. split; [by constructor|].
  simpl. by rewrite H2, IH2.
Qed.

Lemma foldl_sim (wf : S → Prop) (f : S → A → S) (g : Y → B → Y) :
  (∀ a s, oka (hp s) a → wf s →
     (∃ e, hp (f s a) = hp s ++ e) ∧ wf (f s a) ∧ α (f s a) = g (α s) (va (hp s) a)) →
  ∀ l s, Forall (oka (hp s)) l → wf s →
     (∃ e, hp (foldl f s l) = hp s ++ e) ∧ wf (foldl f s l) ∧
     α (foldl f s l) = foldl g (α s) (map (va (hp s)) l).
Proof.
  intros Hstep. induction l as [|a l IH]; intros s Hl Hs.
  - split_and!; [exists []; by rewrite app_nil_r|done|done].
  - apply Forall_cons in Hl as [Ha Hl].
    destruct (Hstep a s Ha Hs) as ([e1 E1] & W1 & A1).
    destruct (Forall_oka_ext (hp s) e1 l Hl) as [Hl' Hm].
    rewrite <- E1 in Hl', Hm.
    destruct (IH (f s a) Hl' W1) as ([e2 E2] & W2 & A2).
    cbn [foldl map]. split_and!.
    + exists (e1 ++ e2). by rewrite E2, E1, app_assoc.
    + done.
    + by rewrite A2, A1, Hm.
Qed.

Lemma for_pairs_sim (wf : S → Prop) (body : A → A → S → S) (body_v : B → B → Y → Y) :
  (∀ a b s, oka (hp s) a → oka (hp s) b → wf s →
     (∃ e, hp (body a b s) = hp s ++ e) ∧ wf (body a b s) ∧
     α (body a b s) = body_v (va (hp s) a) (va (hp s) b) (α s)) →
  ∀ l s, Forall (oka (hp s)) l → wf s →
     (∃ e, hp (for_pairs body l s) = hp s ++ e) ∧ wf (for_pairs body l s) ∧
     α (for_pairs body l s) = for_pairs body_v (map (va (hp s)) l) (α s).
Proof.
  intros Hstep. induction l as [|a l IH]; intros s Hl Hs.
  - split_and!; [exists []; by rewrite app_nil_r|done|done].
  - apply Forall_cons in Hl as [Ha Hl]. cbn [for_pairs map].
    destruct (foldl_sim (λ s', wf s' ∧ oka (hp s') a ∧ va (hp s') a = va (hp s) a)
                (λ st y, body a y st) (λ st y, body_v (va (hp s) a) y st))
      with (l := l) (s := s) as ([e1 E1] & (W1 & _ & _) & A1); [|done|done|].
    { intros b s' Hb (Hs' & Ha' & Hva).
      destruct (Hstep a b s' Ha' Hb Hs') as ([e E] & W & Al).
      split_and!; [by exists e|done| | |by rewrite Al, Hva].
      - rewrite E. by apply oka_ext.
      - rewrite E. destruct (oka_ext (hp s') e a Ha') as [_ ->]. done. }
    destruct (Forall_oka_ext (hp s) e1 l Hl) as [Hl' Hm].
    rewrite <- E1 in Hl', Hm.
    destruct (IH _ Hl' W1) as ([e2 E2] & W2 & A2).
    split_and!.
    + exists (e1 ++ e2). by rewrite E2, E1, app_assoc.
    + done.
    + by rewrite A2, A1, Hm.
Qed.

End LoopSim.

Lemma lt_length_ext (h e : heap) (a : loc) :
  (a < length h)%nat → (a < length (h ++ e))%nat ∧ deref (h ++ e) a = deref h a.
Proof. intros Ha. split; [rewrite length_app; lia|by apply deref_app]. Qed.

Lemma good_nil (h0 : heap) (kb0 : list loc) : good h0 kb0 h0 [].
Proof. split_and!; [constructor|done|constructor]. Qed.

Lemma good_input (h0 : heap) (kb0 l : list loc) :
  valid h0 l → l ⊆ kb0 → good h0 kb0 h0 l.
Proof.
  intros Hv Hsub. split_and!; [done|done|].
  apply Forall_forall. intros x Hx. left. by apply Hsub.
Qed.

Lemma good_app (h0 : heap) (kb0 : list loc) (h : heap) (l1 l2 : list loc) :
  good h0 kb0 h l1 → good h0 kb0 h l2 → good h0 kb0 h (l1 ++ l2).
Proof.
  intros (V1 & L1 & F1) (V2 & _ & F2).
  split_and!; [by apply Forall_app|done|by apply Forall_app].
Qed.

Lemma good_ext (h0 : heap) (kb0 : list loc) (h e : heap) (l : list loc) :
  good h0 kb0 h l → good h0 kb0 (h ++ e) l.
Proof.
  intros (V & L & F). split_and!; [by apply valid_app_heap|rewrite length_app; lia|done].
Qed.

(** The shared step [new = KnowledgeStatement(...); if new not in acc:
    acc.append(new)]: the object is created at the end of the store. *)
Lemma emit_good (h0 : heap) (kb0 : list loc) (h : heap) (inf : list loc)
    (d : KnowledgeStatement) :
  good h0 kb0 h inf →
  list_contains (h ++ [d]) inf (length h) = bool_decide (d ∈ vals h inf) ∧
  good h0 kb0 (h ++ [d]) inf ∧ good h0 kb0 (h ++ [d]) (inf ++ [length h]) ∧
  vals (h ++ [d]) inf = vals h inf ∧
  vals (h ++ [d]) (inf ++ [length h]) = vals h inf ++ [d].
Proof.
  intros (V & L & F).
  assert (Hv : vals (h ++ [d]) inf = vals h inf) by (by apply vals_app_heap).
  split_and!.
  - by rewrite list_contains_vals, deref_new, Hv.
  - by apply good_ext.
  - split_and!.
    + apply Forall_app. split; [by apply valid_app_heap|].
      repeat constructor. rewrite length_app. simpl. lia.
    + rewrite length_app. lia.
    + apply Forall_app. split; [done|]. constructor; [by right|constructor].
  - done.
  - unfold vals in *. rewrite map_app, Hv. simpl. by rewrite deref_new.
Qed.

(** [dynamic_programming_search] *)
Lemma dp_body_step (h0 : heap) (a b : loc)
    (s : heap * list loc * list (KnowledgeStatement * KnowledgeStatement) * Z) :
  (a < length s.1.1.1)%nat → (b < length s.1.1.1)%nat →
  good h0 [] s.1.1.1 s.1.1.2 →
  (∃ e, (Search.dp_body a b s).1.1.1 = s.1.1.1 ++ e) ∧
  good h0 [] (Search.dp_body a b s).1.1.1 (Search.dp_body a b s).1.1.2 ∧
  (vals (Search.dp_body a b s).1.1.1 (Search.dp_body a b s).1.1.2, (Search.dp_body a b s).1.2)
  = dp_values_body (deref s.1.1.1 a) (deref s.1.1.1 b) (vals s.1.1.1 s.1.1.2, s.1.2).
Proof.
  destruct s as [[[h inf] cache] cmp]. cbn [fst snd]. intros Ha Hb Hg.
  unfold Search.dp_body, dp_values_body, Search.cells, Search.count,
    KS.get_cell_positions, KS.get_mine_count, new_statement.
  assert (Hnil : ∃ e : heap, h = h ++ e) by (exists []; by rewrite app_nil_r).
  case_bool_decide; [done|].
  destruct (Search.issubset _ _); [|done].
  fold (derive (deref h a) (deref h b)).
  set (d := derive (deref h a) (deref h b)).
  change (KS.mine_count (deref h b) - KS.mine_count (deref h a)) with (KS.mine_count d).
  change (KS.cell_positions (deref h b) ∖ KS.cell_positions (deref h a))
    with (KS.cell_positions d).
  destruct (_ || _); [done|].
  destruct (emit_good h0 [] h inf d Hg) as (Hc & G1 & G2 & V1 & V2).
  rewrite Hc. case_bool_decide; cbn [negb fst snd].
  - split_and!; [by eexists|done|by rewrite V1].
  - split_and!; [by eexists|done|]. rewrite V2, deref_new, (deref_app _ _ _ Ha). done.
Qed.

Lemma insert_sorted_map {A B} (f : A → B) (lt : B → B → bool) (x : A) (l : list A) :
  map f (insert_sorted (λ a b, lt (f a) (f b)) x l) = insert_sorted lt (f x) (map f l).
Proof.
  induction l as [|y l IH]; [done|]. simpl.
  destruct (lt (f y) (f x)); simpl; [by rewrite IH|done].
Qed.

Lemma sorted_map {A B} (f : A → B) (lt : B → B → bool) (l : list A) :
  map f (sorted (λ a b, lt (f a) (f b)) l) = sorted lt (map f l).
Proof.
  unfold sorted. induction l as [|x l IH]; [done|]. simpl.
  by rewrite insert_sorted_map, IH.
Qed.

Lemma insert_sorted_perm {A} (lt : A → A → bool) (x : A) (l : list A) :
  insert_sorted lt x l ≡ₚ x :: l.
Proof.
  induction l as [|y l IH]; [done|]. simpl.
  destruct (lt y x); [|done]. rewrite IH. apply Permutation_swap.
Qed.

Lemma sorted_perm {A} (lt : A → A → bool) (l : list A) : sorted lt l ≡ₚ l.
Proof.
  unfold sorted. induction l as [|x l IH]; [done|]. simpl.
  by rewrite insert_sorted_perm, IH.
Qed.

Lemma sorted_reverse_perm {A} (lt : A → A → bool) (l : list A) : sorted_reverse lt l ≡ₚ l.
Proof.
  unfold sorted_reverse.
  etrans; [symmetry; apply Permutation_rev|].
  etrans; [apply sorted_perm|]. symmetry. apply Permutation_rev.
Qed.

Lemma sorted_reverse_map {A B} (f : A → B) (lt : B → B → bool) (l : list A) :
  map f (sorted_reverse (λ a b, lt (f a) (f b)) l) = sorted_reverse lt (map f l).
Proof. unfold sorted_reverse. by rewrite map_rev, sorted_map, map_rev. Qed.

Lemma valid_perm (h : heap) (l l' : list loc) : l ≡ₚ l' → valid h l' → valid h l.
Proof. unfold valid. intros Hp. by rewrite Hp. Qed.

Lemma dynamic_programming_search_sim (stats : StatGenerator) (h : heap) (kb : list loc)
    (cmp : Z) :
  valid h kb →
  sim_result h kb [] (Search.dynamic_programming_search stats h kb cmp)
             (dp_values (vals h kb)).
Proof.
  intros Hkb. unfold Search.dynamic_programming_search, dp_values.
  set (skb := sorted _ kb).
  assert (Hs : valid h skb) by (eapply valid_perm; [apply sorted_perm|done]).
  destruct (for_pairs_sim (λ s : heap * list loc * list (KnowledgeStatement * KnowledgeStatement) * Z,
                             s.1.1.1)
              (λ s, (vals s.1.1.1 s.1.1.2, s.1.2))
              (λ h (l : loc), (l < length h)%nat) deref lt_length_ext
              (λ s, good h [] s.1.1.1 s.1.1.2) Search.dp_body dp_values_body)
    with (l := skb) (s := (h, @nil loc, @nil (KnowledgeStatement * KnowledgeStatement), cmp))
    as ([e E] & G & A).
  - intros a b s Ha Hb Hg. by apply dp_body_step.
  - done.
  - apply good_nil.
  - destruct (for_pairs Search.dp_body skb _) as [[[h' inf] cache] c]. cbn [fst snd] in *.
    split_and!; [by exists e|done|done|].
    change (map (deref h) skb) with (vals h skb) in A. unfold skb in A.
    unfold vals in A at 2. rewrite (sorted_map (deref h) KS.lt) in A.
    fold (vals h kb) in A. change (vals h []) with (@nil KnowledgeStatement) in A.
    by rewrite <- A.
Qed.

Lemma brute_force_search_sim_result (stats : StatGenerator) (h : heap) (kb : list loc)
    (cmp : Z) :
  valid h kb →
  sim_result h kb [] (Search.brute_force_search stats h kb cmp) (bf_values (vals h kb)).
Proof.
  intros Hkb.
  destruct (brute_force_search_sim stats h kb cmp Hkb) as ([e E] & K & V & F & S).
  split_and!; [by exists e|done| |done].
  split_and!; [done|rewrite E, length_app; lia|].
  eapply Forall_impl; [exact F|]. intros l Hl. by right.
Qed.

(** [greedy_algorithm_minecount_search] *)
Lemma gm_inner_sim (h0 : heap) (cur : loc) (nexts : list loc) :
  ∀ (h : heap) (inf : list loc) (cmp : Z),
  (cur < length h)%nat → valid h nexts → good h0 [] h inf →
  ∃ e inf' cmp',
    Search.gm_inner cur nexts (h, inf, cmp) = (h ++ e, inf', cmp') ∧
    good h0 [] (h ++ e) inf' ∧
    vals (h ++ e) inf' = gm_values_inner (deref h cur) (vals h nexts) (vals h inf).
Proof.
  induction nexts as [|n nexts IH]; intros h inf cmp Hc Hn Hg.
  - exists [], inf, cmp. rewrite app_nil_r. done.
  - apply Forall_cons in Hn as [Hn Hns].
    cbn [Search.gm_inner vals map gm_values_inner].
    unfold Search.cells, Search.count, KS.get_cell_positions, KS.get_mine_count,
      new_statement.
    destruct (Search.issubset _ _).
    + fold (derive (deref h n) (deref h cur)). set (d := derive (deref h n) (deref h cur)).
      destruct (emit_good h0 [] h inf d Hg) as (Hcn & G1 & G2 & V1 & V2).
      rewrite Hcn. unfold emit.
      assert (Hc' : (cur < length (h ++ [d]))%nat) by (rewrite length_app; lia).
      assert (Hns' : valid (h ++ [d]) nexts) by (by apply valid_app_heap).
      case_bool_decide; cbn [negb].
      * destruct (IH (h ++ [d]) inf (cmp + 1) Hc' Hns' G1) as (e & inf' & c' & E & G & V).
        exists ([d] ++ e), inf', c'. rewrite app_assoc, E. split_and!; [done|done|].
        rewrite V, V1, (deref_app _ _ _ Hc), (vals_app_heap _ _ _ Hns). done.
      * destruct (IH (h ++ [d]) (inf ++ [length h]) (cmp + 1) Hc' Hns' G2)
          as (e & inf' & c' & E & G & V).
        exists ([d] ++ e), inf', c'. rewrite app_assoc, E. split_and!; [done|done|].
        rewrite V, V2, (deref_app _ _ _ Hc), (vals_app_heap _ _ _ Hns). done.
    + exists [], inf, (cmp + 1). rewrite app_nil_r. done.
Qed.

Lemma gm_outer_sim (h0 : heap) (l : list loc) :
  ∀ (h : heap) (inf : list loc) (cmp : Z),
  valid h l → good h0 [] h inf →
  ∃ e inf' cmp',
    Search.gm_outer l (h, inf, cmp) = (h ++ e, inf', cmp') ∧
    good h0 [] (h ++ e) inf' ∧
    vals (h ++ e) inf' = gm_values_outer (vals h l) (vals h inf).
Proof.
  induction l as [|c l IH]; intros h inf cmp Hl Hg.
  - exists [], inf, cmp. rewrite app_nil_r. done.
  - apply Forall_cons in Hl as [Hc Hl].
    cbn [Search.gm_outer vals map gm_values_outer].
    destruct (gm_inner_sim h0 c l h inf cmp Hc Hl Hg) as (e1 & i1 & c1 & E1 & G1 & V1).
    rewrite E1.
    destruct (IH (h ++ e1) i1 c1) as (e2 & i2 & c2 & E2 & G2 & V2);
      [by apply valid_app_heap|done|].
    exists (e1 ++ e2), i2, c2. rewrite app_assoc, E2. split_and!; [done|done|].
    rewrite V2, V1, (vals_app_heap _ _ _ Hl). done.
Qed.

Lemma greedy_algorithm_minecount_search_sim (stats : StatGenerator) (h : heap)
    (kb : list loc) (cmp : Z) :
  valid h kb →
  sim_result h kb [] (Search.greedy_algorithm_minecount_search stats h kb cmp)
             (gm_values (vals h kb)).
Proof.
  intros Hkb. unfold Search.greedy_algorithm_minecount_search, gm_values, Search.gm_sorted.
  set (skb := sorted_reverse _ kb).
  assert (Hs : valid h skb) by (eapply valid_perm; [apply sorted_reverse_perm|done]).
  destruct (gm_outer_sim h skb h [] cmp Hs (good_nil h [])) as (e & inf & c & E & G & V).
  rewrite E. split_and!; [by exists e|done|done|].
  cbn [Search.r_heap Search.r_inferred]. rewrite V. unfold skb, vals.
  by rewrite (sorted_reverse_map (deref h) KS.lt).
Qed.

(** [bfs_search] and [dfs_search] *)
Lemma kb_key_vals (h : heap) (current_kb : list loc) :
  Search.kb_key h current_kb = key_of (vals h current_kb).
Proof. unfold Search.kb_key, key_of, vals, Search.cells. by rewrite map_map. Qed.

Lemma Forall_valid_ext (h e : heap) (q : list (list loc)) :
  Forall (valid h) q → Forall (valid (h ++ e)) q ∧ map (vals (h ++ e)) q = map (vals h) q.
Proof.
  induction 1 as [|l q Hl Hq [IH1 IH2]]; [by split; [constructor|]|].
  split; [constructor; [by apply valid_app_heap|done]|].
  simpl. by rewrite IH2, vals_app_heap.
Qed.

Lemma bfs_body_step (h0 : heap) (cvs : list KnowledgeStatement) (current_kb : list loc)
    (a b : loc) (s : heap * list (list loc) * list loc * Z) :
  (a < length s.1.1.1)%nat → (b < length s.1.1.1)%nat →
  good h0 [] s.1.1.1 s.1.2 ∧ Forall (valid s.1.1.1) s.1.1.2 ∧
    valid s.1.1.1 current_kb ∧ vals s.1.1.1 current_kb = cvs →
  let s' := Search.bfs_body current_kb a b s in
  (∃ e, s'.1.1.1 = s.1.1.1 ++ e) ∧
  (good h0 [] s'.1.1.1 s'.1.2 ∧ Forall (valid s'.1.1.1) s'.1.1.2 ∧
     valid s'.1.1.1 current_kb ∧ vals s'.1.1.1 current_kb = cvs) ∧
  (map (vals s'.1.1.1) s'.1.1.2, vals s'.1.1.1 s'.1.2)
  = bfs_values_body cvs (deref s.1.1.1 a) (deref s.1.1.1 b)
      (map (vals s.1.1.1) s.1.1.2, vals s.1.1.1 s.1.2).
Proof.
  destruct s as [[[h queue] inf] cmp]. cbn [fst snd]. intros Ha Hb (Hg & Hq & Hc & Hcv).
  unfold Search.bfs_body, bfs_values_body, Search.cells, Search.count,
    KS.get_cell_positions, KS.get_mine_count, new_statement.
  assert (Hnil : ∃ e : heap, h = h ++ e) by (exists []; by rewrite app_nil_r).
  destruct (Search.issubset _ _); [|done].
  fold (derive (deref h a) (deref h b)). set (d := derive (deref h a) (deref h b)).
  destruct (emit_good h0 [] h inf d Hg) as (Hcn & G1 & G2 & V1 & V2).
  destruct (Forall_valid_ext h [d] queue Hq) as [Hq' Hqv].
  assert (Hc' : valid (h ++ [d]) current_kb) by (by apply valid_app_heap).
  assert (Hcv' : vals (h ++ [d]) current_kb = cvs) by (by rewrite vals_app_heap).
  rewrite Hcn. case_bool_decide; cbn [negb fst snd].
  - split_and!; [by eexists|done..|by rewrite V1, Hqv].
  - split_and!; [by eexists|done| |done|done|].
    + apply Forall_app. split; [done|]. constructor; [|constructor].
      apply Forall_app. split; [done|]. constructor; [|constructor].
      rewrite length_app. simpl. lia.
    + rewrite V2, map_app, Hqv. simpl. do 3 f_equal.
      unfold vals in *. rewrite map_app, Hcv'. simpl. by rewrite deref_new.
Qed.

Lemma bfs_loop_sim (h0 : heap) (fuel : nat) :
  ∀ (h : heap) (queue : list (list loc)) (inf : list loc)
    (visited : list (list (list Cell))) (cmp : Z),
  Forall (valid h) queue → good h0 [] h inf →
  match Search.bfs_loop fuel h queue inf visited cmp with
  | Some (h', inf', _) =>
      (∃ e, h' = h ++ e) ∧ good h0 [] h' inf' ∧
      bfs_values_loop fuel (map (vals h) queue) (vals h inf) visited = Some (vals h' inf')
  | None => bfs_values_loop fuel (map (vals h) queue) (vals h inf) visited = None
  end.
Proof.
  induction fuel as [|fuel IH]; intros h queue inf visited cmp Hq Hg.
  - destruct queue as [|c queue]; simpl; [|done].
    split_and!; [exists []; by rewrite app_nil_r|done|done].
  - destruct queue as [|c queue]; cbn [Search.bfs_loop bfs_values_loop map].
    { split_and!; [exists []; by rewrite app_nil_r|done|done]. }
    apply Forall_cons in Hq as [Hc Hq]. rewrite kb_key_vals.
    case_bool_decide as Hvis; [by apply IH|].
    destruct (for_pairs_sim (λ s : heap * list (list loc) * list loc * Z, s.1.1.1)
                (λ s, (map (vals s.1.1.1) s.1.1.2, vals s.1.1.1 s.1.2))
                (λ h (l : loc), (l < length h)%nat) deref lt_length_ext
                (λ s, good h0 [] s.1.1.1 s.1.2 ∧ Forall (valid s.1.1.1) s.1.1.2 ∧
                      valid s.1.1.1 c ∧ vals s.1.1.1 c = vals h c)
                (Search.bfs_body c) (bfs_values_body (vals h c)))
      with (l := c) (s := (h, queue, inf, cmp)) as ([e E] & (G & Q & _ & _) & A).
    + intros a b s Ha Hb Hs. by apply bfs_body_step.
    + done.
    + done.
    + destruct (for_pairs (Search.bfs_body c) c _) as [[[h1 q1] i1] c1].
      cbn [fst snd] in *. change (map (deref h) c) with (vals h c) in A.
      rewrite <- A.
      specialize (IH h1 q1 i1 (visited ++ [key_of (vals h c)]) c1 Q G).
      destruct (Search.bfs_loop fuel h1 q1 i1 _ c1) as [[[h2 i2] c2]|]; [|done].
      destruct IH as ([e2 E2] & G2 & V2). split_and!; [|done|done].
      exists (e ++ e2). by rewrite E2, E, app_assoc.
Qed.

Lemma bfs_search_sim (fuel : nat) (stats : StatGenerator) (h : heap) (kb : list loc)
    (cmp : Z) :
  valid h kb →
  match Search.bfs_search fuel stats h kb cmp with
  | Some r => ∃ vs, bfs_values fuel (vals h kb) = Some vs ∧ sim_result h kb [] r vs
  | None => bfs_values fuel (vals h kb) = None
  end.
Proof.
  intros Hkb. unfold Search.bfs_search, bfs_values, Search.by_size.
  set (skb := sorted _ kb).
  assert (Hs : valid h skb) by (eapply valid_perm; [apply sorted_perm|done]).
  pose proof (bfs_loop_sim h fuel h [skb] [] [] cmp) as H.
  assert (E : map (vals h) [skb] = [sorted (λ a b, KS.len a <? KS.len b) (vals h kb)]).
  { simpl. f_equal. unfold skb, vals, Search.size_of, Search.cells.
    by rewrite (sorted_map (deref h) (λ a b, KS.len a <? KS.len b)). }
  rewrite E in H. change (vals h []) with (@nil KnowledgeStatement) in H.
  destruct (Search.bfs_loop fuel h [skb] [] [] cmp) as [[[h' inf] c]|].
  - destruct H as ([e E'] & G & V); [by constructor|apply good_nil|].
    exists (vals h' inf). split; [done|]. split_and!; [by exists e|done|done|done].
  - apply H; [by constructor|apply good_nil].
Qed.

Lemma dfs_body_step (h0 : heap) (cvs : list KnowledgeStatement) (current_kb : list loc)
    (a b : loc) (s : heap * list (list loc) * list loc * Z) :
  (a < length s.1.1.1)%nat → (b < length s.1.1.1)%nat →
  good h0 [] s.1.1.1 s.1.2 ∧ Forall (valid s.1.1.1) s.1.1.2 ∧
    valid s.1.1.1 current_kb ∧ vals s.1.1.1 current_kb = cvs →
  let s' := Search.dfs_body current_kb a b s in
  (∃ e, s'.1.1.1 = s.1.1.1 ++ e) ∧
  (good h0 [] s'.1.1.1 s'.1.2 ∧ Forall (valid s'.1.1.1) s'.1.1.2 ∧
     valid s'.1.1.1 current_kb ∧ vals s'.1.1.1 current_kb = cvs) ∧
  (map (vals s'.1.1.1) s'.1.1.2, vals s'.1.1.1 s'.1.2)
  = dfs_values_body cvs (deref s.1.1.1 a) (deref s.1.1.1 b)
      (map (vals s.1.1.1) s.1.1.2, vals s.1.1.1 s.1.2).
Proof.
  destruct s as [[[h stack] inf] cmp]. cbn [fst snd]. intros Ha Hb (Hg & Hq & Hc & Hcv).
  unfold Search.dfs_body, dfs_values_body, Search.cells, Search.count,
    KS.get_cell_positions, KS.get_mine_count, new_statement.
  assert (Hnil : ∃ e : heap, h = h ++ e) by (exists []; by rewrite app_nil_r).
  destruct (Search.issubset _ _); [|done].
  fold (derive (deref h a) (deref h b)). set (d := derive (deref h a) (deref h b)).
  change (KS.mine_count (deref h b) - KS.mine_count (deref h a)) with (KS.mine_count d).
  change (KS.cell_positions (deref h b) ∖ KS.cell_positions (deref h a))
    with (KS.cell_positions d).
  destruct (_ && _); [|done].
  destruct (emit_good h0 [] h inf d Hg) as (Hcn & G1 & G2 & V1 & V2).
  destruct (Forall_valid_ext h [d] stack Hq) as [Hq' Hqv].
  assert (Hc' : valid (h ++ [d]) current_kb) by (by apply valid_app_heap).
  assert (Hcv' : vals (h ++ [d]) current_kb = cvs) by (by rewrite vals_app_heap).
  rewrite Hcn. case_bool_decide; cbn [negb fst snd].
  - split_and!; [by eexists|done..|by rewrite V1, Hqv].
  - split_and!; [by eexists|done| |done|done|].
    + constructor; [|done].
      apply Forall_app. split; [done|]. constructor; [|constructor].
      rewrite length_app. simpl. lia.
    + rewrite V2. cbn [map]. rewrite Hqv. do 2 f_equal.
      unfold vals in *. rewrite map_app, Hcv'. simpl. by rewrite deref_new.
Qed.

Lemma dfs_loop_sim (h0 : heap) (fuel : nat) :
  ∀ (h : heap) (stack : list (list loc)) (inf : list loc)
    (visited : list (list (list Cell))) (cmp : Z),
  Forall (valid h) stack → good h0 [] h inf →
  match Search.dfs_loop fuel h stack inf visited cmp with
  | Some (h', inf', _) =>
      (∃ e, h' = h ++ e) ∧ good h0 [] h' inf' ∧
      dfs_values_loop fuel (map (vals h) stack) (vals h inf) visited = Some (vals h' inf')
  | None => dfs_values_loop fuel (map (vals h) stack) (vals h inf) visited = None
  end.
Proof.
  induction fuel as [|fuel IH]; intros h stack inf visited cmp Hq Hg.
  - destruct stack as [|c stack]; simpl; [|done].
    split_and!; [exists []; by rewrite app_nil_r|done|done].
  - destruct stack as [|c stack]; cbn [Search.dfs_loop dfs_values_loop map].
    { split_and!; [exists []; by rewrite app_nil_r|done|done]. }
    apply Forall_cons in Hq as [Hc Hq]. rewrite kb_key_vals.
    case_bool_decide as Hvis; [by apply IH|].
    destruct (for_pairs_sim (λ s : heap * list (list loc) * list loc * Z, s.1.1.1)
                (λ s, (map (vals s.1.1.1) s.1.1.2, vals s.1.1.1 s.1.2))
                (λ h (l : loc), (l < length h)%nat) deref lt_length_ext
                (λ s, good h0 [] s.1.1.1 s.1.2 ∧ Forall (valid s.1.1.1) s.1.1.2 ∧
                      valid s.1.1.1 c ∧ vals s.1.1.1 c = vals h c)
                (Search.dfs_body c) (dfs_values_body (vals h c)))
      with (l := c) (s := (h, stack, inf, cmp)) as ([e E] & (G & Q & _ & _) & A).
    + intros a b s Ha Hb Hs. by apply dfs_body_step.
    + done.
    + done.
    + destruct (for_pairs (Search.dfs_body c) c _) as [[[h1 q1] i1] c1].
      cbn [fst snd] in *. change (map (deref h) c) with (vals h c) in A.
      rewrite <- A.
      specialize (IH h1 q1 i1 (visited ++ [key_of (vals h c)]) c1 Q G).
      destruct (Search.dfs_loop fuel h1 q1 i1 _ c1) as [[[h2 i2] c2]|]; [|done].
      destruct IH as ([e2 E2] & G2 & V2). split_and!; [|done|done].
      exists (e ++ e2). by rewrite E2, E, app_assoc.
Qed.

Lemma dfs_search_sim (fuel : nat) (stats : StatGenerator) (h : heap) (kb : list loc)
    (cmp : Z) :
  valid h kb →
  match Search.dfs_search fuel stats h kb cmp with
  | Some r => ∃ vs, dfs_values fuel (vals h kb) = Some vs ∧ sim_result h kb [] r vs
  | None => dfs_values fuel (vals h kb) = None
  end.
Proof.
  intros Hkb. unfold Search.dfs_search, dfs_values.
  set (skb := sorted _ kb).
  assert (Hs : valid h skb) by (eapply valid_perm; [apply sorted_perm|done]).
  pose proof (dfs_loop_sim h fuel h [skb] [] [] cmp) as H.
  assert (E : map (vals h) [skb] = [sorted (λ a b, - KS.len a <? - KS.len b) (vals h kb)]).
  { simpl. f_equal. unfold skb, vals, Search.size_of, Search.cells.
    by rewrite (sorted_map (deref h) (λ a b, - KS.len a <? - KS.len b)). }
  rewrite E in H. change (vals h []) with (@nil KnowledgeStatement) in H.
  destruct (Search.dfs_loop fuel h [skb] [] [] cmp) as [[[h' inf] c]|].
  - destruct H as ([e E'] & G & V); [by constructor|apply good_nil|].
    exists (vals h' inf). split; [done|]. split_and!; [by exists e|done|done|done].
  - apply H; [by constructor|apply good_nil].
Qed.

(** [divide_and_conquer_search] *)
Lemma dc_body_step (h0 : heap) (kb0 : list loc) (a b : loc) (s : heap * list loc * Z * Z) :
  (a < length s.1.1.1)%nat → (b < length s.1.1.1)%nat →
  good h0 kb0 s.1.1.1 s.1.1.2 →
  let s' := Search.dc_body a b s in
  (∃ e, s'.1.1.1 = s.1.1.1 ++ e) ∧
  good h0 kb0 s'.1.1.1 s'.1.1.2 ∧
  vals s'.1.1.1 s'.1.1.2
  = bf_values_body (deref s.1.1.1 a) (deref s.1.1.1 b) (vals s.1.1.1 s.1.1.2).
Proof.
  destruct s as [[[h merge] cmp] n]. cbn [fst snd]. intros Ha Hb Hg.
  unfold Search.dc_body, bf_values_body, Search.cells, Search.count,
    KS.get_cell_positions, KS.get_mine_count, new_statement, emit.
  assert (Hnil : ∃ e : heap, h = h ++ e) by (exists []; by rewrite app_nil_r).
  destruct (Search.issubset _ _); [|done].
  fold (derive (deref h a) (deref h b)). set (d := derive (deref h a) (deref h b)).
  destruct (emit_good h0 kb0 h merge d Hg) as (Hcn & G1 & G2 & V1 & V2).
  rewrite Hcn. case_bool_decide; cbn [negb fst snd].
  - split_and!; [by eexists|done|done].
  - split_and!; [by eexists|done|done].
Qed.

Lemma dc_merge_sim (h0 : heap) (kb0 : list loc) (h : heap) (left right : list loc)
    (cmp n : Z) :
  good h0 kb0 h left → good h0 kb0 h right →
  let s' := foldl (λ st l, foldl (λ st r, Search.dc_body l r st) st right)
                  (h, left ++ right, cmp, n) left in
  (∃ e, s'.1.1.1 = h ++ e) ∧ good h0 kb0 s'.1.1.1 s'.1.1.2 ∧
  vals s'.1.1.1 s'.1.1.2
  = foldl (λ acc l, foldl (λ acc r, bf_values_body l r acc) acc (vals h right))
          (vals h (left ++ right)) (vals h left).
Proof.
  intros Gl Gr.
  destruct (foldl_sim (λ s : heap * list loc * Z * Z, s.1.1.1) (λ s, vals s.1.1.1 s.1.1.2)
           (λ h (l : loc), (l < length h)%nat) deref lt_length_ext
           (λ s, good h0 kb0 s.1.1.1 s.1.1.2 ∧ valid s.1.1.1 right ∧
                 vals s.1.1.1 right = vals h right)
           (λ st l, foldl (λ st r, Search.dc_body l r st) st right)
           (λ acc l, foldl (λ acc r, bf_values_body l r acc) acc (vals h right)))
    with (l := left) (s := (h, left ++ right, cmp, n)) as (E & (G & _) & V).
  - intros a s Ha (Hg & Hr & Hrv).
    destruct (foldl_sim (λ s : heap * list loc * Z * Z, s.1.1.1) (λ s, vals s.1.1.1 s.1.1.2)
           (λ h (l : loc), (l < length h)%nat) deref lt_length_ext
           (λ s', good h0 kb0 s'.1.1.1 s'.1.1.2 ∧ (a < length s'.1.1.1)%nat ∧
                  deref s'.1.1.1 a = deref s.1.1.1 a)
           (λ st r, Search.dc_body a r st)
           (λ acc r, bf_values_body (deref s.1.1.1 a) r acc))
      with (l := right) (s := s) as ([e E] & (G & _) & V).
    + intros b s' Hb (Hg' & Ha' & Hda).
      destruct (dc_body_step h0 kb0 a b s' Ha' Hb Hg') as ([e E] & G & V).
      split_and!; [by exists e|done| | |by rewrite V, Hda].
      * rewrite E, length_app. lia.
      * rewrite E. by rewrite deref_app.
    + done.
    + done.
    + split_and!; [by exists e|done| | |].
      * rewrite E. by apply valid_app_heap.
      * rewrite E, vals_app_heap by done. done.
      * rewrite V. change (map (deref s.1.1.1) right) with (vals s.1.1.1 right).
        by rewrite Hrv.
  - by destruct Gl.
  - cbn [fst snd]. split_and!; [by apply good_app|by destruct Gr|done].
  - done.
Qed.

Lemma valid_elem (h : heap) (l : list loc) (x : loc) : valid h l → x ∈ l → (x < length h)%nat.
Proof. unfold valid. rewrite Forall_forall. auto. Qed.

Lemma dc_sim (h0 : heap) (kb0 kb : list loc) (fuel : nat) :
  ∀ (h : heap) (start end_ : Z),
  valid h kb → kb ⊆ kb0 → (length h0 ≤ length h)%nat →
  0 ≤ start → end_ < Z.of_nat (length kb) →
  match Search.divide_and_conquer fuel h kb start end_ with
  | Some (h', merged, _, _) =>
      (∃ e, h' = h ++ e) ∧ good h0 kb0 h' merged ∧
      dc_values fuel (vals h kb) start end_ = Some (vals h' merged)
  | None => dc_values fuel (vals h kb) start end_ = None
  end.
Proof.
  induction fuel as [|fuel IH]; intros h start end_ Hkb Hsub Hlen Hs He; [done|].
  cbn [Search.divide_and_conquer dc_values].
  assert (Hnil : ∃ e : heap, h = h ++ e) by (exists []; by rewrite app_nil_r).
  destruct (start >? end_) eqn:E1.
  { split_and!; [done| |done]. split_and!; [constructor|done|constructor]. }
  destruct (start =? end_) eqn:E2.
  { assert (Hi : (Z.to_nat start < length kb)%nat) by lia.
    assert (Hin : kb !!! Z.to_nat start ∈ kb) by (by apply list_elem_of_lookup_total_2).
    split_and!; [done| |].
    - split_and!; [|done|].
      + constructor; [|constructor]. by eapply valid_elem.
      + constructor; [|constructor]. left. by apply Hsub.
    - unfold vals. simpl.
      by rewrite <- (list_lookup_total_fmap (deref h) kb _ Hi). }
  assert (Hmid : start ≤ (start + end_) `div` 2 < end_).
  { split; [apply Z.div_le_lower_bound; lia|apply Z.div_lt_upper_bound; lia]. }
  pose proof (IH h start ((start + end_) `div` 2) Hkb Hsub Hlen Hs) as IH1.
  destruct (Search.divide_and_conquer fuel h kb start _) as [[[[h1 left] lc] li]|];
    [|by rewrite IH1; [|lia]].
  destruct IH1 as ([e1 E1'] & G1 & V1); [lia|]. rewrite V1.
  assert (Hkb1 : valid h1 kb) by (rewrite E1'; by apply valid_app_heap).
  assert (Hv1 : vals h1 kb = vals h kb) by (rewrite E1'; by apply vals_app_heap).
  pose proof (IH h1 ((start + end_) `div` 2 + 1) end_ Hkb1 Hsub) as IH2.
  rewrite Hv1 in IH2.
  destruct (Search.divide_and_conquer fuel h1 kb _ end_) as [[[[h2 right] rc] ri]|];
    [|rewrite IH2; [done|by destruct G1 as (_ & ? & _)|lia|lia]].
  destruct IH2 as ([e2 E2'] & G2 & V2); [by destruct G1 as (_ & ? & _)|lia|lia|].
  rewrite V2.
  assert (G1' : good h0 kb0 h2 left) by (rewrite E2'; by apply good_ext).
  destruct (dc_merge_sim h0 kb0 h2 left right (lc + rc) (li + ri) G1' G2) as ([e3 E3] & G3 & V3).
  destruct (foldl _ _ left) as [[[h3 merged] c3] n3]. cbn [fst snd] in *.
  split_and!.
  - exists (e1 ++ e2 ++ e3). by rewrite E3, E2', E1', !app_assoc.
  - done.
  - assert (Hl : vals h2 left = vals h1 left).
    { rewrite E2'. apply vals_app_heap. by destruct G1. }
    rewrite V3, <- Hl. unfold vals. by rewrite map_app.
Qed.

Lemma divide_and_conquer_search_sim (fuel : nat) (stats : StatGenerator) (h : heap)
    (kb : list loc) (cmp : Z) :
  valid h kb →
  match Search.divide_and_conquer_search fuel stats h kb cmp with
  | Some r => ∃ vs, dc_search_values fuel (vals h kb) = Some vs ∧ sim_result h kb kb r vs
  | None => dc_search_values fuel (vals h kb) = None
  end.
Proof.
  intros Hkb. unfold Search.divide_and_conquer_search, dc_search_values.
  destruct kb as [|x kb].
  - exists []. split; [done|]. split_and!; [exists []; by rewrite app_nil_r|done| |done].
    apply good_nil.
  - set (kb' := x :: kb) in *. change (vals h kb') with (deref h x :: vals h kb).
    fold (vals h kb').
    pose proof (dc_sim h kb' kb' fuel h 0 (Z.of_nat (length kb') - 1) Hkb) as H.
    assert (El : length (vals h kb') = length kb') by apply length_map.
    change (deref h x :: vals h kb) with (vals h kb'). rewrite El.
    destruct (Search.divide_and_conquer fuel h kb' 0 _) as [[[[h' merged] c] n]|].
    + destruct H as ([e E] & G & V); [done|done|lia|lia|].
      exists (vals h' merged). split; [done|]. split_and!; [by exists e|done|done|done].
    + apply H; [done|done|lia|lia].
Qed.

(** [greedy_algorithm_size_search]: the list is sorted by ascending size, so
    the first statement the inner loop meets is never smaller than the
    current one and the loop breaks before it compares anything. *)
Lemma insert_sorted_key {A} (key : A → Z) (x : A) (l : list A) :
  StronglySorted (λ a b, key a ≤ key b) l →
  StronglySorted (λ a b, key a ≤ key b) (insert_sorted (λ a b, key a <? key b) x l).
Proof.
  induction 1 as [|y l Hl IH Hy]; simpl.
  - repeat constructor.
  - destruct (key y <? key x) eqn:E.
    + constructor; [done|].
      eapply Permutation_Forall; [symmetry; apply insert_sorted_perm|].
      constructor; [lia|done].
    + constructor; [by constructor|].
      constructor; [lia|]. eapply Forall_impl; [exact Hy|]. intros z Hz. simpl in *. lia.
Qed.

Lemma sorted_key_sorted {A} (key : A → Z) (l : list A) :
  StronglySorted (λ a b, key a ≤ key b) (sorted (λ a b, key a <? key b) l).
Proof.
  unfold sorted. induction l as [|x l IH]; simpl; [constructor|].
  by apply insert_sorted_key.
Qed.

Lemma StronglySorted_drop {A} (R : A → A → Prop) (l : list A) : ∀ (i : nat) (c : A),
  StronglySorted R l → l !! i = Some c → Forall (R c) (drop (S i) l).
Proof.
  induction l as [|x l IH]; intros i c Hs Hi; [done|].
  apply StronglySorted_inv in Hs as [Hs Hx].
  destruct i as [|i]; simpl in *.
  - injection Hi as ->. by rewrite drop_0.
  - by apply IH.
Qed.

Lemma gs_inner_break (h : heap) (c : loc) (nexts kb inf : list loc) (cmp : Z) :
  Forall (λ n, Search.size_of h c ≤ Search.size_of h n) nexts →
  ∃ cmp', Search.gs_inner c nexts (h, kb, inf, cmp) = (h, kb, inf, cmp').
Proof.
  intros Hn. destruct nexts as [|n nexts]; simpl; [by eexists|].
  apply Forall_cons in Hn as [Hn _].
  destruct (Search.size_of h c <=? Search.size_of h n) eqn:E; [by eexists|lia].
Qed.

Lemma gs_fold_idle (h : heap) (kb : list loc) (l : list (nat * loc)) : ∀ cmp,
  (∀ i c, (i, c) ∈ l → Search.by_size h kb !! i = Some c) →
  ∃ cmp', foldl Search.gs_outer (h, kb, [], cmp, Search.by_size h kb) l
          = (h, kb, [], cmp', Search.by_size h kb).
Proof.
  induction l as [|[i c] l IH]; intros cmp Hl; simpl; [by eexists|].
  assert (Hc : Search.by_size h kb !! i = Some c) by (apply Hl; left).
  destruct (gs_inner_break h c (drop (S i) (Search.by_size h kb)) kb [] cmp) as [cmp' E].
  { eapply (StronglySorted_drop (λ a b, Search.size_of h a ≤ Search.size_of h b));
      [apply sorted_key_sorted|done]. }
  rewrite E. apply IH. intros j d Hj. apply Hl. by right.
Qed.

Lemma greedy_size_infers_nothing (stats : StatGenerator) (h : heap) (kb : list loc)
    (cmp : Z) :
  let r := Search.greedy_algorithm_size_search stats h kb cmp in
  Search.r_heap r = h ∧ Search.r_knowledge_base r = kb ∧ Search.r_inferred r = [].
Proof.
  unfold Search.greedy_algorithm_size_search.
  destruct (gs_fold_idle h kb (imap pair (Search.by_size h kb)) cmp) as [cmp' E].
  - intros i c Hic. apply elem_of_lookup_imap_1 in Hic as (j & y & Heq & Hj).
    by injection Heq as -> ->.
  - rewrite E. done.
Qed.

Lemma greedy_algorithm_size_search_sim (stats : StatGenerator) (h : heap) (kb : list loc)
    (cmp : Z) :
  sim_result h kb [] (Search.greedy_algorithm_size_search stats h kb cmp) [].
Proof.
  destruct (greedy_size_infers_nothing stats h kb cmp) as (E1 & E2 & E3).
  split_and!; [exists []; by rewrite app_nil_r|done| |by rewrite E3].
  rewrite E1, E3. apply good_nil.
Qed.

(** Every method at once: a call that returns has the effect [sim_result]
    describes, with the values [values_of] computes, and a call that runs out
    of fuel does so on values too.  Only [divide_and_conquer_search] may
    return references it was given. *)
Lemma call_sim (a : Search.algorithm) (fuel : nat) (stats : StatGenerator) (h : heap)
    (kb : list loc) :
  valid h kb →
  match Search.call a fuel stats h kb with
  | Some r =>
      ∃ vs, values_of a fuel (vals h kb) = Some vs ∧
            sim_result h kb (if decide (a = Search.DivideAndConquer) then kb else []) r vs
  | None => values_of a fuel (vals h kb) = None
  end.
Proof.
  intros Hkb. destruct a; cbn [Search.call values_of].
  - eexists. split; [done|]. by apply brute_force_search_sim_result.
  - by apply divide_and_conquer_search_sim.
  - eexists. split; [done|]. by apply dynamic_programming_search_sim.
  - eexists. split; [done|]. apply greedy_algorithm_size_search_sim.
  - eexists. split; [done|]. by apply greedy_algorithm_minecount_search_sim.
  - by apply bfs_search_sim.
  - by apply dfs_search_sim.
Qed.

(** [divide_and_conquer_search] hands back the statements it was given. *)
Lemma dc_body_keeps (a b x : loc) (s : heap * list loc * Z * Z) :
  x ∈ s.1.1.2 → x ∈ (Search.dc_body a b s).1.1.2.
Proof.
  destruct s as [[[h merge] cmp] n]. unfold Search.dc_body. cbn [fst snd].
  destruct (Search.issubset _ _); [|done]. unfold new_statement.
  destruct (negb _); cbn [fst snd]; [|done]. intros Hx. apply elem_of_app. by left.
Qed.

Lemma dc_merge_keeps (x : loc) (left right : list loc) : ∀ (s : heap * list loc * Z * Z),
  x ∈ s.1.1.2 →
  x ∈ (foldl (λ st l, foldl (λ st r, Search.dc_body l r st) st right) s left).1.1.2.
Proof.
  induction left as [|l left IH]; intros s Hx; [done|]. simpl. apply IH.
  clear IH. revert s Hx. induction right as [|r right IH]; intros s Hx; [done|].
  simpl. by apply IH, dc_body_keeps.
Qed.

Lemma dc_returns_inputs (kb : list loc) (fuel : nat) :
  ∀ (h : heap) (start end_ : Z) h' merged c n (i : Z),
  Search.divide_and_conquer fuel h kb start end_ = Some (h', merged, c, n) →
  start ≤ i ≤ end_ → kb !!! Z.to_nat i ∈ merged.
Proof.
  induction fuel as [|fuel IH]; intros h start end_ h' merged c n i; [done|].
  cbn [Search.divide_and_conquer].
  destruct (start >? end_) eqn:E1; [lia|].
  destruct (start =? end_) eqn:E2.
  { intros [= <- <- <- <-] Hi. assert (i = start) as -> by lia. by left. }
  destruct (Search.divide_and_conquer fuel h kb start _)
    as [[[[h1 left] lc] li]|] eqn:D1; [|done].
  destruct (Search.divide_and_conquer fuel h1 kb _ end_)
    as [[[[h2 right] rc] ri]|] eqn:D2; [|done].
  intros [= E] Hi.
  assert (Hin : kb !!! Z.to_nat i ∈ left ++ right).
  { apply elem_of_app. destruct (decide (i ≤ (start + end_) `div` 2)).
    - left. eapply IH; [exact D1|lia].
    - right. eapply IH; [exact D2|lia]. }
  pose proof (dc_merge_keeps _ left right (h2, left ++ right, lc + rc, li + ri) Hin) as Hk.
  by rewrite E in Hk.
Qed.

(** C2 -- Strategy purity, as the code has it.  Whichever of the seven
    methods is called on a store with sound references, when it returns the
    list it was handed is unchanged and the object store is the old one with
    new objects appended, so every statement that existed before the call
    has the fields it had.  Every method but [divide_and_conquer_search]
    returns only objects created during the call, as the claim says and as
    the docstring of each method says ("a list of inferred
    KnowledgeStatement objects").  [divide_and_conquer_search] does not: the
    base case of its recursion returns [[a_knowledge_base[start]]], so the
    list it returns holds each statement it was given as well. *)
Theorem strategy_purity (a : Search.algorithm) (fuel : nat) (stats : StatGenerator)
    (h : heap) (knowledge_base : list loc) (r : Search.result) :
  valid h knowledge_base →
  Search.call a fuel stats h knowledge_base = Some r →
  Search.r_knowledge_base r = knowledge_base ∧
  (∃ ext, Search.r_heap r = h ++ ext) ∧
  (∀ l, (l < length h)%nat → deref (Search.r_heap r) l = deref h l) ∧
  (a ≠ Search.DivideAndConquer →
     Forall (λ l, (length h ≤ l)%nat) (Search.r_inferred r)) ∧
  (a = Search.DivideAndConquer →
     Forall (λ l, l ∈ knowledge_base ∨ (length h ≤ l)%nat) (Search.r_inferred r) ∧
     ∀ l, l ∈ knowledge_base → l ∈ Search.r_inferred r).
Proof.
  intros Hkb Hcall. pose proof (call_sim a fuel stats h knowledge_base Hkb) as Hsim.
  rewrite Hcall in Hsim. destruct Hsim as (vs & _ & [e E] & K & (V & L & F) & _).
  split_and!.
  - done.
  - by exists e.
  - intros l Hl. rewrite E. by apply deref_app.
  - intros Ha. rewrite decide_False in F by done.
    eapply Forall_impl; [exact F|]. intros l [Hl|Hl]; [by apply elem_of_nil in Hl|done].
  - intros ->. rewrite decide_True in F by done. split; [done|].
    intros l Hl. cbn [Search.call] in Hcall. unfold Search.divide_and_conquer_search in Hcall.
    destruct knowledge_base as [|x kb]; [by apply elem_of_nil in Hl|].
    destruct (Search.divide_and_conquer _ _ _ _ _) as [[[[h' merged] c] n]|] eqn:D; [|done].
    injection Hcall as <-. cbn [Search.r_inferred].
    apply list_elem_of_lookup_total in Hl as (i & Hi & <-).
    eapply (dc_returns_inputs _ _ _ _ _ _ _ _ _ (Z.of_nat i)) in D; [|lia].
    by rewrite Nat2Z.id in D.
Qed.

(** C2 at work on the exhaustive method and the two-statement store of the
    specification's example. *)
Lemma strategy_purity_example :
  let h := [KS.mk {[ (0,0); (0,1) ]} 1; KS.mk {[ (0,0); (0,1); (0,2) ]} 2] in
  let r := Search.brute_force_search (Stat.init 3) h [0%nat; 1%nat] 0 in
  Search.r_knowledge_base r = [0%nat; 1%nat] ∧
  (∀ l, (l < 2)%nat → deref (Search.r_heap r) l = deref h l) ∧
  Forall (λ l, (2 ≤ l)%nat) (Search.r_inferred r).
Proof.
  intros h r.
  destruct (strategy_purity Search.BruteForce 0 (Stat.init 3) h [0%nat; 1%nat] r)
    as (K & _ & D & F & _).
  - repeat constructor.
  - reflexivity.
  - split_and!; [exact K|exact D|by apply F].
Defined.

(** C2, the code at a failing input: on a store of one statement,
    [divide_and_conquer_search] returns that very object. *)
Lemma divide_and_conquer_returns_its_input :
  let h := [KS.mk {[ (0,0); (0,1) ]} 1] in
  ∃ r, Search.call Search.DivideAndConquer 2 (Stat.init 3) h [0%nat] = Some r ∧
       Search.r_inferred r = [0%nat] ∧ ¬ Forall (λ l, (length h ≤ l)%nat) (Search.r_inferred r).
Proof.
  eexists. split_and!; [reflexivity|reflexivity|].
  intros H. apply Forall_cons in H as [H _]. simpl in H. lia.
Qed.

(** C2, what the returned input does to the engine.  On a 3 x 3 grid with
    [divide_and_conquer_search], after [add_knowledge((1,1), 2)] the call
    [add_knowledge((0,0), 0)] marks three cells safe, which changes the
    statement of the first call; the search then returns that statement
    object itself, the engine takes it for a new inference (the entry of
    [inferred_set] carries the hash the object had before the marks) and
    appends it to the knowledge base, which now holds the same object twice;
    the next purge removes one and counts a duplicate.  The statistics end
    with one duplicate inference and no inference; with
    [brute_force_search], which returns new objects only, the same calls
    count no duplicate. *)
Lemma divide_and_conquer_reappends_its_input :
  let ai0 := (AI.init 3 "divide_and_conquer" "First In, First Out").1 in
  let bf0 := (AI.init 3 "brute_force" "First In, First Out").1 in
  ∃ ai1 ai2 bf1 bf2,
    AI.add_knowledge example_hash 2 (1,1) 2 ai0 = Some ai1 ∧
    AI.add_knowledge example_hash 3 (0,0) 0 ai1 = Some ai2 ∧
    (let a := AI.observe (0,0) 0 ai1 in
     let set := AI.set_update example_hash (AI.objects a) [] (AI.knowledge_base a) in
     let ap := (AI.mark_and_purge example_hash a).1 in
     ∃ r, Search.call Search.DivideAndConquer 2 (AI.stat_generator ap) (AI.objects ap)
                      (AI.knowledge_base ap) = Some r ∧
          AI.knowledge_base ap = [0%nat] ∧ Search.r_inferred r = [0%nat] ∧
          AI.knowledge_base (AI.merge example_hash ap set r).1.1 = [0%nat; 0%nat]) ∧
    Stat.inferences_total (AI.stat_generator ai2) = 0 ∧
    Stat.duplicate_inferences_total (AI.stat_generator ai2) = 1 ∧
    AI.add_knowledge example_hash 3 (1,1) 2 bf0 = Some bf1 ∧
    AI.add_knowledge example_hash 3 (0,0) 0 bf1 = Some bf2 ∧
    Stat.duplicate_inferences_total (AI.stat_generator bf2) = 0.
Proof.
  intros ai0 bf0.
  destruct (AI.add_knowledge example_hash 2 (1,1) 2 ai0) as [ai1|] eqn:E1;
    [|vm_compute in E1; discriminate].
  destruct (AI.add_knowledge example_hash 3 (0,0) 0 ai1) as [ai2|] eqn:E2;
    [|vm_compute in E1; injection E1 as <-; vm_compute in E2; discriminate].
  destruct (AI.add_knowledge example_hash 3 (1,1) 2 bf0) as [bf1|] eqn:B1;
    [|vm_compute in B1; discriminate].
  destruct (AI.add_knowledge example_hash 3 (0,0) 0 bf1) as [bf2|] eqn:B2;
    [|vm_compute in B1; injection B1 as <-; vm_compute in B2; discriminate].
  exists ai1, ai2, bf1, bf2.
  vm_compute in E1. injection E1 as <-. vm_compute in E2. injection E2 as <-.
  vm_compute in B1. injection B1 as <-. vm_compute in B2. injection B2 as <-.
  split; [reflexivity|]. split; [reflexivity|]. split.
  - eexists. split; [vm_compute; reflexivity|].
    split; [vm_compute; reflexivity|]. split; vm_compute; reflexivity.
  - split; [reflexivity|]. split; [reflexivity|]. split; [reflexivity|].
    split; reflexivity.
Qed.

(** *** greedy_algorithm_minecount_search: the sort order *)

(** C7 -- the code at the failing input.  The store holds a four-cell
    statement with one mine and a three-cell statement with two mines, given
    in descending order of [mine_count].  [sorted(knowledge_base,
    reverse=True)] compares with [__lt__], that is by [(size, mine_count)]:
    it puts the larger statement first, so the scan order is by ascending
    [mine_count] here, where the order by [mine_count] keeps the list as it
    is. *)
Lemma greedy_minecount_sorts_by_size :
  let h := [KS.mk {[ (0,0); (0,1); (0,2); (0,3) ]} 1; KS.mk {[ (2,0); (2,1); (2,2) ]} 2] in
  let knowledge_base := [1%nat; 0%nat] in
  Search.gm_sorted h knowledge_base = [0%nat; 1%nat] ∧
  map (Search.count h) (Search.gm_sorted h knowledge_base) = [1; 2] ∧
  minecount_order h knowledge_base = [1%nat; 0%nat].
Proof. vm_compute. done. Qed.

(** In general the scan order of the method is descending in
    [(size, mine_count)]: a statement never precedes a [__lt__]-greater one. *)
Lemma insert_sorted_lt (x : KnowledgeStatement) (l : list KnowledgeStatement) :
  StronglySorted (λ a b, KS.lt b a = false) l →
  StronglySorted (λ a b, KS.lt b a = false) (insert_sorted KS.lt x l).
Proof.
  assert (Htot : ∀ a b, KS.lt a b = false → KS.lt b a = false ∨ KS.lt b a = true).
  { intros a b _. destruct (KS.lt b a); auto. }
  assert (Htrans : ∀ a b c, KS.lt b a = false → KS.lt c b = false → KS.lt c a = false).
  { unfold KS.lt. intros a b c. lia. }
  assert (Hasym : ∀ a b, KS.lt a b = true → KS.lt b a = false).
  { unfold KS.lt. intros a b. lia. }
  induction 1 as [|y l Hl IH Hy]; simpl.
  - repeat constructor.
  - destruct (KS.lt y x) eqn:E.
    + constructor; [done|].
      eapply Permutation_Forall; [symmetry; apply insert_sorted_perm|].
      constructor; [by apply Hasym|done].
    + constructor; [by constructor|].
      constructor; [done|]. eapply Forall_impl; [exact Hy|].
      intros z Hz. simpl in *. by eapply Htrans.
Qed.

Lemma gm_sorted_descending (h : heap) (knowledge_base : list loc) :
  StronglySorted (λ a b, KS.lt a b = false) (vals h (Search.gm_sorted h knowledge_base)).
Proof.
  unfold Search.gm_sorted, vals. rewrite (sorted_reverse_map (deref h) KS.lt).
  unfold sorted_reverse. generalize (rev (map (deref h) knowledge_base)). intros l.
  assert (Hs : StronglySorted (λ a b, KS.lt b a = false) (sorted KS.lt l)).
  { unfold sorted. induction l as [|x l IH]; simpl; [constructor|].
    by apply insert_sorted_lt. }
  revert Hs. generalize (sorted KS.lt l). clear. intros l.
  induction 1 as [|x l Hl IH Hx]; simpl; [constructor|].
  apply StronglySorted_app; split_and!; [|done|repeat constructor].
  intros a b Ha Hb. apply list_elem_of_singleton in Hb as ->.
  apply list_elem_of_In, in_rev, list_elem_of_In in Ha.
  rewrite Forall_forall in Hx. by apply Hx.
Qed.

(** *** Marking cells *)

Lemma mark_safe_idem (c : Cell) (s : KnowledgeStatement) :
  KS.mark_cell_as_safe c (KS.mark_cell_as_safe c s) = KS.mark_cell_as_safe c s.
Proof.
  unfold KS.mark_cell_as_safe.
  destruct (decide (c ∈ KS.cell_positions s)) as [Hin|Hnin]; simpl.
  - rewrite decide_False; [done|]. set_solver.
  - by rewrite decide_False.
Qed.

Lemma mark_mine_idem (c : Cell) (s : KnowledgeStatement) :
  KS.mark_cell_as_mine c (KS.mark_cell_as_mine c s) = KS.mark_cell_as_mine c s.
Proof.
  unfold KS.mark_cell_as_mine.
  destruct (decide (c ∈ KS.cell_positions s)) as [Hin|Hnin]; simpl.
  - rewrite decide_False; [done|]. set_solver.
  - by rewrite decide_False.
Qed.

Lemma mark_all_length f (kb : list loc) : ∀ h : heap, length (AI.mark_all f kb h) = length h.
Proof.
  unfold AI.mark_all. induction kb as [|x kb IH]; intros h; simpl; [done|].
  by rewrite IH, length_alter.
Qed.

(** An object referenced from the knowledge base (once or several times) is
    marked; any other object is left alone. *)
Lemma mark_all_deref f (kb : list loc) : ∀ (h : heap) (l : loc),
  (∀ s, f (f s) = f s) →
  deref (AI.mark_all f kb h) l
  = if decide (l ∈ kb ∧ (l < length h)%nat) then f (deref h l) else deref h l.
Proof.
  unfold AI.mark_all. induction kb as [|x kb IH]; intros h l Hf; cbn [foldl].
  - destruct (decide (l ∈ [] ∧ (l < length h)%nat)) as [[H _]|H]; [|done].
    by apply elem_of_nil in H.
  - rewrite IH by done. rewrite length_alter. unfold deref.
    rewrite list_lookup_total_alter. fold (deref h l) (deref h x).
    destruct (decide (l ∈ kb ∧ (l < length h)%nat)) as [[H1 H2]|H1];
    destruct (decide (x = l ∧ (x < length h)%nat)) as [[Hx H3]|H3];
    destruct (decide (l ∈ x :: kb ∧ (l < length h)%nat)) as [[H4 H5]|H4];
    subst; try done.
    all: try (by rewrite Hf).
    all: exfalso.
    all: try (by (apply H4; split; [set_solver|done])).
    apply elem_of_cons in H4 as [->|H4]; [by apply H3|by apply H1].
Qed.

Lemma mark_all_deref_in f (kb : list loc) (h : heap) (l : loc) :
  (∀ s, f (f s) = f s) → l ∈ kb → (l < length h)%nat →
  deref (AI.mark_all f kb h) l = f (deref h l).
Proof. intros Hf Hl Hlt. rewrite mark_all_deref by done. by rewrite decide_True. Qed.

Lemma mark_all_deref_out f (kb : list loc) (h : heap) (l : loc) :
  (∀ s, f (f s) = f s) → l ∉ kb → deref (AI.mark_all f kb h) l = deref h l.
Proof. intros Hf Hl. rewrite mark_all_deref by done. rewrite decide_False; [done|tauto]. Qed.

Lemma fold_mark_safe (L : list Cell) : ∀ s,
  foldl (λ s c, KS.mark_cell_as_safe c s) s L = strip_safes (list_to_set L) s.
Proof.
  induction L as [|c L IH]; intros s; simpl.
  - unfold strip_safes. destruct s as [cs k]. simpl. f_equal. set_solver.
  - rewrite IH. unfold strip_safes, KS.mark_cell_as_safe.
    case_decide; simpl; f_equal; set_solver.
Qed.

Lemma size_inter_cons (cs L : gset Cell) (c : Cell) :
  c ∈ cs → size (cs ∩ ({[c]} ∪ L)) = S (size ((cs ∖ {[c]}) ∩ L)).
Proof.
  intros Hc.
  assert (E : cs ∩ ({[c]} ∪ L) = {[c]} ∪ ((cs ∖ {[c]}) ∩ L)).
  { apply set_eq. intros x. rewrite !elem_of_union, !elem_of_intersection,
      elem_of_difference, elem_of_union, elem_of_singleton.
    destruct (decide (x = c)) as [->|]; tauto. }
  rewrite E. rewrite size_union by set_solver. by rewrite size_singleton.
Qed.

Lemma fold_mark_mine (L : list Cell) : ∀ s,
  foldl (λ s c, KS.mark_cell_as_mine c s) s L = strip_mines (list_to_set L) s.
Proof.
  induction L as [|c L IH]; intros s; simpl.
  - unfold strip_mines. destruct s as [cs k]. simpl. f_equal; [set_solver|].
    replace (cs ∩ ∅) with (∅ : gset Cell) by set_solver. rewrite size_empty. lia.
  - rewrite IH. unfold strip_mines, KS.mark_cell_as_mine.
    destruct s as [cs k]. case_decide as Hc; simpl; f_equal; try set_solver.
    + rewrite size_inter_cons by done. lia.
    + replace (cs ∩ ({[c]} ∪ list_to_set L)) with (cs ∩ list_to_set L : gset Cell);
        [done|set_solver].
Qed.

Lemma strip_safes_idem (S : gset Cell) (s : KnowledgeStatement) :
  strip_safes S (strip_safes S s) = strip_safes S s.
Proof. unfold strip_safes. simpl. f_equal. set_solver. Qed.

Lemma strip_mines_idem (M : gset Cell) (s : KnowledgeStatement) :
  strip_mines M (strip_mines M s) = strip_mines M s.
Proof.
  unfold strip_mines. simpl. f_equal; [set_solver|].
  replace (KS.cell_positions s ∖ M ∩ M) with (∅ : gset Cell) by set_solver.
  rewrite size_empty. lia.
Qed.

Lemma strip_disjoint (S : gset Cell) (s : KnowledgeStatement) :
  KS.cell_positions s ## S → strip_safes S s = s ∧ strip_mines S s = s.
Proof.
  intros Hd. unfold strip_safes, strip_mines. destruct s as [cs k]. simpl in *.
  replace (cs ∖ S) with cs by set_solver.
  replace (cs ∩ S) with (∅ : gset Cell) by set_solver.
  rewrite size_empty. split; f_equal; lia.
Qed.

Lemma evolves_refl (ai : AI.MinesweeperAI) : evolves ai ai.
Proof.
  unfold evolves. split_and!; try done. exists []. by rewrite app_nil_r.
Qed.

Lemma evolves_trans (a b c : AI.MinesweeperAI) : evolves a b → evolves b c → evolves a c.
Proof.
  intros (G1 & M1 & P1 & V1 & [q1 Q1] & S1 & I1 & L1) (G2 & M2 & P2 & V2 & [q2 Q2] & S2 & I2 & L2).
  unfold evolves. split_and!; try congruence.
  - exists (q1 ++ q2). by rewrite Q2, Q1, app_assoc.
  - set_solver.
  - set_solver.
  - lia.
Qed.

Lemma mark_cell_as_safe_spec (c : Cell) (ai : AI.MinesweeperAI) :
  let ai' := AI.mark_cell_as_safe c ai in
  evolves ai ai' ∧
  AI.knowledge_base ai' = AI.knowledge_base ai ∧
  AI.stat_generator ai' = AI.stat_generator ai ∧
  AI.identified_mines ai' = AI.identified_mines ai ∧
  AI.identified_safe_cells ai' = AI.identified_safe_cells ai ∪ {[c]} ∧
  AI.safe_cell_queue ai'
    = AI.safe_cell_queue ai ++ (if decide (c ∈ AI.identified_safe_cells ai) then [] else [c]) ∧
  AI.objects ai'
    = AI.mark_all (KS.mark_cell_as_safe c) (AI.knowledge_base ai) (AI.objects ai).
Proof.
  destruct ai as [g mv mi sa q kb st me po ob]. unfold AI.mark_cell_as_safe, evolves.
  cbn -[AI.mark_all]. destruct (decide (c ∈ sa)) as [Hc|Hc].
  - rewrite decide_False by tauto. cbn -[AI.mark_all]. rewrite mark_all_length, app_nil_r.
    split_and!; try done; try set_solver; exists []; by rewrite app_nil_r.
  - rewrite decide_True by done. cbn -[AI.mark_all]. rewrite mark_all_length.
    split_and!; try done; try set_solver; by eexists.
Qed.

Lemma mark_cell_as_mine_spec (c : Cell) (ai : AI.MinesweeperAI) :
  let ai' := AI.mark_cell_as_mine c ai in
  evolves ai ai' ∧
  AI.knowledge_base ai' = AI.knowledge_base ai ∧
  AI.stat_generator ai' = AI.stat_generator ai ∧
  AI.identified_mines ai' = AI.identified_mines ai ∪ {[c]} ∧
  AI.identified_safe_cells ai' = AI.identified_safe_cells ai ∧
  AI.safe_cell_queue ai' = AI.safe_cell_queue ai ∧
  AI.objects ai'
    = AI.mark_all (KS.mark_cell_as_mine c) (AI.knowledge_base ai) (AI.objects ai).
Proof.
  destruct ai as [g mv mi sa q kb st me po ob]. unfold AI.mark_cell_as_mine, evolves.
  cbn -[AI.mark_all]. rewrite mark_all_length.
  split_and!; try done; try set_solver; exists []; by rewrite app_nil_r.
Qed.

(** Marking a list of cells safe, one after the other. *)
Lemma marks_safe_spec (L : list Cell) : ∀ ai,
  let ai' := foldl (λ ai c, AI.mark_cell_as_safe c ai) ai L in
  evolves ai ai' ∧
  AI.knowledge_base ai' = AI.knowledge_base ai ∧
  AI.stat_generator ai' = AI.stat_generator ai ∧
  AI.identified_mines ai' = AI.identified_mines ai ∧
  AI.identified_safe_cells ai' = AI.identified_safe_cells ai ∪ list_to_set L ∧
  length (AI.objects ai') = length (AI.objects ai) ∧
  ∀ l, deref (AI.objects ai') l
       = if decide (l ∈ AI.knowledge_base ai ∧ (l < length (AI.objects ai))%nat)
         then strip_safes (list_to_set L) (deref (AI.objects ai) l)
         else deref (AI.objects ai) l.
Proof.
  induction L as [|c L IH]; intros ai; cbn [foldl].
  - split_and!; try done; [apply evolves_refl|set_solver|].
    intros l. case_decide; [|done]. unfold strip_safes. destruct (deref _ l) as [cs k].
    simpl. f_equal. set_solver.
  - destruct (mark_cell_as_safe_spec c ai) as (E1 & K1 & T1 & M1 & S1 & _ & O1).
    destruct (IH (AI.mark_cell_as_safe c ai)) as (E2 & K2 & T2 & M2 & S2 & L2 & D2).
    split_and!; try congruence.
    + by eapply evolves_trans.
    + rewrite S2, S1. set_solver.
    + by rewrite L2, O1, mark_all_length.
    + intros l. rewrite D2, K1, O1, mark_all_length, mark_all_deref
        by apply mark_safe_idem.
      case_decide; [|done]. rewrite <- fold_mark_safe, <- fold_mark_safe. done.
Qed.

Lemma marks_mine_spec (L : list Cell) : ∀ ai,
  let ai' := foldl (λ ai c, AI.mark_cell_as_mine c ai) ai L in
  evolves ai ai' ∧
  AI.knowledge_base ai' = AI.knowledge_base ai ∧
  AI.stat_generator ai' = AI.stat_generator ai ∧
  AI.identified_mines ai' = AI.identified_mines ai ∪ list_to_set L ∧
  AI.identified_safe_cells ai' = AI.identified_safe_cells ai ∧
  AI.safe_cell_queue ai' = AI.safe_cell_queue ai ∧
  length (AI.objects ai') = length (AI.objects ai) ∧
  ∀ l, deref (AI.objects ai') l
       = if decide (l ∈ AI.knowledge_base ai ∧ (l < length (AI.objects ai))%nat)
         then strip_mines (list_to_set L) (deref (AI.objects ai) l)
         else deref (AI.objects ai) l.
Proof.
  induction L as [|c L IH]; intros ai; cbn [foldl].
  - split_and!; try done; [apply evolves_refl|set_solver|].
    intros l. case_decide; [|done]. symmetry. apply strip_disjoint. set_solver.
  - destruct (mark_cell_as_mine_spec c ai) as (E1 & K1 & T1 & M1 & S1 & Q1 & O1).
    destruct (IH (AI.mark_cell_as_mine c ai)) as (E2 & K2 & T2 & M2 & S2 & Q2 & L2 & D2).
    split_and!; try congruence.
    + by eapply evolves_trans.
    + rewrite M2, M1. set_solver.
    + by rewrite L2, O1, mark_all_length.
    + intros l. rewrite D2, K1, O1, mark_all_length, mark_all_deref
        by apply mark_mine_idem.
      case_decide; [|done]. rewrite <- fold_mark_mine, <- fold_mark_mine. done.
Qed.

(** *** One pass of the loop: marks and purge *)

Lemma collect_spec (h : heap) (kb : list loc) (c : Cell) :
  (c ∈ (AI.collect h kb).1 ↔ ∃ l, l ∈ kb ∧ c ∈ KS.known_safes (deref h l)) ∧
  (c ∈ (AI.collect h kb).2 ↔ ∃ l, l ∈ kb ∧ c ∈ KS.known_mines (deref h l)).
Proof.
  unfold AI.collect.
  assert (H : ∀ (st : gset Cell * gset Cell),
    (c ∈ (foldl (λ (st : gset Cell * gset Cell) statement,
                   (st.1 ∪ KS.known_safes (deref h statement),
                    st.2 ∪ KS.known_mines (deref h statement))) st kb).1
       ↔ c ∈ st.1 ∨ ∃ l, l ∈ kb ∧ c ∈ KS.known_safes (deref h l)) ∧
    (c ∈ (foldl (λ (st : gset Cell * gset Cell) statement,
                   (st.1 ∪ KS.known_safes (deref h statement),
                    st.2 ∪ KS.known_mines (deref h statement))) st kb).2
       ↔ c ∈ st.2 ∨ ∃ l, l ∈ kb ∧ c ∈ KS.known_mines (deref h l))).
  { induction kb as [|x kb IH]; intros st; cbn [foldl].
    - split; (split; [by left|]); intros [?|(l & Hl & _)]; try done;
        by apply elem_of_nil in Hl.
    - destruct (IH (st.1 ∪ KS.known_safes (deref h x), st.2 ∪ KS.known_mines (deref h x)))
        as [IH1 IH2].
      rewrite IH1, IH2. cbn [fst snd]. rewrite !elem_of_union. split; split.
      + intros [[?|?]|(l & Hl & ?)]; [by left|right..].
        * exists x. split; [by left|done].
        * exists l. split; [by right|done].
      + intros [?|(l & Hl & ?)]; [by left; left|].
        apply elem_of_cons in Hl as [->|Hl]; [by left; right|].
        right. by exists l.
      + intros [[?|?]|(l & Hl & ?)]; [by left|right..].
        * exists x. split; [by left|done].
        * exists l. split; [by right|done].
      + intros [?|(l & Hl & ?)]; [by left; left|].
        apply elem_of_cons in Hl as [->|Hl]; [by left; right|].
        right. by exists l. }
  destruct (H (∅, ∅)) as [H1 H2]. rewrite H1, H2. cbn [fst snd].
  split; (split; [intros [Hc|?]; [by apply elem_of_empty in Hc|done]|by right]).
Qed.

Lemma purge_same_frame (hash : KnowledgeStatement → Z) (ai : AI.MinesweeperAI) :
  let ai' := AI.remove_empty_and_duplicate_statements hash ai in
  evolves ai ai' ∧
  AI.identified_mines ai' = AI.identified_mines ai ∧
  AI.identified_safe_cells ai' = AI.identified_safe_cells ai ∧
  AI.safe_cell_queue ai' = AI.safe_cell_queue ai ∧
  AI.objects ai' = AI.objects ai ∧
  AI.knowledge_base ai' = (purge_spec (AI.objects ai) [] (AI.knowledge_base ai)).1.
Proof.
  unfold AI.remove_empty_and_duplicate_statements. rewrite purge_is_spec.
  destruct (purge_spec _ _ _) as [cleaned dup]. destruct ai. cbn.
  split_and!; try done. unfold evolves. cbn.
  split_and!; try done. exists []. by rewrite app_nil_r.
Qed.

(** The marks and the purge of one pass, read on the solver state: [S] and
    [M] are the cells the statements of the knowledge base declare safe and
    mined. *)
Lemma mark_and_purge_spec (hash : KnowledgeStatement → Z) (ai : AI.MinesweeperAI) :
  let S := (AI.collect (AI.objects ai) (AI.knowledge_base ai)).1 in
  let M := (AI.collect (AI.objects ai) (AI.knowledge_base ai)).2 in
  let ai' := (AI.mark_and_purge hash ai).1 in
  (AI.mark_and_purge hash ai).2 = bool_decide (S ≠ ∅) || bool_decide (M ≠ ∅) ∧
  evolves ai ai' ∧
  AI.identified_safe_cells ai' = AI.identified_safe_cells ai ∪ S ∧
  AI.identified_mines ai' = AI.identified_mines ai ∪ M ∧
  length (AI.objects ai') = length (AI.objects ai) ∧
  (∀ l, deref (AI.objects ai') l
        = if decide (l ∈ AI.knowledge_base ai ∧ (l < length (AI.objects ai))%nat)
          then strip_mines M (strip_safes S (deref (AI.objects ai) l))
          else deref (AI.objects ai) l) ∧
  AI.knowledge_base ai' = (purge_spec (AI.objects ai') [] (AI.knowledge_base ai)).1.
Proof.
  intros S M. unfold AI.mark_and_purge.
  destruct (AI.collect (AI.objects ai) (AI.knowledge_base ai)) as [S' M'] eqn:EC.
  cbn [fst snd] in *. subst S M. cbn [fst snd].
  destruct (marks_safe_spec (elements S') ai) as (E1 & K1 & T1 & M1 & S1 & L1 & D1).
  set (ai1 := foldl _ ai (elements S')) in *.
  destruct (marks_mine_spec (elements M') ai1) as (E2 & K2 & T2 & M2 & S2 & Q2 & L2 & D2).
  set (ai2 := foldl _ ai1 (elements M')) in *.
  destruct (purge_same_frame hash ai2) as (E3 & M3 & S3 & Q3 & O3 & K3).
  rewrite !list_to_set_elements_L in *.
  split_and!.
  - done.
  - eapply evolves_trans; [exact E1|]. by eapply evolves_trans.
  - congruence.
  - congruence.
  - congruence.
  - intros l. rewrite O3, D2, K1, L1, D1. by case_decide.
  - rewrite K3, O3. congruence.
Qed.

(** *** What the strategies return is derived from what they are given *)

Lemma foldl_inv {S A} (Q : S → Prop) (R : A → Prop) (f : S → A → S) (l : list A) :
  ∀ s, Forall R l → Q s → (∀ s a, R a → Q s → Q (f s a)) → Q (foldl f s l).
Proof.
  induction l as [|a l IH]; intros s Hl Hs Hf; [done|].
  apply Forall_cons in Hl as [Ha Hl]. simpl. apply IH; [done| |done]. by apply Hf.
Qed.

Lemma for_pairs_inv {S A} (Q : S → Prop) (R : A → Prop) (body : A → A → S → S)
    (l : list A) :
  ∀ s, Forall R l → Q s → (∀ x y s, R x → R y → Q s → Q (body x y s)) →
       Q (for_pairs body l s).
Proof.
  induction l as [|a l IH]; intros s Hl Hs Hf; [done|].
  apply Forall_cons in Hl as [Ha Hl]. simpl. apply IH; [done| |done].
  apply (foldl_inv Q R); [done|done|]. intros s' b Hb Hs'. by apply Hf.
Qed.

Section Closure.
Context (P : KnowledgeStatement → Prop) (HP : derive_closed P).

Lemma emit_closed acc x : Forall P acc → P x → Forall P (emit acc x).
Proof.
  intros Ha Hx. unfold emit. case_bool_decide; [done|].
  apply Forall_app. split; [done|]. by constructor.
Qed.

Lemma bf_values_body_closed a b acc :
  P a → P b → Forall P acc → Forall P (bf_values_body a b acc).
Proof.
  intros Ha Hb Hacc. unfold bf_values_body, Search.issubset.
  case_bool_decide; [|done]. apply emit_closed; [done|]. by apply HP.
Qed.

Lemma bf_values_closed vs : Forall P vs → Forall P (bf_values vs).
Proof.
  intros Hvs. unfold bf_values.
  apply (foldl_inv (Forall P) P); [done|constructor|].
  intros acc a Ha Hacc. apply (foldl_inv (Forall P) P); [done|done|].
  intros acc' b Hb Hacc'. by apply bf_values_body_closed.
Qed.

Lemma dc_values_closed vs fuel : ∀ start end_ o,
  Forall P vs → 0 ≤ start → end_ < Z.of_nat (length vs) →
  dc_values fuel vs start end_ = Some o → Forall P o.
Proof.
  induction fuel as [|fuel IH]; intros start end_ o Hvs Hs He; [done|].
  cbn [dc_values].
  destruct (start >? end_) eqn:E1; [intros [= <-]; constructor|].
  destruct (start =? end_) eqn:E2.
  { intros [= <-]. constructor; [|constructor].
    rewrite Forall_forall in Hvs. apply Hvs, list_elem_of_lookup_total_2. lia. }
  assert (Hmid : start ≤ (start + end_) `div` 2 < end_).
  { split; [apply Z.div_le_lower_bound; lia|apply Z.div_lt_upper_bound; lia]. }
  destruct (dc_values fuel vs start _) as [left|] eqn:D1; [|done].
  destruct (dc_values fuel vs _ end_) as [right|] eqn:D2; [|done].
  intros [= <-].
  assert (Hl : Forall P left) by (eapply IH; [done| | |exact D1]; lia).
  assert (Hr : Forall P right) by (eapply IH; [done| | |exact D2]; lia).
  apply (foldl_inv (Forall P) P); [done|by apply Forall_app|].
  intros acc a Ha Hacc. apply (foldl_inv (Forall P) P); [done|done|].
  intros acc' b Hb Hacc'. by apply bf_values_body_closed.
Qed.

Lemma dp_values_closed vs : Forall P vs → Forall P (dp_values vs).
Proof.
  intros Hvs. unfold dp_values.
  apply (for_pairs_inv (λ st : list KnowledgeStatement * list _, Forall P st.1) P).
  - eapply Permutation_Forall; [symmetry; apply sorted_perm|done].
  - constructor.
  - intros a b [inf cache] Ha Hb Hinf. unfold dp_values_body. cbn [fst] in *.
    case_bool_decide; [done|]. destruct (Search.issubset _ _) eqn:E; [|done].
    destruct (_ || _); [done|]. case_bool_decide; [done|]. cbn [fst].
    apply Forall_app. split; [done|]. constructor; [|constructor].
    apply HP; [done..|]. by apply bool_decide_eq_true_1 in E.
Qed.

Lemma gm_values_closed vs : Forall P vs → Forall P (gm_values vs).
Proof.
  intros Hvs. unfold gm_values.
  assert (Hs : Forall P (sorted_reverse KS.lt vs))
    by (eapply Permutation_Forall; [symmetry; apply sorted_reverse_perm|done]).
  revert Hs. generalize (sorted_reverse KS.lt vs). intros l.
  assert (Hacc : Forall P []) by constructor. revert Hacc.
  generalize (@nil KnowledgeStatement). induction l as [|c l IH]; intros acc Hacc Hl; [done|].
  apply Forall_cons in Hl as [Hc Hl]. simpl. apply IH; [|done].
  clear IH. revert acc Hacc. induction Hl as [|n l Hn Hl IH]; intros acc Hacc; [done|].
  simpl. destruct (Search.issubset _ _) eqn:E; [|done].
  apply IH, emit_closed; [done|]. apply HP; [done..|]. by apply bool_decide_eq_true_1 in E.
Qed.

Lemma bfs_values_loop_closed fuel : ∀ queue inferred visited o,
  Forall (Forall P) queue → Forall P inferred →
  bfs_values_loop fuel queue inferred visited = Some o → Forall P o.
Proof.
  induction fuel as [|fuel IH]; intros queue inferred visited o Hq Hi.
  - destruct queue; simpl; [by intros [= <-]|done].
  - destruct queue as [|c queue]; cbn [bfs_values_loop]; [by intros [= <-]|].
    apply Forall_cons in Hq as [Hc Hq].
    case_bool_decide; [by apply IH|].
    pose proof (for_pairs_inv
      (λ st : list (list KnowledgeStatement) * list KnowledgeStatement,
         Forall (Forall P) st.1 ∧ Forall P st.2) P (bfs_values_body c) c (queue, inferred) Hc)
      as Hfp.
    destruct (for_pairs (bfs_values_body c) c (queue, inferred)) as [q' i'].
    destruct Hfp as [Hq' Hi']; [done| |by apply IH].
    intros a b [q i] Ha Hb [Hq1 Hi1]. unfold bfs_values_body. cbn [fst snd] in *.
    destruct (Search.issubset _ _) eqn:E; [|done]. case_bool_decide; [done|].
    assert (Hd : P (derive a b)) by (apply HP; [done..|]; by apply bool_decide_eq_true_1 in E).
    cbn [fst snd]. split; apply Forall_app; (split; [done|]); constructor; try constructor; try done.
    apply Forall_app. split; [done|]. by constructor.
Qed.

Lemma dfs_values_loop_closed fuel : ∀ stack inferred visited o,
  Forall (Forall P) stack → Forall P inferred →
  dfs_values_loop fuel stack inferred visited = Some o → Forall P o.
Proof.
  induction fuel as [|fuel IH]; intros stack inferred visited o Hq Hi.
  - destruct stack; simpl; [by intros [= <-]|done].
  - destruct stack as [|c stack]; cbn [dfs_values_loop]; [by intros [= <-]|].
    apply Forall_cons in Hq as [Hc Hq].
    case_bool_decide; [by apply IH|].
    pose proof (for_pairs_inv
      (λ st : list (list KnowledgeStatement) * list KnowledgeStatement,
         Forall (Forall P) st.1 ∧ Forall P st.2) P (dfs_values_body c) c (stack, inferred) Hc)
      as Hfp.
    destruct (for_pairs (dfs_values_body c) c (stack, inferred)) as [q' i'].
    destruct Hfp as [Hq' Hi']; [done| |by apply IH].
    intros a b [q i] Ha Hb [Hq1 Hi1]. unfold dfs_values_body. cbn [fst snd] in *.
    destruct (Search.issubset _ _) eqn:E; [|done]. destruct (_ && _); [|done].
    case_bool_decide; [done|].
    assert (Hd : P (derive a b)) by (apply HP; [done..|]; by apply bool_decide_eq_true_1 in E).
    cbn [fst snd]. split.
    + constructor; [|done]. apply Forall_app. split; [done|]. by constructor.
    + apply Forall_app. split; [done|]. by constructor.
Qed.

(** Whatever a method returns satisfies every property of its input that the
    derivation rule preserves. *)
Lemma values_of_closed (a : Search.algorithm) (fuel : nat) vs o :
  Forall P vs → values_of a fuel vs = Some o → Forall P o.
Proof.
  intros Hvs. destruct a; cbn [values_of].
  - intros [= <-]. by apply bf_values_closed.
  - unfold dc_search_values. destruct vs as [|v vs']; [by intros [= <-]|].
    apply dc_values_closed; [done|lia|lia].
  - intros [= <-]. by apply dp_values_closed.
  - intros [= <-]. constructor.
  - intros [= <-]. by apply gm_values_closed.
  - unfold bfs_values. apply bfs_values_loop_closed; [|constructor].
    constructor; [|constructor].
    eapply Permutation_Forall; [symmetry; apply sorted_perm|done].
  - unfold dfs_values. apply dfs_values_loop_closed; [|constructor].
    constructor; [|constructor].
    eapply Permutation_Forall; [symmetry; apply sorted_perm|done].
Qed.

End Closure.

(** *** More fuel does not change what a method returns *)

Lemma dc_values_mono vs fuel : ∀ fuel' start end_ o,
  dc_values fuel vs start end_ = Some o → (fuel ≤ fuel')%nat →
  dc_values fuel' vs start end_ = Some o.
Proof.
  induction fuel as [|fuel IH]; intros fuel' start end_ o; [done|].
  destruct fuel' as [|fuel']; [lia|]. cbn [dc_values]. intros H Hle.
  destruct (start >? end_); [done|]. destruct (start =? end_); [done|].
  destruct (dc_values fuel vs start _) as [left|] eqn:D1; [|done].
  destruct (dc_values fuel vs _ end_) as [right|] eqn:D2; [|done].
  rewrite (IH fuel' _ _ _ D1), (IH fuel' _ _ _ D2) by lia. done.
Qed.

Lemma bfs_values_loop_mono fuel : ∀ fuel' queue inferred visited o,
  bfs_values_loop fuel queue inferred visited = Some o → (fuel ≤ fuel')%nat →
  bfs_values_loop fuel' queue inferred visited = Some o.
Proof.
  induction fuel as [|fuel IH]; intros fuel' queue inferred visited o H Hle.
  - destruct queue; [|done]. by destruct fuel'.
  - destruct fuel' as [|fuel']; [lia|]. destruct queue as [|c queue]; [done|].
    cbn [bfs_values_loop] in *. case_bool_decide; [apply IH; [done|lia]|].
    destruct (for_pairs _ _ _) as [q i]. apply IH; [done|lia].
Qed.

Lemma dfs_values_loop_mono fuel : ∀ fuel' stack inferred visited o,
  dfs_values_loop fuel stack inferred visited = Some o → (fuel ≤ fuel')%nat →
  dfs_values_loop fuel' stack inferred visited = Some o.
Proof.
  induction fuel as [|fuel IH]; intros fuel' stack inferred visited o H Hle.
  - destruct stack; [|done]. by destruct fuel'.
  - destruct fuel' as [|fuel']; [lia|]. destruct stack as [|c stack]; [done|].
    cbn [dfs_values_loop] in *. case_bool_decide; [apply IH; [done|lia]|].
    destruct (for_pairs _ _ _) as [q i]. apply IH; [done|lia].
Qed.

Lemma values_of_mono (a : Search.algorithm) (fuel fuel' : nat) vs o :
  values_of a fuel vs = Some o → (fuel ≤ fuel')%nat → values_of a fuel' vs = Some o.
Proof.
  destruct a; cbn [values_of]; try done.
  - unfold dc_search_values. destruct vs; [done|]. apply dc_values_mono.
  - apply bfs_values_loop_mono.
  - apply dfs_values_loop_mono.
Qed.

(** Support: a statement a method returns mentions only cells its input
    mentions. *)
Lemma values_of_cells (U : gset Cell) (a : Search.algorithm) (fuel : nat) vs o :
  Forall (λ s, KS.cell_positions s ⊆ U) vs → values_of a fuel vs = Some o →
  Forall (λ s, KS.cell_positions s ⊆ U) o.
Proof.
  apply values_of_closed. intros x y Hx Hy _. unfold derive. simpl. set_solver.
Qed.

(** *** Invariants of the loop of add_knowledge *)

Lemma discount_mines_fold (L : list Cell) : ∀ (st : gset Cell * Z),
  let r := foldl (λ (st : gset Cell * Z) mine,
                    if decide (mine ∈ st.1) then (st.1 ∖ {[mine]}, st.2 - 1) else st) st L in
  KS.mk r.1 r.2 = foldl (λ s c, KS.mark_cell_as_mine c s) (KS.mk st.1 st.2) L.
Proof.
  induction L as [|c L IH]; intros st; cbn [foldl]; [done|].
  rewrite IH. f_equal. unfold KS.mark_cell_as_mine. cbn [KS.cell_positions KS.mine_count].
  by case_decide.
Qed.

Lemma target_strip (ai : AI.MinesweeperAI) (cell : Cell) (count : Z) :
  target ai cell count
  = strip_mines (AI.identified_mines ai)
      (KS.mk (AI.neighbours (AI.grid_size ai) cell ∖ AI.identified_safe_cells ai) count).
Proof.
  unfold target, AI.discount_mines.
  rewrite (discount_mines_fold (elements (AI.identified_mines ai)) (_, count)).
  cbn [fst snd]. by rewrite fold_mark_mine, list_to_set_elements_L.
Qed.

Lemma size_inter_union_split (X S mines M : gset Cell) :
  S ## mines →
  size ((X ∖ S) ∩ (mines ∪ M)) = (size (X ∩ mines) + size ((X ∖ mines ∖ S) ∩ M))%nat.
Proof.
  intros Hd. rewrite <- size_union by set_solver. f_equal.
  apply set_eq. intros x. rewrite !elem_of_union, !elem_of_intersection,
    !elem_of_difference, elem_of_union.
  split; [|set_solver]. intros [[? ?] [?|?]]; [by left|].
  destruct (decide (x ∈ mines)); [by left|by right].
Qed.

(** Marking safe the cells [S] and mined the cells [M], none of which was a
    known mine, turns the statement an observation would build into the one
    it would build afterwards. *)
Lemma target_after_marks (ai ai' : AI.MinesweeperAI) (S M : gset Cell) (cell : Cell)
    (count : Z) :
  AI.grid_size ai' = AI.grid_size ai →
  AI.identified_safe_cells ai' = AI.identified_safe_cells ai ∪ S →
  AI.identified_mines ai' = AI.identified_mines ai ∪ M →
  S ## AI.identified_mines ai →
  target ai' cell count = strip_mines M (strip_safes S (target ai cell count)).
Proof.
  intros Hg Hs Hm Hd. rewrite !target_strip, Hg, Hs, Hm.
  unfold strip_mines, strip_safes. cbn [KS.cell_positions KS.mine_count].
  set (nb := AI.neighbours (AI.grid_size ai) cell). f_equal; [set_solver|].
  replace (nb ∖ (AI.identified_safe_cells ai ∪ S))
    with ((nb ∖ AI.identified_safe_cells ai) ∖ S) by set_solver.
  rewrite size_inter_union_split by done.
  replace ((nb ∖ AI.identified_safe_cells ai ∖ AI.identified_mines ai) ∖ S)
    with (nb ∖ AI.identified_safe_cells ai ∖ AI.identified_mines ai ∖ S) by set_solver.
  lia.
Qed.

Lemma known_safes_subseteq (s : KnowledgeStatement) : KS.known_safes s ⊆ KS.cell_positions s.
Proof. unfold KS.known_safes. destruct (_ =? _); set_solver. Qed.

Lemma known_mines_subseteq (s : KnowledgeStatement) : KS.known_mines s ⊆ KS.cell_positions s.
Proof. unfold KS.known_mines. destruct (_ =? _); set_solver. Qed.

Lemma collect_disjoint (ai : AI.MinesweeperAI) :
  wf_ai ai →
  (AI.collect (AI.objects ai) (AI.knowledge_base ai)).1 ## identified ai ∧
  (AI.collect (AI.objects ai) (AI.knowledge_base ai)).2 ## identified ai.
Proof.
  intros [_ Hd]. split; intros c Hc Hi.
  - apply collect_spec in Hc as (l & Hl & Hc). apply known_safes_subseteq in Hc.
    by apply (Hd l Hl c).
  - apply collect_spec in Hc as (l & Hl & Hc). apply known_mines_subseteq in Hc.
    by apply (Hd l Hl c).
Qed.

Lemma sublist_elem_of {A} (l1 l2 : list A) (x : A) : l1 `sublist_of` l2 → x ∈ l1 → x ∈ l2.
Proof. intros Hs. induction Hs; set_solver. Qed.

Lemma purge_spec_purged (h : heap) (kb : list loc) : purged h (purge_spec h [] kb).1.
Proof.
  split; [apply purge_spec_NoDup|]. intros l Hl. by apply purge_spec_elem in Hl as (_ & ? & _).
Qed.

(** The marks and the purge of a pass keep the invariants. *)
Lemma mark_and_purge_inv (hash : KnowledgeStatement → Z) (ai : AI.MinesweeperAI)
    (set : list AI.entry) (cell : Cell) (count : Z) :
  wf_ai ai → set_valid (AI.objects ai) set → set_inv hash ai set →
  target_inv ai cell count →
  let ai' := (AI.mark_and_purge hash ai).1 in
  wf_ai ai' ∧ set_valid (AI.objects ai') set ∧ set_inv hash ai' set ∧
  target_inv ai' cell count ∧ purged (AI.objects ai') (AI.knowledge_base ai').
Proof.
  intros Hwf Hsv Hsi Hti ai'.
  destruct (mark_and_purge_spec hash ai) as (_ & Ev & Sf & Mi & Len & D & K).
  destruct (collect_disjoint ai Hwf) as [HS HM].
  fold ai' in Ev, Sf, Mi, Len, D, K.
  set (S := (AI.collect (AI.objects ai) (AI.knowledge_base ai)).1) in *.
  set (M := (AI.collect (AI.objects ai) (AI.knowledge_base ai)).2) in *.
  destruct Hwf as [Hv Hd].
  assert (Hsub : ∀ l, l ∈ AI.knowledge_base ai' → l ∈ AI.knowledge_base ai).
  { intros l Hl. rewrite K in Hl. eapply sublist_elem_of; [apply purge_spec_sublist|done]. }
  assert (Hin : ∀ l, l ∈ AI.knowledge_base ai →
            deref (AI.objects ai') l = strip_mines M (strip_safes S (deref (AI.objects ai) l))).
  { intros l Hl. rewrite D, decide_True; [done|].
    split; [done|]. eapply valid_elem; [exact Hv|done]. }
  assert (Hid : identified ai' = identified ai ∪ S ∪ M).
  { unfold identified. rewrite Sf, Mi. set_solver. }
  assert (Hkeep : ∀ l, l ∈ AI.knowledge_base ai →
            KS.cell_positions (deref (AI.objects ai') l) ≠ ∅ →
            deref (AI.objects ai') l ∈ vals (AI.objects ai') (AI.knowledge_base ai')).
  { intros l Hl Hne. rewrite K. apply purge_spec_keeps; [done..|apply not_elem_of_nil]. }
  split_and!.
  - split.
    + apply Forall_forall. intros l Hl. rewrite Len. eapply valid_elem; [exact Hv|by apply Hsub].
    + intros l Hl. apply Hsub in Hl. rewrite (Hin l Hl), Hid.
      specialize (Hd l Hl). unfold strip_mines, strip_safes. simpl. set_solver.
  - unfold set_valid, valid in *. by rewrite Len.
  - intros e He Hlive.
    destruct (decide (AI.entry_key e ∈ AI.knowledge_base ai)) as [Hk|Hk].
    + destruct (decide (KS.cell_positions (deref (AI.objects ai') (AI.entry_key e)) = ∅));
        [by left|right; left]. by apply Hkeep.
    + assert (E : deref (AI.objects ai') (AI.entry_key e) = deref (AI.objects ai) (AI.entry_key e)).
      { rewrite D, decide_False; [done|tauto]. }
      rewrite E in *. destruct (Hsi e He Hlive) as [H|[H|H]].
      * by left.
      * apply elem_of_vals_inv in H as (l & Hl & Hx).
        set (x := deref (AI.objects ai) (AI.entry_key e)) in *.
        destruct (decide (KS.cell_positions x ## S ∪ M)) as [Hdis|Hdis].
        -- assert (E' : deref (AI.objects ai') l = x).
           { rewrite (Hin l Hl), Hx.
             destruct (strip_disjoint S x) as [-> _]; [set_solver|].
             destruct (strip_disjoint M x) as [_ ->]; [set_solver|]. done. }
           destruct (decide (KS.cell_positions x = ∅)); [by left|right; left].
           rewrite <- E'. apply Hkeep; [done|]. by rewrite E'.
        -- right; right. rewrite Hid. set_solver.
      * right; right. rewrite Hid. set_solver.
  - assert (Ht : target ai' cell count = strip_mines M (strip_safes S (target ai cell count))).
    { apply target_after_marks; [by destruct Ev|done|done|].
      unfold identified in HS. set_solver. }
    destruct Hti as [He|Hin'].
    + left. rewrite Ht. unfold strip_mines, strip_safes. simpl. set_solver.
    + apply elem_of_vals_inv in Hin' as (l & Hl & Hx).
      destruct (decide (KS.cell_positions (target ai' cell count) = ∅)); [by left|right].
      rewrite Ht, <- Hx, <- (Hin l Hl). apply Hkeep; [done|].
      by rewrite (Hin l Hl), Hx, <- Ht.
  - rewrite K. apply purge_spec_purged.
Qed.

(** *** One pass of the loop: merging the inferences *)

Lemma set_update_elem (hash : KnowledgeStatement → Z) (h : heap) (l : list loc) :
  ∀ (s : list AI.entry) (e : AI.entry),
  e ∈ AI.set_update hash h s l →
  e ∈ s ∨ (AI.entry_key e ∈ l ∧ AI.entry_hash e = hash (deref h (AI.entry_key e))).
Proof.
  unfold AI.set_update. induction l as [|x l IH]; intros s e He; cbn [foldl] in He; [by left|].
  apply IH in He as [He|[He1 He2]].
  - unfold AI.set_add in He. destruct (AI.set_contains _ _ _ _); [by left|].
    apply elem_of_app in He as [He|He]; [by left|].
    apply list_elem_of_singleton in He as ->. right. split; [by left|done].
  - right. split; [by right|done].
Qed.

Lemma set_update_keeps (hash : KnowledgeStatement → Z) (h : heap) (l : list loc) :
  ∀ (s : list AI.entry) (e : AI.entry), e ∈ s → e ∈ AI.set_update hash h s l.
Proof.
  unfold AI.set_update. induction l as [|x l IH]; intros s e He; cbn [foldl]; [done|].
  apply IH. unfold AI.set_add. destruct (AI.set_contains _ _ _ _); [done|].
  apply elem_of_app. by left.
Qed.

(** After [s.add(x)] and whatever is added later, [x in s]. *)
Lemma set_update_contains (hash : KnowledgeStatement → Z) (h : heap) (l : list loc) :
  ∀ (s : list AI.entry) (x : loc),
  x ∈ l ∨ AI.set_contains hash h s x = true →
  AI.set_contains hash h (AI.set_update hash h s l) x = true.
Proof.
  unfold AI.set_update. induction l as [|y l IH]; intros s x Hx; cbn [foldl].
  - destruct Hx as [Hx|Hx]; [by apply elem_of_nil in Hx|done].
  - apply IH. destruct Hx as [Hx|Hx].
    + apply elem_of_cons in Hx as [->|Hx]; [right|by left].
      unfold AI.set_add. destruct (AI.set_contains hash h s y) eqn:E; [done|].
      unfold AI.set_contains. rewrite existsb_app. apply orb_true_iff. right.
      simpl. unfold AI.entry_matches. simpl. rewrite Z.eqb_refl.
      by rewrite bool_decide_eq_true_2.
    + right. unfold AI.set_add. destruct (AI.set_contains hash h s y) eqn:E; [done|].
      unfold AI.set_contains in *. rewrite existsb_app. apply orb_true_iff. by left.
Qed.

Lemma set_update_valid (hash : KnowledgeStatement → Z) (h : heap) (l : list loc)
    (s : list AI.entry) :
  set_valid h s → valid h l → set_valid h (AI.set_update hash h s l).
Proof.
  intros Hs Hl. unfold set_valid, valid in *. apply Forall_forall. intros k Hk.
  apply list_elem_of_fmap in Hk as (e & -> & He).
  apply set_update_elem in He as [He|[He _]].
  - rewrite Forall_forall in Hs. apply Hs. apply list_elem_of_fmap. eauto.
  - rewrite Forall_forall in Hl. by apply Hl.
Qed.

Lemma target_same (ai ai' : AI.MinesweeperAI) (cell : Cell) (count : Z) :
  AI.grid_size ai' = AI.grid_size ai →
  AI.identified_safe_cells ai' = AI.identified_safe_cells ai →
  AI.identified_mines ai' = AI.identified_mines ai →
  target ai' cell count = target ai cell count.
Proof. intros Hg Hs Hm. unfold target. by rewrite Hg, Hs, Hm. Qed.

(** What [merge] does to the solver. *)
Lemma merge_spec (hash : KnowledgeStatement → Z) (ai : AI.MinesweeperAI)
    (set : list AI.entry) (r : Search.result) :
  let news := filter (λ inf, AI.set_contains hash (Search.r_heap r) set inf = false)
                     (Search.r_inferred r) in
  let ai' := (AI.merge hash ai set r).1.1 in
  evolves (AI.set_objects (Search.r_heap r) ai) ai' ∧
  AI.identified_safe_cells ai' = AI.identified_safe_cells ai ∧
  AI.identified_mines ai' = AI.identified_mines ai ∧
  AI.safe_cell_queue ai' = AI.safe_cell_queue ai ∧
  AI.objects ai' = Search.r_heap r ∧
  AI.knowledge_base ai' = Search.r_knowledge_base r ++ news ∧
  (AI.merge hash ai set r).1.2 = AI.set_update hash (Search.r_heap r) set news ∧
  (AI.merge hash ai set r).2 = bool_decide (news ≠ []).
Proof.
  intros news ai'. subst ai'. unfold AI.merge. destruct ai as [g mv mi sa q kb st me po ob].
  cbn -[filter]. fold news. destruct news as [|n news'] eqn:E.
  - cbn. rewrite app_nil_r. split_and!; try done.
    unfold evolves. cbn. split_and!; try done. exists []. by rewrite app_nil_r.
  - cbn. split_and!; try done.
    unfold evolves. cbn. split_and!; try done. exists []. by rewrite app_nil_r.
Qed.

Lemma filter_elem_of_inv {A} (P : A → Prop) `{∀ x, Decision (P x)} (l : list A) (x : A) :
  x ∈ filter P l → x ∈ l.
Proof. rewrite list_elem_of_filter. tauto. Qed.

(** Merging the inferences of a sound search call keeps the invariants. *)
Lemma merge_inv (hash : KnowledgeStatement → Z) (ai : AI.MinesweeperAI)
    (set : list AI.entry) (r : Search.result) (kb0 : list loc)
    (vs : list KnowledgeStatement) (a : Search.algorithm) (fuel : nat) (cell : Cell)
    (count : Z) :
  wf_ai ai → set_valid (AI.objects ai) set → set_inv hash ai set →
  target_inv ai cell count →
  sim_result (AI.objects ai) (AI.knowledge_base ai) kb0 r vs →
  values_of a fuel (vals (AI.objects ai) (AI.knowledge_base ai)) = Some vs →
  let ai' := (AI.merge hash ai set r).1.1 in
  let set' := (AI.merge hash ai set r).1.2 in
  wf_ai ai' ∧ set_valid (AI.objects ai') set' ∧ set_inv hash ai' set' ∧
  target_inv ai' cell count.
Proof.
  intros [Hv Hd] Hsv Hsi Hti ([ext E] & Kr & (Vr & _ & _) & Vs) Hval ai' set'.
  destruct (merge_spec hash ai set r) as (Ev & Sf & Mi & _ & Ob & Kb & St & _).
  fold ai' in Ev, Sf, Mi, Ob, Kb. fold set' in St.
  set (news := filter _ (Search.r_inferred r)) in *.
  assert (Hid : identified ai' = identified ai) by (unfold identified; by rewrite Sf, Mi).
  assert (Hold : ∀ l, (l < length (AI.objects ai))%nat →
            deref (AI.objects ai') l = deref (AI.objects ai) l).
  { intros l Hl. rewrite Ob, E. by apply deref_app. }
  assert (Hkb : vals (AI.objects ai') (AI.knowledge_base ai)
                = vals (AI.objects ai) (AI.knowledge_base ai)).
  { rewrite Ob, E. by apply vals_app_heap. }
  assert (Hnews : ∀ l, l ∈ news → l ∈ Search.r_inferred r).
  { intros l. apply filter_elem_of_inv. }
  assert (Hsup : Forall (λ s, KS.cell_positions s ## identified ai) vs).
  { eapply (values_of_closed (λ s, KS.cell_positions s ## identified ai));
      [| |exact Hval].
    - intros x y _ Hy _. unfold derive. simpl. set_solver.
    - apply Forall_forall. intros s Hs. apply elem_of_vals_inv in Hs as (l & Hl & <-).
      by apply Hd. }
  assert (Hvnews : valid (AI.objects ai') news).
  { rewrite Ob. apply Forall_forall. intros l Hl. eapply valid_elem; [exact Vr|by apply Hnews]. }
  split_and!.
  - split.
    + rewrite Kb, Kr. apply Forall_app. split; [|done].
      rewrite Ob, E. by apply valid_app_heap.
    + intros l Hl. rewrite Kb, Kr in Hl. rewrite Hid. apply elem_of_app in Hl as [Hl|Hl].
      * rewrite Hold by (exact (valid_elem _ _ _ Hv Hl)). by apply Hd.
      * rewrite Forall_forall in Hsup. apply Hsup. rewrite <- Vs, Ob.
        by apply elem_of_vals, Hnews.
  - rewrite St, <- Ob. apply set_update_valid; [|done].
    unfold set_valid. rewrite Ob, E. by apply valid_app_heap.
  - intros e He Hlive. rewrite St, <- Ob in He.
    apply set_update_elem in He as [He|[He _]].
    + assert (Hk : (AI.entry_key e < length (AI.objects ai))%nat).
      { eapply valid_elem; [exact Hsv|]. apply list_elem_of_fmap. eauto. }
      rewrite Hold in * by done. rewrite Hid.
      destruct (Hsi e He Hlive) as [H|[H|H]]; [by left|right; left|by right; right].
      rewrite Kb, Kr. unfold vals. rewrite map_app. apply elem_of_app. left.
      fold (vals (AI.objects ai') (AI.knowledge_base ai)). by rewrite Hkb.
    + right; left. rewrite Kb. apply elem_of_vals, elem_of_app. by right.
  - unfold target_inv.
    rewrite (target_same ai ai') by (first [by destruct Ev|done]).
    destruct Hti as [H|H]; [by left|right].
    rewrite Kb, Kr. unfold vals. rewrite map_app. apply elem_of_app. left.
    fold (vals (AI.objects ai') (AI.knowledge_base ai)). by rewrite Hkb.
Qed.

(** *** The loop stops in a settled state *)

Lemma collect_empty (h : heap) (kb : list loc) :
  AI.collect h kb = (∅, ∅) ↔
  ∀ l, l ∈ kb → KS.known_safes (deref h l) = ∅ ∧ KS.known_mines (deref h l) = ∅.
Proof.
  split.
  - intros E l Hl. split; apply elem_of_equiv_empty_L; intros c Hc.
    + assert (H : c ∈ (AI.collect h kb).1) by (apply collect_spec; eauto).
      rewrite E in H. by apply elem_of_empty in H.
    + assert (H : c ∈ (AI.collect h kb).2) by (apply collect_spec; eauto).
      rewrite E in H. by apply elem_of_empty in H.
  - intros H. destruct (AI.collect h kb) as [S M] eqn:E. f_equal.
    + apply elem_of_equiv_empty_L. intros c Hc.
      assert (Hc' : c ∈ (AI.collect h kb).1) by (by rewrite E).
      apply collect_spec in Hc' as (l & Hl & Hc'). destruct (H l Hl) as [H1 _].
      rewrite H1 in Hc'. by apply elem_of_empty in Hc'.
    + apply elem_of_equiv_empty_L. intros c Hc.
      assert (Hc' : c ∈ (AI.collect h kb).2) by (by rewrite E).
      apply collect_spec in Hc' as (l & Hl & Hc'). destruct (H l Hl) as [_ H2].
      rewrite H2 in Hc'. by apply elem_of_empty in Hc'.
Qed.

Lemma mark_and_purge_idle (hash : KnowledgeStatement → Z) (ai : AI.MinesweeperAI) :
  AI.collect (AI.objects ai) (AI.knowledge_base ai) = (∅, ∅) →
  AI.mark_and_purge hash ai = (AI.remove_empty_and_duplicate_statements hash ai, false).
Proof.
  intros E. unfold AI.mark_and_purge. rewrite E. rewrite elements_empty. cbn [foldl].
  by rewrite !bool_decide_eq_false_2 by (intros H; by apply H).
Qed.

Lemma mark_and_purge_unmarked (hash : KnowledgeStatement → Z) (ai : AI.MinesweeperAI) :
  (AI.mark_and_purge hash ai).2 = false →
  AI.collect (AI.objects ai) (AI.knowledge_base ai) = (∅, ∅).
Proof.
  destruct (mark_and_purge_spec hash ai) as (-> & _). intros H.
  apply orb_false_iff in H as [H1 H2].
  apply bool_decide_eq_false_1 in H1, H2.
  destruct (AI.collect _ _) as [S M]. cbn [fst snd] in *.
  f_equal; [by destruct (decide (S = ∅))|by destruct (decide (M = ∅))].
Qed.

Lemma search_support (ai : AI.MinesweeperAI) (a : Search.algorithm) (fuel : nat) vs :
  wf_ai ai →
  values_of a fuel (vals (AI.objects ai) (AI.knowledge_base ai)) = Some vs →
  Forall (λ s, KS.cell_positions s ## identified ai) vs.
Proof.
  intros [_ Hd] Hval.
  eapply (values_of_closed (λ s, KS.cell_positions s ## identified ai)); [| |exact Hval].
  - intros x y _ Hy _. unfold derive. simpl. set_solver.
  - apply Forall_forall. intros s Hs. apply elem_of_vals_inv in Hs as (l & Hl & <-).
    by apply Hd.
Qed.

Lemma set_contains_entry (hash : KnowledgeStatement → Z) (h : heap) (s : list AI.entry)
    (x : loc) :
  AI.set_contains hash h s x = true →
  ∃ e, e ∈ s ∧ AI.entry_hash e = hash (deref h x) ∧ deref h (AI.entry_key e) = deref h x.
Proof.
  unfold AI.set_contains. intros H. apply existsb_exists in H as (e & He & Hm).
  unfold AI.entry_matches in Hm. apply andb_true_iff in Hm as [H1 H2].
  exists e. split_and!; [by apply list_elem_of_In|lia|by apply bool_decide_eq_true_1 in H2].
Qed.

Lemma filter_nil_all {A} (P : A → Prop) `{∀ x, Decision (P x)} (l : list A) (x : A) :
  filter P l = [] → x ∈ l → ¬ P x.
Proof.
  intros E Hx HP. assert (Hin : x ∈ filter P l) by (by apply list_elem_of_filter).
  rewrite E in Hin. by apply elem_of_nil in Hin.
Qed.

Lemma settled_mono (ai : AI.MinesweeperAI) (fuel fuel' : nat) :
  settled ai fuel → (fuel ≤ fuel')%nat → settled ai fuel'.
Proof.
  intros (W & C & P & vs & V & K) Hle. split_and!; [done..|].
  exists vs. split; [by eapply values_of_mono|done].
Qed.

Lemma evolves_set_objects (h' : heap) (ai : AI.MinesweeperAI) :
  (length (AI.objects ai) ≤ length h')%nat → evolves ai (AI.set_objects h' ai).
Proof.
  intros Hl. destruct ai. unfold evolves. cbn in *.
  split_and!; try done. exists []. by rewrite app_nil_r.
Qed.

Lemma propagate_settles (hash : KnowledgeStatement → Z) (cell : Cell) (count : Z)
    (fuel : nat) :
  ∀ (ai : AI.MinesweeperAI) (set : list AI.entry) (n : Z) ai' n',
  wf_ai ai → set_valid (AI.objects ai) set → set_inv hash ai set →
  target_inv ai cell count →
  AI.propagate hash fuel ai set n = Some (ai', n') →
  settled ai' fuel ∧ target_inv ai' cell count ∧ evolves ai ai'.
Proof.
  induction fuel as [|fuel IH]; intros ai set n ai' n' Hwf Hsv Hsi Hti; [done|].
  cbn [AI.propagate].
  destruct (mark_and_purge_inv hash ai set cell count Hwf Hsv Hsi Hti)
    as (W1 & V1 & I1 & T1 & P1).
  destruct (mark_and_purge_spec hash ai) as (_ & Ev1 & _).
  pose proof (mark_and_purge_unmarked hash ai) as Hun.
  pose proof (mark_and_purge_idle hash ai) as Hidle.
  destruct (AI.mark_and_purge hash ai) as [aip marked] eqn:MP. cbn [fst snd] in *.
  pose proof (call_sim (AI.search_algorithm_method aip) fuel (AI.stat_generator aip)
                (AI.objects aip) (AI.knowledge_base aip) (proj1 W1)) as Hsim.
  destruct (Search.call _ _ _ _ _) as [r|]; [|done].
  destruct Hsim as (vs & Hval & Hres).
  destruct (merge_inv hash aip set r _ vs _ fuel cell count W1 V1 I1 T1 Hres Hval)
    as (W2 & V2 & I2 & T2).
  destruct (merge_spec hash aip set r) as (Ev2 & Sf2 & Mi2 & _ & Ob2 & Kb2 & St2 & Inf2).
  destruct Hres as ([ext E] & Kr & (Vr & _ & _) & Vs).
  assert (Ev : evolves ai (AI.merge hash aip set r).1.1).
  { eapply evolves_trans; [exact Ev1|]. eapply evolves_trans; [|exact Ev2].
    apply evolves_set_objects. rewrite E, length_app. lia. }
  destruct (AI.merge hash aip set r) as [[aim setm] inferred] eqn:MG. cbn [fst snd] in *.
  destruct (marked || inferred) eqn:Cont.
  - intros Hp. destruct (IH _ _ _ _ _ W2 V2 I2 T2 Hp) as (S3 & T3 & Ev3).
    split_and!; [eapply settled_mono; [done|lia]|done|by eapply evolves_trans].
  - intros [= <- <-]. apply orb_false_iff in Cont as [-> ->].
    split_and!; [|done|done].
    symmetry in Inf2. apply bool_decide_eq_false_1 in Inf2.
    set (news := filter _ (Search.r_inferred r)) in *.
    assert (Hn : news = []) by (by destruct (decide (news = []))).
    rewrite Hn, app_nil_r, Kr in Kb2. rewrite Hn in St2. cbn in St2.
    specialize (Hun eq_refl). specialize (Hidle Hun). injection Hidle as Hidle.
    destruct (purge_same_frame hash ai) as (_ & _ & _ & _ & Ob0 & Kb0). rewrite <- Hidle in Ob0, Kb0.
    assert (Hsame : ∀ l, l ∈ AI.knowledge_base aip →
              deref (AI.objects aim) l = deref (AI.objects aip) l).
    { intros l Hl. rewrite Ob2, E. apply deref_app. exact (valid_elem _ _ _ (proj1 W1) Hl). }
    assert (Hvals : vals (AI.objects aim) (AI.knowledge_base aim)
                    = vals (AI.objects aip) (AI.knowledge_base aip)).
    { rewrite Kb2, Ob2, E. apply vals_app_heap, W1. }
    split_and!.
    + done.
    + apply collect_empty. intros l Hl. rewrite Kb2 in Hl. rewrite (Hsame l Hl), Ob0.
      apply (proj1 (collect_empty _ _) Hun).
      rewrite Kb0 in Hl. eapply sublist_elem_of; [apply purge_spec_sublist|done].
    + destruct P1 as [Pn Pe]. split; [by rewrite Hvals|].
      intros l Hl. rewrite Kb2 in Hl. rewrite (Hsame l Hl). by apply Pe.
    + exists vs. split.
      * destruct Ev2 as (_ & -> & _). cbn. rewrite Hvals.
        eapply values_of_mono; [exact Hval|lia].
      * intros x Hx Hne. rewrite <- Vs in Hx. apply elem_of_vals_inv in Hx as (l & Hl & Hd).
        assert (Hc : AI.set_contains hash (Search.r_heap r) set l = true).
        { destruct (AI.set_contains hash (Search.r_heap r) set l) eqn:Ec; [done|].
          exfalso. by eapply (filter_nil_all _ _ l Hn Hl). }
        apply set_contains_entry in Hc as (e & He & Hh & Hk).
        rewrite <- Ob2, <- St2 in *. rewrite Hd in Hh, Hk.
        destruct (I2 e He) as [H|[H|H]].
        -- by rewrite Hk.
        -- by rewrite Hk in H.
        -- by rewrite Hk in H.
        -- exfalso. apply H. rewrite Hk.
           pose proof (search_support aip _ _ _ W1 Hval) as Hsup.
           rewrite Forall_forall in Hsup.
           assert (Hid : identified aim = identified aip)
             by (unfold identified; by rewrite Sf2, Mi2).
           rewrite Hid. apply Hsup. rewrite <- Vs, <- Hd. by apply elem_of_vals.
Qed.

(** *** Passes that change nothing *)

(** The purge returns a purged list as it is, and drops what follows it when
    that is empty or seen before. *)
Lemma purge_spec_id (h : heap) (kb : list loc) : ∀ (seen : list KnowledgeStatement) ext,
  NoDup (vals h kb) →
  (∀ l, l ∈ kb → KS.cell_positions (deref h l) ≠ ∅ ∧ deref h l ∉ seen) →
  (∀ l, l ∈ ext → KS.cell_positions (deref h l) = ∅ ∨ deref h l ∈ seen ∨
                   deref h l ∈ vals h kb) →
  (purge_spec h seen (kb ++ ext)).1 = kb.
Proof.
  induction kb as [|x kb IH]; intros seen ext Hnd Hkb Hext.
  - clear Hnd Hkb. cbn [app]. induction ext as [|e ext IHe]; [done|].
    cbn [purge_spec]. unfold KS.nonempty.
    assert (IH' := IHe (λ l Hl, Hext l (list_elem_of_further _ _ _ Hl))).
    destruct (Hext e (list_elem_of_here _ _)) as [He|[He|He]].
    + rewrite bool_decide_eq_false_2; [done|]. by intros Hc.
    + case_bool_decide; [|done]. by rewrite bool_decide_eq_true_2.
    + by apply elem_of_nil in He.
  - cbn [app purge_spec]. unfold KS.nonempty.
    destruct (Hkb x (list_elem_of_here _ _)) as [Hne Hns].
    rewrite bool_decide_eq_true_2 by done. rewrite bool_decide_eq_false_2 by done.
    cbn [fst]. f_equal. cbn [vals map] in Hnd. apply NoDup_cons in Hnd as [Hx Hnd].
    apply IH; [done| |].
    + intros l Hl. destruct (Hkb l (list_elem_of_further _ _ _ Hl)) as [H1 H2].
      split; [done|]. rewrite not_elem_of_cons. split; [|done].
      intros Heq. apply Hx. rewrite <- Heq. by apply elem_of_vals.
    + intros l Hl. destruct (Hext l Hl) as [H|[H|H]]; [by left|..].
      * right. left. by apply list_elem_of_further.
      * cbn [vals map] in H. apply elem_of_cons in H as [->|H].
        -- right. left. apply list_elem_of_here.
        -- right. by right.
Qed.

Lemma live_app_heap (hash : KnowledgeStatement → Z) (h ext : heap) (s : list AI.entry) :
  set_valid h s → live hash h s → live hash (h ++ ext) s.
Proof.
  unfold set_valid, valid, live. rewrite !Forall_forall. intros Hv Hl e He.
  rewrite deref_app; [by apply Hl|]. apply Hv. by apply list_elem_of_fmap_2.
Qed.

Lemma live_contains (hash : KnowledgeStatement → Z) (h : heap) (s : list AI.entry) (x : loc) :
  live hash h s → deref h x ∈ key_vals h s → AI.set_contains hash h s x = true.
Proof.
  intros Hl Hx. rewrite set_contains_live by done. by apply bool_decide_eq_true_2.
Qed.

(** One pass from an idle state: nothing is marked, the purge returns the
    settled list, the search derives [vs] again, and what is merged has no
    cells.  Once the set covers [vs] nothing is merged at all. *)
Lemma idle_pass (hash : KnowledgeStatement → Z) (ai : AI.MinesweeperAI) (kb1 : list loc)
    (vs : list KnowledgeStatement) (s : list AI.entry) (f fuel : nat) :
  idle hash ai kb1 vs s →
  values_of (AI.search_algorithm_method ai) f (vals (AI.objects ai) kb1) = Some vs →
  (f ≤ fuel)%nat →
  ∃ ap r,
    AI.mark_and_purge hash ai = (ap, false) ∧
    Search.call (AI.search_algorithm_method ap) fuel (AI.stat_generator ap)
                (AI.objects ap) (AI.knowledge_base ap) = Some r ∧
    idle hash (AI.merge hash ap s r).1.1 kb1 vs (AI.merge hash ap s r).1.2 ∧
    (∀ x, x ∈ vs →
       x ∈ key_vals (AI.objects (AI.merge hash ap s r).1.1) (AI.merge hash ap s r).1.2) ∧
    (∃ ext, AI.objects (AI.merge hash ap s r).1.1 = AI.objects ai ++ ext) ∧
    evolves ai (AI.merge hash ap s r).1.1 ∧
    AI.identified_safe_cells (AI.merge hash ap s r).1.1 = AI.identified_safe_cells ai ∧
    AI.identified_mines (AI.merge hash ap s r).1.1 = AI.identified_mines ai ∧
    AI.safe_cell_queue (AI.merge hash ap s r).1.1 = AI.safe_cell_queue ai ∧
    ((AI.merge hash ap s r).2 = false → AI.knowledge_base (AI.merge hash ap s r).1.1 = kb1) ∧
    ((∀ x, x ∈ vs → x ∈ key_vals (AI.objects ai) s) → (AI.merge hash ap s r).2 = false).
Proof.
  intros (Hv1 & (extra & Hkb & Hve & Hex) & [Pn Pe] & Hc & Hsv & Hl & Hcov & Hvs) Hval Hf.
  assert (Hcol : AI.collect (AI.objects ai) (AI.knowledge_base ai) = (∅, ∅)).
  { apply collect_empty. intros l Hl'. rewrite Hkb in Hl'. apply elem_of_app in Hl' as [H|H].
    - by apply (proj1 (collect_empty _ _) Hc).
    - destruct (Hex l H) as [He|He].
      + pose proof (known_safes_subseteq (deref (AI.objects ai) l)).
        pose proof (known_mines_subseteq (deref (AI.objects ai) l)). set_solver.
      + apply elem_of_vals_inv in He as (l' & Hl'' & <-).
        by apply (proj1 (collect_empty _ _) Hc). }
  rewrite (mark_and_purge_idle hash ai Hcol).
  destruct (purge_same_frame hash ai) as (Ev0 & Mi0 & Sf0 & Q0 & Ob0 & Kb0).
  set (ap := AI.remove_empty_and_duplicate_statements hash ai) in *.
  assert (Kp : AI.knowledge_base ap = kb1).
  { rewrite Kb0, Hkb. apply purge_spec_id; [done| |].
    - intros l Hl'. split; [by apply Pe|apply not_elem_of_nil].
    - intros l Hl'. destruct (Hex l Hl') as [?|?]; [by left|by right; right]. }
  assert (Hvp : valid (AI.objects ap) (AI.knowledge_base ap)) by (by rewrite Ob0, Kp).
  pose proof (call_sim (AI.search_algorithm_method ap) fuel (AI.stat_generator ap)
                _ _ Hvp) as Hsim.
  assert (Hm0 : AI.search_algorithm_method ap = AI.search_algorithm_method ai)
    by (by destruct Ev0 as (_ & ? & _)).
  assert (Hval2 : values_of (AI.search_algorithm_method ap) fuel
                    (vals (AI.objects ap) (AI.knowledge_base ap)) = Some vs).
  { rewrite Hm0, Ob0, Kp. by eapply values_of_mono. }
  exists ap.
  destruct (Search.call _ _ _ _ _) as [r|]; [|congruence].
  destruct Hsim as (vs' & Hval' & ([ext E] & Kr & (Vr & _ & _) & Vs)).
  assert (vs' = vs) as -> by congruence. clear Hval'.
  exists r. split; [done|]. split; [done|].
  destruct (merge_spec hash ap s r) as (Ev2 & Sf2 & Mi2 & Q2 & Ob2 & Kb2 & St2 & Inf2).
  set (am := (AI.merge hash ap s r).1.1) in *.
  set (s' := (AI.merge hash ap s r).1.2) in *.
  rewrite Ob0 in E. assert (Er : Search.r_heap r = AI.objects am) by done.
  rewrite E in Ob2. clear E. rewrite Er in *.
  set (news := filter _ (Search.r_inferred r)) in *.
  assert (Hvl : ∀ kb, valid (AI.objects ai) kb →
                vals (AI.objects am) kb = vals (AI.objects ai) kb).
  { intros kb Hk. rewrite Ob2. by apply vals_app_heap. }
  assert (Hd : ∀ l kb, valid (AI.objects ai) kb → l ∈ kb →
               deref (AI.objects am) l = deref (AI.objects ai) l).
  { intros l kb Hk Hin. rewrite Ob2. apply deref_app. by eapply valid_elem. }
  assert (Hkv : key_vals (AI.objects am) s = key_vals (AI.objects ai) s)
    by (by apply Hvl).
  assert (Hlm : live hash (AI.objects am) s) by (rewrite Ob2; by apply live_app_heap).
  assert (Hsm : set_valid (AI.objects am) s) by (rewrite Ob2; by apply valid_app_heap).
  assert (Hvn : valid (AI.objects am) news).
  { unfold valid in *. rewrite Forall_forall in *. intros l Hin.
    apply Vr. unfold news in Hin. by apply list_elem_of_filter in Hin as [_ ?]. }
  assert (Hnews : ∀ l, l ∈ news → KS.cell_positions (deref (AI.objects am) l) = ∅).
  { intros l Hin. unfold news in Hin. apply list_elem_of_filter in Hin as [Hn Hin].
    destruct (decide (KS.cell_positions (deref (AI.objects am) l) = ∅)) as [|Hne]; [done|].
    exfalso.
    assert (Hx : deref (AI.objects am) l ∈ vs) by (rewrite <- Vs; by apply elem_of_vals).
    rewrite live_contains in Hn; [done|done|]. rewrite Hkv. by apply Hcov, Hvs. }
  assert (Hs' : s' = AI.set_update hash (AI.objects am) s news) by done.
  assert (Hcov' : ∀ x, x ∈ vs → x ∈ key_vals (AI.objects am) s').
  { intros x Hx. rewrite Hs'. apply set_update_key_vals; [done|].
    rewrite <- Vs in Hx.
    apply elem_of_vals_inv in Hx as (l & Hin & <-).
    destruct (AI.set_contains hash (AI.objects am) s l) eqn:Ec.
    - left. rewrite set_contains_live in Ec by done. by apply bool_decide_eq_true_1 in Ec.
    - right. apply elem_of_vals. unfold news. apply list_elem_of_filter.
      by split. }
  split_and!.
  - unfold idle. cbv zeta. split_and!.
    + rewrite Ob2. by apply valid_app_heap.
    + exists news. split_and!; [by rewrite Kb2, Kr, Kp|done|]. intros l Hin. left. by apply Hnews.
    + split; [by rewrite Hvl|]. intros l Hin. rewrite (Hd l kb1) by done. by apply Pe.
    + apply collect_empty. intros l Hin. rewrite (Hd l kb1) by done.
      by apply (proj1 (collect_empty _ _) Hc).
    + rewrite Hs'. by apply set_update_valid.
    + rewrite Hs'. by apply set_update_live.
    + intros x Hx. rewrite Hs'. apply set_update_key_vals; [done|]. left.
      rewrite Hkv. apply Hcov. by rewrite <- Hvl.
    + intros x Hx Hne. rewrite Hvl by done. by apply Hvs.
  - done.
  - by exists ext.
  - eapply evolves_trans; [exact Ev0|]. eapply evolves_trans; [|exact Ev2].
    apply evolves_set_objects. rewrite Ob2, Ob0, length_app. lia.
  - by rewrite Sf2.
  - by rewrite Mi2.
  - by rewrite Q2.
  - intros Hf2. rewrite Inf2 in Hf2. apply bool_decide_eq_false_1 in Hf2.
    assert (Hn : news = []) by (by destruct (decide (news = []))).
    by rewrite Kb2, Hn, app_nil_r, Kr.
  - intros Hall.
    assert (Hn : news = []).
    { destruct news as [|l news'] eqn:En; [done|]. exfalso.
      assert (Hin : l ∈ news) by (rewrite En; apply list_elem_of_here).
      unfold news in Hin. apply list_elem_of_filter in Hin as [Hn Hin].
      rewrite live_contains in Hn; [done|done|]. rewrite Hkv. apply Hall.
      rewrite <- Vs. by apply elem_of_vals. }
    rewrite Inf2. apply bool_decide_eq_false_2. by intros H.
Qed.

(** *** The observation *)

Lemma observe_unfold (cell : Cell) (count : Z) (ai : AI.MinesweeperAI) :
  let a0 := AI.mark_cell_as_safe cell
              (AI.set_moves_made (AI.moves_made ai ∪ {[cell]})
                 (AI.set_stat_generator (Stat.reset_current_stats (AI.stat_generator ai)) ai)) in
  let T := target a0 cell count in
  AI.observe cell count ai
  = if bool_decide (KS.cell_positions T ≠ ∅)
    then AI.set_knowledge_base (AI.knowledge_base a0 ++ [length (AI.objects a0)])
           (AI.set_objects (AI.objects a0 ++ [T]) a0)
    else a0.
Proof.
  intros a0 T. unfold AI.observe. fold a0. unfold T, target.
  destruct (AI.discount_mines _ _ _) as [cells n]. cbn [fst snd KS.cell_positions].
  by destruct (bool_decide (cells ≠ ∅)).
Qed.

Lemma observe_spec (cell : Cell) (count : Z) (ai : AI.MinesweeperAI) :
  wf_ai ai →
  let a := AI.observe cell count ai in
  wf_ai a ∧
  AI.grid_size a = AI.grid_size ai ∧
  AI.search_algorithm_method a = AI.search_algorithm_method ai ∧
  AI.safe_cell_selection_strategy a = AI.safe_cell_selection_strategy ai ∧
  AI.moves_made a = AI.moves_made ai ∪ {[cell]} ∧
  AI.identified_safe_cells a = AI.identified_safe_cells ai ∪ {[cell]} ∧
  AI.identified_mines a = AI.identified_mines ai ∧
  AI.safe_cell_queue a
    = AI.safe_cell_queue ai ++ (if decide (cell ∈ AI.identified_safe_cells ai) then [] else [cell]) ∧
  (∀ l, l ∈ AI.knowledge_base ai →
        deref (AI.objects a) l = strip_safes {[cell]} (deref (AI.objects ai) l)) ∧
  (∃ extra, AI.knowledge_base a = AI.knowledge_base ai ++ extra ∧
            valid (AI.objects a) extra ∧
            ∀ l, l ∈ extra → deref (AI.objects a) l = target a cell count ∧
                             KS.cell_positions (target a cell count) ≠ ∅) ∧
  target_inv a cell count.
Proof.
  intros [Hv Hd] a. unfold a. rewrite observe_unfold. cbv zeta.
  set (ai' := AI.set_moves_made _ _).
  destruct (marks_safe_spec [cell] ai') as (Ev & Kb & _ & Mi & Sf & Len & D).
  destruct (mark_cell_as_safe_spec cell ai') as (_ & _ & _ & _ & _ & Q & _).
  cbn [foldl] in *. set (a0 := AI.mark_cell_as_safe cell ai') in *.
  replace (list_to_set [cell] : gset Cell) with ({[cell]} : gset Cell) in * by set_solver.
  assert (Kb' : AI.knowledge_base a0 = AI.knowledge_base ai) by (by rewrite Kb; destruct ai).
  assert (Mi' : AI.identified_mines a0 = AI.identified_mines ai) by (by rewrite Mi; destruct ai).
  assert (Sf' : AI.identified_safe_cells a0 = AI.identified_safe_cells ai ∪ {[cell]})
    by (by rewrite Sf; destruct ai).
  assert (Len' : length (AI.objects a0) = length (AI.objects ai))
    by (by rewrite Len; destruct ai).
  assert (D' : ∀ l, l ∈ AI.knowledge_base ai →
            deref (AI.objects a0) l = strip_safes {[cell]} (deref (AI.objects ai) l)).
  { intros l Hl. rewrite D. replace (AI.knowledge_base ai') with (AI.knowledge_base ai)
      by (by destruct ai).
    replace (AI.objects ai') with (AI.objects ai) by (by destruct ai).
    rewrite decide_True; [done|]. split; [done|]. by eapply valid_elem. }
  assert (Hid : identified a0 = identified ai ∪ {[cell]})
    by (unfold identified; rewrite Sf', Mi'; set_solver).
  assert (W0 : wf_ai a0).
  { split.
    - rewrite Kb'. unfold valid in *. by rewrite Len'.
    - intros l Hl. rewrite Kb' in Hl. rewrite (D' l Hl), Hid.
      specialize (Hd l Hl). unfold strip_safes. cbn. set_solver. }
  assert (G0 : AI.grid_size a0 = AI.grid_size ai)
    by (destruct Ev as (-> & _); by destruct ai).
  assert (M0 : AI.search_algorithm_method a0 = AI.search_algorithm_method ai)
    by (destruct Ev as (_ & -> & _); by destruct ai).
  assert (P0 : AI.safe_cell_selection_strategy a0 = AI.safe_cell_selection_strategy ai)
    by (destruct Ev as (_ & _ & -> & _); by destruct ai).
  assert (V0 : AI.moves_made a0 = AI.moves_made ai ∪ {[cell]})
    by (destruct Ev as (_ & _ & _ & -> & _); by destruct ai).
  assert (Q0 : AI.safe_cell_queue a0 = AI.safe_cell_queue ai
                 ++ (if decide (cell ∈ AI.identified_safe_cells ai) then [] else [cell]))
    by (rewrite Q; by destruct ai).
  set (T := target a0 cell count).
  assert (HT : KS.cell_positions T ## identified a0).
  { unfold T. rewrite target_strip. unfold strip_mines, identified.
    cbn [KS.cell_positions]. generalize (AI.neighbours (AI.grid_size a0) cell).
    intros N. set_solver. }
  case_bool_decide as Hne.
  - set (a1 := AI.set_knowledge_base _ _).
    assert (T1 : target a1 cell count = T) by (apply target_same; by destruct a0).
    assert (O1 : AI.objects a1 = AI.objects a0 ++ [T]) by (by destruct a0).
    assert (K1 : AI.knowledge_base a1 = AI.knowledge_base ai ++ [length (AI.objects a0)])
      by (rewrite <- Kb'; by destruct a0).
    assert (Dn : deref (AI.objects a1) (length (AI.objects a0)) = T)
      by (rewrite O1; apply deref_new).
    assert (Do : ∀ l, l ∈ AI.knowledge_base ai →
              deref (AI.objects a1) l = deref (AI.objects a0) l).
    { intros l Hl. rewrite O1. apply deref_app. rewrite Len'. by eapply valid_elem. }
    assert (Hid1 : identified a1 = identified a0) by (by destruct a0).
    split_and!; try (by destruct a0).
    + split.
      * rewrite K1, O1. unfold valid. rewrite Forall_app. split.
        -- apply valid_app_heap. destruct W0 as [W _]. by rewrite Kb' in W.
        -- constructor; [|constructor]. rewrite length_app. cbn. lia.
      * intros l Hl. rewrite K1 in Hl. rewrite Hid1. apply elem_of_app in Hl as [Hl|Hl].
        -- rewrite (Do l Hl). apply W0. by rewrite Kb'.
        -- apply list_elem_of_singleton in Hl as ->. by rewrite Dn.
    + intros l Hl. by rewrite (Do l Hl), (D' l Hl).
    + exists [length (AI.objects a0)]. split_and!; [done| |].
      * constructor; [|constructor]. rewrite O1, length_app. cbn. lia.
      * intros l Hl. apply list_elem_of_singleton in Hl as ->. by rewrite Dn, T1.
    + right. rewrite T1. rewrite <- Dn. apply elem_of_vals. rewrite K1.
      apply elem_of_app. right. apply list_elem_of_here.
  - split_and!; try done.
    + exists []. split_and!; [by rewrite app_nil_r|constructor|]. intros l Hl.
      by apply elem_of_nil in Hl.
    + left. fold T. by destruct (decide (KS.cell_positions T = ∅)).
Qed.

Lemma vals_ext (h h' : heap) (l : list loc) :
  (∀ x, x ∈ l → deref h x = deref h' x) → vals h l = vals h' l.
Proof.
  intros H. unfold vals. apply map_ext_in. intros x Hx. apply H. by apply list_elem_of_In.
Qed.

(** The set [add_knowledge] builds from the knowledge base before its loop. *)
Lemma initial_set (hash : KnowledgeStatement → Z) (ai : AI.MinesweeperAI) :
  valid (AI.objects ai) (AI.knowledge_base ai) →
  let s := AI.set_update hash (AI.objects ai) [] (AI.knowledge_base ai) in
  set_valid (AI.objects ai) s ∧ live hash (AI.objects ai) s ∧ set_inv hash ai s ∧
  ∀ x, x ∈ vals (AI.objects ai) (AI.knowledge_base ai) → x ∈ key_vals (AI.objects ai) s.
Proof.
  intros Hv s.
  assert (L0 : live hash (AI.objects ai) []) by constructor.
  split_and!.
  - apply set_update_valid; [constructor|done].
  - by apply set_update_live.
  - intros e He _. apply set_update_elem in He as [He|[He _]]; [by apply elem_of_nil in He|].
    right; left. by apply elem_of_vals.
  - intros x Hx. apply set_update_key_vals; [done|]. by right.
Qed.

(** An ingestion that returns leaves a settled state. *)
Lemma add_knowledge_settles (hash : KnowledgeStatement → Z) (fuel : nat) (cell : Cell)
    (count : Z) (ai ai1 : AI.MinesweeperAI) :
  wf_ai ai → AI.add_knowledge hash fuel cell count ai = Some ai1 →
  settled ai1 fuel ∧ target_inv ai1 cell count ∧
  cell ∈ AI.identified_safe_cells ai1 ∧
  AI.moves_made ai1 = AI.moves_made ai ∪ {[cell]} ∧
  (∃ q, AI.safe_cell_queue ai1
        = AI.safe_cell_queue ai
          ++ (if decide (cell ∈ AI.identified_safe_cells ai) then [] else [cell]) ++ q) ∧
  AI.identified_safe_cells ai ⊆ AI.identified_safe_cells ai1 ∧
  AI.identified_mines ai ⊆ AI.identified_mines ai1 ∧
  AI.grid_size ai1 = AI.grid_size ai ∧
  AI.search_algorithm_method ai1 = AI.search_algorithm_method ai ∧
  AI.safe_cell_selection_strategy ai1 = AI.safe_cell_selection_strategy ai.
Proof.
  intros Hwf. unfold AI.add_knowledge.
  destruct (observe_spec cell count ai Hwf) as (W & G & M & P & V & Sf & Mi & Q & _ & _ & T).
  set (a := AI.observe cell count ai) in *.
  destruct (initial_set hash a (proj1 W)) as (Sv & _ & Si & _).
  destruct (AI.propagate _ _ _ _ _) as [[ai' n]|] eqn:Hp; [|done]. intros [= <-].
  destruct (propagate_settles hash cell count fuel a _ 0 ai' n W Sv Si T Hp)
    as (St & T' & (G' & M' & P' & V' & [q Q'] & Sf' & Mi' & _)).
  assert (E : ∀ g, settled (AI.set_stat_generator g ai') fuel
                   ∧ target_inv (AI.set_stat_generator g ai') cell count)
    by (intros g; by destruct ai').
  destruct (E (Stat.update_iterations n (AI.stat_generator ai'))) as [E1 E2].
  split_and!; [done|done|destruct ai'; cbn in *; set_solver|by destruct ai'; cbn in *; congruence| |
               destruct ai'; cbn in *; set_solver|destruct ai'; cbn in *; set_solver|
               by destruct ai'; cbn in *; congruence..].
  exists q. rewrite Q in Q'. destruct ai'; cbn in *. by rewrite Q', <- app_assoc.
Qed.

(** From an idle state the loop stops within two passes, and leaves the
    settled list as the knowledge base. *)
Lemma propagate_idle (hash : KnowledgeStatement → Z) (ai : AI.MinesweeperAI)
    (kb1 : list loc) (vs : list KnowledgeStatement) (s : list AI.entry) (f fuel : nat)
    (n : Z) :
  idle hash ai kb1 vs s →
  values_of (AI.search_algorithm_method ai) f (vals (AI.objects ai) kb1) = Some vs →
  (f + 2 ≤ fuel)%nat →
  ∃ ai' n', AI.propagate hash fuel ai s n = Some (ai', n') ∧
    AI.knowledge_base ai' = kb1 ∧
    (∃ ext, AI.objects ai' = AI.objects ai ++ ext) ∧
    evolves ai ai' ∧
    AI.identified_safe_cells ai' = AI.identified_safe_cells ai ∧
    AI.identified_mines ai' = AI.identified_mines ai ∧
    AI.safe_cell_queue ai' = AI.safe_cell_queue ai.
Proof.
  intros Hi Hval Hf. pose proof Hi as (Hv1 & _).
  destruct fuel as [|[|fuel]]; [lia|lia|].
  destruct (idle_pass hash ai kb1 vs s f (S fuel) Hi Hval ltac:(lia))
    as (ap & r & Hmp & Hcall & Hi1 & Hcov1 & [ext1 E1] & Ev1 & Sf1 & Mi1 & Q1 & Hk1 & _).
  cbn [AI.propagate]. rewrite Hmp, Hcall.
  destruct (AI.merge hash ap s r) as [[am s'] inferred] eqn:Hm. cbn [fst snd] in *.
  destruct inferred; cbn [orb].
  - assert (Hval1 : values_of (AI.search_algorithm_method am) f
                      (vals (AI.objects am) kb1) = Some vs).
    { destruct Ev1 as (_ & -> & _). by rewrite E1, vals_app_heap. }
    destruct (idle_pass hash am kb1 vs s' f fuel Hi1 Hval1 ltac:(lia))
      as (ap2 & r2 & Hmp2 & Hcall2 & _ & _ & [ext2 E2] & Ev2 & Sf2 & Mi2 & Q2 & Hk2 & Hex2).
    cbn [AI.propagate]. rewrite Hmp2, Hcall2.
    specialize (Hex2 Hcov1). specialize (Hk2 Hex2).
    destruct (AI.merge hash ap2 s' r2) as [[am2 s2] inf2]. cbn [fst snd] in *.
    subst inf2. cbn [orb]. eexists _, _. split; [done|].
    split_and!; [done| |by eapply evolves_trans|congruence..].
    exists (ext1 ++ ext2). by rewrite E2, E1, app_assoc.
  - eexists _, _. split; [done|]. split_and!; try done; [by apply Hk1|by exists ext1].
Qed.

(** The solver's operations keep states well formed. *)
Lemma reachable_wf (hash : KnowledgeStatement → Z) (ai : AI.MinesweeperAI) :
  reachable hash ai → wf_ai ai.
Proof.
  induction 1 as [g name policy|fuel cell count ai ai' _ IH Hadd|cell ai _ IH|cell ai _ IH
                 |r ai _ IH].
  - unfold AI.init. destruct (Search.select_algorithm name), (SafeCell.select_strategy policy).
    split; [constructor|]. intros x Hx. by apply elem_of_nil in Hx.
  - by destruct (add_knowledge_settles hash fuel cell count ai ai' IH Hadd) as ((? & _) & _).
  - destruct (marks_mine_spec [cell] ai) as (_ & Kb & _ & Mi & Sf & _ & Len & D).
    cbn [foldl] in *. destruct IH as [Hv Hd]. split.
    + rewrite Kb. unfold valid in *. by rewrite Len.
    + intros l Hl. rewrite Kb in Hl. rewrite D, decide_True
        by (split; [done|by eapply valid_elem]).
      specialize (Hd l Hl). unfold identified in *. rewrite Mi, Sf.
      unfold strip_mines. cbn. set_solver.
  - destruct (marks_safe_spec [cell] ai) as (_ & Kb & _ & Mi & Sf & Len & D).
    cbn [foldl] in *. destruct IH as [Hv Hd]. split.
    + rewrite Kb. unfold valid in *. by rewrite Len.
    + intros l Hl. rewrite Kb in Hl. rewrite D, decide_True
        by (split; [done|by eapply valid_elem]).
      specialize (Hd l Hl). unfold identified in *. rewrite Mi, Sf.
      unfold strip_safes. cbn. set_solver.
  - unfold AI.make_safe_move. destruct (AI.safe_cell_queue ai) eqn:Eq; [done|].
    destruct (SafeCell.call _ _ _) as [move q]. by destruct ai.
Qed.

(** *** Re-ingestion *)

(** C1 -- Idempotent re-ingestion (fixed point).  In a state the solver can
    reach, when [add_knowledge(cell, count)] returns (within [fuel] passes),
    calling [add_knowledge(cell, count)] again returns as well (two more
    passes are enough) and leaves [identified_mines], [identified_safe_cells]
    and the knowledge base as they are: the same objects in the same order,
    holding the same values.  The queue and [moves_made] stay the same too. *)
Theorem reingestion_fixed_point (hash : KnowledgeStatement → Z) (fuel fuel' : nat)
    (cell : Cell) (count : Z) (ai ai1 : AI.MinesweeperAI) :
  reachable hash ai →
  AI.add_knowledge hash fuel cell count ai = Some ai1 →
  (fuel + 2 ≤ fuel')%nat →
  ∃ ai2, AI.add_knowledge hash fuel' cell count ai1 = Some ai2 ∧
    AI.identified_mines ai2 = AI.identified_mines ai1 ∧
    AI.identified_safe_cells ai2 = AI.identified_safe_cells ai1 ∧
    AI.knowledge_base ai2 = AI.knowledge_base ai1 ∧
    vals (AI.objects ai2) (AI.knowledge_base ai2)
      = vals (AI.objects ai1) (AI.knowledge_base ai1) ∧
    AI.safe_cell_queue ai2 = AI.safe_cell_queue ai1 ∧
    AI.moves_made ai2 = AI.moves_made ai1.
Proof.
  intros Hr Hadd Hf. apply reachable_wf in Hr.
  destruct (add_knowledge_settles hash fuel cell count ai ai1 Hr Hadd)
    as (St & Ti & Hc & Mv & _).
  destruct St as (W1 & Col & [Pn Pe] & vs & Hval & Hvs).
  unfold AI.add_knowledge.
  destruct (observe_spec cell count ai1 W1)
    as (W & G & M & P & V & Sf & Mi & Q & D & (extra & Kb & Ve & Hex) & _).
  set (a := AI.observe cell count ai1) in *.
  assert (Sf' : AI.identified_safe_cells a = AI.identified_safe_cells ai1)
    by (rewrite Sf; set_solver).
  assert (Q' : AI.safe_cell_queue a = AI.safe_cell_queue ai1)
    by (by rewrite Q, decide_True, app_nil_r).
  assert (V' : AI.moves_made a = AI.moves_made ai1) by (rewrite V, Mv; set_solver).
  assert (D' : ∀ l, l ∈ AI.knowledge_base ai1 →
            deref (AI.objects a) l = deref (AI.objects ai1) l).
  { intros l Hl. rewrite (D l Hl). apply strip_disjoint.
    destruct W1 as [_ Hd]. specialize (Hd l Hl). unfold identified in Hd. set_solver. }
  assert (Hvals : vals (AI.objects a) (AI.knowledge_base ai1)
                  = vals (AI.objects ai1) (AI.knowledge_base ai1)) by (by apply vals_ext).
  assert (Hv1 : valid (AI.objects a) (AI.knowledge_base ai1)).
  { destruct W as [Hv _]. rewrite Kb in Hv. by apply Forall_app in Hv as [? _]. }
  assert (HT : target a cell count = target ai1 cell count) by (by apply target_same).
  destruct (initial_set hash a (proj1 W)) as (Sv & Lv & _ & Cov).
  assert (Hidle : idle hash a (AI.knowledge_base ai1) vs
                    (AI.set_update hash (AI.objects a) [] (AI.knowledge_base a))).
  { unfold idle; cbv zeta. split_and!.
    - done.
    - exists extra; split_and!; [done|done|]. intros l Hl. destruct (Hex l Hl) as [E Hne].
      right. rewrite E, HT, Hvals. rewrite HT in Hne. by destruct Ti.
    - split; [by rewrite Hvals|]. intros l Hl. rewrite D' by done. by apply Pe.
    - apply collect_empty. intros l Hl. rewrite D' by done.
      by apply (proj1 (collect_empty _ _) Col).
    - done.
    - done.
    - intros x Hx. apply Cov. rewrite Kb. unfold vals. rewrite map_app. apply elem_of_app.
      by left.
    - intros x Hx Hne. rewrite Hvals. by apply Hvs. }
  destruct (propagate_idle hash a _ vs _ fuel fuel' 0 Hidle)
    as (ai2 & n & Hp & K2 & [ext E2] & Ev & Sf2 & Mi2 & Q2); [by rewrite M, Hvals|lia|].
  rewrite Hp. eexists. split; [done|].
  destruct Ev as (_ & _ & _ & V2 & _).
  assert (Hv2 : vals (AI.objects ai2) (AI.knowledge_base ai1)
                = vals (AI.objects ai1) (AI.knowledge_base ai1))
    by (by rewrite E2, vals_app_heap).
  destruct ai2; cbn in *.
  split_and!; [by rewrite Mi2|by rewrite Sf2|done|by rewrite K2|by rewrite Q2|by rewrite V2].
Qed.

(** C1 at work: a fresh solver on a 3 x 3 grid is told twice that one mine
    surrounds the corner [(0,0)]. *)
Lemma reingestion_fixed_point_example :
  ∃ ai1 ai2,
    AI.add_knowledge example_hash 4 (0,0) 1 (AI.init 3 "brute_force" "First In, First Out").1 = Some ai1 ∧
    AI.add_knowledge example_hash 6 (0,0) 1 ai1 = Some ai2 ∧
    AI.identified_mines ai2 = AI.identified_mines ai1 ∧
    AI.identified_safe_cells ai2 = AI.identified_safe_cells ai1 ∧
    AI.knowledge_base ai2 = AI.knowledge_base ai1 ∧
    vals (AI.objects ai2) (AI.knowledge_base ai2)
      = vals (AI.objects ai1) (AI.knowledge_base ai1).
Proof.
  assert (∃ ai1, AI.add_knowledge example_hash 4 (0,0) 1
                   (AI.init 3 "brute_force" "First In, First Out").1 = Some ai1) as [ai1 E1]
    by (vm_compute; eexists; reflexivity).
  destruct (reingestion_fixed_point example_hash 4 6 (0,0) 1
              (AI.init 3 "brute_force" "First In, First Out").1 ai1) as (ai2 & E2 & H1 & H2 & H3 & H4 & _).
  - apply reachable_init.
  - exact E1.
  - lia.
  - exists ai1, ai2. split_and!; done.
Defined.

(** *** The queue of safe cells *)

(** C3 -- what the code does with the revealed cell.  [add_knowledge] records
    the cell in [moves_made] and then marks it safe, and [mark_cell_as_safe]
    appends every cell it sees for the first time to [safe_cell_queue]: a
    revealed cell that was not known to be safe ends up in the queue although
    it has been played.  So the queue does not hold not-yet-played cells only. *)
Theorem revealed_cell_is_enqueued (hash : KnowledgeStatement → Z) (fuel : nat)
    (cell : Cell) (count : Z) (ai ai' : AI.MinesweeperAI) :
  reachable hash ai →
  cell ∉ AI.identified_safe_cells ai →
  AI.add_knowledge hash fuel cell count ai = Some ai' →
  reachable hash ai' ∧ cell ∈ AI.safe_cell_queue ai' ∧ cell ∈ AI.moves_made ai'.
Proof.
  intros Hr Hn Hadd. split; [by eapply reachable_add_knowledge|].
  destruct (add_knowledge_settles hash fuel cell count ai ai' (reachable_wf _ _ Hr) Hadd)
    as (_ & _ & _ & Mv & [q Q] & _).
  rewrite decide_False in Q by done. split.
  - rewrite Q. set_solver.
  - rewrite Mv. set_solver.
Qed.

(** C3 on the first move of a game: a fresh solver on a 3 x 3 grid is told
    that no mine surrounds the corner [(0,0)].  In the state it reaches,
    [(0,0)] is in [moves_made] and is the first cell of the queue; the next
    [make_safe_move] of the FIFO policy returns it. *)
Lemma revealed_cell_is_enqueued_first_move :
  ∃ ai', AI.add_knowledge example_hash 4 (0,0) 0 (AI.init 3 "brute_force" "First In, First Out").1 = Some ai' ∧
         reachable example_hash ai' ∧
         (0,0) ∈ AI.safe_cell_queue ai' ∧ (0,0) ∈ AI.moves_made ai' ∧
         (AI.make_safe_move 0 ai').1 = Some (0,0).
Proof.
  destruct (AI.add_knowledge example_hash 4 (0,0) 0 (AI.init 3 "brute_force" "First In, First Out").1)
    as [ai'|] eqn:E; [|vm_compute in E; discriminate].
  destruct (revealed_cell_is_enqueued example_hash 4 (0,0) 0
              (AI.init 3 "brute_force" "First In, First Out").1 ai') as (H1 & H2 & H3).
  - apply reachable_init.
  - apply (bool_decide_unpack _). vm_compute. exact I.
  - exact E.
  - exists ai'. split_and!; [done|done|done|done|].
    vm_compute in E. injection E as <-. reflexivity.
Defined.

(** *** The empty inference of the exhaustive method *)



(** *** A run that never stops *)

Lemma runaway_sets :
  size corner_cells = 2%nat ∧ size far_cells = 5%nat ∧ size ring_cells = 7%nat ∧
  ring_cells ∖ corner_cells = far_cells ∧ ring_cells ∖ far_cells = corner_cells ∧
  corner_cells ⊆ ring_cells ∧ far_cells ⊆ ring_cells ∧
  ¬ ring_cells ⊆ corner_cells ∧ ¬ ring_cells ⊆ far_cells ∧
  ¬ corner_cells ⊆ far_cells ∧ ¬ far_cells ⊆ corner_cells ∧
  corner_cells ≠ ∅ ∧ far_cells ≠ ∅ ∧ ring_cells ≠ ∅ ∧
  corner_cells ≠ far_cells ∧ corner_cells ≠ ring_cells ∧ far_cells ≠ ring_cells.
Proof.
  split_and!; try (by vm_compute); try (apply (bool_decide_unpack _); by vm_compute).
Qed.

Lemma runaway_no_known (s : KnowledgeStatement) :
  runaway s → KS.known_safes s = ∅ ∧ KS.known_mines s = ∅.
Proof.
  destruct runaway_sets as (S2 & S5 & S7 & _).
  unfold runaway, KS.known_safes, KS.known_mines, KS.len.
  intros [H|[[H Hc]|[[H|H] Hc]]]; rewrite H.
  - split; by case_match.
  - rewrite S7. split.
    + destruct (Z.eqb_spec (KS.mine_count s) 0); [lia|done].
    + destruct (Z.eqb_spec (Z.of_nat 7) (KS.mine_count s)); [lia|done].
  - rewrite S2. split.
    + destruct (Z.eqb_spec (KS.mine_count s) 0) as [E|]; [|done]. by rewrite E in Hc.
    + destruct (Z.eqb_spec (Z.of_nat 2) (KS.mine_count s)) as [E|]; [|done].
      by rewrite <- E in Hc.
  - rewrite S5. split.
    + destruct (Z.eqb_spec (KS.mine_count s) 0) as [E|]; [|done]. by rewrite E in Hc.
    + destruct (Z.eqb_spec (Z.of_nat 5) (KS.mine_count s)) as [E|]; [|done].
      by rewrite <- E in Hc.
Qed.

Lemma runaway_derive (a b : KnowledgeStatement) :
  runaway a → runaway b → KS.cell_positions a ≠ ∅ → KS.cell_positions b ≠ ∅ →
  KS.cell_positions a ⊆ KS.cell_positions b → runaway (derive a b).
Proof.
  destruct runaway_sets as (_ & _ & _ & D1 & D2 & _ & _ & I1 & I2 & I3 & I4 & _).
  unfold runaway, derive. cbn [KS.cell_positions KS.mine_count].
  intros [Ha|[[Ha Hca]|[[Ha|Ha] Hca]]] [Hb|[[Hb Hcb]|[[Hb|Hb] Hcb]]] Hna Hnb Hsub;
    try done; rewrite Ha, Hb in *; try done.
  - left. set_solver.
  - right; right. split; [right; exact D1|].
    destruct Hcb as [-> | ->]; Z.div_mod_to_equations; lia.
  - left. set_solver.
  - right; right. split; [left; exact D2|].
    destruct Hcb as [-> | ->]; Z.div_mod_to_equations; lia.
  - left. set_solver.
Qed.

Lemma max_count_exists (l : list KnowledgeStatement) :
  l ≠ [] → ∃ a, a ∈ l ∧ ∀ b, b ∈ l → KS.mine_count b ≤ KS.mine_count a.
Proof.
  induction l as [|x l IH]; [done|]. intros _. destruct l as [|y l].
  - exists x. split; [apply list_elem_of_here|]. intros b Hb.
    apply list_elem_of_singleton in Hb as ->. lia.
  - destruct IH as (a & Ha & Hmax); [done|].
    destruct (Z.le_gt_cases (KS.mine_count x) (KS.mine_count a)).
    + exists a. split; [by apply list_elem_of_further|]. intros b Hb.
      apply elem_of_cons in Hb as [->|Hb]; [done|by apply Hmax].
    + exists x. split; [apply list_elem_of_here|]. intros b Hb.
      apply elem_of_cons in Hb as [->|Hb]; [lia|]. specialize (Hmax b Hb). lia.
Qed.

(** Every pass from such a state infers a statement the set cannot find, and
    ends in such a state: the loop never stops. *)
Lemma runaway_loops (hash : KnowledgeStatement → Z) (fuel : nat) :
  ∀ (ai : AI.MinesweeperAI) (s : list AI.entry) (n : Z),
  runaway_inv hash ai s → AI.propagate hash fuel ai s n = None.
Proof.
  destruct runaway_sets as (_ & _ & _ & D1 & D2 & I5 & I6 & _ & _ & _ & _ & E1 & E2 & E3 & _).
  induction fuel as [|fuel IH]; [done|].
  intros ai s n (Hm & Hv & Hsv & Hl & Hfam & HB1 & HB2 & HA & Hset).
  cbn [AI.propagate].
  assert (Hcol : AI.collect (AI.objects ai) (AI.knowledge_base ai) = (∅, ∅)).
  { apply collect_empty. intros l Hin. apply runaway_no_known.
    rewrite Forall_forall in Hfam. by apply Hfam, elem_of_vals. }
  rewrite (mark_and_purge_idle hash ai Hcol).
  destruct (purge_same_frame hash ai) as (Ev0 & _ & _ & _ & Ob0 & Kb0).
  set (ap := AI.remove_empty_and_duplicate_statements hash ai) in *.
  assert (Hmp : AI.search_algorithm_method ap = Search.BruteForce)
    by (destruct Ev0 as (_ & -> & _); done).
  rewrite Hmp. cbn [Search.call].
  set (kb' := AI.knowledge_base ap) in *.
  assert (Hsub : ∀ l, l ∈ kb' → l ∈ AI.knowledge_base ai).
  { intros l Hin. rewrite Kb0 in Hin. eapply sublist_elem_of; [apply purge_spec_sublist|done]. }
  assert (Hv' : valid (AI.objects ai) kb').
  { unfold valid in *. rewrite Forall_forall in *. intros l Hin. by apply Hv, Hsub. }
  assert (Hkeep : ∀ v, v ∈ vals (AI.objects ai) (AI.knowledge_base ai) →
            KS.cell_positions v ≠ ∅ → v ∈ vals (AI.objects ai) kb').
  { intros v Hin Hne. apply elem_of_vals_inv in Hin as (l & Hin & <-).
    rewrite Kb0. apply purge_spec_keeps; [done|done|apply not_elem_of_nil]. }
  assert (Hfam' : ∀ v, v ∈ vals (AI.objects ai) kb' → runaway v ∧ KS.cell_positions v ≠ ∅).
  { intros v Hin. apply elem_of_vals_inv in Hin as (l & Hin & <-). split.
    - rewrite Forall_forall in Hfam. by apply Hfam, elem_of_vals, Hsub.
    - rewrite Kb0 in Hin. by apply purge_spec_elem in Hin as (_ & ? & _). }
  rewrite Ob0.
  destruct (brute_force_search_sim (AI.stat_generator ap) (AI.objects ai) kb' 0 Hv')
    as ([ext E] & Kr & Vr & _ & Vs).
  set (r := Search.brute_force_search _ _ _ _) in *.
  destruct (merge_spec hash ap s r) as (Ev2 & _ & _ & _ & Ob2 & Kb2 & St2 & Inf2).
  set (news := filter _ (Search.r_inferred r)) in *.
  assert (Hls : live hash (Search.r_heap r) s) by (rewrite E; by apply live_app_heap).
  assert (Hkv : key_vals (Search.r_heap r) s = key_vals (AI.objects ai) s)
    by (rewrite E; by apply vals_app_heap).
  assert (Hnew : ∀ v, v ∈ bf_values (vals (AI.objects ai) kb') →
            v ∈ key_vals (AI.objects ai) s ∨ v ∈ vals (Search.r_heap r) news).
  { intros v Hin. rewrite <- Vs in Hin. apply elem_of_vals_inv in Hin as (l & Hin & <-).
    destruct (AI.set_contains hash (Search.r_heap r) s l) eqn:Ec.
    - left. rewrite set_contains_live in Ec by done. apply bool_decide_eq_true_1 in Ec.
      by rewrite <- Hkv.
    - right. apply elem_of_vals. unfold news. by apply list_elem_of_filter. }
  assert (Hne : news ≠ []).
  { intros Hnil. rewrite Hnil in Hnew.
    assert (Hold : ∀ v, v ∈ bf_values (vals (AI.objects ai) kb') →
              KS.cell_positions v ≠ ∅ → v ∈ vals (AI.objects ai) kb').
    { intros v Hin Hv0. destruct (Hnew v Hin) as [H|H]; [|by apply elem_of_nil in H].
      apply Hkeep; [by apply Hset|done]. }
    set (corner := filter (λ v, KS.cell_positions v = corner_cells)
                     (vals (AI.objects ai) kb')).
    destruct (max_count_exists corner) as (a & Ha & Hmax).
    { intros Hc. assert (Hin : KS.mk corner_cells 1 ∈ corner).
      { apply list_elem_of_filter. split; [done|]. by apply Hkeep. }
      rewrite Hc in Hin. by apply elem_of_nil in Hin. }
    apply list_elem_of_filter in Ha as [Hac Ha].
    assert (H1 : KS.mk far_cells (2 - KS.mine_count a) ∈ vals (AI.objects ai) kb').
    { apply Hold; [|done].
      replace (KS.mk far_cells (2 - KS.mine_count a)) with (derive a (KS.mk ring_cells 2))
        by (unfold derive; cbn; by rewrite Hac, D1).
      apply bf_values_complete; [done|by apply Hkeep|]. cbn. by rewrite Hac. }
    assert (H2 : KS.mk corner_cells (KS.mine_count a + 3) ∈ vals (AI.objects ai) kb').
    { apply Hold; [|done].
      replace (KS.mk corner_cells (KS.mine_count a + 3))
        with (derive (KS.mk far_cells (2 - KS.mine_count a)) (KS.mk ring_cells 5))
        by (unfold derive; cbn; rewrite D2; f_equal; lia).
      apply bf_values_complete; [done|by apply Hkeep|done]. }
    assert (H3 : KS.mk corner_cells (KS.mine_count a + 3) ∈ corner)
      by (by apply list_elem_of_filter).
    specialize (Hmax _ H3). cbn in Hmax. lia. }
  assert (Hinf : (AI.merge hash ap s r).2 = true)
    by (rewrite Inf2; by apply bool_decide_eq_true_2).
  destruct (AI.merge hash ap s r) as [[am s'] inferred]. cbn [fst snd] in *. rewrite Hinf.
  cbn [orb]. apply IH.
  assert (Hvn : valid (AI.objects am) news).
  { rewrite Ob2. unfold valid in *. rewrite Forall_forall in *. intros l Hin.
    apply Vr. unfold news in Hin. by apply list_elem_of_filter in Hin as [_ ?]. }
  assert (Hvk : vals (AI.objects am) kb' = vals (AI.objects ai) kb')
    by (rewrite Ob2, E; by apply vals_app_heap).
  assert (Hvals : ∀ v, v ∈ vals (AI.objects am) (AI.knowledge_base am) ↔
                       v ∈ vals (AI.objects ai) kb' ∨ v ∈ vals (AI.objects am) news).
  { intros v. rewrite Kb2, Kr. unfold vals at 1. rewrite map_app, elem_of_app.
    fold (vals (AI.objects am) kb'). fold (vals (AI.objects am) news). by rewrite Hvk. }
  split_and!.
  - destruct Ev2 as (_ & -> & _). by destruct ap.
  - rewrite Kb2, Kr. unfold valid. rewrite Forall_app. split; [|done].
    rewrite Ob2, E. by apply valid_app_heap.
  - rewrite St2, Ob2. apply set_update_valid; [|by rewrite <- Ob2].
    rewrite E. by apply valid_app_heap.
  - rewrite St2, Ob2. by apply set_update_live.
  - rewrite Forall_forall. intros v Hin. apply Hvals in Hin as [Hin|Hin].
    + by apply Hfam'.
    + assert (Hb : v ∈ bf_values (vals (AI.objects ai) kb')).
      { rewrite <- Vs, <- Ob2. apply elem_of_vals_inv in Hin as (l & Hin & <-).
        apply elem_of_vals. unfold news in Hin. by apply list_elem_of_filter in Hin as [_ ?]. }
      apply bf_values_sound in Hb as (a & b & Ha & Hb & Hab & ->).
      destruct (Hfam' a Ha), (Hfam' b Hb). by apply runaway_derive.
  - apply Hvals. left. by apply Hkeep.
  - apply Hvals. left. by apply Hkeep.
  - apply Hvals. left. by apply Hkeep.
  - intros v Hin Hv0. apply Hvals. rewrite St2, Ob2 in Hin.
    apply (set_update_key_vals hash _ _ _ _ Hls) in Hin as [Hin|Hin].
    + left. rewrite Hkv in Hin. apply Hkeep; [by apply Hset|done].
    + right. by rewrite Ob2.
Qed.

(** C4, the claim as stated fails: observations that no mine layout explains
    can keep the loop going for ever.  A solver on a 3 x 3 grid with the
    exhaustive method is told that 2 mines surround the centre, then that 5
    do, then that 1 mine surrounds the corner [(0,0)].  The first two calls
    return.  In the third, the two statements about the ring, one about the
    corner cells and one about the far cells keep deriving statements with
    new counts (1, 4, -2, 7, -5, ...), none of which ever marks a cell: no
    number of passes is enough. *)
Lemma propagation_diverges :
  ∃ ai1 ai2,
    AI.add_knowledge example_hash 3 (1,1) 2
      (AI.init 3 "brute_force" "First In, First Out").1 = Some ai1 ∧
    AI.add_knowledge example_hash 3 (1,1) 5 ai1 = Some ai2 ∧
    ¬ ∃ fuel ai3, AI.add_knowledge example_hash fuel (0,0) 1 ai2 = Some ai3.
Proof.
  destruct (AI.add_knowledge example_hash 3 (1,1) 2
              (AI.init 3 "brute_force" "First In, First Out").1) as [ai1|] eqn:E1;
    [|vm_compute in E1; discriminate].
  destruct (AI.add_knowledge example_hash 3 (1,1) 5 ai1) as [ai2|] eqn:E2;
    [|vm_compute in E1; injection E1 as <-; vm_compute in E2; discriminate].
  exists ai1, ai2. split_and!; [done|done|]. intros (fuel & ai3 & E3).
  assert (Hr : wf_ai ai2).
  { apply (reachable_wf example_hash). eapply reachable_add_knowledge; [|exact E2].
    eapply reachable_add_knowledge; [|exact E1]. apply reachable_init. }
  unfold AI.add_knowledge in E3. rewrite runaway_loops in E3; [done|].
  destruct (observe_spec (0,0) 1 ai2 Hr) as (W & _ & M & _).
  destruct (initial_set example_hash _ (proj1 W)) as (Sv & Lv & _ & _).
  assert (Hvals : vals (AI.objects (AI.observe (0,0) 1 ai2))
                       (AI.knowledge_base (AI.observe (0,0) 1 ai2))
                  = [KS.mk ring_cells 2; KS.mk ring_cells 5; KS.mk corner_cells 1]).
  { vm_compute in E1. injection E1 as <-. vm_compute in E2. injection E2 as <-.
    apply (bool_decide_unpack _). by vm_compute. }
  assert (Hm : AI.search_algorithm_method ai2 = Search.BruteForce).
  { vm_compute in E1. injection E1 as <-. vm_compute in E2. by injection E2 as <-. }
  split_and!; [by rewrite M|apply W|done|done|rewrite Hvals|rewrite Hvals..|].
  - unfold runaway. apply Forall_cons. split; [right; left; split; [done|by left]|].
    apply Forall_cons. split; [right; left; split; [done|by right]|].
    apply Forall_cons. split; [right; right; split; [by left|done]|]. constructor.
  - apply list_elem_of_here.
  - apply list_elem_of_further, list_elem_of_here.
  - do 2 apply list_elem_of_further. apply list_elem_of_here.
  - intros v Hin _.
    apply (set_update_key_vals example_hash _ _ [] v (Forall_nil_2 _)) in Hin as [Hin|Hin].
    + inversion Hin.
    + exact Hin.
Qed.

(* ===================================================================== *)
(** ** Further properties of the code *)
(* ===================================================================== *)

(** *** knowledge_statement.py: statements and mine layouts *)

Lemma derive_true (B : gset Cell) : derive_closed (true_on B).
Proof.
  intros a b Ha Hb Hsub. unfold true_on, derive in *. cbn [KS.cell_positions KS.mine_count].
  rewrite Ha, Hb.
  replace ((KS.cell_positions b ∖ KS.cell_positions a) ∩ B)
    with ((KS.cell_positions b ∩ B) ∖ (KS.cell_positions a ∩ B)) by set_solver.
  assert (Hs : KS.cell_positions a ∩ B ⊆ KS.cell_positions b ∩ B) by set_solver.
  rewrite (size_difference _ _ Hs). apply subseteq_size in Hs. lia.
Qed.

(** [known_safes] and [known_mines] are right about every mine layout on
    which the statement is true: the cells of a statement with count 0 hold
    no mine, and the cells of a statement whose count is its number of cells
    are all mines. *)
Theorem known_cells_sound (B : gset Cell) (s : KnowledgeStatement) :
  true_on B s → KS.known_safes s ## B ∧ KS.known_mines s ⊆ B.
Proof.
  unfold true_on, KS.known_safes, KS.known_mines, KS.len. intros Ht. split.
  - destruct (Z.eqb_spec (KS.mine_count s) 0) as [E|]; [|set_solver].
    rewrite E in Ht. assert (Hs : size (KS.cell_positions s ∩ B) = 0%nat) by lia.
    apply size_empty_inv in Hs. set_solver.
  - destruct (Z.eqb_spec (Z.of_nat (size (KS.cell_positions s))) (KS.mine_count s)) as [E|];
      [|set_solver].
    rewrite Ht in E. apply Nat2Z.inj in E.
    assert (Hsub : KS.cell_positions s ∩ B ⊆ KS.cell_positions s) by set_solver.
    intros c Hc. destruct (decide (c ∈ B)) as [|Hn]; [done|]. exfalso.
    assert (Hlt : (size (KS.cell_positions s ∩ B) < size (KS.cell_positions s))%nat).
    { apply subset_size. split; [done|]. intros H. specialize (H c Hc). set_solver. }
    lia.
Qed.

Lemma known_cells_sound_example :
  KS.known_safes (KS.mk {[ (0,1); (1,0) ]} 0) ## ({[ (2,2) ]} : gset Cell) ∧
  KS.known_mines (KS.mk {[ (0,1); (1,0) ]} 0) ⊆ ({[ (2,2) ]} : gset Cell).
Proof.
  apply (known_cells_sound {[ (2,2) ]} (KS.mk {[ (0,1); (1,0) ]} 0)).
  unfold true_on. by vm_compute.
Defined.

(** Marking keeps a statement true: marking a cell that is a mine as a mine,
    and a cell that is no mine as safe, leaves a statement that is true on
    the layout true on it. *)
Theorem marking_keeps_truth (B : gset Cell) (s : KnowledgeStatement) (cell : Cell) :
  true_on B s →
  (cell ∈ B → true_on B (KS.mark_cell_as_mine cell s)) ∧
  (cell ∉ B → true_on B (KS.mark_cell_as_safe cell s)).
Proof.
  unfold true_on, KS.mark_cell_as_mine, KS.mark_cell_as_safe. intros Ht. split; intros Hc.
  - destruct (decide (cell ∈ KS.cell_positions s)) as [Hin|]; [|done].
    cbn [KS.cell_positions KS.mine_count]. rewrite Ht.
    replace ((KS.cell_positions s ∖ {[cell]}) ∩ B)
      with ((KS.cell_positions s ∩ B) ∖ {[cell]}) by set_solver.
    assert (Hs : {[cell]} ⊆ KS.cell_positions s ∩ B) by set_solver.
    rewrite (size_difference _ _ Hs). apply subseteq_size in Hs.
    rewrite size_singleton in *. lia.
  - destruct (decide (cell ∈ KS.cell_positions s)) as [Hin|]; [|done].
    cbn [KS.cell_positions KS.mine_count]. rewrite Ht.
    replace ((KS.cell_positions s ∖ {[cell]}) ∩ B) with (KS.cell_positions s ∩ B)
      by set_solver.
    done.
Qed.

Lemma marking_keeps_truth_example :
  true_on {[ (0,1) ]} (KS.mark_cell_as_mine (0,1) (KS.mk {[ (0,1); (1,0) ]} 1)) ∧
  true_on {[ (0,1) ]} (KS.mark_cell_as_safe (1,0) (KS.mk {[ (0,1); (1,0) ]} 1)).
Proof.
  destruct (marking_keeps_truth {[ (0,1) ]} (KS.mk {[ (0,1); (1,0) ]} 1) (0,1)) as [H1 _];
    [unfold true_on; by vm_compute|].
  destruct (marking_keeps_truth {[ (0,1) ]} (KS.mk {[ (0,1); (1,0) ]} 1) (1,0)) as [_ H2];
    [unfold true_on; by vm_compute|].
  split; [apply H1|apply H2].
  - apply (bool_decide_unpack _). by vm_compute.
  - apply (bool_decide_unpack _). by vm_compute.
Defined.

(** *** subset_search_algorithms.py: what the methods return *)

(** Every search method is sound: when the statements of the knowledge base
    are true on a mine layout, so is every statement the method returns. *)
Theorem strategy_sound (B : gset Cell) (a : Search.algorithm) (fuel : nat)
    (stats : StatGenerator) (h : heap) (knowledge_base : list loc) (r : Search.result) :
  valid h knowledge_base →
  Forall (true_on B) (vals h knowledge_base) →
  Search.call a fuel stats h knowledge_base = Some r →
  Forall (true_on B) (vals (Search.r_heap r) (Search.r_inferred r)).
Proof.
  intros Hv Ht Hc. pose proof (call_sim a fuel stats h knowledge_base Hv) as Hsim.
  rewrite Hc in Hsim. destruct Hsim as (vs & Hvs & _ & _ & _ & <-).
  eapply values_of_closed; [apply derive_true|exact Ht|exact Hvs].
Qed.

Lemma strategy_sound_example :
  let h := [KS.mk {[ (0,0); (0,1) ]} 1; KS.mk {[ (0,0); (0,1); (0,2) ]} 2] in
  ∃ r, Search.call Search.Bfs 5 (Stat.init 3) h [0%nat; 1%nat] = Some r ∧
       Forall (true_on {[ (0,1); (0,2) ]}) (vals (Search.r_heap r) (Search.r_inferred r)).
Proof.
  intros h.
  destruct (Search.call Search.Bfs 5 (Stat.init 3) h [0%nat; 1%nat]) as [r|] eqn:E;
    [|vm_compute in E; discriminate].
  exists r. split; [done|].
  apply (strategy_sound {[ (0,1); (0,2) ]} Search.Bfs 5 (Stat.init 3) h [0%nat; 1%nat] r).
  - repeat constructor.
  - unfold true_on. repeat constructor; by vm_compute.
  - exact E.
Defined.

(** [greedy_algorithm_size_search] never infers anything.  It scans the
    statements in ascending order of size and leaves the inner loop as soon as
    the next statement is not smaller than the current one, which is at the
    first comparison: the result is empty, the caller's list is not appended
    to, no object is created and zero inferences are reported. *)
Theorem greedy_size_search_returns_nothing (stats : StatGenerator) (h : heap)
    (knowledge_base : list loc) (subset_comparisons : Z) :
  let r := Search.greedy_algorithm_size_search stats h knowledge_base subset_comparisons in
  Search.r_inferred r = [] ∧ Search.r_knowledge_base r = knowledge_base ∧
  Search.r_heap r = h ∧
  Stat.inferences_total (Search.r_stats r) = Stat.inferences_total stats.
Proof.
  intros r. destruct (greedy_size_infers_nothing stats h knowledge_base subset_comparisons)
    as (Hh & Hk & Hi). fold r in Hh, Hk, Hi. split_and!; [done..|].
  unfold r, Search.greedy_algorithm_size_search in *.
  destruct (foldl _ _ _) as [[[[h' kb'] inf] cmp] srt]. cbn in *. rewrite Hi. cbn. lia.
Qed.

(** *** minesweeper_ai.py: the observation and the purge *)

(** The loop of [add_knowledge] that discounts the known mines does not
    depend on the order in which the set of mines is iterated: it removes the
    known mines from the cells and lowers the count by the number of cells
    removed. *)
Theorem discount_mines_spec (mines cells : gset Cell) (count : Z) :
  AI.discount_mines mines cells count
  = (cells ∖ mines, count - Z.of_nat (size (cells ∩ mines))).
Proof.
  unfold AI.discount_mines.
  pose proof (discount_mines_fold (elements mines) (cells, count)) as H. cbv zeta in H.
  rewrite fold_mark_mine, list_to_set_elements_L in H. cbn [fst snd] in H.
  destruct (foldl _ _ _) as [c n]. unfold strip_mines in H. cbn in H.
  by injection H as -> ->.
Qed.

(** Purging twice is purging once: a second purge keeps the list of the
    first, touches no object and counts no duplicate. *)
Theorem purge_idempotent (hash : KnowledgeStatement → Z) (ai : AI.MinesweeperAI) :
  let ai1 := AI.remove_empty_and_duplicate_statements hash ai in
  let ai2 := AI.remove_empty_and_duplicate_statements hash ai1 in
  AI.knowledge_base ai2 = AI.knowledge_base ai1 ∧
  AI.objects ai2 = AI.objects ai ∧
  Stat.duplicate_inferences_total (AI.stat_generator ai2)
    = Stat.duplicate_inferences_total (AI.stat_generator ai1).
Proof.
  intros ai1 ai2.
  destruct (purge_same_frame hash ai) as (_ & _ & _ & _ & Ob1 & Kb1). fold ai1 in Ob1, Kb1.
  destruct (purge_same_frame hash ai1) as (_ & _ & _ & _ & Ob2 & Kb2). fold ai2 in Ob2, Kb2.
  pose proof (purge_spec_purged (AI.objects ai) (AI.knowledge_base ai)) as [Pn Pe].
  rewrite <- Kb1 in Pn, Pe.
  assert (Hid : (purge_spec (AI.objects ai) [] (AI.knowledge_base ai1)).1
                = AI.knowledge_base ai1).
  { rewrite <- (app_nil_r (AI.knowledge_base ai1)) at 1. apply purge_spec_id; [done| |].
    - intros l Hl. split; [by apply Pe|apply not_elem_of_nil].
    - intros l Hl. by apply elem_of_nil in Hl. }
  rewrite Ob1 in Kb2. split_and!; [by rewrite Kb2|by rewrite Ob2|].
  pose proof (purge_spec_count (AI.objects ai) (AI.knowledge_base ai1) []) as Hc.
  rewrite Hid in Hc.
  assert (Hf : filter (λ x, KS.cell_positions (deref (AI.objects ai) x) ≠ ∅)
                 (AI.knowledge_base ai1) = AI.knowledge_base ai1).
  { clear -Pe. induction (AI.knowledge_base ai1) as [|x l IH]; [done|].
    rewrite filter_cons_True by (apply Pe, list_elem_of_here).
    f_equal. apply IH. intros y Hy. by apply Pe, list_elem_of_further. }
  rewrite Hf in Hc.
  unfold ai2, AI.remove_empty_and_duplicate_statements at 1.
  rewrite purge_is_spec, Ob1.
  destruct (purge_spec (AI.objects ai) [] (AI.knowledge_base ai1)) as [kb2 d].
  cbn [fst snd] in *. destruct ai1. cbn in *. lia.
Qed.

Lemma size_list_to_set_le (l : list Cell) :
  (size (list_to_set l : gset Cell) ≤ length l)%nat.
Proof.
  induction l as [|x l IH]; [by rewrite list_to_set_nil, size_empty|].
  rewrite list_to_set_cons, size_union_alt, size_singleton. cbn [length].
  assert (size ((list_to_set l : gset Cell) ∖ {[x]}) ≤ size (list_to_set l : gset Cell))%nat
    by (apply subseteq_size; set_solver).
  lia.
Qed.

(** The cells [add_knowledge] looks at around a cell are the cells of the
    grid one step away from it, in any of the eight directions: at most
    eight, fewer on the border. *)
Theorem neighbours_spec (grid_size : Z) (cell p : Cell) :
  (p ∈ AI.neighbours grid_size cell ↔
   p ≠ cell ∧ Z.abs (p.1 - cell.1) ≤ 1 ∧ Z.abs (p.2 - cell.2) ≤ 1 ∧
   0 ≤ p.1 < grid_size ∧ 0 ≤ p.2 < grid_size) ∧
  (size (AI.neighbours grid_size cell) ≤ 8)%nat.
Proof.
  destruct cell as [x y], p as [a b]. unfold AI.neighbours. cbn [fst snd mbind list_bind].
  cbn [mret list_ret app concat map].
  set (l := [(x - 1, y - 1); (x - 1, y); (x - 1, y + 1); (x, y - 1); (x, y); (x, y + 1);
             (x + 1, y - 1); (x + 1, y); (x + 1, y + 1)]).
  assert (Hl : ∀ a b, (a, b) ∈ l ↔ Z.abs (a - x) ≤ 1 ∧ Z.abs (b - y) ≤ 1).
  { intros a' b'. unfold l. rewrite !elem_of_cons, elem_of_nil. split.
    - intros H. decompose [or] H; try done;
        match goal with H : (_, _) = (_, _) |- _ => injection H as -> -> end; lia.
    - intros [Ha Hb].
      assert (Ha' : a' = x - 1 ∨ a' = x ∨ a' = x + 1) by lia.
      assert (Hb' : b' = y - 1 ∨ b' = y ∨ b' = y + 1) by lia.
      destruct Ha' as [-> | [-> | ->]], Hb' as [-> | [-> | ->]]; auto 12. }
  split.
  - rewrite elem_of_list_to_set, list_elem_of_filter, Hl. cbn [fst snd]. tauto.
  - set (l8 := [(x - 1, y - 1); (x - 1, y); (x - 1, y + 1); (x, y - 1); (x, y + 1);
                (x + 1, y - 1); (x + 1, y); (x + 1, y + 1)]).
    assert (Hsub : (list_to_set (filter (λ p : Cell, p ≠ (x, y) ∧ 0 ≤ p.1 < grid_size ∧
                                           0 ≤ p.2 < grid_size) l) : gset Cell)
                   ⊆ list_to_set l8).
    { intros q. rewrite !elem_of_list_to_set, list_elem_of_filter. intros [(Hne & _) Hin].
      unfold l in Hin. unfold l8. rewrite !elem_of_cons, elem_of_nil in *.
      decompose [or] Hin; subst; auto 12; done. }
    apply subseteq_size in Hsub. etrans; [exact Hsub|]. apply (size_list_to_set_le l8).
Qed.

(** *** safe_cell_data_structures.py: the selection policies *)

Lemma cell_lt_spec (a b : Cell) :
  Search.cell_lt a b = true ↔ a.1 < b.1 ∨ (a.1 = b.1 ∧ a.2 < b.2).
Proof.
  unfold Search.cell_lt. rewrite orb_true_iff, andb_true_iff.
  rewrite !Z.ltb_lt, Z.eqb_eq. tauto.
Qed.

Lemma remove_first_perm (x : Cell) (q : list Cell) :
  x ∈ q → q ≡ₚ x :: SafeCell.remove_first x q.
Proof.
  induction q as [|y q IH]; [by intros H; apply elem_of_nil in H|].
  intros Hin. simpl. destruct (decide (x = y)) as [->|Hne]; [done|].
  apply elem_of_cons in Hin as [?|Hin]; [done|].
  rewrite (IH Hin) at 1. apply Permutation_swap.
Qed.

(** The head of [sorted(q)] is a least cell. *)
Lemma sorted_head_least (q : list Cell) (m : Cell) (rest : list Cell) :
  sorted Search.cell_lt q = m :: rest → ∀ y, y ∈ q → Search.cell_lt y m = false.
Proof.
  revert m rest. unfold sorted. induction q as [|x q IH]; intros m rest; [done|].
  simpl. pose proof (sorted_perm Search.cell_lt q) as Hp. unfold sorted in Hp.
  destruct (foldr _ _ q) as [|m' rest'] eqn:E.
  - apply Permutation_nil in Hp. subst q. simpl. intros [= <- <-] y Hy. apply list_elem_of_singleton in Hy as ->.
    apply not_true_is_false. rewrite cell_lt_spec. lia.
  - simpl. specialize (IH m' rest' eq_refl).
    destruct (Search.cell_lt m' x) eqn:Elt.
    + intros [= <- _] y Hy. apply elem_of_cons in Hy as [->|Hy]; [|by apply IH].
      apply not_true_is_false. apply cell_lt_spec in Elt. rewrite cell_lt_spec. lia.
    + intros [= <- _] y Hy. apply not_true_is_false. rewrite cell_lt_spec.
      apply elem_of_cons in Hy as [->|Hy]; [lia|].
      specialize (IH y Hy). apply not_true_iff_false in IH, Elt.
      rewrite cell_lt_spec in IH, Elt. lia.
Qed.

(** What a call of a policy does to the queue. *)
Lemma call_pops (s : SafeCell.strategy) (r : nat) (q : list Cell) :
  match SafeCell.call s r q with
  | (None, q') => q = [] ∧ q' = []
  | (Some c, q') => q ≡ₚ c :: q'
  end.
Proof.
  destruct s; simpl.
  - unfold SafeCell.select_fifo. destruct q as [|c q]; [by split|reflexivity].
  - unfold SafeCell.select_lifo. destruct (last q) as [c|] eqn:E.
    + apply last_Some in E as [l' ->]. rewrite removelast_last.
      symmetry. apply Permutation_cons_append.
    + by apply last_None in E as ->.
  - unfold SafeCell.select_sorted. destruct (sorted _ q) as [|c rest] eqn:E.
    + pose proof (sorted_perm Search.cell_lt q) as Hq. rewrite E in Hq.
      apply Permutation_nil in Hq. by subst.
    + apply remove_first_perm.
      assert (Hc : c ∈ sorted Search.cell_lt q) by (rewrite E; apply list_elem_of_here).
      by rewrite sorted_perm in Hc.
  - unfold SafeCell.select_random. destruct (q !! _) as [c|] eqn:E.
    + apply remove_first_perm. by eapply list_elem_of_lookup_2.
    + destruct q as [|x q]; [done|]. exfalso.
      apply lookup_ge_None in E.
      assert (r `mod` length (x :: q) < length (x :: q))%nat
        by (apply Nat.mod_upper_bound; simpl; lia).
      lia.
Qed.

(** Every policy removes exactly one occurrence of the cell it returns and
    returns [None] only on an empty queue.  FIFO returns the oldest cell,
    LIFO the newest, the sorted policy a least cell in the order by row, then
    column; the sorted and the random policy remove the first occurrence of
    the cell they return. *)
Theorem policies_pop_one_cell (s : SafeCell.strategy) (r : nat) (q : list Cell) :
  match SafeCell.call s r q with
  | (None, q') => q = [] ∧ q' = []
  | (Some c, q') =>
      q ≡ₚ c :: q' ∧
      (s = SafeCell.SelectFifo → q = c :: q') ∧
      (s = SafeCell.SelectLifo → q = q' ++ [c]) ∧
      (s = SafeCell.SelectSorted → ∀ y, y ∈ q → Search.cell_lt y c = false) ∧
      (s = SafeCell.SelectSorted ∨ s = SafeCell.SelectRandom →
         q' = SafeCell.remove_first c q)
  end.
Proof.
  pose proof (call_pops s r q) as Hp.
  destruct (SafeCell.call s r q) as [[c|] q'] eqn:E; [|done].
  split_and!; [done|..]; intros Hs; try destruct Hs as [Hs|Hs]; subst s; simpl in E.
  - destruct q as [|c0 q0]; [done|]. by injection E as -> ->.
  - unfold SafeCell.select_lifo in E. destruct (last q) as [c'|] eqn:El; [|done].
    injection E as -> <-. apply last_Some in El as [l' ->]. by rewrite removelast_last.
  - unfold SafeCell.select_sorted in E. destruct (sorted _ q) as [|c' rest] eqn:Es; [done|].
    injection E as -> <-. by eapply sorted_head_least.
  - unfold SafeCell.select_sorted in E. destruct (sorted _ q) as [|c' rest] eqn:Es; [done|].
    by injection E as -> <-.
  - unfold SafeCell.select_random in E. destruct (q !! _) as [c'|] eqn:El; [|done].
    by injection E as -> <-.
Qed.

(** *** minesweeper_ai.py: invariants of the solver *)

Lemma queue_ok_frame (ai ai' : AI.MinesweeperAI) :
  AI.safe_cell_queue ai' = AI.safe_cell_queue ai →
  AI.identified_safe_cells ai ⊆ AI.identified_safe_cells ai' →
  AI.moves_made ai' = AI.moves_made ai →
  queue_ok ai → queue_ok ai'.
Proof.
  intros Q S M (Hn & Hq & Hm). unfold queue_ok. rewrite Q, M.
  split_and!; [done|set_solver|set_solver].
Qed.

Lemma queue_ok_mark_safe (c : Cell) (ai : AI.MinesweeperAI) :
  queue_ok ai → queue_ok (AI.mark_cell_as_safe c ai).
Proof.
  intros (Hn & Hq & Hm).
  destruct (mark_cell_as_safe_spec c ai) as ((_ & _ & _ & V & _) & _ & _ & _ & S & Q & _).
  unfold queue_ok. rewrite Q, S, V. split_and!.
  - destruct (decide (c ∈ AI.identified_safe_cells ai)) as [|Hc]; [by rewrite app_nil_r|].
    apply NoDup_app. split_and!; [done| |apply NoDup_singleton].
    intros x Hx Hx'. apply list_elem_of_singleton in Hx' as ->. by apply Hc, Hq.
  - intros x Hx. apply elem_of_app in Hx as [Hx|Hx]; [set_solver|].
    destruct (decide (c ∈ AI.identified_safe_cells ai));
      [by apply elem_of_nil in Hx|]. apply list_elem_of_singleton in Hx. set_solver.
  - set_solver.
Qed.

Lemma queue_ok_mark_mine (c : Cell) (ai : AI.MinesweeperAI) :
  queue_ok ai → queue_ok (AI.mark_cell_as_mine c ai).
Proof.
  destruct (mark_cell_as_mine_spec c ai) as ((_ & _ & _ & V & _) & _ & _ & _ & S & Q & _).
  apply queue_ok_frame; [done|by rewrite S|done].
Qed.

Lemma queue_ok_mark_and_purge (hash : KnowledgeStatement → Z) (ai : AI.MinesweeperAI) :
  queue_ok ai → queue_ok (AI.mark_and_purge hash ai).1.
Proof.
  intros Hq. unfold AI.mark_and_purge. destruct (AI.collect _ _) as [S M]. cbn [fst].
  set (a1 := foldl _ ai (elements S)). set (a2 := foldl _ a1 (elements M)).
  assert (H1 : queue_ok a1).
  { apply (foldl_inv queue_ok (λ _, True)); [by apply Forall_true|done|].
    intros s c _. apply queue_ok_mark_safe. }
  assert (H2 : queue_ok a2).
  { apply (foldl_inv queue_ok (λ _, True)); [by apply Forall_true|done|].
    intros s c _. apply queue_ok_mark_mine. }
  destruct (purge_same_frame hash a2) as ((_ & _ & _ & V & _) & _ & Sf & Q & _).
  revert H2. apply queue_ok_frame; [done|by rewrite Sf|done].
Qed.

Lemma queue_ok_propagate (hash : KnowledgeStatement → Z) (fuel : nat) :
  ∀ (ai : AI.MinesweeperAI) (set : list AI.entry) (n : Z) ai' n',
  queue_ok ai → AI.propagate hash fuel ai set n = Some (ai', n') → queue_ok ai'.
Proof.
  induction fuel as [|fuel IH]; intros ai set n ai' n' Hq; [done|].
  cbn [AI.propagate]. apply (queue_ok_mark_and_purge hash) in Hq.
  destruct (AI.mark_and_purge hash ai) as [ap marked]. cbn [fst] in Hq.
  destruct (Search.call _ _ _ _ _) as [r|]; [|done].
  destruct (merge_spec hash ap set r) as ((_ & _ & _ & V & _) & Sf & _ & Q & _).
  assert (Hm : queue_ok (AI.merge hash ap set r).1.1).
  { revert Hq. apply queue_ok_frame; [done|by rewrite Sf|]. rewrite V. by destruct ap. }
  destruct (AI.merge hash ap set r) as [[am s'] inferred]. cbn [fst] in Hm.
  destruct (marked || inferred); [by eapply IH|]. by intros [= <- <-].
Qed.

Lemma queue_ok_add_knowledge (hash : KnowledgeStatement → Z) (fuel : nat) (cell : Cell)
    (count : Z) (ai ai' : AI.MinesweeperAI) :
  wf_ai ai → queue_ok ai → AI.add_knowledge hash fuel cell count ai = Some ai' →
  queue_ok ai'.
Proof.
  intros Hwf (Hn & Hq & Hm). unfold AI.add_knowledge.
  destruct (observe_spec cell count ai Hwf) as (_ & _ & _ & _ & V & Sf & _ & Q & _).
  assert (Ho : queue_ok (AI.observe cell count ai)).
  { unfold queue_ok. rewrite Q, Sf, V. split_and!.
    - destruct (decide (cell ∈ AI.identified_safe_cells ai)) as [|Hc];
        [by rewrite app_nil_r|].
      apply NoDup_app. split_and!; [done| |apply NoDup_singleton].
      intros x Hx Hx'. apply list_elem_of_singleton in Hx' as ->. by apply Hc, Hq.
    - intros x Hx. apply elem_of_app in Hx as [Hx|Hx]; [set_solver|].
      destruct (decide (cell ∈ AI.identified_safe_cells ai));
        [by apply elem_of_nil in Hx|]. apply list_elem_of_singleton in Hx. set_solver.
    - set_solver. }
  destruct (AI.propagate _ _ _ _ _) as [[a n]|] eqn:Hp; [|done]. intros [= <-].
  apply (queue_ok_propagate hash _ _ _ _ _ _ Ho) in Hp. by destruct a.
Qed.

Lemma queue_ok_make_safe_move (r : nat) (ai : AI.MinesweeperAI) :
  queue_ok ai → queue_ok (snd (AI.make_safe_move r ai)).
Proof.
  intros (Hn & Hq & Hm). unfold AI.make_safe_move.
  destruct (AI.safe_cell_queue ai) as [|c0 q0] eqn:Eq; [by rewrite <- Eq in *|].
  pose proof (call_pops (AI.safe_cell_selection_strategy ai) r (c0 :: q0)) as Hp.
  destruct (SafeCell.call _ _ _) as [[c|] q']; cbn [snd].
  - assert (Hn' : NoDup (c :: q')) by (by rewrite <- Hp).
    apply NoDup_cons in Hn' as [_ Hn'].
    unfold queue_ok. destruct ai; cbn in *. split_and!; [done| |done].
    intros x Hx. apply Hq. rewrite Hp. by apply list_elem_of_further.
  - by destruct Hp.
Qed.

Lemma reachable_queue_ok (hash : KnowledgeStatement → Z) (ai : AI.MinesweeperAI) :
  reachable hash ai → queue_ok ai.
Proof.
  induction 1 as [g name policy|fuel cell count ai ai' Hr IH Hadd|cell ai _ IH|cell ai _ IH
                 |r ai _ IH].
  - unfold AI.init. destruct (Search.select_algorithm name), (SafeCell.select_strategy policy).
    split_and!; [constructor|by intros c Hc; apply elem_of_nil in Hc|done].
  - eapply queue_ok_add_knowledge; [by eapply reachable_wf|done|done].
  - by apply queue_ok_mark_mine.
  - by apply queue_ok_mark_safe.
  - by apply queue_ok_make_safe_move.
Qed.

(** In every state the solver can reach, the queue holds no cell twice and
    only cells known to be safe, and every played cell is known to be safe.
    So [make_safe_move] returns a cell of [identified_safe_cells], and that
    cell is no longer in the queue afterwards. *)
Theorem safe_moves_are_known_safe (hash : KnowledgeStatement → Z) (ai : AI.MinesweeperAI)
    (r : nat) (c : Cell) :
  reachable hash ai →
  fst (AI.make_safe_move r ai) = Some c →
  c ∈ AI.identified_safe_cells ai ∧
  (c ∉ AI.safe_cell_queue (snd (AI.make_safe_move r ai))) ∧
  NoDup (AI.safe_cell_queue ai) ∧
  AI.moves_made ai ⊆ AI.identified_safe_cells ai.
Proof.
  intros Hr Hm. destruct (reachable_queue_ok hash ai Hr) as (Hn & Hq & Hmv).
  unfold AI.make_safe_move in *.
  destruct (AI.safe_cell_queue ai) as [|c0 q0] eqn:Eq; [done|].
  pose proof (call_pops (AI.safe_cell_selection_strategy ai) r (c0 :: q0)) as Hp.
  destruct (SafeCell.call _ _ _) as [[c'|] q']; cbn [fst snd] in *; [|done].
  injection Hm as ->. split_and!; [| |done|done].
  - apply Hq. rewrite Hp. apply list_elem_of_here.
  - rewrite Hp in Hn. apply NoDup_cons in Hn as [Hc _]. by destruct ai.
Qed.

Lemma safe_moves_are_known_safe_example :
  ∃ ai c, AI.add_knowledge example_hash 4 (0,0) 0
            (AI.init 3 "brute_force" "Last In, First Out").1 = Some ai ∧
          fst (AI.make_safe_move 0 ai) = Some c ∧
          c ∈ AI.identified_safe_cells ai ∧
          c ∉ AI.safe_cell_queue (snd (AI.make_safe_move 0 ai)).
Proof.
  destruct (AI.add_knowledge example_hash 4 (0,0) 0
              (AI.init 3 "brute_force" "Last In, First Out").1) as [ai|] eqn:E;
    [|vm_compute in E; discriminate].
  destruct (fst (AI.make_safe_move 0 ai)) as [c|] eqn:Em;
    [|vm_compute in E; injection E as <-; vm_compute in Em; discriminate].
  destruct (safe_moves_are_known_safe example_hash ai 0 c) as (H1 & H2 & _).
  - eapply reachable_add_knowledge; [apply reachable_init|exact E].
  - exact Em.
  - exists ai, c. split; [reflexivity|]. split; [exact Em|]. split; [exact H1|exact H2].
Defined.

(** In every state the solver can reach, the references of the knowledge
    base point to objects of the store, and no statement of the knowledge
    base mentions a cell that has been identified as safe or as a mine. *)
Theorem knowledge_base_is_about_unknown_cells (hash : KnowledgeStatement → Z)
    (ai : AI.MinesweeperAI) (l : loc) :
  reachable hash ai → l ∈ AI.knowledge_base ai →
  (l < length (AI.objects ai))%nat ∧
  KS.cell_positions (deref (AI.objects ai) l)
    ## AI.identified_safe_cells ai ∪ AI.identified_mines ai.
Proof.
  intros Hr Hl. destruct (reachable_wf hash ai Hr) as [Hv Hd]. split.
  - by eapply valid_elem.
  - by apply Hd.
Qed.

Lemma knowledge_base_is_about_unknown_cells_example :
  ∃ ai, AI.add_knowledge example_hash 4 (0,0) 1
          (AI.init 3 "brute_force" "First In, First Out").1 = Some ai ∧
        AI.knowledge_base ai = [0%nat] ∧
        KS.cell_positions (deref (AI.objects ai) 0)
          ## AI.identified_safe_cells ai ∪ AI.identified_mines ai.
Proof.
  destruct (AI.add_knowledge example_hash 4 (0,0) 1
              (AI.init 3 "brute_force" "First In, First Out").1) as [ai|] eqn:E;
    [|vm_compute in E; discriminate].
  assert (Hk : AI.knowledge_base ai = [0%nat])
    by (vm_compute in E; by injection E as <-).
  exists ai. split_and!; [done|done|].
  apply (knowledge_base_is_about_unknown_cells example_hash ai 0).
  - eapply reachable_add_knowledge; [apply reachable_init|exact E].
  - rewrite Hk. apply list_elem_of_here.
Defined.

(** When [add_knowledge] returns, the revealed cell is recorded as played
    and as safe, nothing that was identified is forgotten, and the knowledge
    base is settled: it holds no statement without cells, no two equal
    statements, and no statement that determines its cells (count 0, or
    count equal to the number of cells). *)
Theorem add_knowledge_leaves_settled_base (hash : KnowledgeStatement → Z) (fuel : nat)
    (cell : Cell) (count : Z) (ai ai' : AI.MinesweeperAI) (l : loc) :
  reachable hash ai →
  AI.add_knowledge hash fuel cell count ai = Some ai' →
  cell ∈ AI.moves_made ai' ∧ cell ∈ AI.identified_safe_cells ai' ∧
  AI.identified_safe_cells ai ⊆ AI.identified_safe_cells ai' ∧
  AI.identified_mines ai ⊆ AI.identified_mines ai' ∧
  NoDup (vals (AI.objects ai') (AI.knowledge_base ai')) ∧
  (l ∈ AI.knowledge_base ai' →
     KS.cell_positions (deref (AI.objects ai') l) ≠ ∅ ∧
     KS.mine_count (deref (AI.objects ai') l) ≠ 0 ∧
     KS.mine_count (deref (AI.objects ai') l)
       ≠ Z.of_nat (size (KS.cell_positions (deref (AI.objects ai') l)))).
Proof.
  intros Hr Hadd.
  destruct (add_knowledge_settles hash fuel cell count ai ai' (reachable_wf _ _ Hr) Hadd)
    as ((_ & Hc & [Pn Pe] & _) & _ & Hs & Hm & _ & Hsf & Hmi & _).
  split_and!; [set_solver|done|done|done|done|].
  intros Hl. specialize (Pe l Hl).
  destruct (proj1 (collect_empty _ _) Hc l Hl) as [Hks Hkm].
  unfold KS.known_safes, KS.known_mines, KS.len in *. split_and!; [done| |].
  - intros E. rewrite E in Hks. by simpl in Hks.
  - intros E. rewrite E, Z.eqb_refl in Hkm. done.
Qed.

Lemma add_knowledge_leaves_settled_base_example :
  ∃ ai, AI.add_knowledge example_hash 4 (0,0) 1
          (AI.init 3 "brute_force" "First In, First Out").1 = Some ai ∧
        (0,0) ∈ AI.identified_safe_cells ai ∧
        NoDup (vals (AI.objects ai) (AI.knowledge_base ai)).
Proof.
  destruct (AI.add_knowledge example_hash 4 (0,0) 1
              (AI.init 3 "brute_force" "First In, First Out").1) as [ai|] eqn:E;
    [|vm_compute in E; discriminate].
  destruct (add_knowledge_leaves_settled_base example_hash 4 (0,0) 1
              (AI.init 3 "brute_force" "First In, First Out").1 ai 0)
    as (_ & H2 & _ & _ & H5 & _).
  - apply reachable_init.
  - exact E.
  - exists ai. split; [reflexivity|]. split; [exact H2|exact H5].
Defined.

(** *** minesweeper_ai.py: the solver is sound *)

Lemma strip_safes_true (B S : gset Cell) (s : KnowledgeStatement) :
  S ## B → true_on B s → true_on B (strip_safes S s).
Proof.
  unfold true_on, strip_safes. cbn [KS.cell_positions KS.mine_count]. intros HS ->.
  do 2 f_equal. apply set_eq. set_solver.
Qed.

Lemma strip_mines_true (B M : gset Cell) (s : KnowledgeStatement) :
  M ⊆ B → true_on B s → true_on B (strip_mines M s).
Proof.
  unfold true_on, strip_mines. cbn [KS.cell_positions KS.mine_count]. intros HM ->.
  replace ((KS.cell_positions s ∖ M) ∩ B)
    with ((KS.cell_positions s ∩ B) ∖ (KS.cell_positions s ∩ M)) by set_solver.
  assert (Hs : KS.cell_positions s ∩ M ⊆ KS.cell_positions s ∩ B) by set_solver.
  rewrite (size_difference _ _ Hs). apply subseteq_size in Hs. lia.
Qed.

Lemma known_cells_true (B : gset Cell) (s : KnowledgeStatement) :
  true_on B s → KS.known_safes s ## B ∧ KS.known_mines s ⊆ B.
Proof.
  unfold true_on, KS.known_safes, KS.known_mines, KS.len. intros Ht. split.
  - destruct (Z.eqb_spec (KS.mine_count s) 0) as [E|]; [|set_solver].
    rewrite E in Ht. assert (Hs : size (KS.cell_positions s ∩ B) = 0%nat) by lia.
    apply size_empty_inv in Hs. set_solver.
  - destruct (Z.eqb_spec (Z.of_nat (size (KS.cell_positions s))) (KS.mine_count s)) as [E|];
      [|set_solver].
    rewrite Ht in E. apply Nat2Z.inj in E.
    assert (Hsub : KS.cell_positions s ∩ B ⊆ KS.cell_positions s) by set_solver.
    intros c Hc. destruct (decide (c ∈ B)) as [|Hn]; [done|]. exfalso.
    assert (Hlt : (size (KS.cell_positions s ∩ B) < size (KS.cell_positions s))%nat).
    { apply subset_size. split; [done|]. intros H. specialize (H c Hc). set_solver. }
    lia.
Qed.

Lemma collect_true (B : gset Cell) (h : heap) (kb : list loc) :
  Forall (true_on B) (vals h kb) →
  (AI.collect h kb).1 ## B ∧ (AI.collect h kb).2 ⊆ B.
Proof.
  intros Ht. rewrite Forall_forall in Ht.
  split; intros c Hc.
  - intros HB. apply (proj1 (collect_spec h kb c)) in Hc as (l & Hl & Hk).
    destruct (known_cells_true B (deref h l)) as [H1 _]; [by apply Ht, elem_of_vals|].
    set_solver.
  - apply (proj2 (collect_spec h kb c)) in Hc as (l & Hl & Hk).
    destruct (known_cells_true B (deref h l)) as [_ H2]; [by apply Ht, elem_of_vals|].
    set_solver.
Qed.

Lemma mark_and_purge_agrees (hash : KnowledgeStatement → Z) (B : gset Cell)
    (ai : AI.MinesweeperAI) :
  valid (AI.objects ai) (AI.knowledge_base ai) →
  agrees B ai → agrees B (AI.mark_and_purge hash ai).1.
Proof.
  intros Hv (Ht & Hm & Hs).
  destruct (mark_and_purge_spec hash ai) as (_ & _ & Sf & Mi & _ & D & K).
  destruct (collect_true B _ _ Ht) as [HS HM].
  set (ai' := (AI.mark_and_purge hash ai).1) in *.
  set (S := (AI.collect (AI.objects ai) (AI.knowledge_base ai)).1) in *.
  set (M := (AI.collect (AI.objects ai) (AI.knowledge_base ai)).2) in *.
  split_and!; [|rewrite Mi; set_solver|rewrite Sf; set_solver].
  rewrite Forall_forall in *. intros v Hin.
  apply elem_of_vals_inv in Hin as (l & Hl & <-).
  assert (Hl' : l ∈ AI.knowledge_base ai).
  { rewrite K in Hl. eapply sublist_elem_of; [apply purge_spec_sublist|done]. }
  rewrite D, decide_True by (split; [done|by eapply valid_elem]).
  apply strip_mines_true; [done|]. apply strip_safes_true; [done|].
  by apply Ht, elem_of_vals.
Qed.

Lemma merge_agrees (hash : KnowledgeStatement → Z) (B : gset Cell) (ai : AI.MinesweeperAI)
    (set : list AI.entry) (r : Search.result) (kb0 : list loc) vs :
  valid (AI.objects ai) (AI.knowledge_base ai) →
  sim_result (AI.objects ai) (AI.knowledge_base ai) kb0 r vs →
  Forall (true_on B) vs →
  agrees B ai → agrees B (AI.merge hash ai set r).1.1.
Proof.
  intros Hv ([ext E] & Kr & (Vr & _ & _) & Vs) Hvs (Ht & Hm & Hs).
  destruct (merge_spec hash ai set r) as (_ & Sf & Mi & _ & Ob & Kb & _).
  split_and!; [|by rewrite Mi|by rewrite Sf].
  rewrite Kb, Ob, Kr. unfold vals. rewrite map_app. apply Forall_app. split.
  - fold (vals (Search.r_heap r) (AI.knowledge_base ai)). rewrite E.
    by rewrite vals_app_heap.
  - rewrite Forall_forall in *. intros v Hin. apply Hvs. rewrite <- Vs.
    apply elem_of_vals_inv in Hin as (l & Hl & <-). apply elem_of_vals.
    by apply list_elem_of_filter in Hl as [_ ?].
Qed.

Lemma propagate_agrees (hash : KnowledgeStatement → Z) (B : gset Cell) (cell : Cell)
    (count : Z) (fuel : nat) :
  ∀ (ai : AI.MinesweeperAI) (set : list AI.entry) (n : Z) ai' n',
  wf_ai ai → set_valid (AI.objects ai) set → set_inv hash ai set →
  target_inv ai cell count → agrees B ai →
  AI.propagate hash fuel ai set n = Some (ai', n') → agrees B ai'.
Proof.
  induction fuel as [|fuel IH]; intros ai set n ai' n' Hwf Hsv Hsi Hti Ha; [done|].
  cbn [AI.propagate].
  destruct (mark_and_purge_inv hash ai set cell count Hwf Hsv Hsi Hti)
    as (W1 & V1 & I1 & T1 & _).
  pose proof (mark_and_purge_agrees hash B ai (proj1 Hwf) Ha) as A1.
  destruct (AI.mark_and_purge hash ai) as [aip marked]. cbn [fst snd] in *.
  pose proof (call_sim (AI.search_algorithm_method aip) fuel (AI.stat_generator aip)
                (AI.objects aip) (AI.knowledge_base aip) (proj1 W1)) as Hsim.
  destruct (Search.call _ _ _ _ _) as [r|]; [|done].
  destruct Hsim as (vs & Hval & Hres).
  destruct (merge_inv hash aip set r _ vs _ fuel cell count W1 V1 I1 T1 Hres Hval)
    as (W2 & V2 & I2 & T2).
  assert (Hvs : Forall (true_on B) vs).
  { eapply values_of_closed; [apply derive_true|apply A1|exact Hval]. }
  pose proof (merge_agrees hash B aip set r _ vs (proj1 W1) Hres Hvs A1) as A2.
  destruct (AI.merge hash aip set r) as [[aim setm] inferred]. cbn [fst snd] in *.
  destruct (marked || inferred); [by eapply IH|]. by intros [= <- <-].
Qed.

Lemma add_knowledge_agrees (hash : KnowledgeStatement → Z) (B : gset Cell) (fuel : nat)
    (cell : Cell) (ai ai' : AI.MinesweeperAI) :
  wf_ai ai → agrees B ai → cell ∉ B →
  AI.add_knowledge hash fuel cell
    (Z.of_nat (size (AI.neighbours (AI.grid_size ai) cell ∩ B))) ai = Some ai' →
  agrees B ai'.
Proof.
  intros Hr (Ht & Hm & Hs) Hc. unfold AI.add_knowledge.
  set (count := Z.of_nat _).
  destruct (observe_spec cell count ai Hr)
    as (W & G & _ & _ & _ & Sf & Mi & _ & D & (extra & Kb & _ & Hex) & T).
  set (a := AI.observe cell count ai) in *.
  assert (Ha : agrees B a).
  { split_and!; [|by rewrite Mi|rewrite Sf; set_solver].
    rewrite Kb. unfold vals. rewrite map_app. apply Forall_app.
    rewrite Forall_forall in Ht. split; rewrite Forall_forall; intros v Hin;
      apply elem_of_vals_inv in Hin as (l & Hl & <-).
    - rewrite (D l Hl). apply strip_safes_true; [set_solver|]. by apply Ht, elem_of_vals.
    - destruct (Hex l Hl) as [-> _]. rewrite target_strip.
      apply strip_mines_true; [by rewrite Mi|].
      unfold true_on. cbn [KS.cell_positions KS.mine_count]. unfold count.
      rewrite G, Sf. do 2 f_equal. apply set_eq. set_solver. }
  destruct (initial_set hash a (proj1 W)) as (Sv & _ & Si & _).
  destruct (AI.propagate _ _ _ _ _) as [[a' n]|] eqn:Hp; [|done]. intros [= <-].
  pose proof (propagate_agrees hash B cell count fuel a _ 0 a' n W Sv Si T Ha Hp) as H.
  by destruct a'.
Qed.


(** The solver is sound.  From a state it can reach and that agrees with a
    mine layout, told the true count of a cell that is no mine,
    [add_knowledge] returns a state that agrees with the layout: every cell
    it has identified as a mine is one, no cell it has identified as safe
    is, and every statement of its knowledge base is true. *)
Theorem add_knowledge_sound (hash : KnowledgeStatement → Z) (B : gset Cell) (fuel : nat)
    (cell : Cell) (ai ai' : AI.MinesweeperAI) :
  reachable hash ai → agrees B ai → cell ∉ B →
  AI.add_knowledge hash fuel cell
    (Z.of_nat (size (AI.neighbours (AI.grid_size ai) cell ∩ B))) ai = Some ai' →
  agrees B ai'.
Proof.
  intros Hr Ha Hc Hadd. apply reachable_wf in Hr.
  exact (add_knowledge_agrees hash B fuel cell ai ai' Hr Ha Hc Hadd).
Qed.

Lemma add_knowledge_sound_example :
  ∃ ai, AI.add_knowledge example_hash 4 (0,0) 0
          (AI.init 3 "brute_force" "First In, First Out").1 = Some ai ∧
        agrees {[ (2,2) ]} ai.
Proof.
  destruct (AI.add_knowledge example_hash 4 (0,0) 0
              (AI.init 3 "brute_force" "First In, First Out").1) as [ai|] eqn:E;
    [|vm_compute in E; discriminate].
  exists ai. split; [reflexivity|].
  apply (add_knowledge_sound example_hash {[ (2,2) ]} 4 (0,0)
           (AI.init 3 "brute_force" "First In, First Out").1 ai).
  - apply reachable_init.
  - split_and!; [constructor|apply (bool_decide_unpack _); by vm_compute
                |apply (bool_decide_unpack _); by vm_compute].
  - apply (bool_decide_unpack _). by vm_compute.
  - etrans; [|exact E]. f_equal.
Defined.

(** *** minesweeper_ai.py: the random move *)

Lemma elem_of_range (a b x : Z) : x ∈ AI.range a b ↔ a ≤ x < b.
Proof. unfold AI.range. rewrite elem_of_seqZ. lia. Qed.

Lemma elem_of_all_cells (n : Z) (p : Cell) :
  p ∈ AI.all_cells n ↔ 0 ≤ p.1 < n ∧ 0 ≤ p.2 < n.
Proof.
  unfold AI.all_cells. destruct p as [a b]. cbn [fst snd]. split.
  - intros H. apply list_elem_of_bind in H as (i & H & Hi).
    apply list_elem_of_bind in H as (j & H & Hj).
    apply list_elem_of_singleton in H. injection H as -> ->.
    by rewrite elem_of_range in Hi, Hj.
  - intros [Ha Hb]. apply list_elem_of_bind. exists a. split; [|by apply elem_of_range].
    apply list_elem_of_bind. exists b. split; [apply list_elem_of_here|by apply elem_of_range].
Qed.

Lemma elem_of_delete_or {A} (l : list A) (i : nat) (x y : A) :
  l !! i = Some x → y ∈ l → y = x ∨ y ∈ delete i l.
Proof.
  intros Hi Hy. rewrite <- (take_drop_middle l i x Hi) in Hy.
  rewrite delete_take_drop. rewrite !elem_of_app, elem_of_cons in *. tauto.
Qed.

Lemma elem_of_delete_in {A} (l : list A) (i : nat) (y : A) : y ∈ delete i l → y ∈ l.
Proof.
  intros H. eapply sublist_elem_of; [apply sublist_delete|done].
Qed.

Lemma random_move_loop_spec (rand : nat → nat) (ai : AI.MinesweeperAI) (fuel : nat) :
  ∀ (i : nat) (l : list Cell), length l = fuel →
  match AI.random_move_loop rand i fuel l ai with
  | Some c => c ∈ l ∧ (c ∉ AI.moves_made ai) ∧ (c ∉ AI.identified_mines ai)
  | None => ∀ c, c ∈ l → c ∈ AI.moves_made ai ∨ c ∈ AI.identified_mines ai
  end.
Proof.
  induction fuel as [|fuel IH]; intros i l Hlen.
  - destruct l; [|done]. simpl. intros c Hc. by apply elem_of_nil in Hc.
  - destruct l as [|x l]; [done|]. cbn [AI.random_move_loop].
    set (k := (rand i `mod` length (x :: l))%nat).
    assert (Hk : (k < length (x :: l))%nat) by (apply Nat.mod_upper_bound; simpl; lia).
    destruct (lookup_lt_is_Some_2 _ _ Hk) as [c Hc]. rewrite Hc.
    destruct (decide _) as [[H1 H2]|Hn].
    + split_and!; [by eapply list_elem_of_lookup_2|done|done].
    + specialize (IH (S i) (delete k (x :: l))).
      rewrite length_delete in IH by (by eexists). rewrite Hlen in IH. cbn in IH.
      specialize (IH (Nat.sub_0_r _)).
      destruct (AI.random_move_loop rand (S i) fuel _ ai) as [c'|].
      * destruct IH as (Hin & ? & ?). split_and!; [|done|done].
        by eapply elem_of_delete_in.
      * intros y Hy. destruct (elem_of_delete_or _ _ _ _ Hc Hy) as [->|Hd]; [|by apply IH].
        destruct (decide (c ∈ AI.moves_made ai)); [by left|].
        destruct (decide (c ∈ AI.identified_mines ai)); [by right|]. by destruct Hn.
Qed.

(** [make_random_move] returns a cell of the grid that has not been played
    and is not an identified mine, whatever numbers are drawn; it returns
    [None] only when every cell of the grid has been played or is an
    identified mine. *)
Theorem make_random_move_spec (rand : nat → nat) (ai : AI.MinesweeperAI) :
  match AI.make_random_move rand ai with
  | Some c =>
      (0 ≤ c.1 < AI.grid_size ai ∧ 0 ≤ c.2 < AI.grid_size ai) ∧
      (c ∉ AI.moves_made ai) ∧ (c ∉ AI.identified_mines ai)
  | None =>
      ∀ c : Cell, 0 ≤ c.1 < AI.grid_size ai → 0 ≤ c.2 < AI.grid_size ai →
                  c ∈ AI.moves_made ai ∨ c ∈ AI.identified_mines ai
  end.
Proof.
  unfold AI.make_random_move.
  pose proof (random_move_loop_spec rand ai _ 0 (AI.all_cells (AI.grid_size ai)) eq_refl) as H.
  destruct (AI.random_move_loop _ _ _ _ _) as [c|].
  - destruct H as (Hin & ? & ?). by apply elem_of_all_cells in Hin.
  - intros c H1 H2. apply H. by apply elem_of_all_cells.
Qed.

(** *** minesweeper_game.py: the board *)

Lemma py_index_in_range {A} (l : list A) (i : Z) :
  0 ≤ i < Z.of_nat (length l) → Game.py_index l i = l !! Z.to_nat i ∧ is_Some (l !! Z.to_nat i).
Proof.
  intros Hi. unfold Game.py_index. destruct (Z.leb_spec 0 i); [|lia].
  split; [done|]. apply lookup_lt_is_Some. lia.
Qed.

Lemma contains_mine_in_grid (g : Game.MinesweeperGame) (p : Cell) :
  board_ok g → 0 ≤ p.1 < Game.grid_size g → 0 ≤ p.2 < Game.grid_size g →
  is_Some (Game.contains_mine g p).
Proof.
  intros [Hl Hr] H1 H2. destruct p as [a b]. cbn [fst snd] in *. unfold Game.contains_mine.
  destruct (py_index_in_range (Game.board g) a) as [-> [r Er]]; [lia|].
  rewrite Er. cbn. rewrite Forall_forall in Hr.
  assert (Hlen : length r = Z.to_nat (Game.grid_size g))
    by (by eapply Hr, list_elem_of_lookup_2).
  destruct (py_index_in_range r b) as [-> ?]; [lia|done].
Qed.

Lemma elem_of_mines_of (g : Game.MinesweeperGame) (p : Cell) :
  p ∈ mines_of g ↔
  (0 ≤ p.1 < Game.grid_size g ∧ 0 ≤ p.2 < Game.grid_size g) ∧
  Game.contains_mine g p = Some true.
Proof.
  unfold mines_of. rewrite elem_of_list_to_set, list_elem_of_filter, elem_of_all_cells. tauto.
Qed.

Lemma load_fold (g : Game.MinesweeperGame) (l : list Cell) :
  Forall (λ p, is_Some (Game.contains_mine g p)) l →
  ∀ S : gset Cell,
  foldl (λ (acc : option (gset Cell)) (p : Cell),
           mine_positions ← acc;
           b ← Game.contains_mine g p;
           Some (if b : bool then mine_positions ∪ {[p]} else mine_positions))
        (Some S) l
  = Some (S ∪ list_to_set (filter (λ p, Game.contains_mine g p = Some true) l)).
Proof.
  induction 1 as [|p l [b Hb] Hl IH]; intros S; cbn [foldl].
  - rewrite filter_nil. f_equal. set_solver.
  - rewrite Hb. cbn [mbind option_bind]. destruct b.
    + rewrite IH, filter_cons_True by done. f_equal. set_solver.
    + rewrite IH, filter_cons_False by (rewrite Hb; by intros [=]). done.
Qed.

(** On a board of the right shape [_load_existing_mines] raises no
    [IndexError] and adds to [mine_positions] exactly the cells of the grid
    at which the board shows a mine; nothing else changes. *)
Theorem load_existing_mines_spec (g : Game.MinesweeperGame) :
  board_ok g →
  ∃ g', Game.load_existing_mines g = Some g' ∧
        Game.board g' = Game.board g ∧ Game.grid_size g' = Game.grid_size g ∧
        ∀ p : Cell,
          p ∈ Game.mine_positions g' ↔
          p ∈ Game.mine_positions g ∨
          ((0 ≤ p.1 < Game.grid_size g ∧ 0 ≤ p.2 < Game.grid_size g) ∧
           Game.contains_mine g p = Some true).
Proof.
  intros Hb. unfold Game.load_existing_mines. rewrite load_fold.
  - cbn. eexists. split; [done|]. split_and!; [done..|]. intros p. cbn.
    rewrite elem_of_union. fold (mines_of g). by rewrite elem_of_mines_of.
  - rewrite Forall_forall. intros p Hp. apply elem_of_all_cells in Hp as [H1 H2].
    by apply contains_mine_in_grid.
Qed.

Lemma load_existing_mines_spec_example :
  let g := Game.mk 2 1 true [[false; true]; [false; false]] ∅ ∅ (0,0) ∅ false in
  ∃ g', Game.load_existing_mines g = Some g' ∧
        ((0,1) ∈ Game.mine_positions g') ∧ ((1,1) ∉ Game.mine_positions g').
Proof.
  intros g. destruct (load_existing_mines_spec g) as (g' & E & _ & _ & H).
  - split; [done|]. repeat constructor.
  - exists g'. split; [exact E|]. split.
    + apply H. right. split; [cbn; lia|done].
    + intros Hin. apply H in Hin as [Hin|[_ Hin]]; [by apply elem_of_empty in Hin|done].
Defined.

Lemma elem_of_neighbours (n : Z) (cell p : Cell) :
  p ∈ AI.neighbours n cell ↔
  p ≠ cell ∧ Z.abs (p.1 - cell.1) ≤ 1 ∧ Z.abs (p.2 - cell.2) ≤ 1 ∧
  0 ≤ p.1 < n ∧ 0 ≤ p.2 < n.
Proof.
  destruct cell as [x y], p as [a b]. unfold AI.neighbours. cbn [fst snd mbind list_bind].
  cbn [mret list_ret app concat map].
  rewrite elem_of_list_to_set, list_elem_of_filter. cbn [fst snd].
  rewrite !elem_of_cons, elem_of_nil. split.
  - intros [(Hne & H1 & H2) Hin]. split; [done|].
    decompose [or] Hin; try done;
      match goal with H : (_, _) = (_, _) |- _ => injection H as -> -> end; lia.
  - intros (Hne & H1 & H2 & H3 & H4). split; [done|].
    assert (Ha : a = x - 1 ∨ a = x ∨ a = x + 1) by lia.
    assert (Hb : b = y - 1 ∨ b = y ∨ b = y + 1) by lia.
    destruct Ha as [-> | [-> | ->]], Hb as [-> | [-> | ->]]; auto 12.
Qed.

Lemma NoDup_pairs (l1 l2 : list Z) :
  NoDup l1 → NoDup l2 → NoDup (row ← l1; col ← l2; [(row, col)]).
Proof.
  intros H1 H2. apply NoDup_bind; [| |done].
  - intros x1 x2 [a b] _ _ Ha Hb.
    apply list_elem_of_bind in Ha as (? & Ha & _). apply list_elem_of_singleton in Ha.
    apply list_elem_of_bind in Hb as (? & Hb & _). apply list_elem_of_singleton in Hb.
    congruence.
  - intros x _. apply NoDup_bind; [| |done].
    + intros y1 y2 [a b] _ _ Ha Hb.
      apply list_elem_of_singleton in Ha. apply list_elem_of_singleton in Hb. congruence.
    + intros y _. apply NoDup_singleton.
Qed.

Lemma elem_of_pairs (l1 l2 : list Z) (p : Cell) :
  p ∈ (row ← l1; col ← l2; [(row, col)]) ↔ p.1 ∈ l1 ∧ p.2 ∈ l2.
Proof.
  destruct p as [a b]. cbn [fst snd]. split.
  - intros H. apply list_elem_of_bind in H as (i & H & Hi).
    apply list_elem_of_bind in H as (j & H & Hj).
    apply list_elem_of_singleton in H. by injection H as -> ->.
  - intros [Ha Hb]. apply list_elem_of_bind. exists a. split; [|done].
    apply list_elem_of_bind. exists b. split; [apply list_elem_of_here|done].
Qed.

Lemma count_fold (g : Game.MinesweeperGame) (cell : Cell) (l : list Cell) :
  Forall (λ p, is_Some (Game.contains_mine g p)) l →
  ∀ k : Z,
  foldl (λ (acc : option Z) (p : Cell),
           adjacent_mines ← acc;
           if decide (p ≠ cell) then
             b ← Game.contains_mine g p;
             Some (if b : bool then adjacent_mines + 1 else adjacent_mines)
           else Some adjacent_mines)
        (Some k) l
  = Some (k + Z.of_nat (length (filter (λ p, p ≠ cell ∧ Game.contains_mine g p = Some true)
                                       l))).
Proof.
  induction 1 as [|p l [b Hb] Hl IH]; intros k; cbn [foldl].
  - rewrite filter_nil. cbn. f_equal. lia.
  - cbn [mbind option_bind]. destruct (decide (p ≠ cell)) as [Hne|He].
    + rewrite Hb. cbn [mbind option_bind]. destruct b.
      * rewrite IH, filter_cons_True by done. cbn [length]. f_equal. lia.
      * rewrite IH, filter_cons_False by (rewrite Hb; by intros [_ [=]]). done.
    + by rewrite IH, filter_cons_False by (by intros [? _]).
Qed.

Lemma count_adjacent_mines_value (g : Game.MinesweeperGame) (cell : Cell) :
  board_ok g →
  (∀ p : Cell, p ∈ Game.mine_positions g ↔
               (0 ≤ p.1 < Game.grid_size g ∧ 0 ≤ p.2 < Game.grid_size g) ∧
               Game.contains_mine g p = Some true) →
  Game.count_adjacent_mines g cell
  = Some (Z.of_nat (size (AI.neighbours (Game.grid_size g) cell ∩ Game.mine_positions g))).
Proof.
  intros Hb Hm. unfold Game.count_adjacent_mines.
  set (l1 := AI.range (Z.max 0 (cell.1 - 1)) _). set (l2 := AI.range (Z.max 0 (cell.2 - 1)) _).
  assert (Hin : ∀ p : Cell, p ∈ (row ← l1; col ← l2; [(row, col)]) ↔
            (Z.max 0 (cell.1 - 1) ≤ p.1 < Z.min (Game.grid_size g) (cell.1 + 2)) ∧
            (Z.max 0 (cell.2 - 1) ≤ p.2 < Z.min (Game.grid_size g) (cell.2 + 2))).
  { intros p. rewrite elem_of_pairs. unfold l1, l2. by rewrite !elem_of_range. }
  rewrite count_fold.
  - f_equal. rewrite Z.add_0_l. f_equal.
    rewrite <- (size_list_to_set (C:=gset Cell))
      by (apply NoDup_filter, NoDup_pairs; apply NoDup_seqZ).
    f_equal. apply set_eq. intros p.
    rewrite elem_of_list_to_set, list_elem_of_filter, Hin, elem_of_intersection,
      elem_of_neighbours, Hm.
    destruct p as [a b], cell as [x y]. cbn [fst snd].
    assert ((a, b) ≠ (x, y) ↔ a ≠ x ∨ b ≠ y).
    { split; [|intros [?|?] [=]; done].
      intros Hne. destruct (decide (a = x)) as [->|]; [|by left]. right. by intros ->. }
    split; intros H'; split_and!; try tauto; lia.
  - rewrite Forall_forall. intros p Hp. apply Hin in Hp.
    apply contains_mine_in_grid; [done|lia..].
Qed.

(** On a board of the right shape, with [mine_positions] the cells at which
    the board shows a mine, [count_adjacent_mines] raises no [IndexError] and
    returns, for any cell, the number of mines among the cells that
    [add_knowledge] takes for the neighbours of that cell: the count the
    runner passes to the solver is the true one. *)
Theorem count_adjacent_mines_spec (g : Game.MinesweeperGame) (cell : Cell) :
  board_ok g →
  (∀ p : Cell, p ∈ Game.mine_positions g ↔
               (0 ≤ p.1 < Game.grid_size g ∧ 0 ≤ p.2 < Game.grid_size g) ∧
               Game.contains_mine g p = Some true) →
  Game.count_adjacent_mines g cell
  = Some (Z.of_nat (size (AI.neighbours (Game.grid_size g) cell ∩ Game.mine_positions g))).
Proof.
  intros Hb Hm. exact (count_adjacent_mines_value g cell Hb Hm).
Qed.

Lemma count_adjacent_mines_spec_example :
  Game.count_adjacent_mines
    (Game.mk 2 1 true [[false; true]; [false; false]] {[ (0,1) ]} ∅ (0,0) ∅ false) (1,1)
  = Some 1.
Proof.
  etrans; [apply count_adjacent_mines_spec|].
  - split; [done|]. repeat constructor.
  - intros [a b]. cbn [fst snd Game.mine_positions Game.grid_size].
    rewrite elem_of_singleton. split.
    + intros [= -> ->]. split; [lia|done].
    + intros [[Ha Hb] Hc].
      assert (Ha' : a = 0 ∨ a = 1) by lia. assert (Hb' : b = 0 ∨ b = 1) by lia.
      destruct Ha' as [-> | ->], Hb' as [-> | ->]; done.
  - by vm_compute.
Defined.

(** *** minesweeper_runner.py: a move of the game *)

Lemma mark_cell_as_mine_agrees (B : gset Cell) (c : Cell) (ai : AI.MinesweeperAI) :
  valid (AI.objects ai) (AI.knowledge_base ai) → c ∈ B →
  agrees B ai → agrees B (AI.mark_cell_as_mine c ai).
Proof.
  intros Hv Hc (Ht & Hm & Hs).
  destruct (marks_mine_spec [c] ai) as (_ & Kb & _ & Mi & Sf & _ & _ & D). cbn [foldl] in *.
  split_and!; [|rewrite Mi; set_solver|by rewrite Sf].
  rewrite Kb. rewrite Forall_forall in *. intros v Hin.
  apply elem_of_vals_inv in Hin as (l & Hl & <-).
  rewrite D, decide_True by (split; [done|by eapply valid_elem]).
  apply strip_mines_true; [set_solver|]. by apply Ht, elem_of_vals.
Qed.

Lemma update_flagged_fold (L : list Cell) : ∀ g : Game.MinesweeperGame,
  let g' := foldl (λ g mine_position,
                     if decide (mine_position ∉ Game.flagged_mine_positions g)
                     then Game.set_flagged_mine_positions
                            (Game.flagged_mine_positions g ∪ {[mine_position]}) g
                     else g) g L in
  Game.flagged_mine_positions g' = Game.flagged_mine_positions g ∪ list_to_set L ∧
  Game.set_flagged_mine_positions (Game.flagged_mine_positions g) g'
  = g.
Proof.
  induction L as [|c L IH]; intros g; cbn [foldl].
  - split; [set_solver|by destruct g].
  - cbv zeta in IH. destruct (decide _) as [Hn|Hin].
    + destruct (IH (Game.set_flagged_mine_positions
                      (Game.flagged_mine_positions g ∪ {[c]}) g)) as [H1 H2].
      split.
      * rewrite H1. destruct g. cbn. set_solver.
      * destruct g. cbn in *. destruct (foldl _ _ L). cbn in *. by injection H2 as -> -> -> -> -> -> -> ->.
    + destruct (IH g) as [H1 H2]. split; [|done]. rewrite H1.
      apply dec_stable in Hin. set_solver.
Qed.

Lemma game_ok_frame (g g' : Game.MinesweeperGame) :
  Game.board g' = Game.board g → Game.grid_size g' = Game.grid_size g →
  Game.mine_positions g' = Game.mine_positions g → game_ok g → game_ok g'.
Proof.
  intros Hb Hn Hm [[H1 H2] H3]. unfold game_ok, board_ok, Game.contains_mine in *.
  rewrite Hb, Hn, Hm. split; [by split|]. intros p. rewrite H3. by destruct p.
Qed.

Lemma process_move_keeps (hash : KnowledgeStatement → Z) (fuel : nat)
    (cell_position : option Cell) (g g' : Game.MinesweeperGame) (ai ai' : AI.MinesweeperAI) :
  game_ok g →
  AI.grid_size ai = Game.grid_size g →
  reachable hash ai →
  agrees (Game.mine_positions g) ai →
  Game.flagged_mine_positions g ⊆ Game.mine_positions g →
  (∀ c : Cell,
     (if Game.is_first_move g then Some (Game.starting_position g) else cell_position)
       = Some c →
     0 ≤ c.1 < Game.grid_size g ∧ 0 ≤ c.2 < Game.grid_size g) →
  Runner.process_move hash fuel cell_position (g, ai) = Runner.Returns (g', ai') →
  game_ok g' ∧
  Game.mine_positions g' = Game.mine_positions g ∧
  Game.board g' = Game.board g ∧
  AI.grid_size ai' = Game.grid_size g' ∧
  reachable hash ai' ∧
  agrees (Game.mine_positions g') ai' ∧
  Game.flagged_mine_positions g' ⊆ Game.mine_positions g' ∧
  AI.identified_mines ai' ⊆ Game.mine_positions g' ∧
  Game.is_first_move g' = false.
Proof.
  intros Hg Hn Hr Ha Hf Hc. unfold Runner.process_move.
  set (g0 := Game.set_is_first_move false g).
  assert (Hg0 : game_ok g0) by (revert Hg; by apply game_ok_frame).
  assert (E : (if Game.is_first_move g
               then (Some (Game.starting_position g), g0) else (cell_position, g))
              = (if Game.is_first_move g then Some (Game.starting_position g)
                 else cell_position,
                 if Game.is_first_move g then g0 else g))
    by (by destruct (Game.is_first_move g)).
  rewrite E. clear E.
  set (g1 := if Game.is_first_move g then g0 else g).
  assert (Hg1 : game_ok g1) by (unfold g1; by destruct (Game.is_first_move g)).
  assert (Hb1 : Game.board g1 = Game.board g ∧ Game.grid_size g1 = Game.grid_size g ∧
                Game.mine_positions g1 = Game.mine_positions g ∧
                Game.flagged_mine_positions g1 = Game.flagged_mine_positions g)
    by (unfold g1; by destruct (Game.is_first_move g)).
  destruct Hb1 as (Hb1 & Hn1 & Hm1 & Hf1).
  destruct (if Game.is_first_move g then Some (Game.starting_position g) else cell_position)
    as [c|] eqn:Ec.
  2: { intros [= <- <-]. unfold g1 in *. destruct (Game.is_first_move g) eqn:Ef; [done|].
       split_and!; try done. apply Ha. }
  specialize (Hc c eq_refl). destruct Hc as [Hc1 Hc2].
  rewrite <- Hn1 in Hc1, Hc2.
  destruct (contains_mine_in_grid g1 c (proj1 Hg1) Hc1 Hc2) as [b Hb]. rewrite Hb.
  destruct b.
  - intros [= <- <-].
    assert (Hmine : c ∈ Game.mine_positions g) by (rewrite <- Hm1; by apply (proj2 Hg1)).
    destruct (mark_cell_as_mine_spec c ai) as ((G & _) & _ & _ & Mi & _).
    pose proof (mark_cell_as_mine_agrees _ c ai (proj1 (reachable_wf _ _ Hr)) Hmine Ha) as Ha'.
    split_and!.
    + revert Hg1. apply game_ok_frame; by destruct g1.
    + by destruct g1.
    + by destruct g1.
    + rewrite G, Hn, <- Hn1. by destruct g1.
    + by apply reachable_mark_mine.
    + replace (Game.mine_positions _) with (Game.mine_positions g) by (by destruct g1). done.
    + destruct g1. cbn in *. subst. set_solver.
    + replace (Game.mine_positions _) with (Game.mine_positions g) by (by destruct g1).
      apply Ha'.
    + unfold g1. by destruct (Game.is_first_move g) eqn:Ef, g.
  - rewrite (count_adjacent_mines_value g1 c (proj1 Hg1) (proj2 Hg1)).
    rewrite Hn1, <- Hn, Hm1.
    destruct (AI.add_knowledge hash fuel c _ ai) as [ai1|] eqn:Eadd; [|done].
    intros [= <- <-].
    assert (Hnm : c ∉ Game.mine_positions g).
    { rewrite <- Hm1. intros Hin. apply (proj2 Hg1) in Hin as [_ Hin]. congruence. }
    pose proof (add_knowledge_agrees hash _ fuel c ai ai1 (reachable_wf _ _ Hr) Ha Hnm Eadd)
      as Ha'.
    destruct (add_knowledge_settles hash fuel c _ ai ai1 (reachable_wf _ _ Hr) Eadd)
      as (_ & _ & _ & _ & _ & _ & _ & G & _).
    set (g2 := Game.set_revealed_positions _ g1).
    destruct (update_flagged_fold (elements (AI.identified_mines ai1)) g2) as [F1 F2].
    fold (Runner.update_flagged_positions_from_ai ai1 g2) in F1, F2.
    set (g3 := Runner.update_flagged_positions_from_ai ai1 g2) in *.
    assert (H3 : Game.board g3 = Game.board g ∧ Game.grid_size g3 = Game.grid_size g ∧
                 Game.mine_positions g3 = Game.mine_positions g ∧
                 Game.is_first_move g3 = Game.is_first_move g1).
    { rewrite <- Hb1, <- Hn1, <- Hm1.
      pose proof (f_equal Game.board F2) as X1. pose proof (f_equal Game.grid_size F2) as X2.
      pose proof (f_equal Game.mine_positions F2) as X3.
      pose proof (f_equal Game.is_first_move F2) as X4.
      cbn in X1, X2, X3, X4. rewrite X1, X2, X3, X4. unfold g2. by destruct g1. }
    destruct H3 as (B3 & N3 & M3 & I3).
    split_and!.
    + revert Hg. by apply game_ok_frame.
    + done.
    + done.
    + by rewrite G, N3.
    + by eapply reachable_add_knowledge.
    + by rewrite M3.
    + rewrite F1, M3, list_to_set_elements_L.
      replace (Game.flagged_mine_positions g2) with (Game.flagged_mine_positions g)
        by (rewrite <- Hf1; unfold g2; by destruct g1).
      destruct Ha' as (_ & ? & _). set_solver.
    + rewrite M3. apply Ha'.
    + rewrite I3. unfold g1. by destruct (Game.is_first_move g) eqn:Ef, g.
Qed.

(** A move of the game keeps the solver right about the board.  On a board
    of the right shape whose [mine_positions] are the mines it shows, from a
    state of the solver that agrees with these mines and flags that are all
    mines, [process_move] on a cell of the grid, when it returns, leaves a
    solver state that agrees with the mines, and flags that are all mines;
    the board and its mines are as before. *)
Theorem process_move_sound (hash : KnowledgeStatement → Z) (fuel : nat)
    (cell_position : option Cell) (g g' : Game.MinesweeperGame) (ai ai' : AI.MinesweeperAI) :
  game_ok g →
  AI.grid_size ai = Game.grid_size g →
  reachable hash ai →
  agrees (Game.mine_positions g) ai →
  Game.flagged_mine_positions g ⊆ Game.mine_positions g →
  (∀ c : Cell,
     (if Game.is_first_move g then Some (Game.starting_position g) else cell_position)
       = Some c →
     0 ≤ c.1 < Game.grid_size g ∧ 0 ≤ c.2 < Game.grid_size g) →
  Runner.process_move hash fuel cell_position (g, ai) = Runner.Returns (g', ai') →
  game_ok g' ∧
  Game.mine_positions g' = Game.mine_positions g ∧
  Game.board g' = Game.board g ∧
  AI.grid_size ai' = Game.grid_size g' ∧
  reachable hash ai' ∧
  agrees (Game.mine_positions g') ai' ∧
  Game.flagged_mine_positions g' ⊆ Game.mine_positions g' ∧
  AI.identified_mines ai' ⊆ Game.mine_positions g' ∧
  Game.is_first_move g' = false.
Proof. exact (process_move_keeps hash fuel cell_position g g' ai ai'). Qed.

Lemma process_move_sound_example :
  let g := Game.mk 2 1 true [[false; true]; [false; false]] {[ (0,1) ]} ∅ (1,0) ∅ false in
  let ai := (AI.init 2 "brute_force" "First In, First Out").1 in
  ∃ g' ai', Runner.process_move example_hash 4 None (g, ai) = Runner.Returns (g', ai') ∧
            agrees (Game.mine_positions g') ai' ∧
            Game.flagged_mine_positions g' ⊆ Game.mine_positions g'.
Proof.
  intros g ai.
  destruct (Runner.process_move example_hash 4 None (g, ai)) as [[g' ai']| |] eqn:E;
    [|vm_compute in E; discriminate..].
  destruct (process_move_sound example_hash 4 None g g' ai ai')
    as (_ & _ & _ & _ & _ & H1 & H2 & _).
  - split; [split; [done|repeat constructor]|].
    intros [a b]. cbn [fst snd Game.mine_positions Game.grid_size g].
    rewrite elem_of_singleton. split.
    + intros [= -> ->]. split; [lia|done].
    + intros [[Ha Hb] Hc].
      assert (Ha' : a = 0 ∨ a = 1) by lia. assert (Hb' : b = 0 ∨ b = 1) by lia.
      destruct Ha' as [-> | ->], Hb' as [-> | ->]; done.
  - reflexivity.
  - apply reachable_init.
  - split_and!; [constructor|apply (bool_decide_unpack _); by vm_compute
                |apply (bool_decide_unpack _); by vm_compute].
  - apply (bool_decide_unpack _). by vm_compute.
  - intros c [= <-]. cbn. lia.
  - exact E.
  - exists g', ai'. split; [reflexivity|]. split; [exact H1|exact H2].
Defined.

(** *** knowledge_statement.py: the order of statements *)

(** [__lt__] is a strict weak order: irreflexive, asymmetric and transitive;
    two statements are incomparable exactly when they have the same number
    of cells and the same count, whatever their cells are. *)
Theorem statement_order_is_strict_weak (a b c : KnowledgeStatement) :
  KS.lt a a = false ∧
  (KS.lt a b = true → KS.lt b a = false) ∧
  (KS.lt a b = true → KS.lt b c = true → KS.lt a c = true) ∧
  (KS.lt a b = false ∧ KS.lt b a = false ↔
   KS.len a = KS.len b ∧ KS.mine_count a = KS.mine_count b).
Proof.
  assert (Hlt : ∀ x y, KS.lt x y = true ↔
            KS.len x < KS.len y ∨ (KS.len x = KS.len y ∧ KS.mine_count x < KS.mine_count y)).
  { intros x y. unfold KS.lt. rewrite orb_true_iff, andb_true_iff, !Z.ltb_lt, Z.eqb_eq.
    tauto. }
  assert (Hnlt : ∀ x y, KS.lt x y = false ↔
            ¬ (KS.len x < KS.len y ∨
               (KS.len x = KS.len y ∧ KS.mine_count x < KS.mine_count y))).
  { intros x y. rewrite <- Hlt. by destruct (KS.lt x y). }
  rewrite !Hnlt, !Hlt. split_and!; try lia.
Qed.

(** *** subset_search_algorithms.py: what the methods report and return *)

Lemma bf_body_counts (a b : loc) (h : heap) (inf : list loc) (cmp : Z) :
  (Search.bf_body a b (h, inf, cmp)).2 = cmp + 1.
Proof.
  unfold Search.bf_body. destruct (Search.issubset _ _); [|done].
  destruct (new_statement _ _ _). by destruct (negb _).
Qed.

Lemma bf_inner_counts (a : loc) (l : list loc) :
  ∀ st : heap * list loc * Z,
  (foldl (λ st b, Search.bf_body a b st) st l).2 = st.2 + Z.of_nat (length l).
Proof.
  induction l as [|b l IH]; intros [[h inf] cmp]; cbn [foldl length]; [cbn; lia|].
  rewrite IH. pose proof (bf_body_counts a b h inf cmp) as H.
  destruct (Search.bf_body a b (h, inf, cmp)) as [[h' inf'] cmp']. cbn in *. lia.
Qed.

Lemma bf_outer_counts (kb l : list loc) :
  ∀ st : heap * list loc * Z,
  (foldl (λ st a, foldl (λ st b, Search.bf_body a b st) st kb) st l).2
  = st.2 + Z.of_nat (length l) * Z.of_nat (length kb).
Proof.
  induction l as [|a l IH]; intros st; cbn [foldl length]; [lia|].
  rewrite IH, bf_inner_counts. lia.
Qed.

(** [brute_force_search] compares every statement with every statement: it
    reports [len(knowledge_base)] squared subset comparisons (on top of the
    count it is passed) and as many inferences as the list it returns is
    long. *)
Theorem brute_force_search_reports (stats : StatGenerator) (h : heap)
    (knowledge_base : list loc) (subset_comparisons : Z) :
  let r := Search.brute_force_search stats h knowledge_base subset_comparisons in
  Stat.subset_comparisons_total (Search.r_stats r)
    = Stat.subset_comparisons_total stats + subset_comparisons
      + Z.of_nat (length knowledge_base) * Z.of_nat (length knowledge_base) ∧
  Stat.subset_comparisons_count (Search.r_stats r) = Stat.subset_comparisons_count stats + 1 ∧
  Stat.inferences_total (Search.r_stats r)
    = Stat.inferences_total stats + Z.of_nat (length (Search.r_inferred r)).
Proof.
  intros r. unfold r, Search.brute_force_search.
  pose proof (bf_outer_counts knowledge_base knowledge_base (h, [], subset_comparisons)) as H.
  destruct (foldl _ _ _) as [[h' inf] cmp]. cbn in *. lia.
Qed.

Lemma dp_values_meaningful (vs : list KnowledgeStatement) :
  Forall (λ s, KS.cell_positions s ≠ ∅ ∧ 0 ≤ KS.mine_count s) (dp_values vs).
Proof.
  unfold dp_values.
  apply (for_pairs_inv
           (λ st : list KnowledgeStatement * list _,
              Forall (λ s, KS.cell_positions s ≠ ∅ ∧ 0 ≤ KS.mine_count s) st.1)
           (λ _, True)); [by apply Forall_true|constructor|].
  intros a b [inf cache] _ _ Hinf. unfold dp_values_body. cbn [fst] in *.
  case_bool_decide; [done|]. destruct (Search.issubset _ _); [|done].
  destruct (_ || _) eqn:E; [done|]. apply orb_false_iff in E as [E1 E2].
  apply bool_decide_eq_false_1 in E2. apply Z.ltb_ge in E1.
  case_bool_decide; [done|]. cbn [fst]. apply Forall_app. split; [done|].
  constructor; [|constructor]. by split.
Qed.
(** [dynamic_programming_search] returns only statements that have cells
    and a count that is not negative (brute force, divide and conquer, the
    greedy search by count and the breadth-first search also return the
    statement without cells, and negative counts). *)
Theorem dp_results_are_meaningful (stats : StatGenerator) (h : heap)
    (knowledge_base : list loc) (subset_comparisons : Z) :
  valid h knowledge_base →
  let r := Search.dynamic_programming_search stats h knowledge_base subset_comparisons in
  Forall (λ s, KS.cell_positions s ≠ ∅ ∧ 0 ≤ KS.mine_count s)
         (vals (Search.r_heap r) (Search.r_inferred r)).
Proof.
  intros Hv r.
  pose proof (dynamic_programming_search_sim stats h knowledge_base subset_comparisons Hv) as Hsim.
  destruct Hsim as (_ & _ & _ & Hvals). unfold r. rewrite Hvals.
  apply dp_values_meaningful.
Qed.

Lemma dp_results_are_meaningful_example :
  let h := [KS.mk {[ (0,0); (0,1) ]} 1; KS.mk {[ (0,0); (0,1); (0,2) ]} 2] in
  let r := Search.dynamic_programming_search (Stat.init 3) h [0%nat; 1%nat] 0 in
  vals (Search.r_heap r) (Search.r_inferred r) = [KS.mk {[ (0,2) ]} 1] ∧
  Forall (λ s, KS.cell_positions s ≠ ∅ ∧ 0 ≤ KS.mine_count s)
         (vals (Search.r_heap r) (Search.r_inferred r)).
Proof.
  intros h r. split.
  - apply (bool_decide_unpack _). by vm_compute.
  - apply (dp_results_are_meaningful (Stat.init 3) h [0%nat; 1%nat] 0). repeat constructor.
Defined.

(** *** dfs_search never infers *)

Lemma dfs_body_idle (h : heap) (c : list loc) (a b : loc) (stack : list (list loc))
    (inf : list loc) (cmp : Z) :
  Search.size_of h b ≤ Search.size_of h a →
  Search.dfs_body c a b (h, stack, inf, cmp) = (h, stack, inf, cmp + 1).
Proof.
  intros Hs. unfold Search.dfs_body, Search.issubset. case_bool_decide as Hsub; [|done].
  assert (Heq : Search.cells h a = Search.cells h b).
  { apply (set_subseteq_size_eq (C:=gset Cell)); [done|]. unfold Search.size_of in Hs. lia. }
  rewrite (bool_decide_eq_false_2 (Search.cells h b ∖ Search.cells h a ≠ ∅)).
  - by rewrite andb_false_r.
  - intros Hne. apply Hne. rewrite Heq. set_solver.
Qed.

Lemma dfs_inner_idle (h : heap) (c : list loc) (a : loc) (stack : list (list loc))
    (inf : list loc) (rest : list loc) : ∀ cmp,
  Forall (λ b, Search.size_of h b ≤ Search.size_of h a) rest →
  foldl (λ st y, Search.dfs_body c a y st) (h, stack, inf, cmp) rest
  = (h, stack, inf, cmp + Z.of_nat (length rest)).
Proof.
  induction rest as [|b rest IH]; intros cmp Hall; cbn [foldl length].
  - f_equal. lia.
  - apply Forall_cons in Hall as [Hb Hall]. rewrite dfs_body_idle by done.
    rewrite IH by done. f_equal. lia.
Qed.

Lemma dfs_pairs_idle (h : heap) (c : list loc) (stack : list (list loc)) (inf : list loc)
    (l : list loc) : ∀ cmp,
  StronglySorted (λ a b, Search.size_of h b ≤ Search.size_of h a) l →
  for_pairs (Search.dfs_body c) l (h, stack, inf, cmp)
  = (h, stack, inf, cmp + Z.of_nat (length l) * (Z.of_nat (length l) - 1) / 2).
Proof.
  induction l as [|a l IH]; intros cmp Hs; cbn [for_pairs].
  - f_equal. change (Z.of_nat (length (@nil loc))) with 0. rewrite Z.mul_0_l, Z.div_0_l; lia.
  - apply StronglySorted_inv in Hs as [Hs Ha].
    rewrite dfs_inner_idle by done. rewrite IH by done. f_equal.
    cbn [length]. set (n := Z.of_nat (length l)).
    replace (Z.of_nat (S (length l)) * (Z.of_nat (S (length l)) - 1))
      with (n * (n - 1) + n * 2) by (unfold n; lia).
    rewrite Z.div_add by lia. lia.
Qed.

Lemma dfs_search_idle (fuel : nat) (stats : StatGenerator) (h : heap)
    (knowledge_base : list loc) (subset_comparisons : Z) :
  let n := Z.of_nat (length knowledge_base) in
  Search.dfs_search (S fuel) stats h knowledge_base subset_comparisons
  = Some (Search.mk_result h knowledge_base
            (Search.report stats (subset_comparisons + n * (n - 1) / 2) 0) []).
Proof.
  intros n. unfold Search.dfs_search. cbn [Search.dfs_loop].
  rewrite bool_decide_eq_false_2 by apply not_elem_of_nil.
  set (skb := sorted _ knowledge_base).
  assert (Hs : StronglySorted (λ a b, Search.size_of h b ≤ Search.size_of h a) skb).
  { pose proof (sorted_key_sorted (λ a, - Search.size_of h a) knowledge_base) as H.
    fold skb in H. induction H as [|a l H IH Ha]; constructor; [done|].
    eapply Forall_impl; [exact Ha|]. intros b Hb. cbn in Hb. lia. }
  rewrite dfs_pairs_idle by done.
  assert (Hlen : length skb = length knowledge_base).
  { apply Permutation_length, sorted_perm. }
  rewrite Hlen. by destruct fuel.
Qed.

(** [dfs_search] sorts the statements by decreasing size and then looks for
    a statement whose cells are a subset of those of a later, hence no
    larger, one: the two then have the same cells, and the difference has
    none and is discarded.  So the search never infers anything, on any
    knowledge base: it returns the empty list after one pass over the
    [n * (n - 1) / 2] pairs, and changes nothing but the statistics. *)
Theorem dfs_search_returns_nothing (fuel : nat) (stats : StatGenerator) (h : heap)
    (knowledge_base : list loc) (subset_comparisons : Z) :
  let n := Z.of_nat (length knowledge_base) in
  Search.dfs_search (S fuel) stats h knowledge_base subset_comparisons
  = Some (Search.mk_result h knowledge_base
            (Search.report stats (subset_comparisons + n * (n - 1) / 2) 0) []).
Proof.
  intros n. unfold n.
  rewrite (dfs_search_idle fuel stats h knowledge_base subset_comparisons).
  reflexivity.
Qed.

(** *** minesweeper_ai.py: when add_knowledge returns *)

(** The loop of [add_knowledge] returns when every pass that asks for another
    one lowers a measure [mu] of the state, the search method returning
    whenever it has [sf] units of fuel. *)
Lemma propagate_returns (hash : KnowledgeStatement → Z)
    (Inv : AI.MinesweeperAI → list AI.entry → Prop) (Post : AI.MinesweeperAI → Prop)
    (mu : AI.MinesweeperAI → list AI.entry → nat) (sf : nat) :
  (∀ ai set fuel, Inv ai set → (sf ≤ fuel)%nat →
     let aip := (AI.mark_and_purge hash ai).1 in
     ∃ r, Search.call (AI.search_algorithm_method aip) fuel (AI.stat_generator aip)
                      (AI.objects aip) (AI.knowledge_base aip) = Some r ∧
          let m := AI.merge hash aip set r in
          if (AI.mark_and_purge hash ai).2 || m.2
          then Inv m.1.1 m.1.2 ∧ (mu m.1.1 m.1.2 < mu ai set)%nat
          else Post m.1.1) →
  ∀ fuel ai set n, Inv ai set → (mu ai set + sf + 1 ≤ fuel)%nat →
    ∃ ai' n', AI.propagate hash fuel ai set n = Some (ai', n') ∧ Post ai'.
Proof.
  intros Hstep. induction fuel as [|fuel IH]; intros ai set n HI Hf; [lia|].
  cbn [AI.propagate].
  destruct (Hstep ai set fuel HI ltac:(lia)) as (r & Hr & Hm).
  destruct (AI.mark_and_purge hash ai) as [aip marked]. cbn [fst snd] in *.
  rewrite Hr. destruct (AI.merge hash aip set r) as [[aim setm] inferred].
  cbn [fst snd] in *. destruct (marked || inferred).
  - destruct Hm as [HI' Hlt]. apply IH; [done|lia].
  - eauto.
Qed.

Lemma elem_of_kb_cells (ai : AI.MinesweeperAI) (c : Cell) :
  c ∈ kb_cells ai ↔
  ∃ l, l ∈ AI.knowledge_base ai ∧ c ∈ KS.cell_positions (deref (AI.objects ai) l).
Proof.
  unfold kb_cells. rewrite elem_of_union_list. split.
  - intros (X & HX & Hc). apply list_elem_of_fmap in HX as (s & -> & Hs).
    apply elem_of_vals_inv in Hs as (l & Hl & <-). eauto.
  - intros (l & Hl & Hc). eexists. split; [|exact Hc].
    apply list_elem_of_fmap. eexists. split; [done|]. by apply elem_of_vals.
Qed.

(** A pass that marks cells takes them out of every statement. *)
Lemma mark_and_purge_kb_cells (hash : KnowledgeStatement → Z) (ai : AI.MinesweeperAI) :
  valid (AI.objects ai) (AI.knowledge_base ai) →
  let aip := (AI.mark_and_purge hash ai).1 in
  valid (AI.objects aip) (AI.knowledge_base aip) ∧
  AI.search_algorithm_method aip = AI.search_algorithm_method ai ∧
  (length (AI.knowledge_base aip) ≤ length (AI.knowledge_base ai))%nat ∧
  kb_cells aip ⊆ kb_cells ai ∧
  ((AI.mark_and_purge hash ai).2 = true → (size (kb_cells aip) < size (kb_cells ai))%nat).
Proof.
  intros Hv aip.
  destruct (mark_and_purge_spec hash ai) as (Hm & Hev & _ & _ & Len & D & Kb).
  fold aip in Hev, Len, D, Kb.
  set (S := (AI.collect (AI.objects ai) (AI.knowledge_base ai)).1) in *.
  set (M := (AI.collect (AI.objects ai) (AI.knowledge_base ai)).2) in *.
  assert (Hsub : AI.knowledge_base aip `sublist_of` AI.knowledge_base ai).
  { rewrite Kb. apply purge_spec_sublist. }
  assert (Hin : ∀ c, c ∈ kb_cells aip → c ∈ kb_cells ai ∧ (c ∉ S) ∧ (c ∉ M)).
  { intros c Hc. apply elem_of_kb_cells in Hc as (l & Hl & Hc).
    apply (sublist_elem_of _ _ _ Hsub) in Hl.
    rewrite D, decide_True in Hc.
    2:{ split; [done|]. unfold valid in Hv. rewrite Forall_forall in Hv. by apply Hv. }
    unfold strip_mines, strip_safes in Hc. cbn [KS.cell_positions] in Hc.
    split; [|set_solver]. apply elem_of_kb_cells. exists l. set_solver. }
  split_and!.
  - unfold valid in *. rewrite Len. rewrite Forall_forall in *. intros l Hl.
    by apply Hv, (sublist_elem_of _ _ _ Hsub).
  - apply Hev.
  - by apply sublist_length.
  - intros c Hc. by apply Hin.
  - intros Hmk. rewrite Hm in Hmk. apply subset_size. split; [intros c Hc; by apply Hin|].
    intros Hsup.
    assert (∃ c, c ∈ S ∪ M) as [c Hc].
    { apply orb_true_iff in Hmk as [H|H]; apply bool_decide_eq_true_1 in H;
        apply set_choose_L in H as [c Hc]; exists c; set_solver. }
    assert (Hk : c ∈ kb_cells ai).
    { destruct (collect_spec (AI.objects ai) (AI.knowledge_base ai) c) as [H1 H2].
      apply elem_of_union in Hc as [Hc|Hc].
      - apply H1 in Hc as (l & Hl & Hc). apply elem_of_kb_cells. exists l.
        split; [done|]. by apply known_safes_subseteq.
      - apply H2 in Hc as (l & Hl & Hc). apply elem_of_kb_cells. exists l.
        split; [done|]. by apply known_mines_subseteq. }
    apply Hsup, Hin in Hk. set_solver.
Qed.

Lemma merge_nothing (hash : KnowledgeStatement → Z) (ai : AI.MinesweeperAI)
    (set : list AI.entry) (r : Search.result) :
  Search.r_heap r = AI.objects ai → Search.r_knowledge_base r = AI.knowledge_base ai →
  Search.r_inferred r = [] →
  let m := AI.merge hash ai set r in
  m.2 = false ∧ AI.objects m.1.1 = AI.objects ai ∧
  AI.knowledge_base m.1.1 = AI.knowledge_base ai ∧
  AI.search_algorithm_method m.1.1 = AI.search_algorithm_method ai.
Proof.
  intros Hh Hk Hi. unfold AI.merge. rewrite Hi, Hh, Hk. cbn. done.
Qed.

Lemma search_without_inference (a : Search.algorithm) (fuel : nat) (stats : StatGenerator)
    (h : heap) (kb : list loc) :
  a = Search.GreedyAlgorithmSize ∨ a = Search.Dfs →
  ∃ r, Search.call a (S fuel) stats h kb = Some r ∧
       Search.r_heap r = h ∧ Search.r_knowledge_base r = kb ∧ Search.r_inferred r = [].
Proof.
  intros [-> | ->]; cbn [Search.call].
  - eexists. split; [done|]. apply greedy_size_infers_nothing.
  - rewrite dfs_search_idle. eexists. by split.
Qed.

Lemma neighbours_size (n : Z) (cell : Cell) : (size (AI.neighbours n cell) ≤ 8)%nat.
Proof.
  set (L := [(cell.1 - 1, cell.2 - 1); (cell.1 - 1, cell.2); (cell.1 - 1, cell.2 + 1);
             (cell.1, cell.2 - 1); (cell.1, cell.2 + 1);
             (cell.1 + 1, cell.2 - 1); (cell.1 + 1, cell.2); (cell.1 + 1, cell.2 + 1)]).
  transitivity (size (list_to_set L : gset Cell)); [|apply (size_list_to_set_le L)].
  apply subseteq_size. intros p Hp. apply elem_of_neighbours in Hp as (Hne & H1 & H2 & _).
  rewrite elem_of_list_to_set. destruct p as [i j], cell as [ci cj]. cbn [fst snd] in *.
  assert (Hi : i = ci - 1 ∨ i = ci ∨ i = ci + 1) by lia.
  assert (Hj : j = cj - 1 ∨ j = cj ∨ j = cj + 1) by lia.
  unfold L. cbn [fst snd]. rewrite !elem_of_cons.
  destruct Hi as [-> | [-> | ->]], Hj as [-> | [-> | ->]]; try done;
    repeat (first [by left | right]).
Qed.

Lemma observe_kb_cells (cell : Cell) (count : Z) (ai : AI.MinesweeperAI) :
  wf_ai ai →
  let a := AI.observe cell count ai in
  (size (kb_cells a) ≤ size (kb_cells ai) + 8)%nat ∧
  kb_cells a ⊆ kb_cells ai ∪ AI.neighbours (AI.grid_size ai) cell ∧
  (length (AI.knowledge_base a) ≤ S (length (AI.knowledge_base ai)))%nat.
Proof.
  intros Hwf a.
  destruct (observe_spec cell count ai Hwf)
    as (_ & G & _ & _ & _ & _ & _ & _ & D & (extra & Kb & _ & Hex) & _).
  fold a in G, D, Kb, Hex.
  assert (Hsub : kb_cells a ⊆ kb_cells ai ∪ AI.neighbours (AI.grid_size ai) cell).
  { intros c Hc. apply elem_of_kb_cells in Hc as (l & Hl & Hc). rewrite Kb in Hl.
    apply elem_of_app in Hl as [Hl|Hl].
    - rewrite (D l Hl) in Hc. unfold strip_safes in Hc. cbn [KS.cell_positions] in Hc.
      apply elem_of_union_l, elem_of_kb_cells. exists l. set_solver.
    - destruct (Hex l Hl) as [E _]. rewrite E, target_strip in Hc.
      unfold strip_mines in Hc. cbn [KS.cell_positions] in Hc. rewrite G in Hc. set_solver. }
  split_and!; [|done|].
  - etrans; [apply subseteq_size, Hsub|]. rewrite size_union_alt.
    pose proof (neighbours_size (AI.grid_size ai) cell).
    assert (size (AI.neighbours (AI.grid_size ai) cell ∖ kb_cells ai)
            ≤ size (AI.neighbours (AI.grid_size ai) cell))%nat
      by (apply subseteq_size; set_solver).
    lia.
  - unfold a. rewrite observe_unfold. cbn zeta.
    destruct (mark_cell_as_safe_spec cell
                (AI.set_moves_made (AI.moves_made ai ∪ {[cell]})
                   (AI.set_stat_generator (Stat.reset_current_stats (AI.stat_generator ai)) ai)))
      as (_ & Kb0 & _).
    case_bool_decide; cbn [AI.knowledge_base AI.set_knowledge_base AI.set_objects].
    + rewrite length_app, Kb0. cbn. lia.
    + rewrite Kb0. cbn. lia.
Qed.

(** With [greedy_algorithm_size_search] or [dfs_search] as its method,
    [add_knowledge] always returns, whatever count it is told: the search
    infers nothing, so a pass asks for another one only when it has marked
    cells, and marking takes the cells out of every statement.  The loop
    makes at most one pass more than there are cells in the statements, and
    the knowledge base gains no statement but the one of the observation. *)
Theorem add_knowledge_returns_without_search (hash : KnowledgeStatement → Z) (fuel : nat)
    (cell : Cell) (count : Z) (ai : AI.MinesweeperAI) :
  reachable hash ai →
  AI.search_algorithm_method ai = Search.GreedyAlgorithmSize ∨
  AI.search_algorithm_method ai = Search.Dfs →
  (size (kb_cells ai) + 10 ≤ fuel)%nat →
  ∃ ai', AI.add_knowledge hash fuel cell count ai = Some ai' ∧
         (length (AI.knowledge_base ai') ≤ S (length (AI.knowledge_base ai)))%nat.
Proof.
  intros Hr Hm Hf. apply reachable_wf in Hr. unfold AI.add_knowledge.
  destruct (observe_spec cell count ai Hr) as (W & _ & Me & _).
  destruct (observe_kb_cells cell count ai Hr) as (Hsz & _ & Hlen).
  set (a := AI.observe cell count ai) in *.
  set (N := S (length (AI.knowledge_base ai))) in *.
  set (ok := λ x : AI.MinesweeperAI,
         AI.search_algorithm_method x = Search.GreedyAlgorithmSize ∨
         AI.search_algorithm_method x = Search.Dfs).
  destruct (propagate_returns hash
              (λ x _, valid (AI.objects x) (AI.knowledge_base x) ∧ ok x ∧
                      (length (AI.knowledge_base x) ≤ N)%nat)
              (λ x, (length (AI.knowledge_base x) ≤ N)%nat)
              (λ x _, size (kb_cells x)) 1) with
    (fuel := fuel) (ai := a) (set := AI.set_update hash (AI.objects a) [] (AI.knowledge_base a))
    (n := 0) as (ai' & n' & -> & Hpost).
  - intros x s f (Hv & Hok & Hl) Hf1.
    destruct (mark_and_purge_kb_cells hash x Hv) as (Hv1 & Hm1 & Hl1 & _ & Hlt).
    destruct (AI.mark_and_purge hash x) as [xp marked]. cbn [fst snd] in *.
    destruct f as [|f]; [lia|].
    destruct (search_without_inference (AI.search_algorithm_method xp) f
                (AI.stat_generator xp) (AI.objects xp) (AI.knowledge_base xp))
      as (r & Hcall & Hh & Hk & Hi).
    { unfold ok in Hok. by rewrite Hm1. }
    exists r. split; [done|].
    destruct (merge_nothing hash xp s r Hh Hk Hi) as (Hno & Ho & Hkb & Hme).
    destruct (AI.merge hash xp s r) as [[xm sm] inferred]. cbn [fst snd] in *.
    subst inferred. rewrite orb_false_r.
    assert (Hc : kb_cells xm = kb_cells xp) by (unfold kb_cells; by rewrite Ho, Hkb).
    destruct marked.
    + split; [|rewrite Hc; by apply Hlt].
      split_and!; [by rewrite Ho, Hkb| |rewrite Hkb; lia].
      unfold ok in *. by rewrite Hme, Hm1.
    + rewrite Hkb. lia.
  - split_and!; [apply W| |done]. unfold ok. by rewrite Me.
  - lia.
  - eexists. split; [done|]. done.
Qed.

Lemma add_knowledge_returns_without_search_example :
  ∃ ai', AI.add_knowledge example_hash 10 (0,0) 5
           (AI.init 3 "dfs" "First In, First Out").1 = Some ai' ∧
         (length (AI.knowledge_base ai') ≤ 1)%nat.
Proof.
  apply (add_knowledge_returns_without_search example_hash 10 (0,0) 5
           (AI.init 3 "dfs" "First In, First Out").1).
  - apply reachable_init.
  - right. reflexivity.
  - apply (bool_decide_unpack _). by vm_compute.
Defined.

(** *** The statements that are true on a layout *)

Lemma sublists_cover (l : list Cell) : ∀ X : gset Cell,
  X ⊆ list_to_set l → ∃ p, p ∈ sublists l ∧ list_to_set p = X.
Proof.
  induction l as [|x l IH]; intros X HX; cbn [sublists].
  - exists []. split; [by left|]. cbn in *. set_solver.
  - destruct (IH (X ∖ {[x]})) as (p & Hp & Heq); [set_solver|].
    destruct (decide (x ∈ X)) as [Hx|Hx].
    + exists (x :: p). split.
      * apply elem_of_app. right. apply list_elem_of_fmap. eauto.
      * cbn [list_to_set]. rewrite Heq. apply set_eq. intros c.
        destruct (decide (c = x)); set_solver.
    + exists p. split; [apply elem_of_app; by left|]. rewrite Heq. set_solver.
Qed.

Lemma elem_of_true_statements (B C : gset Cell) (s : KnowledgeStatement) :
  true_on B s → KS.cell_positions s ⊆ C → s ∈ true_statements B C.
Proof.
  intros Ht Hc. destruct (sublists_cover (elements C) (KS.cell_positions s)) as (p & Hp & Heq).
  { intros c Hin. apply elem_of_list_to_set, elem_of_elements. by apply Hc. }
  unfold true_statements. apply list_elem_of_fmap. exists p. split; [|done].
  rewrite Heq. destruct s as [cs n]. unfold true_on in Ht. cbn in *. by rewrite Ht.
Qed.

Lemma length_true_statements (B C : gset Cell) (vs : list KnowledgeStatement) :
  NoDup vs → Forall (true_within B C) vs →
  (length vs ≤ length (true_statements B C))%nat.
Proof.
  intros Hnd Hall. apply submseteq_length, NoDup_submseteq; [done|].
  intros s Hs. rewrite Forall_forall in Hall. destruct (Hall s Hs).
  by apply elem_of_true_statements.
Qed.

Lemma true_within_closed (B C : gset Cell) : derive_closed (true_within B C).
Proof.
  intros a b [Ha _] [Hb Hc] Hsub. split; [by apply derive_true|].
  unfold derive. cbn [KS.cell_positions]. set_solver.
Qed.

(** *** Lookups in the set of statement objects *)

Lemma set_contains_findable (hash : KnowledgeStatement → Z) (h : heap) (s : list AI.entry)
    (x : loc) :
  AI.set_contains hash h s x = findable hash h s (deref h x).
Proof. reflexivity. Qed.

Lemma findable_spec (hash : KnowledgeStatement → Z) (h : heap) (s : list AI.entry)
    (v : KnowledgeStatement) :
  findable hash h s v = true ↔
  ∃ e, e ∈ s ∧ AI.entry_hash e = hash v ∧ deref h (AI.entry_key e) = v.
Proof.
  unfold findable. rewrite existsb_exists. split.
  - intros (e & He & Hm). apply andb_true_iff in Hm as [H1 H2].
    apply Z.eqb_eq in H1. apply bool_decide_eq_true_1 in H2.
    exists e. by rewrite list_elem_of_In.
  - intros (e & He & H1 & H2). exists e. rewrite <- list_elem_of_In. split; [done|].
    apply andb_true_iff. split; [by apply Z.eqb_eq|by apply bool_decide_eq_true_2].
Qed.

Lemma findable_ext (hash : KnowledgeStatement → Z) (h ext : heap) (s : list AI.entry)
    (v : KnowledgeStatement) :
  set_valid h s → findable hash (h ++ ext) s v = findable hash h s v.
Proof.
  unfold set_valid, valid, findable. induction s as [|e s IH]; intros Hv; [done|].
  cbn [map] in Hv. apply Forall_cons in Hv as [He Hv]. cbn [existsb].
  by rewrite IH, deref_app.
Qed.

Lemma findable_set_update (hash : KnowledgeStatement → Z) (h : heap) (s : list AI.entry)
    (l : list loc) (v : KnowledgeStatement) :
  findable hash h s v = true → findable hash h (AI.set_update hash h s l) v = true.
Proof.
  rewrite !findable_spec. intros (e & He & H). exists e. split; [|done].
  by apply set_update_keeps.
Qed.

Lemma findable_set_update_new (hash : KnowledgeStatement → Z) (h : heap) (s : list AI.entry)
    (l : list loc) (x : loc) :
  x ∈ l → findable hash h (AI.set_update hash h s l) (deref h x) = true.
Proof.
  intros Hx. rewrite <- set_contains_findable. apply set_update_contains. by left.
Qed.

Lemma filter_length_lt {A} (P Q : A → Prop) `{∀ x, Decision (P x)} `{∀ x, Decision (Q x)}
    (l : list A) (x : A) :
  (∀ y, Q y → P y) → x ∈ l → P x → ¬ Q x →
  (length (filter Q l) < length (filter P l))%nat.
Proof.
  intros Himp Hx HP HQ.
  assert (Hle : ∀ l', (length (filter Q l') ≤ length (filter P l'))%nat).
  { induction l' as [|y l' IH]; [done|]. rewrite !filter_cons.
    destruct (decide (Q y)) as [Hq|Hq].
    - rewrite decide_True by auto. cbn. lia.
    - destruct (decide (P y)); cbn; lia. }
  induction l as [|y l IH]; [by apply elem_of_nil in Hx|].
  rewrite !filter_cons. apply elem_of_cons in Hx as [<-|Hx].
  - rewrite decide_False, decide_True by done. cbn. specialize (Hle l). lia.
  - specialize (IH Hx). destruct (decide (Q y)) as [Hq|Hq].
    + rewrite decide_True by auto. cbn. lia.
    + destruct (decide (P y)); cbn; lia.
Qed.

Lemma unfound_le (hash : KnowledgeStatement → Z) (h : heap) (s : list AI.entry)
    (U : list KnowledgeStatement) :
  (unfound hash h s U ≤ length U)%nat.
Proof. unfold unfound. apply length_filter. Qed.

Lemma unfound_lt (hash : KnowledgeStatement → Z) (h h' : heap) (s s' : list AI.entry)
    (U : list KnowledgeStatement) (v : KnowledgeStatement) :
  (∀ u, findable hash h s u = true → findable hash h' s' u = true) →
  v ∈ U → findable hash h s v = false → findable hash h' s' v = true →
  (unfound hash h' s' U < unfound hash h s U)%nat.
Proof.
  intros Hmono Hv H1 H2. unfold unfound.
  apply (filter_length_lt _ _ U v); [|done|done|by rewrite H2].
  intros u Hu. destruct (findable hash h s u) eqn:E; [|done].
  apply Hmono in E. congruence.
Qed.

(** *** The searches that recurse or loop return *)

Lemma dc_values_returns (vs : list KnowledgeStatement) (fuel : nat) : ∀ start end_,
  (0 < fuel)%nat → end_ - start < Z.of_nat fuel →
  is_Some (dc_values fuel vs start end_).
Proof.
  induction fuel as [|fuel IH]; intros s e Hpos Hw; [lia|].
  cbn [dc_values]. destruct (s >? e) eqn:E1; [done|]. destruct (s =? e) eqn:E2; [done|].
  rewrite Z.gtb_ltb in E1. apply Z.ltb_ge in E1. apply Z.eqb_neq in E2.
  assert (Hmid : s ≤ (s + e) `div` 2 < e).
  { split; [apply Z.div_le_lower_bound; lia|apply Z.div_lt_upper_bound; lia]. }
  destruct (IH s ((s + e) `div` 2)) as [lv ->]; [lia|lia|].
  destruct (IH ((s + e) `div` 2 + 1) e) as [rv ->]; [lia|lia|]. done.
Qed.

Lemma dc_search_values_returns (vs : list KnowledgeStatement) (fuel : nat) :
  (length vs ≤ fuel)%nat → is_Some (dc_search_values fuel vs).
Proof.
  intros Hf. unfold dc_search_values. destruct vs as [|v vs]; [done|].
  cbn [length] in *. apply dc_values_returns; lia.
Qed.

Section BfsReturns.
Context (B C : gset Cell).

Lemma bfs_values_loop_returns (fuel : nat) : ∀ queue inferred visited,
  Forall (Forall (true_within B C)) queue → Forall (true_within B C) inferred →
  NoDup inferred →
  (length queue + (length (true_statements B C) - length inferred) ≤ fuel)%nat →
  is_Some (bfs_values_loop fuel queue inferred visited).
Proof.
  induction fuel as [|fuel IH]; intros queue inferred visited Hq Hi Hnd Hf.
  - destruct queue; [done|]. cbn [length] in Hf. lia.
  - destruct queue as [|c q]; [done|]. cbn [bfs_values_loop].
    apply Forall_cons in Hq as [Hc Hq]. cbn [length] in Hf.
    case_bool_decide; [apply IH; [done|done|done|lia]|].
    pose proof (for_pairs_inv
      (λ st : list (list KnowledgeStatement) * list KnowledgeStatement,
         Forall (Forall (true_within B C)) st.1 ∧ Forall (true_within B C) st.2 ∧
         NoDup st.2 ∧
         (length st.1 + length inferred = length q + length st.2)%nat)
      (true_within B C) (bfs_values_body c) c (q, inferred) Hc) as Hfp.
    destruct (for_pairs (bfs_values_body c) c (q, inferred)) as [q' i'].
    destruct Hfp as (Hq' & Hi' & Hnd' & Hlen).
    { cbn [fst snd]. by split_and!. }
    { intros a b [q1 i1] Ha Hb (Q1 & Q2 & Q3 & Q4). unfold bfs_values_body.
      cbn [fst snd] in *. unfold Search.issubset.
      case_bool_decide as Hsub; [|by split_and!].
      case_bool_decide as Hin; [by split_and!|]. cbn [fst snd].
      assert (Hd : true_within B C (derive a b)) by (by apply true_within_closed).
      split_and!.
      - apply Forall_app. split; [done|]. constructor; [|constructor].
        apply Forall_app. split; [done|]. by constructor.
      - apply Forall_app. split; [done|]. by constructor.
      - apply NoDup_app. split_and!; [done| |apply NoDup_singleton].
        intros x Hx Hx'. apply list_elem_of_singleton in Hx'. by subst.
      - rewrite !length_app. cbn [length]. lia. }
    cbn [fst snd] in *.
    pose proof (length_true_statements B C i' Hnd' Hi') as Hle.
    apply IH; [done|done|done|lia].
Qed.

Lemma call_returns (a : Search.algorithm) (fuel : nat) (h : heap) (kb : list loc)
    (stats : StatGenerator) :
  valid h kb → Forall (true_within B C) (vals h kb) → NoDup (vals h kb) →
  (length (true_statements B C) + 1 ≤ fuel)%nat →
  ∃ r, Search.call a fuel stats h kb = Some r.
Proof.
  intros Hv Hall Hnd Hf.
  pose proof (length_true_statements B C _ Hnd Hall) as Hlen.
  pose proof (call_sim a fuel stats h kb Hv) as Hsim.
  destruct (Search.call a fuel stats h kb) as [r|] eqn:Hcall; [by eexists|].
  exfalso. destruct a; cbn [Search.call values_of] in *; try done.
  - destruct (dc_search_values_returns (vals h kb) fuel) as [o Ho]; [lia|]. congruence.
  - unfold bfs_values in Hsim.
    destruct (bfs_values_loop_returns fuel [sorted (λ a b, KS.len a <? KS.len b) (vals h kb)]
                [] []) as [o Ho]; [| | |cbn [length]; lia|congruence].
    + constructor; [|constructor].
      eapply Permutation_Forall; [symmetry; apply sorted_perm|done].
    + constructor.
    + constructor.
  - destruct fuel as [|f]; [lia|]. by rewrite dfs_search_idle in Hcall.
Qed.

End BfsReturns.

(** *** add_knowledge returns when the counts are those of a layout *)

Lemma kb_cells_vals (ai : AI.MinesweeperAI) :
  Forall (λ s, KS.cell_positions s ⊆ kb_cells ai)
         (vals (AI.objects ai) (AI.knowledge_base ai)).
Proof.
  rewrite Forall_forall. intros v Hv. apply elem_of_vals_inv in Hv as (l & Hl & <-).
  intros c Hc. apply elem_of_kb_cells. eauto.
Qed.

Lemma merge_kb_cells (hash : KnowledgeStatement → Z) (ai : AI.MinesweeperAI)
    (set : list AI.entry) (r : Search.result) (kb0 : list loc) vs :
  valid (AI.objects ai) (AI.knowledge_base ai) →
  sim_result (AI.objects ai) (AI.knowledge_base ai) kb0 r vs →
  Forall (λ s, KS.cell_positions s ⊆ kb_cells ai) vs →
  kb_cells (AI.merge hash ai set r).1.1 ⊆ kb_cells ai.
Proof.
  intros Hv ([ext E] & Kr & _ & Vs) Hvs.
  destruct (merge_spec hash ai set r) as (_ & _ & _ & _ & Ob & Kb & _).
  intros c Hc. apply elem_of_kb_cells in Hc as (l & Hl & Hc).
  rewrite Kb in Hl. rewrite Ob in Hc. apply elem_of_app in Hl as [Hl|Hl].
  - rewrite Kr in Hl. rewrite E, deref_app in Hc.
    + apply elem_of_kb_cells. eauto.
    + unfold valid in Hv. rewrite Forall_forall in Hv. by apply Hv.
  - apply list_elem_of_filter in Hl as [_ Hl].
    rewrite Forall_forall in Hvs. eapply Hvs; [|exact Hc]. rewrite <- Vs.
    by apply elem_of_vals.
Qed.

Lemma observe_agrees (B : gset Cell) (cell : Cell) (ai : AI.MinesweeperAI) :
  wf_ai ai → agrees B ai → cell ∉ B →
  agrees B (AI.observe cell
              (Z.of_nat (size (AI.neighbours (AI.grid_size ai) cell ∩ B))) ai).
Proof.
  intros Hr (Ht & Hm & Hs) Hc. set (count := Z.of_nat _).
  destruct (observe_spec cell count ai Hr)
    as (W & G & _ & _ & _ & Sf & Mi & _ & D & (extra & Kb & _ & Hex) & T).
  set (a := AI.observe cell count ai) in *.
  split_and!; [|by rewrite Mi|rewrite Sf; set_solver].
  rewrite Kb. unfold vals. rewrite map_app. apply Forall_app.
  rewrite Forall_forall in Ht. split; rewrite Forall_forall; intros v Hin;
    apply elem_of_vals_inv in Hin as (l & Hl & <-).
  - rewrite (D l Hl). apply strip_safes_true; [set_solver|]. by apply Ht, elem_of_vals.
  - destruct (Hex l Hl) as [-> _]. rewrite target_strip.
    apply strip_mines_true; [by rewrite Mi|].
    unfold true_on. cbn [KS.cell_positions KS.mine_count]. unfold count.
    rewrite G, Sf. do 2 f_equal. apply set_eq. set_solver.
Qed.

Section Returns.
Context (hash : KnowledgeStatement → Z) (B C : gset Cell) (cell : Cell) (count : Z).

(** A pass that asks for another one has marked cells, which leaves fewer
    cells in the statements, or has added to [inferred_set] a true statement
    that a lookup did not find before. *)
Lemma pass_lowers_measure (x : AI.MinesweeperAI) (s : list AI.entry) (fuel : nat) :
  pass_inv hash B C cell count x s → (length (true_statements B C) + 1 ≤ fuel)%nat →
  let xp := (AI.mark_and_purge hash x).1 in
  ∃ r, Search.call (AI.search_algorithm_method xp) fuel (AI.stat_generator xp)
                   (AI.objects xp) (AI.knowledge_base xp) = Some r ∧
       let m := AI.merge hash xp s r in
       if (AI.mark_and_purge hash x).2 || m.2
       then pass_inv hash B C cell count m.1.1 m.1.2 ∧
            (pass_measure hash B C m.1.1 m.1.2 < pass_measure hash B C x s)%nat
       else True.
Proof.
  intros (Hwf & Hsv & Hsi & Hti & Hag & HC) Hf xp. set (U := true_statements B C) in *.
  destruct (mark_and_purge_inv hash x s cell count Hwf Hsv Hsi Hti)
    as (W1 & V1 & I1 & T1 & P1).
  pose proof (mark_and_purge_agrees hash B x (proj1 Hwf) Hag) as A1.
  destruct (mark_and_purge_kb_cells hash x (proj1 Hwf)) as (_ & _ & _ & K1 & Klt).
  pose proof (mark_and_purge_unmarked hash x) as Hun.
  pose proof (mark_and_purge_idle hash x) as Hidle.
  fold xp in W1, V1, I1, T1, P1, A1, K1, Klt.
  assert (HP1 : Forall (true_within B C)
                       (vals (AI.objects xp) (AI.knowledge_base xp))).
  { rewrite Forall_forall. intros v Hv. split.
    - destruct A1 as [A1 _]. rewrite Forall_forall in A1. by apply A1.
    - apply elem_of_vals_inv in Hv as (l & Hl & <-). intros c Hc.
      apply HC, K1, elem_of_kb_cells. eauto. }
  destruct (call_returns B C (AI.search_algorithm_method xp) fuel (AI.objects xp)
              (AI.knowledge_base xp) (AI.stat_generator xp) (proj1 W1) HP1 (proj1 P1) Hf)
    as [r Hcall].
  exists r. split; [done|].
  pose proof (call_sim (AI.search_algorithm_method xp) fuel (AI.stat_generator xp)
                (AI.objects xp) (AI.knowledge_base xp) (proj1 W1)) as Hsim.
  rewrite Hcall in Hsim. destruct Hsim as (vs & Hval & Hres).
  destruct (merge_inv hash xp s r _ vs _ fuel cell count W1 V1 I1 T1 Hres Hval)
    as (W2 & V2 & I2 & T2).
  assert (Hvs : Forall (true_within B C) vs).
  { eapply values_of_closed; [apply true_within_closed|exact HP1|exact Hval]. }
  assert (Hvs_t : Forall (true_on B) vs).
  { eapply Forall_impl; [exact Hvs|]. by intros ? [? ?]. }
  pose proof (merge_agrees hash B xp s r _ vs (proj1 W1) Hres Hvs_t A1) as A2.
  assert (K2 : kb_cells (AI.merge hash xp s r).1.1 ⊆ kb_cells xp).
  { eapply merge_kb_cells; [apply W1|exact Hres|].
    eapply values_of_cells; [apply kb_cells_vals|exact Hval]. }
  destruct (merge_spec hash xp s r) as (_ & _ & _ & _ & Ob & Kb & Hset & Hinf).
  cbn zeta in *.
  destruct Hres as ([ext E] & _ & _ & Vs).
  destruct (AI.merge hash xp s r) as [[xm sm] inferred]. cbn [fst snd] in *.
  destruct ((AI.mark_and_purge hash x).2 || inferred) eqn:Hgo; [|done].
  split; [unfold pass_inv; split_and!; try done; set_solver|].
  unfold pass_measure. fold U.
  pose proof (unfound_le hash (AI.objects xm) sm U) as Hule.
  assert (Hk2 : (size (kb_cells xm) ≤ size (kb_cells xp))%nat) by apply subseteq_size, K2.
  assert (Hk1 : (size (kb_cells xp) ≤ size (kb_cells x))%nat) by apply subseteq_size, K1.
  destruct (AI.mark_and_purge hash x).2 eqn:Hmk.
  - specialize (Klt eq_refl).
    assert ((S (size (kb_cells xm)) * S (length U) ≤ size (kb_cells x) * S (length U))%nat)
      by (apply Nat.mul_le_mono_r; lia).
    lia.
  - cbn [orb] in Hgo. rewrite Hinf in Hgo. apply bool_decide_eq_true_1 in Hgo.
    assert (Hobj : AI.objects xp = AI.objects x).
    { unfold xp. rewrite (Hidle (Hun eq_refl)). cbn [fst].
      unfold AI.remove_empty_and_duplicate_statements. by destruct (AI.purge _ _ _). }
    rewrite Hobj in E.
    destruct (filter _ (Search.r_inferred r)) as [|x0 news'] eqn:Hnews; [done|].
    assert (Hx0 : x0 ∈ filter (λ inf, AI.set_contains hash (Search.r_heap r) s inf = false)
                         (Search.r_inferred r)) by (rewrite Hnews; left).
    apply list_elem_of_filter in Hx0 as [Hnot Hx0].
    set (v0 := deref (Search.r_heap r) x0).
    assert (Hv0 : v0 ∈ vs) by (rewrite <- Vs; by apply elem_of_vals).
    rewrite Forall_forall in Hvs. destruct (Hvs v0 Hv0) as [Ht0 Hc0].
    assert (Hlt : (unfound hash (AI.objects xm) sm U < unfound hash (AI.objects x) s U)%nat).
    { apply (unfound_lt hash _ _ _ _ U v0).
      - intros u Hu. rewrite Hset, Ob. apply findable_set_update.
        rewrite E. by rewrite findable_ext.
      - by apply elem_of_true_statements.
      - rewrite set_contains_findable in Hnot. fold v0 in Hnot.
        rewrite E in Hnot. by rewrite findable_ext in Hnot.
      - rewrite Hset, Ob. apply findable_set_update_new. left. }
    assert ((size (kb_cells xm) * S (length U) ≤ size (kb_cells x) * S (length U))%nat)
      by (apply Nat.mul_le_mono_r; lia).
    lia.
Qed.

Lemma propagate_returns_on_layout (fuel : nat) (x : AI.MinesweeperAI) (s : list AI.entry)
    (n : Z) :
  pass_inv hash B C cell count x s →
  (pass_measure hash B C x s + (length (true_statements B C) + 1) + 1 ≤ fuel)%nat →
  ∃ ai' n', AI.propagate hash fuel x s n = Some (ai', n').
Proof.
  intros HI Hf.
  destruct (propagate_returns hash (pass_inv hash B C cell count) (λ _, True)
              (pass_measure hash B C) (length (true_statements B C) + 1)
              pass_lowers_measure fuel x s n HI Hf) as (ai' & n' & Hp & _).
  eauto.
Qed.

End Returns.

Lemma add_knowledge_returns_wf (hash : KnowledgeStatement → Z) (B : gset Cell) (cell : Cell)
    (ai : AI.MinesweeperAI) :
  wf_ai ai → agrees B ai → cell ∉ B →
  ∃ fuel0 : nat, ∀ fuel, (fuel0 ≤ fuel)%nat →
    ∃ ai', AI.add_knowledge hash fuel cell
             (Z.of_nat (size (AI.neighbours (AI.grid_size ai) cell ∩ B))) ai = Some ai'.
Proof.
  intros Hwf Hag Hc. set (count := Z.of_nat _).
  pose proof (observe_agrees B cell ai Hwf Hag Hc) as Ha. fold count in Ha.
  destruct (observe_spec cell count ai Hwf) as (W & _ & _ & _ & _ & _ & _ & _ & _ & _ & T).
  set (a := AI.observe cell count ai) in *.
  destruct (initial_set hash a (proj1 W)) as (Sv & _ & Si & _).
  set (U := true_statements B (kb_cells a)).
  exists (size (kb_cells a) * S (length U) + length U + (length U + 1) + 1)%nat.
  intros fuel Hf. unfold AI.add_knowledge. fold count. fold a.
  destruct (propagate_returns_on_layout hash B (kb_cells a) cell count fuel a
              (AI.set_update hash (AI.objects a) [] (AI.knowledge_base a)) 0)
    as (ai' & n' & ->).
  - unfold pass_inv. by split_and!.
  - pose proof (unfound_le hash (AI.objects a)
                  (AI.set_update hash (AI.objects a) [] (AI.knowledge_base a)) U).
    unfold pass_measure. fold U. lia.
  - by eexists.
Qed.

(** The loop of [add_knowledge] ends when the counts are those of a mine
    layout.  From a state the solver can reach and that agrees with a layout,
    told the true count of a cell that is no mine, [add_knowledge] returns
    for every amount of fuel above a bound, whatever the search method: a
    pass that asks for another one has either marked cells, which takes them
    out of the statements, or added a true statement that a lookup in
    [inferred_set] did not find before, and there are finitely many true
    statements about the cells the knowledge base mentions. *)
Theorem add_knowledge_returns (hash : KnowledgeStatement → Z) (B : gset Cell) (cell : Cell)
    (ai : AI.MinesweeperAI) :
  reachable hash ai → agrees B ai → cell ∉ B →
  ∃ fuel0 : nat, ∀ fuel, (fuel0 ≤ fuel)%nat →
    ∃ ai', AI.add_knowledge hash fuel cell
             (Z.of_nat (size (AI.neighbours (AI.grid_size ai) cell ∩ B))) ai = Some ai'.
Proof.
  intros Hr Ha Hc. apply reachable_wf in Hr.
  exact (add_knowledge_returns_wf hash B cell ai Hr Ha Hc).
Qed.

Lemma add_knowledge_returns_example :
  let ai := (AI.init 3 "bfs" "First In, First Out").1 in
  ∃ fuel0 : nat, ∀ fuel, (fuel0 ≤ fuel)%nat →
    ∃ ai', AI.add_knowledge example_hash fuel (1,1)
             (Z.of_nat (size (AI.neighbours (AI.grid_size ai) (1,1) ∩ {[ (2,2); (0,1) ]}))) ai
           = Some ai'.
Proof.
  intros ai.
  apply (add_knowledge_returns example_hash {[ (2,2); (0,1) ]} (1,1) ai).
  - apply reachable_init.
  - split_and!; [constructor|apply (bool_decide_unpack _); by vm_compute
                |apply (bool_decide_unpack _); by vm_compute].
  - apply (bool_decide_unpack _). by vm_compute.
Defined.

(** *** minesweeper_runner.py: a move is carried out *)

Lemma process_move_total (hash : KnowledgeStatement → Z) (cell_position : option Cell)
    (g : Game.MinesweeperGame) (ai : AI.MinesweeperAI) :
  game_ok g →
  AI.grid_size ai = Game.grid_size g →
  reachable hash ai →
  agrees (Game.mine_positions g) ai →
  (∀ c : Cell,
     (if Game.is_first_move g then Some (Game.starting_position g) else cell_position)
       = Some c →
     0 ≤ c.1 < Game.grid_size g ∧ 0 ≤ c.2 < Game.grid_size g) →
  ∃ fuel0 : nat, ∀ fuel, (fuel0 ≤ fuel)%nat →
    ∃ g' ai',
      Runner.process_move hash fuel cell_position (g, ai) = Runner.Returns (g', ai') ∧
      ∀ c : Cell,
        (if Game.is_first_move g then Some (Game.starting_position g) else cell_position)
          = Some c →
        if decide (c ∈ Game.mine_positions g)
        then Game.game_over g' = true ∧ c ∈ Game.flagged_mine_positions g' ∧
             c ∈ AI.identified_mines ai' ∧
             Game.revealed_positions g' = Game.revealed_positions g
        else Game.game_over g' = Game.game_over g ∧ c ∈ Game.revealed_positions g' ∧
             c ∈ AI.moves_made ai' ∧ c ∈ AI.identified_safe_cells ai'.
Proof.
  intros Hg Hn Hr Ha Hc. unfold Runner.process_move.
  set (g0 := Game.set_is_first_move false g).
  assert (Hg0 : game_ok g0) by (revert Hg; by apply game_ok_frame).
  assert (E : (if Game.is_first_move g
               then (Some (Game.starting_position g), g0) else (cell_position, g))
              = (if Game.is_first_move g then Some (Game.starting_position g)
                 else cell_position,
                 if Game.is_first_move g then g0 else g))
    by (by destruct (Game.is_first_move g)).
  rewrite E. clear E.
  set (g1 := if Game.is_first_move g then g0 else g).
  assert (Hg1 : game_ok g1) by (unfold g1; by destruct (Game.is_first_move g)).
  assert (Hb1 : Game.board g1 = Game.board g ∧ Game.grid_size g1 = Game.grid_size g ∧
                Game.mine_positions g1 = Game.mine_positions g ∧
                Game.flagged_mine_positions g1 = Game.flagged_mine_positions g ∧
                Game.revealed_positions g1 = Game.revealed_positions g ∧
                Game.game_over g1 = Game.game_over g)
    by (unfold g1; by destruct (Game.is_first_move g)).
  destruct Hb1 as (Hb1 & Hn1 & Hm1 & Hf1 & Hr1 & Ho1).
  destruct (if Game.is_first_move g then Some (Game.starting_position g) else cell_position)
    as [c|] eqn:Ec.
  2: { exists 0%nat. intros fuel _. eexists _, _. split; [done|]. by intros c [=]. }
  specialize (Hc c eq_refl). destruct Hc as [Hc1 Hc2].
  rewrite <- Hn1 in Hc1, Hc2.
  destruct (contains_mine_in_grid g1 c (proj1 Hg1) Hc1 Hc2) as [b Hb]. rewrite Hb.
  destruct b.
  - exists 0%nat. intros fuel _. eexists _, _. split; [done|]. intros c' [= <-].
    assert (Hmine : c ∈ Game.mine_positions g) by (rewrite <- Hm1; by apply (proj2 Hg1)).
    rewrite decide_True by done.
    destruct (mark_cell_as_mine_spec c ai) as (_ & _ & _ & Mi & _).
    split_and!.
    + by destruct g1.
    + destruct g1. cbn. set_solver.
    + rewrite Mi. set_solver.
    + rewrite <- Hr1. by destruct g1.
  - assert (Hnm : c ∉ Game.mine_positions g).
    { rewrite <- Hm1. intros Hin. apply (proj2 Hg1) in Hin as [_ Hin]. congruence. }
    rewrite (count_adjacent_mines_value g1 c (proj1 Hg1) (proj2 Hg1)).
    rewrite Hn1, <- Hn, Hm1.
    destruct (add_knowledge_returns_wf hash (Game.mine_positions g) c ai
                (reachable_wf _ _ Hr) Ha Hnm) as [fuel0 Hfuel].
    exists fuel0. intros fuel Hf. destruct (Hfuel fuel Hf) as [ai1 Eadd]. rewrite Eadd.
    eexists _, _. split; [done|]. intros c' [= <-]. rewrite decide_False by done.
    destruct (add_knowledge_settles hash fuel c _ ai ai1 (reachable_wf _ _ Hr) Eadd)
      as (_ & _ & Hsafe & Hmoves & _).
    set (g2 := Game.set_revealed_positions _ g1).
    destruct (update_flagged_fold (elements (AI.identified_mines ai1)) g2) as [F1 F2].
    fold (Runner.update_flagged_positions_from_ai ai1 g2) in F1, F2.
    set (g3 := Runner.update_flagged_positions_from_ai ai1 g2) in *.
    pose proof (f_equal Game.game_over F2) as X1.
    pose proof (f_equal Game.revealed_positions F2) as X2.
    cbn in X1, X2. split_and!.
    + rewrite X1, <- Ho1. unfold g2. by destruct g1.
    + rewrite X2. unfold g2. destruct g1. cbn. set_solver.
    + rewrite Hmoves. set_solver.
    + done.
Qed.

(** On a board of the right shape, with a solver that agrees with its
    mines, [process_move] on a cell of the grid (the starting position on the
    first move) raises no [IndexError] and returns, given enough fuel for
    the loop of [add_knowledge].  On a mine the game is over, the cell is
    flagged and the solver records it as a mine, and nothing is revealed;
    on any other cell [game_over] is as before, the cell is revealed, and
    the solver records it as played and as safe. *)
Theorem process_move_returns (hash : KnowledgeStatement → Z) (cell_position : option Cell)
    (g : Game.MinesweeperGame) (ai : AI.MinesweeperAI) :
  game_ok g →
  AI.grid_size ai = Game.grid_size g →
  reachable hash ai →
  agrees (Game.mine_positions g) ai →
  (∀ c : Cell,
     (if Game.is_first_move g then Some (Game.starting_position g) else cell_position)
       = Some c →
     0 ≤ c.1 < Game.grid_size g ∧ 0 ≤ c.2 < Game.grid_size g) →
  ∃ fuel0 : nat, ∀ fuel, (fuel0 ≤ fuel)%nat →
    ∃ g' ai',
      Runner.process_move hash fuel cell_position (g, ai) = Runner.Returns (g', ai') ∧
      ∀ c : Cell,
        (if Game.is_first_move g then Some (Game.starting_position g) else cell_position)
          = Some c →
        if decide (c ∈ Game.mine_positions g)
        then Game.game_over g' = true ∧ c ∈ Game.flagged_mine_positions g' ∧
             c ∈ AI.identified_mines ai' ∧
             Game.revealed_positions g' = Game.revealed_positions g
        else Game.game_over g' = Game.game_over g ∧ c ∈ Game.revealed_positions g' ∧
             c ∈ AI.moves_made ai' ∧ c ∈ AI.identified_safe_cells ai'.
Proof. exact (process_move_total hash cell_position g ai). Qed.

Lemma process_move_returns_example :
  let g := Game.mk 2 1 true [[false; true]; [false; false]] {[ (0,1) ]} ∅ (1,0) ∅ false in
  let ai := (AI.init 2 "bfs" "First In, First Out").1 in
  ∃ fuel0 : nat, ∀ fuel, (fuel0 ≤ fuel)%nat →
    ∃ g' ai',
      Runner.process_move example_hash fuel None (g, ai) = Runner.Returns (g', ai') ∧
      ∀ c : Cell,
        (if Game.is_first_move g then Some (Game.starting_position g) else None) = Some c →
        if decide (c ∈ Game.mine_positions g)
        then Game.game_over g' = true ∧ c ∈ Game.flagged_mine_positions g' ∧
             c ∈ AI.identified_mines ai' ∧
             Game.revealed_positions g' = Game.revealed_positions g
        else Game.game_over g' = Game.game_over g ∧ c ∈ Game.revealed_positions g' ∧
             c ∈ AI.moves_made ai' ∧ c ∈ AI.identified_safe_cells ai'.
Proof.
  intros g ai.
  apply (process_move_returns example_hash None g ai).
  - split; [split; [reflexivity|repeat constructor]|].
    intros p. unfold g. cbn [Game.mine_positions Game.grid_size].
    rewrite elem_of_singleton. destruct p as [a b]. cbn [fst snd]. split.
    + intros [= -> ->]. split; [lia|reflexivity].
    + intros [[Ha Hb] Hm].
      assert (Hab : (a = 0 ∨ a = 1) ∧ (b = 0 ∨ b = 1)) by lia.
      destruct Hab as [[-> | ->] [-> | ->]]; try reflexivity; vm_compute in Hm; discriminate.
  - reflexivity.
  - apply reachable_init.
  - split_and!; [constructor|apply (bool_decide_unpack _); by vm_compute
                |apply (bool_decide_unpack _); by vm_compute].
  - intros c [= <-]. cbn. lia.
Defined.

(** *** minesweeper_runner.py: the AI's turn *)

Lemma elem_of_grid_cells (n : Z) (c : Cell) :
  c ∈ grid_cells n ↔ 0 ≤ c.1 < n ∧ 0 ≤ c.2 < n.
Proof. unfold grid_cells. by rewrite elem_of_list_to_set, elem_of_all_cells. Qed.

Lemma collect_kb_cells (ai : AI.MinesweeperAI) :
  (AI.collect (AI.objects ai) (AI.knowledge_base ai)).1 ⊆ kb_cells ai ∧
  (AI.collect (AI.objects ai) (AI.knowledge_base ai)).2 ⊆ kb_cells ai.
Proof.
  split; intros c Hc;
    destruct (collect_spec (AI.objects ai) (AI.knowledge_base ai) c) as [H1 H2].
  - apply H1 in Hc as (l & Hl & Hc). apply elem_of_kb_cells. exists l.
    split; [done|]. by apply known_safes_subseteq.
  - apply H2 in Hc as (l & Hl & Hc). apply elem_of_kb_cells. exists l.
    split; [done|]. by apply known_mines_subseteq.
Qed.

Lemma propagate_in_grid (hash : KnowledgeStatement → Z) (G : gset Cell) (cell : Cell)
    (count : Z) (fuel : nat) :
  ∀ (ai : AI.MinesweeperAI) (set : list AI.entry) (n : Z) ai' n',
  wf_ai ai → set_valid (AI.objects ai) set → set_inv hash ai set →
  target_inv ai cell count →
  AI.identified_safe_cells ai ⊆ G → kb_cells ai ⊆ G →
  AI.propagate hash fuel ai set n = Some (ai', n') →
  AI.identified_safe_cells ai' ⊆ G ∧ kb_cells ai' ⊆ G.
Proof.
  induction fuel as [|fuel IH]; intros ai set n ai' n' Hwf Hsv Hsi Hti Hs Hk; [done|].
  cbn [AI.propagate].
  destruct (mark_and_purge_inv hash ai set cell count Hwf Hsv Hsi Hti)
    as (W1 & V1 & I1 & T1 & _).
  destruct (mark_and_purge_spec hash ai) as (_ & _ & S1 & _).
  destruct (mark_and_purge_kb_cells hash ai (proj1 Hwf)) as (_ & _ & _ & K1 & _).
  destruct (collect_kb_cells ai) as [C1 _].
  destruct (AI.mark_and_purge hash ai) as [aip marked]. cbn [fst snd] in *.
  pose proof (call_sim (AI.search_algorithm_method aip) fuel (AI.stat_generator aip)
                (AI.objects aip) (AI.knowledge_base aip) (proj1 W1)) as Hsim.
  destruct (Search.call _ _ _ _ _) as [r|]; [|done].
  destruct Hsim as (vs & Hval & Hres).
  destruct (merge_inv hash aip set r _ vs _ fuel cell count W1 V1 I1 T1 Hres Hval)
    as (W2 & V2 & I2 & T2).
  assert (K2 : kb_cells (AI.merge hash aip set r).1.1 ⊆ kb_cells aip).
  { eapply merge_kb_cells; [apply W1|exact Hres|].
    eapply values_of_cells; [apply kb_cells_vals|exact Hval]. }
  destruct (merge_spec hash aip set r) as (_ & S2 & _).
  destruct (AI.merge hash aip set r) as [[aim setm] inferred]. cbn [fst snd] in *.
  assert (Hs' : AI.identified_safe_cells aim ⊆ G) by (rewrite S2, S1; set_solver).
  assert (Hk' : kb_cells aim ⊆ G) by set_solver.
  destruct (marked || inferred); [by eapply IH|]. by intros [= <- <-].
Qed.

Lemma neighbours_in_grid (n : Z) (cell : Cell) : AI.neighbours n cell ⊆ grid_cells n.
Proof.
  intros p Hp. apply elem_of_neighbours in Hp as (_ & _ & _ & H1 & H2).
  by apply elem_of_grid_cells.
Qed.

Lemma add_knowledge_in_grid (hash : KnowledgeStatement → Z) (fuel : nat) (cell : Cell)
    (count : Z) (ai ai' : AI.MinesweeperAI) :
  wf_ai ai → cell ∈ grid_cells (AI.grid_size ai) →
  AI.identified_safe_cells ai ⊆ grid_cells (AI.grid_size ai) →
  kb_cells ai ⊆ grid_cells (AI.grid_size ai) →
  AI.add_knowledge hash fuel cell count ai = Some ai' →
  AI.identified_safe_cells ai' ⊆ grid_cells (AI.grid_size ai') ∧
  kb_cells ai' ⊆ grid_cells (AI.grid_size ai').
Proof.
  intros Hwf Hc Hs Hk Hadd.
  destruct (add_knowledge_settles hash fuel cell count ai ai' Hwf Hadd)
    as (_ & _ & _ & _ & _ & _ & _ & G & _).
  rewrite G. unfold AI.add_knowledge in Hadd.
  destruct (observe_spec cell count ai Hwf) as (W & _ & _ & _ & _ & Sf & _ & _ & _ & _ & T).
  destruct (observe_kb_cells cell count ai Hwf) as (_ & Ksub & _).
  pose proof (neighbours_in_grid (AI.grid_size ai) cell) as Hn.
  set (a := AI.observe cell count ai) in *.
  destruct (initial_set hash a (proj1 W)) as (Sv & _ & Si & _).
  destruct (AI.propagate _ _ _ _ _) as [[a' n]|] eqn:Hp; [|done]. injection Hadd as <-.
  assert (Hs0 : AI.identified_safe_cells a ⊆ grid_cells (AI.grid_size ai)).
  { rewrite Sf. apply union_subseteq. split; [done|]. by apply singleton_subseteq_l. }
  assert (Hk0 : kb_cells a ⊆ grid_cells (AI.grid_size ai)).
  { etrans; [exact Ksub|]. apply union_subseteq. by split. }
  destruct (propagate_in_grid hash (grid_cells (AI.grid_size ai)) cell count fuel a _ 0 a' n
              W Sv Si T Hs0 Hk0 Hp) as [H1 H2].
  split; [by destruct a'|]. unfold kb_cells in *. by destruct a'.
Qed.

Lemma mark_cell_as_mine_kb_cells (c : Cell) (ai : AI.MinesweeperAI) :
  valid (AI.objects ai) (AI.knowledge_base ai) →
  kb_cells (AI.mark_cell_as_mine c ai) ⊆ kb_cells ai.
Proof.
  intros Hv. destruct (marks_mine_spec [c] ai) as (_ & Kb & _ & _ & _ & _ & _ & D).
  cbn [foldl] in *. intros x Hx. apply elem_of_kb_cells in Hx as (l & Hl & Hx).
  rewrite Kb in Hl. rewrite D, decide_True in Hx.
  2:{ split; [done|]. unfold valid in Hv. rewrite Forall_forall in Hv. by apply Hv. }
  unfold strip_mines in Hx. cbn [KS.cell_positions] in Hx.
  apply elem_of_kb_cells. exists l. set_solver.
Qed.

(** What [process_move] does to the solver, and that it leaves the starting
    position alone. *)
Lemma process_move_cases (hash : KnowledgeStatement → Z) (fuel : nat)
    (cell_position : option Cell) (g g' : Game.MinesweeperGame) (ai ai' : AI.MinesweeperAI) :
  Runner.process_move hash fuel cell_position (g, ai) = Runner.Returns (g', ai') →
  Game.starting_position g' = Game.starting_position g ∧
  Game.grid_size g' = Game.grid_size g ∧
  (ai' = ai ∨
   ∃ c, (if Game.is_first_move g then Some (Game.starting_position g) else cell_position)
          = Some c ∧
        (ai' = AI.mark_cell_as_mine c ai ∨
         ∃ count, AI.add_knowledge hash fuel c count ai = Some ai')).
Proof.
  unfold Runner.process_move.
  set (g0 := Game.set_is_first_move false g).
  assert (E : (if Game.is_first_move g
               then (Some (Game.starting_position g), g0) else (cell_position, g))
              = (if Game.is_first_move g then Some (Game.starting_position g)
                 else cell_position,
                 if Game.is_first_move g then g0 else g))
    by (by destruct (Game.is_first_move g)).
  rewrite E. clear E.
  set (g1 := if Game.is_first_move g then g0 else g).
  assert (H1 : Game.starting_position g1 = Game.starting_position g ∧
               Game.grid_size g1 = Game.grid_size g)
    by (unfold g1; by destruct (Game.is_first_move g)).
  destruct H1 as [H1 H1'].
  destruct (if Game.is_first_move g then Some (Game.starting_position g) else cell_position)
    as [c|] eqn:Ec.
  2: { intros [= <- <-]. split_and!; [done|done|by left]. }
  destruct (Game.contains_mine g1 c) as [[|]|]; [| |done].
  - intros [= <- <-]. split_and!; [by destruct g1|by destruct g1|].
    right. exists c. split; [done|by left].
  - destruct (Game.count_adjacent_mines g1 c) as [count|]; [|done].
    destruct (AI.add_knowledge hash fuel c count ai) as [ai1|] eqn:Eadd; [|done].
    intros [= <- <-].
    set (g2 := Game.set_revealed_positions _ g1).
    destruct (update_flagged_fold (elements (AI.identified_mines ai1)) g2) as [_ F2].
    fold (Runner.update_flagged_positions_from_ai ai1 g2) in F2.
    pose proof (f_equal Game.starting_position F2) as X1.
    pose proof (f_equal Game.grid_size F2) as X2. cbn in X1, X2.
    split_and!.
    + rewrite X1, <- H1. unfold g2. by destruct g1.
    + rewrite X2, <- H1'. unfold g2. by destruct g1.
    + right. exists c. split; [done|]. right. by exists count.
Qed.

Lemma process_move_in_play (hash : KnowledgeStatement → Z) (fuel : nat)
    (cell_position : option Cell) (g g' : Game.MinesweeperGame) (ai ai' : AI.MinesweeperAI) :
  in_play hash g ai →
  (∀ c, cell_position = Some c → c ∈ grid_cells (Game.grid_size g)) →
  Runner.process_move hash fuel cell_position (g, ai) = Runner.Returns (g', ai') →
  in_play hash g' ai'.
Proof.
  intros (Hg & Hn & Hr & Ha & Hf & Hst & Hs & Hk) Hc Hp.
  assert (Hmove : ∀ c : Cell,
     (if Game.is_first_move g then Some (Game.starting_position g) else cell_position)
       = Some c → c ∈ grid_cells (Game.grid_size g)).
  { intros c. destruct (Game.is_first_move g); [by intros [= <-]|apply Hc]. }
  destruct (process_move_keeps hash fuel cell_position g g' ai ai' Hg Hn Hr Ha Hf)
    as (Hg' & _ & _ & Hn' & Hr' & Ha' & Hf' & _); [|exact Hp|].
  { intros c Hmc. by apply elem_of_grid_cells, Hmove. }
  destruct (process_move_cases hash fuel cell_position g g' ai ai' Hp) as (St & Gs & Hcase).
  unfold in_play. split_and!; try done.
  - by rewrite St, Gs.
  - destruct Hcase as [->|(c & Hmc & [->|[count Hadd]])]; [done| |].
    + destruct (mark_cell_as_mine_spec c ai) as ((G & _) & _ & _ & _ & Sf & _).
      by rewrite Sf, G.
    + eapply add_knowledge_in_grid; [by apply reachable_wf in Hr| | | |exact Hadd];
        [rewrite Hn; by apply Hmove|done|done].
  - destruct Hcase as [->|(c & Hmc & [->|[count Hadd]])]; [done| |].
    + destruct (mark_cell_as_mine_spec c ai) as ((G & _) & _).
      rewrite G. etrans; [apply mark_cell_as_mine_kb_cells|done].
      by apply reachable_wf in Hr as [? _].
    + eapply add_knowledge_in_grid; [by apply reachable_wf in Hr| | | |exact Hadd];
        [rewrite Hn; by apply Hmove|done|done].
Qed.

Lemma make_safe_move_frame (r : nat) (ai : AI.MinesweeperAI) :
  let ai' := (AI.make_safe_move r ai).2 in
  AI.grid_size ai' = AI.grid_size ai ∧ AI.moves_made ai' = AI.moves_made ai ∧
  AI.identified_mines ai' = AI.identified_mines ai ∧
  AI.identified_safe_cells ai' = AI.identified_safe_cells ai ∧
  AI.knowledge_base ai' = AI.knowledge_base ai ∧ AI.objects ai' = AI.objects ai.
Proof.
  unfold AI.make_safe_move. destruct (AI.safe_cell_queue ai); [done|].
  by destruct (SafeCell.call _ _ _).
Qed.

Lemma make_safe_move_known (hash : KnowledgeStatement → Z) (r : nat) (ai : AI.MinesweeperAI)
    (c : Cell) :
  reachable hash ai → (AI.make_safe_move r ai).1 = Some c →
  c ∈ AI.identified_safe_cells ai.
Proof.
  intros Hr Hm. destruct (reachable_queue_ok hash ai Hr) as (_ & Hq & _).
  unfold AI.make_safe_move in Hm.
  destruct (AI.safe_cell_queue ai) as [|c0 q0] eqn:Eq; [done|].
  pose proof (call_pops (AI.safe_cell_selection_strategy ai) r (c0 :: q0)) as Hp.
  destruct (SafeCell.call _ _ _) as [[c'|] q']; cbn [fst snd] in *; [|done].
  injection Hm as ->. apply Hq. rewrite Hp. apply list_elem_of_here.
Qed.

(** The solver never loses on a move it takes for safe.  In a game in play,
    the AI's turn raises no error and returns, given enough fuel, and leaves
    a game in play.  When the solver had a safe move (and this is not the
    first move, which is forced to the starting position), the cell played
    is one the solver has identified as safe, it is no mine, the game is not
    over because of it, and the cell is revealed. *)
Theorem ai_turn_sound (hash : KnowledgeStatement → Z) (r : nat) (rand : nat → nat)
    (g : Game.MinesweeperGame) (ai : AI.MinesweeperAI) :
  in_play hash g ai →
  ∃ fuel0 : nat, ∀ fuel, (fuel0 ≤ fuel)%nat →
    ∃ g' ai' playing,
      Turn.ai_turn hash fuel r rand (g, ai) = Runner.Returns (g', ai', playing) ∧
      in_play hash g' ai' ∧
      ∀ c, (AI.make_safe_move r ai).1 = Some c → Game.is_first_move g = false →
           c ∈ AI.identified_safe_cells ai ∧ (c ∉ Game.mine_positions g) ∧
           Game.game_over g' = Game.game_over g ∧ c ∈ Game.revealed_positions g'.
Proof.
  intros (Hg & Hn & Hr & Ha & Hf & Hst & Hs & Hk). unfold Turn.ai_turn.
  pose proof (make_safe_move_known hash r ai) as Hknown.
  destruct (make_safe_move_frame r ai) as (G1 & _ & M1 & S1 & K1 & O1).
  pose proof (reachable_make_safe_move hash r ai Hr) as Hr1.
  destruct (AI.make_safe_move r ai) as [safe ai1]. cbn [fst snd] in *.
  assert (Hkb : kb_cells ai1 = kb_cells ai) by (unfold kb_cells; by rewrite K1, O1).
  assert (Ha1 : agrees (Game.mine_positions g) ai1).
  { destruct Ha as (A1 & A2 & A3). unfold agrees. by rewrite K1, O1, M1, S1. }
  assert (Hplay1 : in_play hash g ai1).
  { unfold in_play. rewrite G1, S1, Hkb. by split_and!. }
  set (selected := match safe with Some c => Some c | None => AI.make_random_move rand ai1 end).
  assert (Hsel : ∀ c, selected = Some c → c ∈ grid_cells (Game.grid_size g)).
  { intros c. unfold selected. destruct safe as [c'|].
    - intros [= <-]. rewrite <- Hn. apply Hs, (Hknown c' Hr eq_refl).
    - unfold AI.make_random_move. intros Hrm.
      pose proof (random_move_loop_spec rand ai1 _ 0 (AI.all_cells (AI.grid_size ai1)) eq_refl)
        as Hspec.
      rewrite Hrm in Hspec. destruct Hspec as [Hin _].
      rewrite <- Hn, <- G1. unfold grid_cells. by apply elem_of_list_to_set. }
  destruct selected as [c|] eqn:Esel.
  - destruct (process_move_total hash (Some c) g ai1 Hg) as [fuel0 Hfuel];
      [by rewrite G1|done|done| |].
    { intros c'. destruct (Game.is_first_move g).
      - intros [= <-]. by apply elem_of_grid_cells.
      - intros [= <-]. by apply elem_of_grid_cells, Hsel. }
    exists fuel0. intros fuel Hfu. destruct (Hfuel fuel Hfu) as (g' & ai' & Hp & Hres).
    rewrite Hp. exists g', ai', true. split; [done|]. split.
    + eapply process_move_in_play; [exact Hplay1| |exact Hp].
      intros c' [= <-]. by apply Hsel.
    + intros c' Hc' Hfirst. subst safe. unfold selected in Esel. injection Esel as ->.
      pose proof (Hknown c Hr eq_refl) as Hc.
      assert (Hnm : c ∉ Game.mine_positions g) by (destruct Ha as (_ & _ & A3); set_solver).
      rewrite Hfirst in Hres. specialize (Hres c eq_refl).
      rewrite decide_False in Hres by done. destruct Hres as (R1 & R2 & _).
      by split_and!.
  - exists 0%nat. intros fuel _. eexists _, _, _. split; [done|]. split.
    + destruct Hplay1 as (P1 & P2 & P3 & P4 & P5 & P6 & P7 & P8).
      unfold in_play.
      split_and!; [revert P1; by apply game_ok_frame|exact P2|exact P3|exact P4|
                   |exact P6|exact P7|exact P8].
      destruct P4 as (_ & P4 & _). exact P4.
    + intros c' Hc'. subst safe. done.
Qed.

Lemma ai_turn_sound_example :
  let g := Game.mk 2 1 false [[false; true]; [false; false]] {[ (0,1) ]} ∅ (1,0) ∅ false in
  let ai := AI.mark_cell_as_safe (1,0) (AI.init 2 "bfs" "First In, First Out").1 in
  ∃ fuel0 : nat, ∀ fuel, (fuel0 ≤ fuel)%nat →
    ∃ g' ai' playing,
      Turn.ai_turn example_hash fuel 0 (λ _, 0%nat) (g, ai)
        = Runner.Returns (g', ai', playing) ∧
      in_play example_hash g' ai' ∧
      ∀ c, (AI.make_safe_move 0 ai).1 = Some c → Game.is_first_move g = false →
           c ∈ AI.identified_safe_cells ai ∧ (c ∉ Game.mine_positions g) ∧
           Game.game_over g' = Game.game_over g ∧ c ∈ Game.revealed_positions g'.
Proof.
  intros g ai.
  apply (ai_turn_sound example_hash 0 (λ _, 0%nat) g ai).
  unfold in_play. split_and!.
  - split; [split; [reflexivity|repeat constructor]|].
    intros p. unfold g. cbn [Game.mine_positions Game.grid_size].
    rewrite elem_of_singleton. destruct p as [a b]. cbn [fst snd]. split.
    + intros [= -> ->]. split; [lia|reflexivity].
    + intros [[Ha Hb] Hm].
      assert (Hab : (a = 0 ∨ a = 1) ∧ (b = 0 ∨ b = 1)) by lia.
      destruct Hab as [[-> | ->] [-> | ->]]; try reflexivity; vm_compute in Hm; discriminate.
  - reflexivity.
  - apply reachable_mark_safe, reachable_init.
  - split_and!; [constructor|apply (bool_decide_unpack _); by vm_compute
                |apply (bool_decide_unpack _); by vm_compute].
  - apply (bool_decide_unpack _). by vm_compute.
  - apply (bool_decide_unpack _). by vm_compute.
  - apply (bool_decide_unpack _). by vm_compute.
  - apply (bool_decide_unpack _). by vm_compute.
Defined.

(** *** The empty inference within add_knowledge *)







